(** * The three-point correlation core of TreeCorr (Corr3.cpp)

    A shallow embedding of the tree recursion of [BaseCorr3] and [Corr3]
    (process3, process12, process111, process111Sorted, stop111, the commit
    and the accumulator operations), followed by the properties stated
    about it.

    Conventions of the model.
    - A C++ [double] is an exact rational ([Q]): rounding, infinities and
      NaN are outside the model.  Tests on doubles are the boolean tests of
      [Q]; equality of doubles in statements is [Qeq] ([==]).  A division
      by zero gives 0 in [Q]; on the paths of the source the divisors
      [d2] and [d3] are square roots of squared sides that are not zero.
    - [int] and [long] are [Z]: no overflow in the model.
    - [sqrt] and [log] of <cmath> are the two fields of a [Libm] record
      handed to the functions that call them.
    - The metric is the [metric] argument of the source ([DistSq], [CCW]).
    - [Assert] of dbg.h is checked in some builds and not in others (the
      source says of its assertions that they "aren't active in normal
      operations"): the functions take a boolean [chk] that tells which.
    - An accumulator object is designated by a handle ([Acc]) into a store;
      the six references a traversal carries may be the same object (they
      all are in the auto entry point).  A traversal reads only the
      [BaseCorr3] part of the objects, which it never writes, so it is
      modelled as the sequence of its observable steps, the early returns
      and the calls of directProcess111, in the order of the source; the
      arrays are then updated by replaying the calls in that order. *)

From Stdlib Require Import ZArith QArith Qround Qabs List Bool Lia Lqa.
Import ListNotations.

Open Scope Q_scope.

(** ** Doubles *)

Abbreviation double := Q (only parsing).

Definition SQR (x : double) : double := x * x.

Definition dlt (x y : double) : bool := negb (Qle_bool y x).
Definition dle (x y : double) : bool := Qle_bool x y.
Definition dgt (x y : double) : bool := dlt y x.
Definition dge (x y : double) : bool := dle y x.
Definition deq (x y : double) : bool := Qeq_bool x y.

Declare Scope dbl_scope.
Delimit Scope dbl_scope with dbl.
Infix "<?" := dlt (at level 70, no associativity) : dbl_scope.
Infix "<=?" := dle (at level 70, no associativity) : dbl_scope.
Infix ">?" := dgt (at level 70, no associativity) : dbl_scope.
Infix ">=?" := dge (at level 70, no associativity) : dbl_scope.
Infix "=?" := deq (at level 70, no associativity) : dbl_scope.
Open Scope dbl_scope.

(** [int(floor(x))]. *)
Definition ifloor (x : double) : Z := Qfloor x.

(** <cmath>. *)
Record Libm := mkLibm {
  m_sqrt : double -> double;
  m_log : double -> double
}.

(** ** Positions, metric, cells *)

(** Modelled from the spec: [Position<C>] (declared in a header that is not
    part of the sources at hand): a point of the plane or of space. *)
Record Position := mkPosition { px : double; py : double; pz : double }.

(** [MetricHelper<M,0>], of which the source calls [DistSq] and [CCW]
    only.  [DistSq] is handed two sizes; the three metrics the entry points
    accept are taken not to change them. *)
Record MetricHelper := mkMetric {
  DistSq : Position -> Position -> double -> double -> double;
  CCW : Position -> Position -> Position -> bool
}.

(** Modelled from the spec: the data of a cell: position, total weight,
    number of points, and the kernel payloads (weighted scalar for [KData],
    weighted complex shear for [GData]; a kernel reads only its own). *)
Record CellData := mkCellData {
  getPos : Position;
  getW : double;
  getN : Z;
  getWK : double;
  getWG : double * double
}.

(** Modelled from the spec: [BaseCell<C>], a tree node with its size and
    its two child pointers, either of which may be null. *)
#[local] Set Warnings "-register-all".
Inductive Cell : Type :=
| mkCell (data : CellData) (size : double) (left right : option Cell).

Definition getData (c : Cell) : CellData := let '(mkCell d _ _ _) := c in d.
Definition getSize (c : Cell) : double := let '(mkCell _ s _ _) := c in s.
Definition getLeft (c : Cell) : option Cell := let '(mkCell _ _ l _) := c in l.
Definition getRight (c : Cell) : option Cell := let '(mkCell _ _ _ r) := c in r.
Definition cellW (c : Cell) : double := getW (getData c).
Definition cellN (c : Cell) : Z := getN (getData c).
Definition cellPos (c : Cell) : Position := getPos (getData c).

Fixpoint height (c : Cell) : nat :=
  match c with
  | mkCell _ _ l r =>
      S (Nat.max (match l with Some x => height x | None => O end)
                 (match r with Some x => height x | None => O end))
  end.

(** ** BaseCorr3 *)

Inductive BinType := Log | Linear | TwoD.

Record BaseCorr3 := mkBase {
  _minsep : double; _maxsep : double; _nbins : Z; _binsize : double; _b : double;
  _minu : double; _maxu : double; _nubins : Z; _ubinsize : double; _bu : double;
  _minv : double; _maxv : double; _nvbins : Z; _vbinsize : double; _bv : double;
  _xp : double; _yp : double; _zp : double;
  _logminsep : double; _halfminsep : double; _halfmind3 : double;
  _minsepsq : double; _maxsepsq : double;
  _minusq : double; _maxusq : double;
  _minvsq : double; _maxvsq : double;
  _bsq : double; _busq : double; _bvsq : double; _sqrttwobv : double;
  _nvbins2 : Z; _nuv : Z; _ntot : Z;
  _coords : Z
}.

(** The constructor [BaseCorr3::BaseCorr3]. *)
Definition BaseCorr3_new (lm : Libm) (bin_type : BinType)
    (minsep maxsep : double) (nbins : Z) (binsize b : double)
    (minu maxu : double) (nubins : Z) (ubinsize bu : double)
    (minv maxv : double) (nvbins : Z) (vbinsize bv : double)
    (xp yp zp : double) : BaseCorr3 :=
  let nvbins2 := (nvbins * 2)%Z in
  let nuv := (nubins * nvbins2)%Z in
  {| _minsep := minsep; _maxsep := maxsep; _nbins := nbins; _binsize := binsize; _b := b;
     _minu := minu; _maxu := maxu; _nubins := nubins; _ubinsize := ubinsize; _bu := bu;
     _minv := minv; _maxv := maxv; _nvbins := nvbins; _vbinsize := vbinsize; _bv := bv;
     _xp := xp; _yp := yp; _zp := zp;
     _logminsep := m_log lm minsep;
     _halfminsep := (1#2) * minsep;
     _halfmind3 := (1#2) * minsep * minu;
     _minsepsq := minsep * minsep; _maxsepsq := maxsep * maxsep;
     _minusq := minu * minu; _maxusq := maxu * maxu;
     _minvsq := minv * minv; _maxvsq := maxv * maxv;
     _bsq := b * b; _busq := bu * bu; _bvsq := bv * bv;
     _sqrttwobv := m_sqrt lm (2 * bv);
     _nvbins2 := nvbins2; _nuv := nuv; _ntot := (nbins * nuv)%Z;
     _coords := (-1)%Z |}.

(** ** stop111

    The out-parameter [d2] is returned next to the verdict: it is
    [sqrt(d2sq)] once the first two tests have been passed and the caller's
    value before. *)
Definition stop111 (lm : Libm) (d1sq d2sq d3sq d2 s1 s2 s3 : double)
    (minsep minsepsq maxsep maxsepsq : double)
    (minu minusq maxu maxusq : double)
    (minv minvsq maxv maxvsq : double) : bool * double :=
  if (d2sq <? minsepsq) && (s1+s3 <? minsep) && (s1+s2 <? minsep) &&
     ((s1+s3 =? 0) || (d2sq <? SQR (minsep - s1 - s3))) &&
     ((s1+s2 =? 0) || (d3sq <? SQR (minsep - s1 - s2)))
  then (true, d2)
  else if (d2sq >=? maxsepsq) &&
     ((s1+s3 =? 0) || (d2sq >=? SQR (maxsep + s1 + s3))) &&
     ((s2+s3 =? 0) || (d1sq >=? SQR (maxsep + s2 + s3)))
  then (true, d2)
  else
    let d2 := m_sqrt lm d2sq in
    if (minu >? 0) && (d3sq <? minusq*d2sq) && (d2 >? s1+s3) &&
       (let temp := minu * (d2-s1-s3) in
        (temp >? s1+s2) && (d3sq <? SQR (temp - s1 - s2)) &&
        (let minusq_d1sq := minusq * d1sq in
         (d3sq <? minusq_d1sq) && (d1sq >? 2 * SQR (s2+s3)) &&
         (minusq_d1sq >? 2*d3sq + 2 * SQR (s1+s2 + minu * (s2+s3)))))
    then (true, d2)
    else if (maxu <? 1) && (d3sq >=? maxusq*d2sq) &&
       (d3sq >=? SQR (maxu * (d2+s1+s3) + s1 + s2)) &&
       ((d2sq >? SQR (s1+s3)) && (d1sq >? SQR (s2+s3)) &&
        ((s2 >? s3) || (d3sq <=? SQR (d2 - s3 + s2))) &&
        ((s1 >? s3) || (d1sq >=? 2*d3sq + 2 * SQR (s3 - s1))))
    then (true, d2)
    else
      let sums := s1+s2+s3 in
      if (maxv <? 1) && (d1sq >? SQR ((1+maxv)*d2 + sums + maxv * (s1+s2)))
      then (true, d2)
      else if (minv >? 0) && (d3sq >? SQR (s1+s2)) &&
         (minvsq*d3sq >? SQR ((d1sq-d2sq)/(2*d2) + sums + minv*(s1+s2)))
      then (true, d2)
      else if (s2 =? 0) && (s3 =? 0) && (d1sq =? 0) then (true, d2)
      else if (s1 =? 0) && (s3 =? 0) && (d2sq =? 0) then (true, d2)
      else if (s1 =? 0) && (s2 =? 0) && (d3sq =? 0) then (true, d2)
      else (false, d2).

(** ** The split decision of process111Sorted (lines 700-822)

    The C++ assigns [s1ps3], [d2split], [d3], [u], [s1ps2], [d1], [v] inside
    short-circuit conditions; each is written here with the condition under
    which the assignment is reached, and keeps its initial value otherwise. *)
Record Split := mkSplit {
  split : bool; split1 : bool; split2 : bool; split3 : bool;
  sp_d1 : double; sp_d3 : double; sp_u : double; sp_v : double
}.

Definition factor2 : double := 7#10.

(** [s1ps3] after the evaluation of the [split3] condition. *)
Definition s1ps3_of (b d2 s1 s3 : double) : double :=
  if (s3 >? 0) && negb (s3 >? d2 * b) then s1 + s3 else 0.

(** [d2split] after the evaluation of the [split3] condition. *)
Definition d2split_of (b d2 s1 s3 : double) : bool :=
  (s3 >? 0) && negb (s3 >? d2 * b) &&
  (s1ps3_of b d2 s1 s3 >? 0) && (s1ps3_of b d2 s1 s3 >? d2 * b).

Definition split3_of (b bu bv d2 d2sq d3sq s1 s3 : double) : bool :=
  (s3 >? 0) &&
  ((s3 >? d2 * b) ||
   ((s1 + s3 >? 0) && (s1 + s3 >? d2 * b) && (s3 >=? s1)) ||
   ((bu <? b) && (SQR s3 * d3sq >? SQR (bu * d2sq))) ||
   ((bv <? b) && (s3 >? d2 * bv))).

Definition decide_split (lm : Libm) (P : BaseCorr3)
    (d1sq d2sq d3sq d2 s1 s2 s3 : double) : Split :=
  let b := _b P in
  let s1ps3 := s1ps3_of b d2 s1 s3 in
  let d2split := d2split_of b d2 s1 s3 in
  let sp3 := split3_of b (_bu P) (_bv P) d2 d2sq d3sq s1 s3 in
  if sp3 then
    let temp := factor2 * SQR s3 * d3sq in
    mkSplit true (SQR s1 * d2sq >? temp) (SQR s2 * d2sq >? temp) true
            (-1) (-1) (-1) (-1)
  else if (s1 >? 0) || (s2 >? 0) then
    let sp1 := (s1 >? 0) &&
               (d2split || ((s3 =? 0) && (s3 >? d2 * b)) || (SQR s1 >? d3sq)) in
    let sp2 := (s2 >? 0) &&
               ((SQR s2 >? d3sq) ||
                ((s2 >? s3) && (d3sq >? SQR (d2 - s2 + s3))) ||
                ((s2 >? s1) && (d1sq <? SQR (d2 + s2 - s1)))) in
    if sp1 || sp2 then
      mkSplit true (sp1 || (s1 >=? s2)) (sp2 || (s2 >=? s1)) false
              (-1) (-1) (-1) (-1)
    else
      let d3 := m_sqrt lm d3sq in
      let u := d3 / d2 in
      let s1ps2 := s1 + s2 in
      if SQR (s1ps2 + s1ps3 * u) >? d2sq * _busq P then
        mkSplit true (sp1 || (s1 >=? s2)) (sp2 || (s2 >=? s1)) false
                (-1) d3 u (-1)
      else
        let d1 := m_sqrt lm d1sq in
        let v := (d1 - d2) / d3 in
        if SQR (s1ps2 * (1 + v)) >? d3sq * _bvsq P then
          mkSplit true (sp1 || (s1 >=? s2)) (sp2 || (s2 >=? s1)) false
                  d1 d3 u v
        else
          mkSplit false sp1 sp2 false d1 d3 u v
  else
    let d1 := m_sqrt lm d1sq in
    let d3 := m_sqrt lm d3sq in
    let u := d3 / d2 in
    let v := (d1 - d2) / d3 in
    mkSplit false false false false d1 d3 u v.

(** ** Outcomes, failures and the observable steps of a traversal *)

Definition Acc := nat.

Inductive Site :=
| In_process | In_process3 | In_process12 | In_process111Sorted | In_commit
| In_add.

(** [AssertFailed]: an [Assert] of dbg.h failed in a build where asserts are
    active.  [NullChild]: a null child pointer was dereferenced (asserts
    inactive).  [OutOfFuel]: the recursion bound of the model was reached. *)
Inductive Failure :=
| AssertFailed (s : Site)
| NullChild (s : Site)
| OutOfFuel.

Inductive Result (A : Type) : Type :=
| Ok (a : A)
| Fail (f : Failure).
Arguments Ok {A} a.
Arguments Fail {A} f.

(** The place of an early [return]. *)
Inductive Reason :=
| R_w1 | R_w2 | R_w3          (* a weight is zero *)
| R_halfminsep                (* process3: size < halfminsep *)
| R_size2_zero                (* process12: s2 == 0 *)
| R_halfmind3                 (* process12: s2 < halfmind3 *)
| R_minsep | R_maxsep | R_minu (* process12 separation and u tests *)
| R_stop111                   (* process111Sorted: stop111 said stop *)
| R_d2_range | R_u_range | R_v_range
| R_index.                    (* index outside [0, ntot) *)

Inductive Event :=
| Ret3 (r : Reason) (c1 : Cell)
| Ret12 (r : Reason) (self : Acc) (c1 c2 : Cell)
| Ret111 (r : Reason) (self : Acc) (c1 c2 c3 : Cell)
| Direct111 (self : Acc) (c1 c2 c3 : Cell)
            (d1 d2 d3 logr u v : double) (index : Z).

Definition Trace := list Event.

(** Sequencing of two traversal steps: the second runs after the first
    returned normally. *)
Definition seq_tr (r1 r2 : Result Trace) : Result Trace :=
  match r1 with
  | Ok t1 => match r2 with Ok t2 => Ok (t1 ++ t2) | Fail f => Fail f end
  | Fail f => Fail f
  end.
Infix ";;" := seq_tr (at level 61, right associativity).

(** Modelled from the spec: [Assert(cond)] of dbg.h, checked only when
    assertions are active. *)
Definition Assert {A} (chk : bool) (s : Site) (cond : bool) (k : Result A)
  : Result A :=
  if chk && negb cond then Fail (AssertFailed s) else k.

(** [Assert(c.getLeft())] followed by [*c.getLeft()]. *)
Definition deref {A} (chk : bool) (s : Site) (o : option Cell)
    (k : Cell -> Result A) : Result A :=
  match o with
  | Some c => k c
  | None => Fail (if chk then AssertFailed s else NullChild s)
  end.

(** The six sibling accumulators a traversal carries: [a123] is [*this],
    the others are the reference arguments bc132 ... bc321. *)
Record Sibs := mkSibs {
  a123 : Acc; a132 : Acc; a213 : Acc; a231 : Acc; a312 : Acc; a321 : Acc
}.

(** ** process111: the dispatch on the order of the sides *)

Record Sorted := mkSorted {
  so_sibs : Sibs;
  so_c1 : Cell; so_c2 : Cell; so_c3 : Cell;
  so_d1sq : double; so_d2sq : double; so_d3sq : double
}.

(** The distances [process111] works with: an argument equal to 0 means
    "not known yet" and is computed from the metric. *)
Definition dists111 (metric : MetricHelper) (c1 c2 c3 : Cell)
    (d1sq d2sq d3sq : double) : double * double * double :=
  let s := 0 in
  let d1sq := if d1sq =? 0 then DistSq metric (cellPos c2) (cellPos c3) s s else d1sq in
  let d2sq := if d2sq =? 0 then DistSq metric (cellPos c1) (cellPos c3) s s else d2sq in
  let d3sq := if d3sq =? 0 then DistSq metric (cellPos c1) (cellPos c2) s s else d3sq in
  (d1sq, d2sq, d3sq).

(** Lines 637-672: which accumulator runs process111Sorted, with which
    arguments. *)
Definition sort111 (A : Sibs) (c1 c2 c3 : Cell) (d1sq d2sq d3sq : double)
  : Sorted :=
  let bc123 := a123 A in let bc132 := a132 A in let bc213 := a213 A in
  let bc231 := a231 A in let bc312 := a312 A in let bc321 := a321 A in
  if d1sq >? d2sq then
    if d2sq >? d3sq then
      mkSorted (mkSibs bc123 bc132 bc213 bc231 bc312 bc321)
               c1 c2 c3 d1sq d2sq d3sq
    else if d1sq >? d3sq then
      mkSorted (mkSibs bc132 bc123 bc312 bc321 bc213 bc231)
               c1 c3 c2 d1sq d3sq d2sq
    else
      mkSorted (mkSibs bc312 bc321 bc132 bc123 bc231 bc213)
               c3 c1 c2 d3sq d1sq d2sq
  else
    if d1sq >? d3sq then
      mkSorted (mkSibs bc213 bc231 bc123 bc132 bc321 bc312)
               c2 c1 c3 d2sq d1sq d3sq
    else if d2sq >? d3sq then
      mkSorted (mkSibs bc231 bc213 bc321 bc312 bc123 bc132)
               c2 c3 c1 d2sq d3sq d1sq
    else
      mkSorted (mkSibs bc321 bc312 bc231 bc213 bc132 bc123)
               c3 c2 c1 d3sq d2sq d1sq.

(** ** process111Sorted: the commit (lines 930-1011) *)

Record Bins := mkBins { b_kr : Z; b_ku : Z; b_kv : Z; b_v : double; b_index : Z }.

(** [kr], [ku] and the unsigned [kv] with their rounding guards
    (lines 959-983). *)
Definition bin_kr (P : BaseCorr3) (logr : double) : Z :=
  let kr := ifloor ((logr - _logminsep P) / _binsize P) in
  if (kr =? _nbins P)%Z then (kr - 1)%Z else kr.

Definition bin_ku (P : BaseCorr3) (u : double) : Z :=
  let ku := ifloor ((u - _minu P) / _ubinsize P) in
  if (ku >=? _nubins P)%Z then (ku - 1)%Z else ku.

Definition bin_kv (P : BaseCorr3) (v : double) : Z :=
  let kv := ifloor ((v - _minv P) / _vbinsize P) in
  if (kv >=? _nvbins P)%Z then (kv - 1)%Z else kv.

(** The bin numbers, the signed [v] and the flat index (lines 954-1002). *)
Definition binning (P : BaseCorr3) (ccw : bool)
    (logr u v : double) : Bins :=
  let kr := bin_kr P logr in
  let ku := bin_ku P u in
  let kv := bin_kv P v in
  let v := if negb ccw then - v else v in
  let kv := if negb ccw then (_nvbins P - kv - 1)%Z else (kv + _nvbins P)%Z in
  mkBins kr ku kv v (kr * _nuv P + ku * _nvbins2 P + kv)%Z.

(** The conditions of the [Assert]s of lines 960-1004, in one conjunction. *)
Definition binning_asserts (P : BaseCorr3) (ccw : bool)
    (logr u v : double) : bool :=
  let kr0 := ifloor ((logr - _logminsep P) / _binsize P) in
  let ku0 := ifloor ((u - _minu P) / _ubinsize P) in
  let kv0 := ifloor ((v - _minv P) / _vbinsize P) in
  let B := binning P ccw logr u v in
  ((kr0 >=? 0) && (kr0 <=? _nbins P) && (b_kr B <? _nbins P) &&
   (negb (ku0 >=? _nubins P) || (ku0 =? _nubins P)) &&
   (b_ku B >=? 0) && (b_ku B <? _nubins P) &&
   (negb (kv0 >=? _nvbins P) || (kv0 =? _nvbins P)) &&
   (bin_kv P v >=? 0) && (bin_kv P v <? _nvbins P) &&
   (b_kv B >=? 0) && (b_kv B <? _nvbins2 P) &&
   (b_index B >=? 0) && (b_index B <? _ntot P))%Z.

Definition commit111 (chk : bool) (lm : Libm) (metric : MetricHelper)
    (P : BaseCorr3) (self : Acc) (c1 c2 c3 : Cell)
    (d1 d2 d3 u v : double) : Result Trace :=
  Assert chk In_commit ((d1 >? 0) && (d3 >? 0) && (u >? 0) && (v >=? 0))
  (if (d2 <? _minsep P) || (d2 >=? _maxsep P) then
     Ok [Ret111 R_d2_range self c1 c2 c3]
   else if (u <? _minu P) || (u >=? _maxu P) then
     Ok [Ret111 R_u_range self c1 c2 c3]
   else if (v <? _minv P) || (v >=? _maxv P) then
     Ok [Ret111 R_v_range self c1 c2 c3]
   else
     let logr := m_log lm d2 in
     let ccw := CCW metric (cellPos c1) (cellPos c2) (cellPos c3) in
     let B := binning P ccw logr u v in
     Assert chk In_commit (binning_asserts P ccw logr u v)
     (if (b_index B <? 0)%Z || (b_index B >=? _ntot P)%Z then
        Ok [Ret111 R_index self c1 c2 c3]
      else
        Ok [Direct111 self c1 c2 c3 d1 d2 d3 logr u (b_v B) (b_index B)])).

(** ** process111Sorted and process111 *)

(** The type of [process111], as seen from process111Sorted: the sibling
    accumulators ([*this] first), the three cells and the known squared sides
    (0 for the defaulted ones). *)
Definition Proc111 :=
  Sibs -> Cell -> Cell -> Cell -> double -> double -> double -> Result Trace.

(** Lines 824-929: the recursion on the children of the split cells. *)
Definition split_calls (chk : bool) (rec : Proc111) (A : Sibs)
    (c1 c2 c3 : Cell) (d1sq d2sq d3sq : double) (sp : Split) : Result Trace :=
  let L := deref chk In_process111Sorted in
  if split3 sp then
    if split2 sp then
      if split1 sp then
        L (getLeft c1) (fun c1l => L (getRight c1) (fun c1r =>
        L (getLeft c2) (fun c2l => L (getRight c2) (fun c2r =>
        L (getLeft c3) (fun c3l => L (getRight c3) (fun c3r =>
          rec A c1l c2l c3l 0 0 0 ;;
          rec A c1l c2l c3r 0 0 0 ;;
          rec A c1l c2r c3l 0 0 0 ;;
          rec A c1l c2r c3r 0 0 0 ;;
          rec A c1r c2l c3l 0 0 0 ;;
          rec A c1r c2l c3r 0 0 0 ;;
          rec A c1r c2r c3l 0 0 0 ;;
          rec A c1r c2r c3r 0 0 0))))))
      else
        L (getLeft c2) (fun c2l => L (getRight c2) (fun c2r =>
        L (getLeft c3) (fun c3l => L (getRight c3) (fun c3r =>
          rec A c1 c2l c3l 0 0 0 ;;
          rec A c1 c2l c3r 0 0 0 ;;
          rec A c1 c2r c3l 0 0 0 ;;
          rec A c1 c2r c3r 0 0 0))))
    else
      if split1 sp then
        L (getLeft c1) (fun c1l => L (getRight c1) (fun c1r =>
        L (getLeft c3) (fun c3l => L (getRight c3) (fun c3r =>
          rec A c1l c2 c3l 0 0 0 ;;
          rec A c1l c2 c3r 0 0 0 ;;
          rec A c1r c2 c3l 0 0 0 ;;
          rec A c1r c2 c3r 0 0 0))))
      else
        L (getLeft c3) (fun c3l => L (getRight c3) (fun c3r =>
          rec A c1 c2 c3l 0 0 d3sq ;;
          rec A c1 c2 c3r 0 0 d3sq))
  else
    if split2 sp then
      if split1 sp then
        L (getLeft c1) (fun c1l => L (getRight c1) (fun c1r =>
        L (getLeft c2) (fun c2l => L (getRight c2) (fun c2r =>
          rec A c1l c2l c3 0 0 0 ;;
          rec A c1l c2r c3 0 0 0 ;;
          rec A c1r c2l c3 0 0 0 ;;
          rec A c1r c2r c3 0 0 0))))
      else
        L (getLeft c2) (fun c2l => L (getRight c2) (fun c2r =>
          rec A c1 c2l c3 0 d2sq 0 ;;
          rec A c1 c2r c3 0 d2sq 0))
    else
      L (getLeft c1) (fun c1l => L (getRight c1) (fun c1r =>
        rec A c1l c2 c3 d1sq 0 0 ;;
        rec A c1r c2 c3 d1sq 0 0)).

Definition call_stop111 (lm : Libm) (P : BaseCorr3)
    (d1sq d2sq d3sq s1 s2 s3 : double) : bool * double :=
  stop111 lm d1sq d2sq d3sq 0 s1 s2 s3
          (_minsep P) (_minsepsq P) (_maxsep P) (_maxsepsq P)
          (_minu P) (_minusq P) (_maxu P) (_maxusq P)
          (_minv P) (_minvsq P) (_maxv P) (_maxvsq P).

(** [process111Sorted], run by the accumulator [a123 A] (whose parameters
    are [params (a123 A)]), with [rec] for the calls of [process111]. *)
Definition process111Sorted (chk : bool) (lm : Libm) (metric : MetricHelper)
    (params : Acc -> BaseCorr3) (rec : Proc111) (A : Sibs)
    (c1 c2 c3 : Cell) (d1sq d2sq d3sq : double) : Result Trace :=
  let P := params (a123 A) in
  let s1 := getSize c1 in
  let s2 := getSize c2 in
  let s3 := getSize c3 in
  Assert chk In_process111Sorted ((d1sq >=? d2sq) && (d2sq >=? d3sq))
  (let '(stop, d2) := call_stop111 lm P d1sq d2sq d3sq s1 s2 s3 in
   if stop then Ok [Ret111 R_stop111 (a123 A) c1 c2 c3]
   else
     let sp := decide_split lm P d1sq d2sq d3sq d2 s1 s2 s3 in
     if split sp then
       Assert chk In_process111Sorted
         ((negb (split1 sp) || (s1 >? 0)) &&
          (negb (split2 sp) || (s2 >? 0)) &&
          (negb (split3 sp) || (s3 >? 0)))
         (split_calls chk rec A c1 c2 c3 d1sq d2sq d3sq sp)
     else
       commit111 chk lm metric P (a123 A) c1 c2 c3
                 (sp_d1 sp) d2 (sp_d3 sp) (sp_u sp) (sp_v sp)).

(** [process111] with a bound [fuel] on the nesting of its calls. *)
Fixpoint process111_fuel (fuel : nat) (chk : bool) (lm : Libm)
    (metric : MetricHelper) (params : Acc -> BaseCorr3) (A : Sibs)
    (c1 c2 c3 : Cell) (d1sq d2sq d3sq : double) {struct fuel} : Result Trace :=
  match fuel with
  | O => Fail OutOfFuel
  | S fuel' =>
      if cellW c1 =? 0 then Ok [Ret111 R_w1 (a123 A) c1 c2 c3]
      else if cellW c2 =? 0 then Ok [Ret111 R_w2 (a123 A) c1 c2 c3]
      else if cellW c3 =? 0 then Ok [Ret111 R_w3 (a123 A) c1 c2 c3]
      else
        let '(d1sq, d2sq, d3sq) := dists111 metric c1 c2 c3 d1sq d2sq d3sq in
        let so := sort111 A c1 c2 c3 d1sq d2sq d3sq in
        process111Sorted chk lm metric params
          (process111_fuel fuel' chk lm metric params)
          (so_sibs so) (so_c1 so) (so_c2 so) (so_c3 so)
          (so_d1sq so) (so_d2sq so) (so_d3sq so)
  end.

(** The bound that is always enough (lemma [process111_no_oof]): every
    nested call has replaced a cell by one of its children. *)
Definition fuel111 (c1 c2 c3 : Cell) : nat :=
  S (height c1 + height c2 + height c3).

Definition process111 (chk : bool) (lm : Libm) (metric : MetricHelper)
    (params : Acc -> BaseCorr3) (A : Sibs) (c1 c2 c3 : Cell)
    (d1sq d2sq d3sq : double) : Result Trace :=
  process111_fuel (fuel111 c1 c2 c3) chk lm metric params A c1 c2 c3
                  d1sq d2sq d3sq.

(** ** process12 and process3 *)

Fixpoint process12 (chk : bool) (lm : Libm) (metric : MetricHelper)
    (params : Acc -> BaseCorr3) (self bc212 bc221 : Acc)
    (c1 c2 : Cell) {struct c2} : Result Trace :=
  let P := params self in
  if cellW c1 =? 0 then Ok [Ret12 R_w1 self c1 c2]
  else if cellW c2 =? 0 then Ok [Ret12 R_w2 self c1 c2]
  else
    let s2 := getSize c2 in
    if s2 =? 0 then Ok [Ret12 R_size2_zero self c1 c2]
    else if s2 <? _halfmind3 P then Ok [Ret12 R_halfmind3 self c1 c2]
    else
      let s1 := getSize c1 in
      let dsq := DistSq metric (cellPos c1) (cellPos c2) s1 s2 in
      let s1ps2 := s1 + s2 in
      if (dsq <? _minsepsq P) && (s1ps2 <? _minsep P) &&
         (dsq <? SQR (_minsep P - s1ps2))
      then Ok [Ret12 R_minsep self c1 c2]
      else if (dsq >=? _maxsepsq P) && (dsq >=? SQR (_maxsep P + s1ps2))
      then Ok [Ret12 R_maxsep self c1 c2]
      else if (dsq >? SQR (s1 + s2)) &&
              (_minusq P * dsq >? SQR (2 * s2 + _minu P * (s1 + s2)))
      then Ok [Ret12 R_minu self c1 c2]
      else
        match c2 with
        | mkCell _ _ (Some l) (Some r) =>
            process12 chk lm metric params self bc212 bc221 c1 l ;;
            process12 chk lm metric params self bc212 bc221 c1 r ;;
            process111 chk lm metric params
                       (mkSibs self self bc212 bc221 bc212 bc221)
                       c1 l r 0 0 0
        | _ => Fail (if chk then AssertFailed In_process12
                     else NullChild In_process12)
        end.

Fixpoint process3 (chk : bool) (lm : Libm) (metric : MetricHelper)
    (params : Acc -> BaseCorr3) (self : Acc) (c1 : Cell) {struct c1}
  : Result Trace :=
  let P := params self in
  if cellW c1 =? 0 then Ok [Ret3 R_w1 c1]
  else if getSize c1 <? _halfminsep P then Ok [Ret3 R_halfminsep c1]
  else
    match c1 with
    | mkCell _ _ (Some l) (Some r) =>
        process3 chk lm metric params self l ;;
        process3 chk lm metric params self r ;;
        process12 chk lm metric params self self self l r ;;
        process12 chk lm metric params self self self r l
    | _ => Fail (if chk then AssertFailed In_process3
                 else NullChild In_process3)
    end.

(** ** The accumulators: Corr3 *)

(** An array of doubles behind a [double*]. *)
Definition array := list double.

(** [a[i] += x].  Outside the array the model leaves it unchanged (the
    source would write out of bounds). *)
Fixpoint add_at (i : nat) (x : double) (a : array) : array :=
  match a, i with
  | [], _ => []
  | y :: a', O => (y + x) :: a'
  | y :: a', S i' => y :: add_at i' x a'
  end.

(** [a[i] = x]. *)
Fixpoint set_at (i : nat) (x : double) (a : array) : array :=
  match a, i with
  | [], _ => []
  | _ :: a', O => x :: a'
  | y :: a', S i' => y :: set_at i' x a'
  end.

(** [for (int i=0; i<n; ++i) a[i] += b[i];] *)
Definition add_loop (n : Z) (a b : array) : array :=
  fold_left (fun a i => add_at i (nth i b 0) a) (seq 0 (Z.to_nat n)) a.

(** [for (int i=0; i<n; ++i) a[i] = b[i];] *)
Definition copy_loop (n : Z) (a b : array) : array :=
  fold_left (fun a i => set_at i (nth i b 0) a) (seq 0 (Z.to_nat n)) a.

(** [for (int i=0; i<n; ++i) a[i] = 0.;] *)
Definition zero_loop (n : Z) (a : array) : array :=
  fold_left (fun a i => set_at i 0 a) (seq 0 (Z.to_nat n)) a.

(** Modelled from the spec: [ZetaData] (declared in Corr3.h, which is not
    part of the sources at hand).  The count kernel has no payload, the
    scalar kernel one array [zeta], the spin-2 kernel the eight arrays
    gam0r ... gam3i; [add], [copy] and [clear] work element by element on the
    first [n] entries of every array. *)
Inductive ZetaData :=
| ZetaN
| ZetaK (zeta : array)
| ZetaG (gam0r gam0i gam1r gam1i gam2r gam2i gam3r gam3i : array).

Definition zeta_map2 (f : array -> array -> array) (z rhs : ZetaData)
  : ZetaData :=
  match z, rhs with
  | ZetaK a, ZetaK b => ZetaK (f a b)
  | ZetaG a0 a1 a2 a3 a4 a5 a6 a7, ZetaG b0 b1 b2 b3 b4 b5 b6 b7 =>
      ZetaG (f a0 b0) (f a1 b1) (f a2 b2) (f a3 b3)
            (f a4 b4) (f a5 b5) (f a6 b6) (f a7 b7)
  | _, _ => z
  end.

Definition zeta_add (n : Z) := zeta_map2 (add_loop n).
Definition zeta_copy (n : Z) := zeta_map2 (copy_loop n).
Definition zeta_clear (n : Z) (z : ZetaData) : ZetaData :=
  match z with
  | ZetaN => ZetaN
  | ZetaK a => ZetaK (zero_loop n a)
  | ZetaG a0 a1 a2 a3 a4 a5 a6 a7 =>
      ZetaG (zero_loop n a0) (zero_loop n a1) (zero_loop n a2) (zero_loop n a3)
            (zero_loop n a4) (zero_loop n a5) (zero_loop n a6) (zero_loop n a7)
  end.

Record Corr3 := mkCorr3 {
  base : BaseCorr3;
  _owns_data : bool;
  _zeta : ZetaData;
  _meand1 : array; _meanlogd1 : array;
  _meand2 : array; _meanlogd2 : array;
  _meand3 : array; _meanlogd3 : array;
  _meanu : array; _meanv : array;
  _weight : array; _ntri : array
}.

Definition set_coords (C : Z) (P : BaseCorr3) : BaseCorr3 :=
  mkBase (_minsep P) (_maxsep P) (_nbins P) (_binsize P) (_b P)
         (_minu P) (_maxu P) (_nubins P) (_ubinsize P) (_bu P)
         (_minv P) (_maxv P) (_nvbins P) (_vbinsize P) (_bv P)
         (_xp P) (_yp P) (_zp P)
         (_logminsep P) (_halfminsep P) (_halfmind3 P)
         (_minsepsq P) (_maxsepsq P) (_minusq P) (_maxusq P)
         (_minvsq P) (_maxvsq P) (_bsq P) (_busq P) (_bvsq P) (_sqrttwobv P)
         (_nvbins2 P) (_nuv P) (_ntot P) C.

(** [Corr3::clear]. *)
Definition clear (X : Corr3) : Corr3 :=
  let n := _ntot (base X) in
  mkCorr3 (set_coords (-1) (base X)) (_owns_data X)
          (zeta_clear n (_zeta X))
          (zero_loop n (_meand1 X)) (zero_loop n (_meanlogd1 X))
          (zero_loop n (_meand2 X)) (zero_loop n (_meanlogd2 X))
          (zero_loop n (_meand3 X)) (zero_loop n (_meanlogd3 X))
          (zero_loop n (_meanu X)) (zero_loop n (_meanv X))
          (zero_loop n (_weight X)) (zero_loop n (_ntri X)).

(** The body of [Corr3::operator+=] after its assertion. *)
Definition add_arrays (X rhs : Corr3) : Corr3 :=
  let n := _ntot (base X) in
  mkCorr3 (base X) (_owns_data X)
          (zeta_add n (_zeta X) (_zeta rhs))
          (add_loop n (_meand1 X) (_meand1 rhs))
          (add_loop n (_meanlogd1 X) (_meanlogd1 rhs))
          (add_loop n (_meand2 X) (_meand2 rhs))
          (add_loop n (_meanlogd2 X) (_meanlogd2 rhs))
          (add_loop n (_meand3 X) (_meand3 rhs))
          (add_loop n (_meanlogd3 X) (_meanlogd3 rhs))
          (add_loop n (_meanu X) (_meanu rhs))
          (add_loop n (_meanv X) (_meanv rhs))
          (add_loop n (_weight X) (_weight rhs))
          (add_loop n (_ntri X) (_ntri rhs)).

(** The body of [Corr3::operator=] after its assertion. *)
Definition copy_arrays (X rhs : Corr3) : Corr3 :=
  let n := _ntot (base X) in
  mkCorr3 (base X) (_owns_data X)
          (zeta_copy n (_zeta X) (_zeta rhs))
          (copy_loop n (_meand1 X) (_meand1 rhs))
          (copy_loop n (_meanlogd1 X) (_meanlogd1 rhs))
          (copy_loop n (_meand2 X) (_meand2 rhs))
          (copy_loop n (_meanlogd2 X) (_meanlogd2 rhs))
          (copy_loop n (_meand3 X) (_meand3 rhs))
          (copy_loop n (_meanlogd3 X) (_meanlogd3 rhs))
          (copy_loop n (_meanu X) (_meanu rhs))
          (copy_loop n (_meanv X) (_meanv rhs))
          (copy_loop n (_weight X) (_weight rhs))
          (copy_loop n (_ntri X) (_ntri rhs)).

(** *** The store of accumulator objects *)

Definition Store := list Corr3.

Definition no_base : BaseCorr3 :=
  mkBase 0 0 0 0 0 0 0 0 0 0 0 0 0 0 0 0 0 0 0 0 0 0 0 0 0 0 0 0 0 0 0
         0%Z 0%Z 0%Z (-1)%Z.

Definition no_corr : Corr3 :=
  mkCorr3 no_base false ZetaN [] [] [] [] [] [] [] [] [] [].

Definition get (st : Store) (a : Acc) : Corr3 := nth a st no_corr.

Fixpoint update (a : Acc) (f : Corr3 -> Corr3) (st : Store) : Store :=
  match st, a with
  | [], _ => []
  | X :: st', O => f X :: st'
  | X :: st', S a' => X :: update a' f st'
  end.

Definition params_of (st : Store) : Acc -> BaseCorr3 :=
  fun a => base (get st a).

(** [a += rhs] on two objects of the store, which may be the same one. *)
Definition op_add_assign (chk : bool) (a rhs : Acc) (st : Store)
  : Result Store :=
  Assert chk In_add (_ntot (base (get st rhs)) =? _ntot (base (get st a)))%Z
         (Ok (update a (fun X => add_arrays X (get st rhs)) st)).

(** [a = rhs]. *)
Definition op_assign (chk : bool) (a rhs : Acc) (st : Store) : Result Store :=
  Assert chk In_add (_ntot (base (get st rhs)) =? _ntot (base (get st a)))%Z
         (Ok (update a (fun X => copy_arrays X (get st rhs)) st)).

(** ** The kernels: DirectHelper::ProcessZeta *)

Definition Cplx := (double * double)%type.

(** [ProjectHelper<C>::Project] (ProjectHelper.h): it rewrites the three
    shears in place. *)
Definition Projection :=
  Cell -> Cell -> Cell -> Cplx -> Cplx -> Cplx -> Cplx * Cplx * Cplx.

Record Gam := mkGam {
  d_gam0r : double; d_gam0i : double; d_gam1r : double; d_gam1i : double;
  d_gam2r : double; d_gam2i : double; d_gam3r : double; d_gam3i : double
}.

(** The twelve multiplications of the GGG kernel (lines 1066-1092): the
    eight amounts added to gam0r ... gam3i. *)
Definition ggg_increments (g1 g2 g3 : Cplx) : Gam :=
  let g1rg2r := fst g1 * fst g2 in
  let g1rg2i := fst g1 * snd g2 in
  let g1ig2r := snd g1 * fst g2 in
  let g1ig2i := snd g1 * snd g2 in
  let g1g2r := g1rg2r - g1ig2i in
  let g1g2i := g1rg2i + g1ig2r in
  let g1cg2r := g1rg2r + g1ig2i in
  let g1cg2i := g1rg2i - g1ig2r in
  let g1g2rg3r := g1g2r * fst g3 in
  let g1g2rg3i := g1g2r * snd g3 in
  let g1g2ig3r := g1g2i * fst g3 in
  let g1g2ig3i := g1g2i * snd g3 in
  let g1cg2rg3r := g1cg2r * fst g3 in
  let g1cg2rg3i := g1cg2r * snd g3 in
  let g1cg2ig3r := g1cg2i * fst g3 in
  let g1cg2ig3i := g1cg2i * snd g3 in
  mkGam (g1g2rg3r - g1g2ig3i) (g1g2rg3i + g1g2ig3r)
        (g1cg2rg3r - g1cg2ig3i) (g1cg2rg3i + g1cg2ig3r)
        (g1cg2rg3r + g1cg2ig3i) (g1cg2rg3i - g1cg2ig3r)
        (g1g2rg3r + g1g2ig3i) (- g1g2rg3i + g1g2ig3r).

Definition ProcessZeta (project : Projection) (c1 c2 c3 : Cell)
    (d1 d2 d3 : double) (zeta : ZetaData) (index : nat) : ZetaData :=
  match zeta with
  | ZetaN => ZetaN
  | ZetaK z =>
      ZetaK (add_at index
               (getWK (getData c1) * getWK (getData c2) * getWK (getData c3)) z)
  | ZetaG z0 z1 z2 z3 z4 z5 z6 z7 =>
      let '(g1, g2, g3) :=
        project c1 c2 c3 (getWG (getData c1)) (getWG (getData c2))
                (getWG (getData c3)) in
      let g := ggg_increments g1 g2 g3 in
      ZetaG (add_at index (d_gam0r g) z0) (add_at index (d_gam0i g) z1)
            (add_at index (d_gam1r g) z2) (add_at index (d_gam1i g) z3)
            (add_at index (d_gam2r g) z4) (add_at index (d_gam2i g) z5)
            (add_at index (d_gam3r g) z6) (add_at index (d_gam3i g) z7)
  end.

(** ** finishProcess / directProcess111 *)

Definition finishProcess (lm : Libm) (project : Projection) (X : Corr3)
    (c1 c2 c3 : Cell) (d1 d2 d3 logr u v : double) (index : Z) : Corr3 :=
  let i := Z.to_nat index in
  let nnn := inject_Z (cellN c1) * inject_Z (cellN c2) * inject_Z (cellN c3) in
  let www := cellW c1 * cellW c2 * cellW c3 in
  mkCorr3 (base X) (_owns_data X)
          (ProcessZeta project c1 c2 c3 d1 d2 d3 (_zeta X) i)
          (add_at i (www * d1) (_meand1 X))
          (add_at i (www * m_log lm d1) (_meanlogd1 X))
          (add_at i (www * d2) (_meand2 X))
          (add_at i (www * logr) (_meanlogd2 X))
          (add_at i (www * d3) (_meand3 X))
          (add_at i (www * m_log lm d3) (_meanlogd3 X))
          (add_at i (www * u) (_meanu X))
          (add_at i (www * v) (_meanv X))
          (add_at i www (_weight X))
          (add_at i nnn (_ntri X)).

Definition directProcess111 := finishProcess.

(** The effect of one step of a traversal on the store: only the calls of
    directProcess111 write. *)
Definition apply_event (lm : Libm) (project : Projection) (st : Store)
    (e : Event) : Store :=
  match e with
  | Direct111 self c1 c2 c3 d1 d2 d3 logr u v index =>
      update self
        (fun X => directProcess111 lm project X c1 c2 c3 d1 d2 d3 logr u v index)
        st
  | _ => st
  end.

Definition replay (lm : Libm) (project : Projection) (t : Trace) (st : Store)
  : Store :=
  fold_left (apply_event lm project) t st.

(** ** The entry points: BaseCorr3::process (three overloads)

    The build without OpenMP: the traversal writes into the objects
    themselves.  A field is the list of its top-level cells. *)

Definition Field := list Cell.

Section Loops.
Variables (chk : bool) (lm : Libm) (metric : MetricHelper)
          (params : Acc -> BaseCorr3).

(** [for (k=j+1; k<n; ++k) process111(..., c1, c2, cells[k])]. *)
Fixpoint loop111 (A : Sibs) (c1 c2 : Cell) (cs : list Cell) : Result Trace :=
  match cs with
  | [] => Ok []
  | c3 :: cs' =>
      process111 chk lm metric params A c1 c2 c3 0 0 0 ;;
      loop111 A c1 c2 cs'
  end.

(** The [j] loop of the auto entry point, over the cells after [c1]. *)
Fixpoint auto_j (bc3 : Acc) (c1 : Cell) (cs : list Cell) : Result Trace :=
  match cs with
  | [] => Ok []
  | c2 :: cs' =>
      process12 chk lm metric params bc3 bc3 bc3 c1 c2 ;;
      process12 chk lm metric params bc3 bc3 bc3 c2 c1 ;;
      loop111 (mkSibs bc3 bc3 bc3 bc3 bc3 bc3) c1 c2 cs' ;;
      auto_j bc3 c1 cs'
  end.

Fixpoint auto_i (bc3 : Acc) (cs : list Cell) : Result Trace :=
  match cs with
  | [] => Ok []
  | c1 :: cs' =>
      process3 chk lm metric params bc3 c1 ;;
      auto_j bc3 c1 cs' ;;
      auto_i bc3 cs'
  end.

(** The [j] loop of the cross-12 entry point. *)
Fixpoint cross12_j (bc122 bc212 bc221 : Acc) (c1 : Cell) (cs : list Cell)
  : Result Trace :=
  match cs with
  | [] => Ok []
  | c2 :: cs' =>
      process12 chk lm metric params bc122 bc212 bc221 c1 c2 ;;
      loop111 (mkSibs bc122 bc122 bc212 bc221 bc212 bc221) c1 c2 cs' ;;
      cross12_j bc122 bc212 bc221 c1 cs'
  end.

Fixpoint cross12_i (bc122 bc212 bc221 : Acc) (f1 f2 : list Cell)
  : Result Trace :=
  match f1 with
  | [] => Ok []
  | c1 :: f1' =>
      cross12_j bc122 bc212 bc221 c1 f2 ;;
      cross12_i bc122 bc212 bc221 f1' f2
  end.

Fixpoint cross_j (A : Sibs) (c1 : Cell) (f2 f3 : list Cell) : Result Trace :=
  match f2 with
  | [] => Ok []
  | c2 :: f2' => loop111 A c1 c2 f3 ;; cross_j A c1 f2' f3
  end.

Fixpoint cross_i (A : Sibs) (f1 f2 f3 : list Cell) : Result Trace :=
  match f1 with
  | [] => Ok []
  | c1 :: f1' => cross_j A c1 f2 f3 ;; cross_i A f1' f2 f3
  end.
End Loops.

(** [_coords = C;] on the object [self]. *)
Definition with_coords (C : Z) (self : Acc) (st : Store) : Store :=
  update self
    (fun X => mkCorr3 (set_coords C (base X)) (_owns_data X) (_zeta X)
                (_meand1 X) (_meanlogd1 X) (_meand2 X) (_meanlogd2 X)
                (_meand3 X) (_meanlogd3 X) (_meanu X) (_meanv X)
                (_weight X) (_ntri X)) st.

(** [Assert(_coords == -1 || _coords == C); _coords = C;] on [*this], then
    the traversal [walk] with the parameters of the objects as they are
    now, then its writes. *)
Definition run_process (chk : bool) (lm : Libm) (project : Projection)
    (C : Z) (self : Acc) (nonempty : bool)
    (walk : (Acc -> BaseCorr3) -> Result Trace) (st : Store) : Result Store :=
  Assert chk In_process
    ((_coords (base (get st self)) =? -1) || (_coords (base (get st self)) =? C))%Z
    (let st1 := with_coords C self st in
     Assert chk In_process nonempty
       (match walk (params_of st1) with
        | Ok t => Ok (replay lm project t st1)
        | Fail f => Fail f
        end)).

Definition nonempty_field (f : Field) : bool :=
  (Z.of_nat (length f) >? 0)%Z.

(** [process(field, dots)]. *)
Definition process_auto (chk : bool) (lm : Libm) (metric : MetricHelper)
    (project : Projection) (C : Z) (self : Acc) (field : Field) (st : Store)
  : Result Store :=
  run_process chk lm project C self (nonempty_field field)
    (fun params => auto_i chk lm metric params self field) st.

(** [process(corr212, corr221, field1, field2, dots)]. *)
Definition process_cross12 (chk : bool) (lm : Libm) (metric : MetricHelper)
    (project : Projection) (C : Z) (self corr212 corr221 : Acc)
    (field1 field2 : Field) (st : Store) : Result Store :=
  run_process chk lm project C self
    (nonempty_field field1 && nonempty_field field2)
    (fun params =>
       cross12_i chk lm metric params self corr212 corr221 field1 field2) st.

(** [process(corr132, corr213, corr231, corr312, corr321,
             field1, field2, field3, dots)]. *)
Definition process_cross (chk : bool) (lm : Libm) (metric : MetricHelper)
    (project : Projection) (C : Z)
    (self corr132 corr213 corr231 corr312 corr321 : Acc)
    (field1 field2 field3 : Field) (st : Store) : Result Store :=
  run_process chk lm project C self
    (nonempty_field field1 && nonempty_field field2 && nonempty_field field3)
    (fun params =>
       cross_i chk lm metric params
               (mkSibs self corr132 corr213 corr231 corr312 corr321)
               field1 field2 field3) st.

(** ** The three entry points as one, and the calls of a traversal *)

Inductive Entry :=
| Auto (self : Acc) (field : Field)
| Cross12 (self corr212 corr221 : Acc) (field1 field2 : Field)
| Cross111 (self corr132 corr213 corr231 corr312 corr321 : Acc)
           (field1 field2 field3 : Field).

Definition run_entry (chk : bool) (lm : Libm) (metric : MetricHelper)
    (project : Projection) (C : Z) (e : Entry) (st : Store) : Result Store :=
  match e with
  | Auto self field => process_auto chk lm metric project C self field st
  | Cross12 self corr212 corr221 field1 field2 =>
      process_cross12 chk lm metric project C self corr212 corr221
                      field1 field2 st
  | Cross111 self corr132 corr213 corr231 corr312 corr321
             field1 field2 field3 =>
      process_cross chk lm metric project C
                    self corr132 corr213 corr231 corr312 corr321
                    field1 field2 field3 st
  end.

Definition entry_self (e : Entry) : Acc :=
  match e with
  | Auto self _ => self
  | Cross12 self _ _ _ _ => self
  | Cross111 self _ _ _ _ _ _ _ _ => self
  end.

(** The calls a traversal is made of, and what each runs. *)
Inductive Call :=
| Call111 (fuel : nat) (A : Sibs) (c1 c2 c3 : Cell) (d1sq d2sq d3sq : double)
| Call12 (self bc212 bc221 : Acc) (c1 c2 : Cell)
| Call3 (self : Acc) (c1 : Cell)
| CallAuto (self : Acc) (field : Field)
| CallCross12 (self corr212 corr221 : Acc) (field1 field2 : Field)
| CallCross (A : Sibs) (field1 field2 field3 : Field).

Definition traverse (chk : bool) (lm : Libm) (metric : MetricHelper)
    (params : Acc -> BaseCorr3) (call : Call) : Result Trace :=
  match call with
  | Call111 fuel A c1 c2 c3 d1sq d2sq d3sq =>
      process111_fuel fuel chk lm metric params A c1 c2 c3 d1sq d2sq d3sq
  | Call12 self bc212 bc221 c1 c2 =>
      process12 chk lm metric params self bc212 bc221 c1 c2
  | Call3 self c1 => process3 chk lm metric params self c1
  | CallAuto self field => auto_i chk lm metric params self field
  | CallCross12 self corr212 corr221 field1 field2 =>
      cross12_i chk lm metric params self corr212 corr221 field1 field2
  | CallCross A field1 field2 field3 =>
      cross_i chk lm metric params A field1 field2 field3
  end.

(** The loops an entry point runs. *)
Definition entry_call (e : Entry) : Call :=
  match e with
  | Auto self field => CallAuto self field
  | Cross12 self corr212 corr221 field1 field2 =>
      CallCross12 self corr212 corr221 field1 field2
  | Cross111 self corr132 corr213 corr231 corr312 corr321
             field1 field2 field3 =>
      CallCross (mkSibs self corr132 corr213 corr231 corr312 corr321)
                field1 field2 field3
  end.

(** The trace of the traversal an entry point performs on the store [st]. *)
Definition entry_trace (chk : bool) (lm : Libm) (metric : MetricHelper)
    (C : Z) (e : Entry) (st : Store) : Result Trace :=
  traverse chk lm metric (params_of (with_coords C (entry_self e) st))
           (entry_call e).

(** ** The statements of the specification that differ from the source

    [split3_spec] is the condition for splitting c3 in the words of the
    specification: "s3 > 0 and one of: s3 > b d2; (s1+s3) > b d2 with
    s3 >= s1; bu < b and s3^2 d3^2 > bu^2 d2^2; bv < b and s3 > bv d2". *)
Definition split3_spec (b bu bv d2 d2sq d3sq s1 s3 : double) : bool :=
  (s3 >? 0) &&
  ((s3 >? b * d2) ||
   ((s1 + s3 >? b * d2) && (s3 >=? s1)) ||
   ((bu <? b) && (SQR s3 * d3sq >? SQR bu * d2sq)) ||
   ((bv <? b) && (s3 >? bv * d2))).

(** The natural complex products of the specification of the spin-2 kernel. *)
Definition Cmul (a b : Cplx) : Cplx :=
  (fst a * fst b - snd a * snd b, fst a * snd b + snd a * fst b).
Definition Cconj (a : Cplx) : Cplx := (fst a, - snd a).

Definition gam0_spec (g1 g2 g3 : Cplx) : Cplx := Cmul (Cmul g1 g2) g3.
Definition gam1_spec (g1 g2 g3 : Cplx) : Cplx := Cmul (Cmul (Cconj g1) g2) g3.
Definition gam2_spec (g1 g2 g3 : Cplx) : Cplx := Cmul (Cmul g1 (Cconj g2)) g3.
Definition gam3_spec (g1 g2 g3 : Cplx) : Cplx := Cmul (Cmul g1 g2) (Cconj g3).

(** ** The six orders of three cells *)

Inductive Perm3 := p123 | p132 | p213 | p231 | p312 | p321.

(** [pick s x1 x2 x3]: the triple in the order [s]. *)
Definition pick {A : Type} (s : Perm3) (x1 x2 x3 : A) : A * A * A :=
  match s with
  | p123 => (x1, x2, x3) | p132 => (x1, x3, x2)
  | p213 => (x2, x1, x3) | p231 => (x2, x3, x1)
  | p312 => (x3, x1, x2) | p321 => (x3, x2, x1)
  end.

(** The accumulator in the slot of the order [s]. *)
Definition slot (A : Sibs) (s : Perm3) : Acc :=
  match s with
  | p123 => a123 A | p132 => a132 A | p213 => a213 A
  | p231 => a231 A | p312 => a312 A | p321 => a321 A
  end.

Definition perm_of (t : nat * nat * nat) : Perm3 :=
  match t with
  | (1, 2, 3) => p123 | (1, 3, 2) => p132 | (2, 1, 3) => p213
  | (2, 3, 1) => p231 | (3, 1, 2) => p312 | _ => p321
  end%nat.

(** The order [t] of a triple that is itself the order [s] of the original
    one, as an order of the original triple. *)
Definition compose (s t : Perm3) : Perm3 :=
  let '(i, j, k) := pick s 1%nat 2%nat 3%nat in perm_of (pick t i j k).

(** The order [process111] selects (lines 638-672). *)
Definition sigma111 (d1sq d2sq d3sq : double) : Perm3 :=
  if d1sq >? d2sq then
    if d2sq >? d3sq then p123 else if d1sq >? d3sq then p132 else p312
  else
    if d1sq >? d3sq then p213 else if d2sq >? d3sq then p231 else p321.

(** The hypothesis of count conservation in the words of the specification:
    "every triangle's d2, u, v lie in the accepted ranges".  The points of a
    field are the leaves of its cells.  For the squared sides a >= b >= c of
    a triangle, minsep <= d2 < maxsep, minu <= d3/d2 < maxu and
    minv <= (d1 - d2)/d3 < maxv are written on the squares (the six bounds
    are taken not to be negative), so that no square root is needed. *)
Fixpoint leaves (c : Cell) : list Cell :=
  match c with
  | mkCell _ _ (Some l) (Some r) => leaves l ++ leaves r
  | _ => [c]
  end.

Definition field_points (f : list Cell) : list Cell := flat_map leaves f.

Definition sides_in_range (P : BaseCorr3) (a b c : double) : bool :=
  (0 <? c) &&
  (_minsepsq P <=? b) && (b <? _maxsepsq P) &&
  (_minusq P * b <=? c) && (c <? _maxusq P * b) &&
  (let r := a - b - _minvsq P * c in
   (0 <=? r) && (4 * _minvsq P * b * c <=? r * r)) &&
  (let r := a - b - _maxvsq P * c in
   (r <? 0) || (r * r <? 4 * _maxvsq P * b * c)).

Definition triangle_in_range (metric : MetricHelper) (P : BaseCorr3)
    (p1 p2 p3 : Cell) : bool :=
  let x := DistSq metric (cellPos p2) (cellPos p3) 0 0 in
  let y := DistSq metric (cellPos p1) (cellPos p3) 0 0 in
  let z := DistSq metric (cellPos p1) (cellPos p2) 0 0 in
  let '(a, b, c) := pick (sigma111 x y z) x y z in
  sides_in_range P a b c.

(** Every triangle with one point in each of three fields is in range. *)
Definition cross_triangles_in_range (metric : MetricHelper) (P : BaseCorr3)
    (f1 f2 f3 : list Cell) : bool :=
  forallb (fun p1 =>
    forallb (fun p2 =>
      forallb (fun p3 => triangle_in_range metric P p1 p2 p3)
              (field_points f3))
            (field_points f2))
          (field_points f1).

(** ** Well-formed inputs *)

(** Leaves have size 0 and internal cells have both children. *)
Fixpoint shape_ok (c : Cell) : Prop :=
  match c with
  | mkCell _ s l r =>
      match l, r with
      | Some x, Some y => shape_ok x /\ shape_ok y
      | None, None => s == 0
      | _, _ => False
      end
  end.


(** Leaves have size 0, internal cells have both children, sizes are not
    negative. *)
Fixpoint tree_ok (c : Cell) : Prop :=
  match c with
  | mkCell _ s l r =>
      0 <= s /\
      match l, r with
      | Some x, Some y => tree_ok x /\ tree_ok y
      | None, None => s == 0
      | _, _ => False
      end
  end.

(** The number of points of an internal cell is that of its children. *)
Fixpoint counts_ok (c : Cell) : Prop :=
  match c with
  | mkCell d _ l r =>
      match l, r with
      | Some x, Some y =>
          getN d = (cellN x + cellN y)%Z /\ counts_ok x /\ counts_ok y
      | Some x, None => counts_ok x
      | None, Some y => counts_ok y
      | None, None => True
      end
  end.

Definition entry_counts_ok (e : Entry) : Prop :=
  match e with
  | Auto _ field => Forall counts_ok field
  | Cross12 _ _ _ field1 field2 =>
      Forall counts_ok field1 /\ Forall counts_ok field2
  | Cross111 _ _ _ _ _ _ field1 field2 field3 =>
      Forall counts_ok field1 /\ Forall counts_ok field2 /\
      Forall counts_ok field3
  end.

(** The derived fields are the ones the constructor computes. *)
Definition derived_ok (lm : Libm) (P : BaseCorr3) : Prop :=
  P = set_coords (_coords P)
        (BaseCorr3_new lm Log (_minsep P) (_maxsep P) (_nbins P) (_binsize P)
           (_b P) (_minu P) (_maxu P) (_nubins P) (_ubinsize P) (_bu P)
           (_minv P) (_maxv P) (_nvbins P) (_vbinsize P) (_bv P)
           (_xp P) (_yp P) (_zp P)).

(** What the library square root is assumed to satisfy where a statement
    needs it. *)
Definition sqrt_ok (lm : Libm) : Prop :=
  (forall x, 0 <= m_sqrt lm x) /\
  (forall x y, x <= y -> m_sqrt lm x <= m_sqrt lm y).

Definition metric_nonneg (metric : MetricHelper) : Prop :=
  forall p q s t, 0 <= DistSq metric p q s t.

(** ** The calls of directProcess111 *)

Definition is_commit (e : Event) : bool :=
  match e with Direct111 _ _ _ _ _ _ _ _ _ _ _ => true | _ => false end.

(** What holds of a call of directProcess111 made by a traversal: the cells
    are a sorted triple with sides [d1 >= d2 >= d3] as [m_sqrt] gives them,
    [u], the unsigned [v0] and [d2] passed the range tests, and the signed
    [v] and the bin come from [binning]. *)
Definition commit_ok (lm : Libm) (metric : MetricHelper)
    (params : Acc -> BaseCorr3) (e : Event) : Prop :=
  match e with
  | Direct111 self c1 c2 c3 d1 d2 d3 logr u v index =>
      let P := params self in
      let ccw := CCW metric (cellPos c1) (cellPos c2) (cellPos c3) in
      exists d1sq d2sq d3sq v0,
        d2sq <= d1sq /\ d3sq <= d2sq /\
        d1 = m_sqrt lm d1sq /\ d2 = m_sqrt lm d2sq /\ d3 = m_sqrt lm d3sq /\
        u = d3 / d2 /\ v0 = (d1 - d2) / d3 /\ logr = m_log lm d2 /\
        (_minsep P <= d2 /\ d2 < _maxsep P) /\
        (_minu P <= u /\ u < _maxu P) /\
        (_minv P <= v0 /\ v0 < _maxv P) /\
        v = b_v (binning P ccw logr u v0) /\
        index = b_index (binning P ccw logr u v0) /\
        (0 <= index < _ntot P)%Z
  | _ => True
  end.

(** The ranges of the specification for a call of directProcess111. *)
Definition in_range (params : Acc -> BaseCorr3) (e : Event) : Prop :=
  match e with
  | Direct111 self _ _ _ _ d2 _ _ u v _ =>
      let P := params self in
      (_minsep P <= d2 /\ d2 < _maxsep P) /\
      (_minu P <= u /\ u < _maxu P) /\
      (_minv P <= Qabs v /\ Qabs v < _maxv P)
  | _ => True
  end.

(** The sign of the committed [v] and the [kv] of the committed bin: [v0]
    is the unsigned value (d1 - d2) / d3. *)
Definition signed_ok (metric : MetricHelper) (params : Acc -> BaseCorr3)
    (e : Event) : Prop :=
  match e with
  | Direct111 self c1 c2 c3 d1 d2 d3 logr u v index =>
      let P := params self in
      let ccw := CCW metric (cellPos c1) (cellPos c2) (cellPos c3) in
      exists v0,
        v0 = (d1 - d2) / d3 /\ 0 <= v0 /\
        v = (if ccw then v0 else - v0) /\
        index = (bin_kr P logr * _nuv P + bin_ku P u * _nvbins2 P +
                 (if ccw then bin_kv P v0 + _nvbins P
                  else _nvbins P - bin_kv P v0 - 1))%Z /\
        (v < 0 <-> ccw = false /\ 0 < v0)
  | _ => True
  end.

(** ** Addition of arrays *)

(** [a'] is [a] with [b] added on the first [n] entries. *)
Definition added (n : Z) (a b a' : array) : Prop :=
  length a' = length a /\
  forall i, (i < length a)%nat ->
    nth i a' 0 = if (Z.of_nat i <? n)%Z then nth i a 0 + nth i b 0
                 else nth i a 0.

Definition zeta_added (n : Z) (z rhs z' : ZetaData) : Prop :=
  match z, rhs, z' with
  | ZetaN, _, ZetaN => True
  | ZetaK a, ZetaK b, ZetaK a' => added n a b a'
  | ZetaG a0 a1 a2 a3 a4 a5 a6 a7, ZetaG b0 b1 b2 b3 b4 b5 b6 b7,
    ZetaG c0 c1 c2 c3 c4 c5 c6 c7 =>
      added n a0 b0 c0 /\ added n a1 b1 c1 /\ added n a2 b2 c2 /\
      added n a3 b3 c3 /\ added n a4 b4 c4 /\ added n a5 b5 c5 /\
      added n a6 b6 c6 /\ added n a7 b7 c7
  | _, _, _ => z' = z
  end.

(** ** Failures *)

(** The failures that stem from the code of process111Sorted and of its
    commit. *)
Definition fail111 (f : Failure) : Prop :=
  f = OutOfFuel \/ f = AssertFailed In_process111Sorted \/
  f = NullChild In_process111Sorted \/ f = AssertFailed In_commit.

(** A failure that can only come from an active numeric assertion. *)
Definition assert_only (chk : bool) (f : Failure) : Prop :=
  chk = true /\
  (f = AssertFailed In_process111Sorted \/ f = AssertFailed In_commit).

(** A leaf: a cell without a left or without a right child. *)
Definition is_leaf (c : Cell) : Prop := getLeft c = None \/ getRight c = None.

(** ** The shape of the recursion of process111Sorted *)

Definition has_children (c : Cell) : Prop :=
  exists l r, getLeft c = Some l /\ getRight c = Some r.

Definition is_child (c x : Cell) : Prop :=
  getLeft c = Some x \/ getRight c = Some x.

(** [x] takes the place of [c] in a recursive call: a child of [c] when [c]
    is split, [c] itself when it is not. *)
Definition descend1 (b : bool) (c x : Cell) : Prop :=
  if b then is_child c x else x = c.

(** c1 is split when [split1] says so and also in the last branch of lines
    829-929 ("split 1 only"), which is reached without a test of [split1]. *)
Definition eff1 (sp : Split) : bool :=
  split1 sp || (negb (split3 sp) && negb (split2 sp)).

(** The triple [(x1, x2, x3)] of a recursive call made for [(c1, c2, c3)]:
    each cell is kept or replaced by one of its children, and at least one
    cell of positive size is replaced. *)
Definition descends (c1 c2 c3 x1 x2 x3 : Cell) : Prop :=
  (x1 = c1 \/ is_child c1 x1) /\ (x2 = c2 \/ is_child c2 x2) /\
  (x3 = c3 \/ is_child c3 x3) /\
  ((is_child c1 x1 /\ 0 < getSize c1) \/ (is_child c2 x2 /\ 0 < getSize c2) \/
   (is_child c3 x3 /\ 0 < getSize c3)).

(** A stand-in for process111 that only records the cells it is called
    with (as a step [Ret111 R_w1], which process111Sorted itself never
    produces). *)
Definition probe111 : Proc111 :=
  fun B x1 x2 x3 _ _ _ => Ok [Ret111 R_w1 (a123 B) x1 x2 x3].

(** The arguments of the calls the recursion makes. *)
Definition rec_args (sp : Split) (c1 c2 c3 : Cell) (d1sq d2sq d3sq : double)
    (x1 x2 x3 : Cell) (e1 e2 e3 : double) : Prop :=
  descend1 (eff1 sp) c1 x1 /\ descend1 (split2 sp) c2 x2 /\
  descend1 (split3 sp) c3 x3 /\
  (e1 = 0 \/ e1 = d1sq) /\ (e2 = 0 \/ e2 = d2sq) /\ (e3 = 0 \/ e3 = d3sq).

(** ** Bookkeeping of point triples along a trace *)

Definition nQ (c : Cell) : double := inject_Z (cellN c).

(** Triples of distinct points among [n], pairs among [n]. *)
Definition tri3 (n : double) : double := n * (n - 1) * (n - 2) / 6.
Definition pair2 (n : double) : double := n * (n - 1) / 2.

(** The point triples a step adds to [ntri]. *)
Definition counted (e : Event) : double :=
  match e with
  | Direct111 _ c1 c2 c3 _ _ _ _ _ _ _ => nQ c1 * nQ c2 * nQ c3
  | _ => 0
  end.

(** The point triples an early return gives up. *)
Definition lost (e : Event) : double :=
  match e with
  | Ret3 _ c1 => tri3 (nQ c1)
  | Ret12 _ _ c1 c2 => nQ c1 * pair2 (nQ c2)
  | Ret111 _ _ c1 c2 c3 => nQ c1 * nQ c2 * nQ c3
  | Direct111 _ _ _ _ _ _ _ _ _ _ _ => 0
  end.

(** The point triples a step accounts for, counted or given up. *)
Definition acct (e : Event) : double := counted e + lost e.

Definition sum_over (f : Event -> double) (t : Trace) : double :=
  fold_right (fun e acc => f e + acc) 0 t.

(** A traversal that returned normally and gave up no point triple. *)
Definition unpruned (r : Result Trace) : Prop :=
  exists t, r = Ok t /\ Forall (fun e => lost e == 0) t.

Definition field_N (f : Field) : double :=
  fold_right (fun c acc => nQ c + acc) 0 f.

(** The point triples an entry point has to count: N (N-1) (N-2) / 6 for
    one field of N points, N1 N2 (N2-1) / 2 for two fields, N1 N2 N3 for
    three. *)
Definition entry_triples (e : Entry) : double :=
  match e with
  | Auto _ field => tri3 (field_N field)
  | Cross12 _ _ _ field1 field2 => field_N field1 * pair2 (field_N field2)
  | Cross111 _ _ _ _ _ _ field1 field2 field3 =>
      field_N field1 * field_N field2 * field_N field3
  end.

Definition sum_array (a : array) : double := fold_right Qplus 0 a.

(** The sum of [ntri] over all bins of all the accumulators of the store. *)
Definition total_ntri (st : Store) : double :=
  fold_right (fun X acc => sum_array (_ntri X) + acc) 0 st.

(** Every accumulator of the store has an [ntri] array of [_ntot] bins. *)
Definition store_ok (st : Store) : Prop :=
  Forall (fun X => Z.of_nat (length (_ntri X)) = _ntot (base X)) st.

(** ** A metric and a libm for running the model

    Modelled from the spec: the Euclidean metric of the plane (distance
    between the centres, orientation by the sign of the cross product), in
    place of the one of Metric.h.  The square root is exact on squares of
    dyadic numbers (it rounds down to a multiple of 2^-20); the logarithm is
    exact at 1 (the integer part of the base-2 logarithm elsewhere). *)

Definition flat_DistSq (p q : Position) (s1 s2 : double) : double :=
  SQR (px p - px q) + SQR (py p - py q).

Definition flat_CCW (p1 p2 p3 : Position) : bool :=
  ((px p2 - px p1) * (py p3 - py p1) - (px p3 - px p1) * (py p2 - py p1)) >? 0.

Definition flat_metric : MetricHelper := mkMetric flat_DistSq flat_CCW.

Definition dyadic_sqrt (x : double) : double :=
  inject_Z (Z.sqrt (Qfloor (x * inject_Z (2 ^ 40)))) / inject_Z (2 ^ 20).

Definition coarse_log (x : double) : double :=
  if x <? 1 then - inject_Z (Z.log2 (Qfloor (/ x)))
  else inject_Z (Z.log2 (Qfloor x)).

Definition test_libm : Libm := mkLibm dyadic_sqrt coarse_log.

(** No rotation of the shears. *)
Definition no_projection : Projection :=
  fun _ _ _ g1 g2 g3 => (g1, g2, g3).

Definition point (x y : double) : Cell :=
  mkCell (mkCellData (mkPosition x y 0) 1 1 1 (1, 0)) 0 None None.

(** An internal cell over two subtrees: centre [(x, y)], radius [s]. *)
Definition node (x y s : double) (l r : Cell) : Cell :=
  mkCell (mkCellData (mkPosition x y 0) (cellW l + cellW r)
                     (cellN l + cellN r) (getWK (getData l) + getWK (getData r))
                     (fst (getWG (getData l)) + fst (getWG (getData r)),
                      snd (getWG (getData l)) + snd (getWG (getData r))))
         s (Some l) (Some r).

Definition zeros (n : Z) : array := repeat 0 (Z.to_nat n).

(** An NNN accumulator with zeroed arrays. *)
Definition new_NNN (P : BaseCorr3) : Corr3 :=
  let z := zeros (_ntot P) in
  mkCorr3 P false ZetaN z z z z z z z z z z.

(** ** Bins that cover the ranges *)

(** The bins cover the ranges of the accumulator: [nbins] bins of width
    [binsize] reach from log(minsep) to log(maxsep), [nubins] bins of width
    [ubinsize] from minu to maxu, [nvbins] bins of width [vbinsize] from
    minv to maxv. *)
Definition bins_cover (lm : Libm) (P : BaseCorr3) : Prop :=
  0 < _minsep P /\
  0 < _binsize P /\ 0 < _ubinsize P /\ 0 < _vbinsize P /\
  (0 < _nbins P)%Z /\
  m_log lm (_maxsep P) - m_log lm (_minsep P)
    <= inject_Z (_nbins P) * _binsize P /\
  _maxu P - _minu P <= inject_Z (_nubins P) * _ubinsize P /\
  _maxv P - _minv P <= inject_Z (_nvbins P) * _vbinsize P.

(** The library logarithm does not decrease on the positive numbers. *)
Definition log_mono (lm : Libm) : Prop :=
  forall x y, 0 < x -> x <= y -> m_log lm x <= m_log lm y.

(** ** Well-formed calls *)

(** The cells a call of the traversal is made on are well-formed trees, and
    the squared sides it is handed are not negative. *)
Definition call_ok (call : Call) : Prop :=
  match call with
  | Call111 _ _ c1 c2 c3 d1sq d2sq d3sq =>
      tree_ok c1 /\ tree_ok c2 /\ tree_ok c3 /\
      0 <= d1sq /\ 0 <= d2sq /\ 0 <= d3sq
  | Call12 _ _ _ c1 c2 => tree_ok c1 /\ tree_ok c2
  | Call3 _ c1 => tree_ok c1
  | CallAuto _ field => Forall tree_ok field
  | CallCross12 _ _ _ field1 field2 =>
      Forall tree_ok field1 /\ Forall tree_ok field2
  | CallCross _ field1 field2 field3 =>
      Forall tree_ok field1 /\ Forall tree_ok field2 /\ Forall tree_ok field3
  end.

(** The library square root of a positive number is positive. *)
Definition sqrt_pos (lm : Libm) : Prop := forall x, 0 < x -> 0 < m_sqrt lm x.

(** What the split decision has checked of the cells of a call of
    directProcess111: [s1], [s2], [s3] are the sizes of the three cells,
    the sides are the square roots of sorted squared sides. *)
Definition within_tolerance (lm : Libm) (params : Acc -> BaseCorr3)
    (e : Event) : Prop :=
  match e with
  | Direct111 self c1 c2 c3 d1 d2 d3 logr u v index =>
      let P := params self in
      let s1 := getSize c1 in
      let s2 := getSize c2 in
      let s3 := getSize c3 in
      exists d1sq d2sq d3sq,
        d1 = m_sqrt lm d1sq /\ d2 = m_sqrt lm d2sq /\ d3 = m_sqrt lm d3sq /\
        0 <= d3sq /\ d3sq <= d2sq /\ d2sq <= d1sq /\
        (s3 == 0 \/
         (s1 + s3 <= _b P * d2 /\
          (_bu P < _b P -> SQR s3 * d3sq <= SQR (_bu P * d2sq)) /\
          (_bv P < _b P -> s3 <= _bv P * d2))) /\
        SQR s1 <= d3sq /\ SQR s2 <= d3sq /\
        (s2 <= s3 \/ d3sq <= SQR (d2 - s2 + s3)) /\
        (s2 <= s1 \/ SQR (d2 + s2 - s1) <= d1sq) /\
        SQR (s1 + s2) <= _busq P * d2sq /\
        SQR ((s1 + s2) * (1 + Qabs v)) <= _bvsq P * d3sq
  | _ => True
  end.

(** The sides of a call of directProcess111 are positive and sorted, and
    its [u] lies in (0, 1]. *)
Definition positive_sides (e : Event) : Prop :=
  match e with
  | Direct111 _ _ _ _ d1 d2 d3 _ u _ _ =>
      0 < d3 /\ d3 <= d2 /\ d2 <= d1 /\ u == d3 / d2 /\ 0 < u /\ u <= 1
  | _ => True
  end.

(** ** The accumulators of a call and the arrays of an accumulator *)

Definition sibs_list (A : Sibs) : list Acc :=
  [a123 A; a132 A; a213 A; a231 A; a312 A; a321 A].

(** The accumulators a call of the traversal is handed. *)
Definition call_accs (call : Call) : list Acc :=
  match call with
  | Call111 _ A _ _ _ _ _ _ => sibs_list A
  | Call12 self bc212 bc221 _ _ => [self; bc212; bc221]
  | Call3 self _ => [self]
  | CallAuto self _ => [self]
  | CallCross12 self corr212 corr221 _ _ => [self; corr212; corr221]
  | CallCross A _ _ _ => sibs_list A
  end.

Definition entry_accs (e : Entry) : list Acc := call_accs (entry_call e).

(** The accumulator a step writes into is one of [S]. *)
Definition on_accs (S : Acc -> Prop) (e : Event) : Prop :=
  match e with
  | Direct111 self _ _ _ _ _ _ _ _ _ _ => S self
  | _ => True
  end.

(** The ten arrays of an accumulator, those of its payload, and all of
    them. *)
Definition arrays (X : Corr3) : list array :=
  [_meand1 X; _meanlogd1 X; _meand2 X; _meanlogd2 X; _meand3 X; _meanlogd3 X;
   _meanu X; _meanv X; _weight X; _ntri X].

Definition zeta_arrays (z : ZetaData) : list array :=
  match z with
  | ZetaN => []
  | ZetaK a => [a]
  | ZetaG a0 a1 a2 a3 a4 a5 a6 a7 => [a0; a1; a2; a3; a4; a5; a6; a7]
  end.

Definition all_arrays (X : Corr3) : list array :=
  zeta_arrays (_zeta X) ++ arrays X.

(** ** Entry points on empty fields; clear on an object of the store *)

Definition some_field_empty (e : Entry) : Prop :=
  match e with
  | Auto _ field => field = []
  | Cross12 _ _ _ field1 field2 => field1 = [] \/ field2 = []
  | Cross111 _ _ _ _ _ _ field1 field2 field3 =>
      field1 = [] \/ field2 = [] \/ field3 = []
  end.

(** [a.clear()] on the object [a] of the store. *)
Definition do_clear (a : Acc) (st : Store) : Store := update a clear st.

(** The condition of the assertions [n1 > 0], [n2 > 0], [n3 > 0] of an
    entry point. *)
Definition entry_nonempty (e : Entry) : bool :=
  match e with
  | Auto _ field => nonempty_field field
  | Cross12 _ _ _ field1 field2 => nonempty_field field1 && nonempty_field field2
  | Cross111 _ _ _ _ _ _ field1 field2 field3 =>
      nonempty_field field1 && nonempty_field field2 && nonempty_field field3
  end.

(** ** Routing: which accumulator receives which triple *)

(** [below c x]: [x] is [c] or a cell of the tree under [c]. *)
Inductive below : Cell -> Cell -> Prop :=
| below_refl (c : Cell) : below c c
| below_child (c y x : Cell) :
    (getLeft c = Some y \/ getRight c = Some y) -> below y x -> below c x.

(** [x] is a cell of one of the trees of the field. *)
Definition in_field (f : Field) (x : Cell) : Prop :=
  exists c, In c f /\ below c x.

(** A call of directProcess111 on the cells [(x1, x2, x3)] is routed by
    [A] when the three cells are, in some order [s], a cell [y1] of the
    first family, a cell [y2] of the second and a cell [y3] of the third,
    and the accumulator that makes the call is the one [A] holds in the
    slot [s]. *)
Definition routed (A : Sibs) (F1 F2 F3 : Cell -> Prop) (e : Event) : Prop :=
  match e with
  | Direct111 self x1 x2 x3 _ _ _ _ _ _ _ =>
      exists s y1 y2 y3,
        F1 y1 /\ F2 y2 /\ F3 y3 /\
        (x1, x2, x3) = pick s y1 y2 y3 /\ self = slot A s
  | _ => True
  end.

(** The accumulators in their slots and the three families of cells of a
    call: process12 and the cross-12 entry point run process111 with
    [*this] in the slots 123 and 132, [bc212] in 213 and 312, [bc221] in
    231 and 321; process3 and the auto entry point with [*this] in all. *)
Definition routed_by (call : Call) : Event -> Prop :=
  match call with
  | Call111 _ A c1 c2 c3 _ _ _ => routed A (below c1) (below c2) (below c3)
  | Call12 self bc212 bc221 c1 c2 =>
      routed (mkSibs self self bc212 bc221 bc212 bc221)
             (below c1) (below c2) (below c2)
  | Call3 self c1 =>
      routed (mkSibs self self self self self self)
             (below c1) (below c1) (below c1)
  | CallAuto self field =>
      routed (mkSibs self self self self self self)
             (in_field field) (in_field field) (in_field field)
  | CallCross12 self corr212 corr221 field1 field2 =>
      routed (mkSibs self self corr212 corr221 corr212 corr221)
             (in_field field1) (in_field field2) (in_field field2)
  | CallCross A field1 field2 field3 =>
      routed A (in_field field1) (in_field field2) (in_field field3)
  end.

(** The arguments of a call of process111 made on behalf of [A0]: the
    cells are, in some order [s0], cells of the three families, and the
    accumulators are those of [A0] in the slots renamed by [s0]. *)
Definition routing (A0 : Sibs) (F1 F2 F3 : Cell -> Prop)
    (A : Sibs) (c1 c2 c3 : Cell) : Prop :=
  exists s0 y1 y2 y3,
    F1 y1 /\ F2 y2 /\ F3 y3 /\ (c1, c2, c3) = pick s0 y1 y2 y3 /\
    forall t, slot A t = slot A0 (compose s0 t).

(** ** Accumulators with arrays of the declared size *)

(** Every array of the accumulator has [_ntot] entries. *)
Definition sized (X : Corr3) : Prop :=
  Forall (fun a => length a = Z.to_nat (_ntot (base X))) (all_arrays X).

(** Two payloads are of the same kernel. *)
Definition same_kind (z z' : ZetaData) : Prop :=
  match z, z' with
  | ZetaN, ZetaN => True
  | ZetaK _, ZetaK _ => True
  | ZetaG _ _ _ _ _ _ _ _, ZetaG _ _ _ _ _ _ _ _ => True
  | _, _ => False
  end.

(** Two arrays with the same entries, as rationals. *)
Definition array_eq (a b : array) : Prop := Forall2 Qeq a b.

(** ** The copy constructors *)

(** [BaseCorr3::BaseCorr3(const BaseCorr3& rhs)] (lines 79-92).  Its
    initialiser list names every field except [_xp], [_yp] and [_zp], which
    the copy therefore does not take from [rhs]: [xp], [yp] and [zp] stand
    for what the three fields of the new object hold. *)
Definition BaseCorr3_copy (xp yp zp : double) (rhs : BaseCorr3) : BaseCorr3 :=
  {| _minsep := _minsep rhs; _maxsep := _maxsep rhs; _nbins := _nbins rhs;
     _binsize := _binsize rhs; _b := _b rhs;
     _minu := _minu rhs; _maxu := _maxu rhs; _nubins := _nubins rhs;
     _ubinsize := _ubinsize rhs; _bu := _bu rhs;
     _minv := _minv rhs; _maxv := _maxv rhs; _nvbins := _nvbins rhs;
     _vbinsize := _vbinsize rhs; _bv := _bv rhs;
     _xp := xp; _yp := yp; _zp := zp;
     _logminsep := _logminsep rhs; _halfminsep := _halfminsep rhs;
     _halfmind3 := _halfmind3 rhs;
     _minsepsq := _minsepsq rhs; _maxsepsq := _maxsepsq rhs;
     _minusq := _minusq rhs; _maxusq := _maxusq rhs;
     _minvsq := _minvsq rhs; _maxvsq := _maxvsq rhs;
     _bsq := _bsq rhs; _busq := _busq rhs; _bvsq := _bvsq rhs;
     _sqrttwobv := _sqrttwobv rhs;
     _nvbins2 := _nvbins2 rhs; _nuv := _nuv rhs; _ntot := _ntot rhs;
     _coords := _coords rhs |}.

(** [Corr3::Corr3(const Corr3& rhs, bool copy_data)] (lines 95-114).  The
    ten arrays are allocated by [new double[_ntot]] and the payload by
    [_zeta.new_data(_ntot)], which do not initialise them: [mem k] stands for
    what the k-th array holds when allocated and [zmem] for the payload as
    allocated.  Then [*this = rhs] (with the assertion of [operator=]) or
    [clear()]. *)
Definition Corr3_copy (chk : bool) (xp yp zp : double)
    (zmem : ZetaData) (mem : nat -> array) (rhs : Corr3) (copy_data : bool)
  : Result Corr3 :=
  let X := mkCorr3 (BaseCorr3_copy xp yp zp (base rhs)) true zmem
                   (mem 0%nat) (mem 1%nat) (mem 2%nat) (mem 3%nat) (mem 4%nat)
                   (mem 5%nat) (mem 6%nat) (mem 7%nat) (mem 8%nat) (mem 9%nat) in
  if copy_data then
    Assert chk In_add (_ntot (base rhs) =? _ntot (base X))%Z
           (Ok (copy_arrays X rhs))
  else Ok (clear X).


(** ** The contents of a bin *)

(** The weights and the numbers of points of the cells of a tree are not
    negative. *)
Fixpoint weights_ok (c : Cell) : Prop :=
  match c with
  | mkCell d _ l r =>
      0 <= getW d /\ (0 <= getN d)%Z /\
      match l with Some x => weights_ok x | None => True end /\
      match r with Some y => weights_ok y | None => True end
  end.

(** The fields an entry point is handed. *)
Definition entry_fields (e : Entry) : list Field :=
  match e with
  | Auto _ field => [field]
  | Cross12 _ _ _ field1 field2 => [field1; field2]
  | Cross111 _ _ _ _ _ _ field1 field2 field3 => [field1; field2; field3]
  end.

(** The edges of the bin of flat index [k], read off lines 954-1004: the
    bin numbers are kr = k / nuv, ku = (k mod nuv) / nvbins2 and
    kv = k mod nvbins2; the bin reaches from logminsep + kr binsize to
    logminsep + (kr + 1) binsize in log(d2), from minu + ku ubinsize to
    minu + (ku + 1) ubinsize in u and, in v, from minv + (kv - nvbins)
    vbinsize to minv + (kv - nvbins + 1) vbinsize when kv >= nvbins, from
    -(minv + (nvbins - kv) vbinsize) to -(minv + (nvbins - kv - 1) vbinsize)
    when kv < nvbins. *)
Definition bin_edges (P : BaseCorr3) (k : Z)
  : (double * double) * (double * double) * (double * double) :=
  let kr := inject_Z (k / _nuv P) in
  let ku := inject_Z ((k mod _nuv P) / _nvbins2 P) in
  let kv := inject_Z (k mod _nvbins2 P) in
  let nv := inject_Z (_nvbins P) in
  ((_logminsep P + kr * _binsize P, _logminsep P + (kr + 1) * _binsize P),
   (_minu P + ku * _ubinsize P, _minu P + (ku + 1) * _ubinsize P),
   if (k mod _nvbins2 P >=? _nvbins P)%Z
   then (_minv P + (kv - nv) * _vbinsize P,
         _minv P + (kv - nv + 1) * _vbinsize P)
   else (- (_minv P + (nv - kv) * _vbinsize P),
         - (_minv P + (nv - kv - 1) * _vbinsize P))).

(** [m] is a sum of values between [lo] and [hi] of total weight [w]. *)
Definition between (lo_hi : double * double) (w m : double) : Prop :=
  fst lo_hi * w <= m /\ m <= snd lo_hi * w.

(** What the bin [i] of the accumulator [X] holds fits the bin: the weight
    and the count are not negative, the sums of the sides are ordered as
    the sides are, and the weighted sums of log(d2), u and v lie between the
    edges of the bin times the weight. *)
Definition bin_within_edges (X : Corr3) (i : nat) : Prop :=
  let '(er, eu, ev) := bin_edges (base X) (Z.of_nat i) in
  let w := nth i (_weight X) 0 in
  0 <= w /\ 0 <= nth i (_ntri X) 0 /\
  0 <= nth i (_meand3 X) 0 /\
  nth i (_meand3 X) 0 <= nth i (_meand2 X) 0 /\
  nth i (_meand2 X) 0 <= nth i (_meand1 X) 0 /\
  between er w (nth i (_meanlogd2 X) 0) /\
  between eu w (nth i (_meanu X) 0) /\
  between ev w (nth i (_meanv X) 0).

(** What a call of directProcess111 adds fits the bin it is added to. *)
Definition adds_within_edges (params : Acc -> BaseCorr3) (e : Event) : Prop :=
  match e with
  | Direct111 self c1 c2 c3 d1 d2 d3 logr u v index =>
      let '(er, eu, ev) := bin_edges (params self) index in
      (0 <= index)%Z /\
      0 <= cellW c1 * cellW c2 * cellW c3 /\
      0 <= inject_Z (cellN c1) * inject_Z (cellN c2) * inject_Z (cellN c3) /\
      0 <= d3 /\ d3 <= d2 /\ d2 <= d1 /\
      between er 1 logr /\ between eu 1 u /\ between ev 1 v
  | _ => True
  end.

(** ** Count conservation: the inputs *)

(** What count conservation needs of the metric: the squared distance does
    not depend on the sizes it is handed, it is symmetric, it is 0 from a
    position to itself, and distances obey the triangle inequality, written
    on the squares ([A] and [B] bound the two distances). *)
Definition metric_euclid (metric : MetricHelper) : Prop :=
  (forall p q s t, DistSq metric p q s t == DistSq metric p q 0 0) /\
  (forall p q, DistSq metric p q 0 0 == DistSq metric q p 0 0) /\
  (forall p, DistSq metric p p 0 0 == 0) /\
  (forall p q, 0 <= DistSq metric p q 0 0) /\
  (forall p q r A B, 0 <= A -> 0 <= B ->
     DistSq metric p q 0 0 <= A * A -> DistSq metric q r 0 0 <= B * B ->
     DistSq metric p r 0 0 <= (A + B) * (A + B)) /\
  (forall p q r A B, 0 <= A -> 0 <= B ->
     DistSq metric p q 0 0 < A * A -> DistSq metric q r 0 0 <= B * B ->
     DistSq metric p r 0 0 < (A + B) * (A + B)).

(** What it needs of the library square root: it is not negative and does
    not decrease, it gives equal results on equal numbers, and it does not
    exceed the exact square root. *)
Definition sqrt_sound (lm : Libm) : Prop :=
  sqrt_ok lm /\
  (forall x y, x == y -> m_sqrt lm x == m_sqrt lm y) /\
  (forall x, 0 <= x -> m_sqrt lm x * m_sqrt lm x <= x).

(** A tree over points of weight 1: a leaf is one point (size 0, one object,
    no child); an internal cell has both children, a positive size, the
    objects of its children; the weight of a cell is its number of objects;
    and the size of a cell bounds the distance from every point under it to
    its centre. *)
Fixpoint cell_ok (metric : MetricHelper) (c : Cell) : Prop :=
  match c with
  | mkCell d s l r =>
      getW d == inject_Z (getN d) /\
      Forall (fun x => DistSq metric (cellPos x) (getPos d) 0 0 <= s * s)
             (leaves c) /\
      match l, r with
      | Some x, Some y =>
          0 < s /\ getN d = (cellN x + cellN y)%Z /\
          cell_ok metric x /\ cell_ok metric y
      | None, None => s == 0 /\ getN d = 1%Z
      | _, _ => False
      end
  end.

(** The parameters of an accumulator without binning tolerance whose u and
    v ranges leave out no triangle shape: b = bu = 0, minu = minv = 0,
    maxu >= 1 and maxv >= 1; the derived fields are the constructor's, the
    bins cover the ranges, and the square root of maxsep^2 is not below
    maxsep. *)
Definition exact_params (lm : Libm) (P : BaseCorr3) : Prop :=
  derived_ok lm P /\ bins_cover lm P /\
  _b P == 0 /\ _bu P == 0 /\
  _minu P == 0 /\ 1 <= _maxu P /\ _minv P == 0 /\ 1 <= _maxv P /\
  _maxsep P <= m_sqrt lm (_maxsepsq P).

(** The d2, u and v the code computes from the sorted squared sides
    a >= b >= c of a triangle (lines 700-822: d1, d2, d3 are the library
    square roots, u = d3 / d2, v = (d1 - d2) / d3) lie in the accepted
    ranges as the commit tests them (lines 930-952), and the shortest side
    d3 is positive. *)
Definition sides_ok (lm : Libm) (P : BaseCorr3) (a b c : double) : bool :=
  let d1 := m_sqrt lm a in
  let d2 := m_sqrt lm b in
  let d3 := m_sqrt lm c in
  (0 <? d3) && (_minsep P <=? d2) && (d2 <? _maxsep P) &&
  (_minu P <=? d3 / d2) && (d3 / d2 <? _maxu P) &&
  (_minv P <=? (d1 - d2) / d3) && ((d1 - d2) / d3 <? _maxv P).

(** The same for the triangle of three points, its squared sides put in
    decreasing order the way process111 does. *)
Definition triangle_ok (lm : Libm) (metric : MetricHelper) (P : BaseCorr3)
    (t : Cell * Cell * Cell) : bool :=
  let '(p1, p2, p3) := t in
  let x := DistSq metric (cellPos p2) (cellPos p3) 0 0 in
  let y := DistSq metric (cellPos p1) (cellPos p3) 0 0 in
  let z := DistSq metric (cellPos p1) (cellPos p2) 0 0 in
  let '(a, b, c) := pick (sigma111 x y z) x y z in
  sides_ok lm P a b c.

(** The pairs and the triples of elements of a list, each once, in the
    order of the list. *)
Fixpoint pairs_of {A : Type} (l : list A) : list (A * A) :=
  match l with
  | [] => []
  | x :: l' => map (pair x) l' ++ pairs_of l'
  end.

Definition one_two {A : Type} (xs : list A) (ps : list (A * A))
  : list (A * A * A) :=
  flat_map (fun x => map (fun yz => (x, fst yz, snd yz)) ps) xs.

Fixpoint triples_of {A : Type} (l : list A) : list (A * A * A) :=
  match l with
  | [] => []
  | x :: l' => one_two [x] (pairs_of l') ++ triples_of l'
  end.

(** The triangles of points an entry point has to count: three points of
    the field; one point of the first field and two of the second; one
    point of each of the three fields. *)
Definition entry_point_triples (e : Entry) : list (Cell * Cell * Cell) :=
  match e with
  | Auto _ field => triples_of (field_points field)
  | Cross12 _ _ _ field1 field2 =>
      one_two (field_points field1) (pairs_of (field_points field2))
  | Cross111 _ _ _ _ _ _ field1 field2 field3 =>
      one_two (field_points field1)
              (list_prod (field_points field2) (field_points field3))
  end.

(** Every triangle of points of the entry point has a positive shortest
    side and its d2, u and v in the accepted ranges of [P]. *)
Definition entry_triangles_ok (lm : Libm) (metric : MetricHelper)
    (P : BaseCorr3) (e : Entry) : bool :=
  forallb (triangle_ok lm metric P) (entry_point_triples e).

(** The squared distance of the centres of two cells. *)
Definition dsq (metric : MetricHelper) (x y : Cell) : double :=
  DistSq metric (cellPos x) (cellPos y) 0 0.

(** [(a, b, c)] holds the numbers [x], [y], [z] in decreasing order. *)
Definition sorted_of (a b c x y z : double) : Prop :=
  b <= a /\ c <= b /\
  exists s, let '(p, q, r) := pick s x y z in a == p /\ b == q /\ c == r.

(** The triangle of the three points is in range, however its squared
    sides are put in order. *)
Definition tri_inv (lm : Libm) (metric : MetricHelper) (P : BaseCorr3)
    (x1 x2 x3 : Cell) : Prop :=
  forall a b c,
    sorted_of a b c (dsq metric x2 x3) (dsq metric x1 x3) (dsq metric x1 x2) ->
    sides_ok lm P a b c = true.

(** Every triangle with one point in each of three lists, with one point
    in the first list and two in the second, with three points in one
    list. *)
Definition pts111 (lm : Libm) (metric : MetricHelper) (P : BaseCorr3)
    (l1 l2 l3 : list Cell) : Prop :=
  forall x y z, In x l1 -> In y l2 -> In z l3 -> tri_inv lm metric P x y z.

Definition pts12 (lm : Libm) (metric : MetricHelper) (P : BaseCorr3)
    (l1 l2 : list Cell) : Prop :=
  forall x y z, In x l1 -> In (y, z) (pairs_of l2) -> tri_inv lm metric P x y z.

Definition pts3 (lm : Libm) (metric : MetricHelper) (P : BaseCorr3)
    (l : list Cell) : Prop :=
  forall x y z, In (x, y, z) (triples_of l) -> tri_inv lm metric P x y z.

(** A squared side handed to process111: 0 for "not known", or the squared
    distance of the two cells. *)
Definition known_dist (metric : MetricHelper) (x y : Cell) (e : double)
  : Prop :=
  e == 0 \/ e == dsq metric x y.

(** The arguments of the calls the recursion makes, with the cells a
    squared side that is handed on belongs to. *)
Definition rec_args_kept (sp : Split) (c1 c2 c3 : Cell)
    (d1sq d2sq d3sq : double) (x1 x2 x3 : Cell) (e1 e2 e3 : double) : Prop :=
  descend1 (eff1 sp) c1 x1 /\ descend1 (split2 sp) c2 x2 /\
  descend1 (split3 sp) c3 x3 /\
  (e1 = 0 \/ (e1 = d1sq /\ x2 = c2 /\ x3 = c3)) /\
  (e2 = 0 \/ (e2 = d2sq /\ x1 = c1 /\ x3 = c3)) /\
  (e3 = 0 \/ (e3 = d3sq /\ x1 = c1 /\ x2 = c2)).

(** A step that gives up no point triple. *)
Definition lossless (e : Event) : Prop := lost e == 0.
(** ** Concrete inputs used to run the model *)

(** b = 1, bu = 1/2, bv = 1; separations in [1, 100), u and v in [0, 1). *)
Definition P_wide : BaseCorr3 :=
  BaseCorr3_new test_libm Log 1 100 4 1 1 0 1 4 (1#4) (1#2) 0 1 4 (1#4) 1 0 0 0.

Definition one_acc : Sibs := mkSibs 0%nat 0%nat 0%nat 0%nat 0%nat 0%nat.

(** Three points with sides 13, 13, 10. *)
Definition iso_a : Cell := point (-5) 0.
Definition iso_b : Cell := point 5 0.
Definition iso_c : Cell := point 0 12.

(** b = bu = bv = 1/10; separations in [1, 16), u and v in [0, 1). *)
Definition P_fine : BaseCorr3 :=
  BaseCorr3_new test_libm Log 1 16 4 1 (1#10) 0 1 4 (1#4) (1#10)
                0 1 4 (1#4) (1#10) 0 0 0.

(** Four points and a tree over them. *)
Definition ptA : Cell := point 0 0.
Definition ptB : Cell := point 4 0.
Definition ptC : Cell := point 0 3.
Definition ptD : Cell := point 5 5.
Definition cellL : Cell := node 2 0 2 ptA ptB.
Definition cellR : Cell := node (5#2) 4 (27#10) ptC ptD.
Definition root4 : Cell := node (9#4) 2 (41#10) cellL cellR.

Definition field4 : Field := [root4].
Definition st0 : Store := [new_NNN P_fine].

Definition from_ok {A : Type} (d : A) (r : Result A) : A :=
  match r with Ok a => a | Fail _ => d end.

(** The auto entry point on the four points: its trace and its result. *)
Definition trace4 : Trace :=
  Eval vm_compute in
    from_ok [] (entry_trace false test_libm flat_metric 1
                            (Auto 0%nat field4) st0).

Definition st4 : Store :=
  Eval vm_compute in
    from_ok [] (run_entry false test_libm flat_metric no_projection 1
                          (Auto 0%nat field4) st0).

(** The sorted order of the triangle with sides 13, 13, 10, and the [d2]
    stop111 hands back for it. *)
Definition iso_d2 : Q :=
  Eval vm_compute in
    snd (call_stop111 test_libm P_wide 169 169 100 0 0 0).

(** Two accumulators with the same binning. *)
Definition st_two : Store := Eval vm_compute in st4 ++ [new_NNN P_fine].

(** A thin cell whose centre is aligned with [ptA] and [ptB] while its two
    points are not. *)
Definition thin : Cell :=
  node 10 0 (1#10) (point 10 (1#10)) (point 10 (-1#10)).

(** Three and six accumulators with the same binning. *)
Definition st_three : Store := [new_NNN P_fine; new_NNN P_fine; new_NNN P_fine].
Definition st_six : Store := st_three ++ st_three.


(** A square root that rounds up to a multiple of 2^-20: positive on the
    positive numbers. *)
Definition up_sqrt (x : double) : double :=
  if 0 <? x then dyadic_sqrt x + (1 # 1048576) else 0.

Definition up_libm : Libm := mkLibm up_sqrt coarse_log.

(** The traversal of the four points with the square root rounded up. *)
Definition trace4_up : Trace :=
  Eval vm_compute in
    from_ok [] (traverse false up_libm flat_metric (fun _ => P_fine)
                         (CallAuto 0%nat field4)).

(** An accumulator as [new double[ntot]] may leave it: arrays of the right
    length holding anything. *)
Definition junk (k : nat) : array := repeat (inject_Z (Z.of_nat k) + 7) 128.


(** No binning tolerance (b = bu = bv = 0); separations in [1, 128), u and
    v in [0, 2). *)
Definition P_exact : BaseCorr3 :=
  BaseCorr3_new test_libm Log 1 128 7 1 0 0 2 4 (1#2) 0 0 2 4 (1#2) 0 0 0 0.

(** Three cells of two points each, of sizes 1, 2 and 4, far from each
    other. *)
Definition k1 : Cell := node 0 0 1 (point (-1) 0) (point 1 0).
Definition k2 : Cell := node 20 0 2 (point 18 0) (point 22 0).
Definition k3 : Cell := node 0 30 4 (point 0 26) (point 0 34).

Definition st_exact : Store := [new_NNN P_exact].
Definition field_k : Field := [k1; k2; k3].

(** The auto entry point on the six points of [field_k]. *)
Definition st_k : Store :=
  Eval vm_compute in
    from_ok [] (run_entry false test_libm flat_metric no_projection 1
                          (Auto 0%nat field_k) st_exact).

(** No binning tolerance, u in [0, 2) and v in [0, 1/3). *)
Definition P_third : BaseCorr3 :=
  BaseCorr3_new test_libm Log 1 128 7 1 0 0 2 4 (1#2) 0 0 (1#3) 4 (1#12) 0 0 0 0.

(** Three points: an isosceles triangle whose long side is just above 4/3
    of the two others. *)
Definition q1 : Cell := point 0 0.
Definition q2 : Cell := point (- (8388611 # 4194304)) (2236069 # 1000000).
Definition q3 : Cell := point (8388611 # 4194304) (2236069 # 1000000).
Definition field_q : Field := [q1; q2; q3].
Definition st_third : Store := [new_NNN P_third].
(** * Properties *)

(** ** Comparisons of doubles *)

Lemma dlt_true (x y : double) : (x <? y) = true <-> x < y.
Proof.
  unfold dlt. rewrite negb_true_iff, <- not_true_iff_false, Qle_bool_iff.
  split; [apply Qnot_le_lt | apply Qlt_not_le].
Qed.

Lemma dlt_false (x y : double) : (x <? y) = false <-> y <= x.
Proof.
  unfold dlt. rewrite negb_false_iff. apply Qle_bool_iff.
Qed.

Lemma dle_true (x y : double) : (x <=? y) = true <-> x <= y.
Proof. apply Qle_bool_iff. Qed.

Lemma dle_false (x y : double) : (x <=? y) = false <-> y < x.
Proof.
  unfold dle. rewrite <- not_true_iff_false, Qle_bool_iff.
  split; [apply Qnot_le_lt | apply Qlt_not_le].
Qed.

Lemma dgt_true (x y : double) : (x >? y) = true <-> y < x.
Proof. apply dlt_true. Qed.

Lemma dgt_false (x y : double) : (x >? y) = false <-> x <= y.
Proof. apply dlt_false. Qed.

Lemma dge_true (x y : double) : (x >=? y) = true <-> y <= x.
Proof. apply dle_true. Qed.

Lemma dge_false (x y : double) : (x >=? y) = false <-> x < y.
Proof. apply dle_false. Qed.

Lemma deq_true (x y : double) : (x =? y) = true <-> x == y.
Proof. apply Qeq_bool_iff. Qed.

Lemma deq_false (x y : double) : (x =? y) = false <-> ~ x == y.
Proof.
  unfold deq. rewrite <- not_true_iff_false, Qeq_bool_iff. tauto.
Qed.

(** Turn the boolean tests of the hypotheses and of the goal into
    propositions of [Q]. *)
Ltac dbl_hyps :=
  repeat match goal with
  | H : (_ && _) = true |- _ => apply andb_true_iff in H; destruct H
  | H : (_ || _) = false |- _ => apply orb_false_iff in H; destruct H
  | H : negb _ = true |- _ => apply negb_true_iff in H
  | H : negb _ = false |- _ => apply negb_false_iff in H
  | H : (_ <? _) = true |- _ => apply dlt_true in H
  | H : (_ <? _) = false |- _ => apply dlt_false in H
  | H : (_ <=? _) = true |- _ => apply dle_true in H
  | H : (_ <=? _) = false |- _ => apply dle_false in H
  | H : (_ >? _) = true |- _ => apply dgt_true in H
  | H : (_ >? _) = false |- _ => apply dgt_false in H
  | H : (_ >=? _) = true |- _ => apply dge_true in H
  | H : (_ >=? _) = false |- _ => apply dge_false in H
  | H : (_ =? _) = true |- _ => apply deq_true in H
  | H : (_ =? _) = false |- _ => apply deq_false in H
  end.

Ltac dbl_goal :=
  repeat match goal with
  | |- (_ && _) = true => apply andb_true_iff; split
  | |- (_ || _) = false => apply orb_false_iff; split
  | |- negb _ = true => apply negb_true_iff
  | |- negb _ = false => apply negb_false_iff
  | |- (_ <? _) = true => apply dlt_true
  | |- (_ <? _) = false => apply dlt_false
  | |- (_ <=? _) = true => apply dle_true
  | |- (_ <=? _) = false => apply dle_false
  | |- (_ >? _) = true => apply dgt_true
  | |- (_ >? _) = false => apply dgt_false
  | |- (_ >=? _) = true => apply dge_true
  | |- (_ >=? _) = false => apply dge_false
  | |- (_ =? _) = true => apply deq_true
  | |- (_ =? _) = false => apply deq_false
  end.

(** ** stop111 and the split decision *)

(** When stop111 lets a triple through, the [d2] it hands back is the
    square root of [d2sq]. *)
Lemma stop111_false_d2 lm d1sq d2sq d3sq d0 s1 s2 s3
      a1 a2 a3 a4 a5 a6 a7 a8 a9 a10 a11 a12 d2 :
  stop111 lm d1sq d2sq d3sq d0 s1 s2 s3 a1 a2 a3 a4 a5 a6 a7 a8 a9 a10 a11 a12
    = (false, d2) ->
  d2 = m_sqrt lm d2sq.
Proof.
  unfold stop111.
  repeat match goal with
  | |- context [if ?c then (true, _) else _] => destruct c
  end; intros H; inversion H; reflexivity.
Qed.

Lemma call_stop111_d2 lm P d1sq d2sq d3sq s1 s2 s3 d2 :
  call_stop111 lm P d1sq d2sq d3sq s1 s2 s3 = (false, d2) ->
  d2 = m_sqrt lm d2sq.
Proof. apply stop111_false_d2. Qed.

Lemma split3_decide lm P d1sq d2sq d3sq d2 s1 s2 s3 :
  split3 (decide_split lm P d1sq d2sq d3sq d2 s1 s2 s3)
  = split3_of (_b P) (_bu P) (_bv P) d2 d2sq d3sq s1 s3.
Proof.
  unfold decide_split.
  destruct (split3_of _ _ _ _ _ _ _ _) eqn:E; [reflexivity|].
  repeat match goal with
  | |- context [if ?c then _ else _] => destruct c
  end; reflexivity.
Qed.

(** C3, as the code has it: c3 is split if and only if s3 > 0 and one of
    s3 > b d2; s1+s3 > b d2 with s3 >= s1; bu < b and
    s3^2 d3^2 > (bu d2^2)^2, that is s3 d3 > bu d2^2; bv < b and s3 > bv d2.
    Here d2 is the square root stop111 computed for the surviving triple. *)
Theorem split3_iff_code lm P d1sq d2sq d3sq s1 s2 s3 d2 :
  0 <= s1 ->
  call_stop111 lm P d1sq d2sq d3sq s1 s2 s3 = (false, d2) ->
  d2 = m_sqrt lm d2sq /\
  (split3 (decide_split lm P d1sq d2sq d3sq d2 s1 s2 s3) = true <->
   0 < s3 /\
   (_b P * d2 < s3 \/
    (_b P * d2 < s1 + s3 /\ s1 <= s3) \/
    (_bu P < _b P /\ SQR (_bu P * d2sq) < SQR s3 * d3sq) \/
    (_bv P < _b P /\ _bv P * d2 < s3))).
Proof.
  intros Hs1 Hstop. split; [eapply call_stop111_d2; eauto|].
  rewrite split3_decide. unfold split3_of.
  rewrite andb_true_iff, !orb_true_iff, !andb_true_iff.
  rewrite !dgt_true, !dlt_true, !dge_true.
  split.
  - intros [H3 [[[H | [[_ H] H']] | H] | H]]; split; auto.
    + left. lra.
    + right; left. lra.
    + right; right; right. lra.
  - intros [H3 [H | [[H H'] | [H | H]]]]; split; auto.
    + left; left; left. lra.
    + left; left; right. repeat split; lra.
    + right. lra.
Qed.

(** A triple with sides 10, 10, 6 and a third cell of size 1, which stop111
    lets through: the test of the specification
    (s3^2 d3^2 = 36 > bu^2 d2^2 = 25) asks for a split of c3, the source
    (36 > (bu d2^2)^2 = 2500) does not split it. *)
Lemma split3_spec_differs :
  let d2 := snd (call_stop111 test_libm P_wide 100 100 36 0 0 1) in
  fst (call_stop111 test_libm P_wide 100 100 36 0 0 1) = false /\
  ~ (split3 (decide_split test_libm P_wide 100 100 36 d2 0 0 1) = true <->
     split3_spec (_b P_wide) (_bu P_wide) (_bv P_wide) d2 100 36 0 1 = true).
Proof.
  cbv zeta. split; [vm_compute; reflexivity|].
  intros [_ H].
  assert (E : split3 (decide_split test_libm P_wide 100 100 36
                 (snd (call_stop111 test_libm P_wide 100 100 36 0 0 1)) 0 0 1)
              = false) by (vm_compute; reflexivity).
  rewrite E in H. discriminate H. vm_compute; reflexivity.
Qed.

Lemma split3_iff_code_witness :
  let d2 := snd (call_stop111 test_libm P_wide 100 100 36 0 0 1) in
  0 <= 0 /\
  call_stop111 test_libm P_wide 100 100 36 0 0 1 = (false, d2) /\
  (d2 = m_sqrt test_libm 100 /\
   (split3 (decide_split test_libm P_wide 100 100 36 d2 0 0 1) = true <->
    0 < 1 /\
    (_b P_wide * d2 < 1 \/
     (_b P_wide * d2 < 0 + 1 /\ 0 <= 1) \/
     (_bu P_wide < _b P_wide /\ SQR (_bu P_wide * 100) < SQR 1 * 36) \/
     (_bv P_wide < _b P_wide /\ _bv P_wide * d2 < 1)))).
Proof.
  split; [apply Qle_refl|]. split; [vm_compute; reflexivity|].
  apply (split3_iff_code test_libm P_wide 100 100 36 0 0 1).
  - apply Qle_refl.
  - vm_compute; reflexivity.
Defined.

(** ** The spin-2 kernel *)

(** C6: the GGG commit adds to gam0r ... gam3i, at the committed bin, the
    eight numbers of [ggg_increments] for the projected shears, and these
    are the real and imaginary parts of g1 g2 g3, conj(g1) g2 g3,
    g1 conj(g2) g3 and g1 g2 conj(g3). *)
Theorem ggg_kernel_equiv (project : Projection) (c1 c2 c3 : Cell)
    (d1 d2 d3 : double) (z0 z1 z2 z3 z4 z5 z6 z7 : array) (index : nat)
    (g1 g2 g3 : Cplx) :
  let g := ggg_increments g1 g2 g3 in
  (project c1 c2 c3 (getWG (getData c1)) (getWG (getData c2))
           (getWG (getData c3)) = (g1, g2, g3) ->
   ProcessZeta project c1 c2 c3 d1 d2 d3 (ZetaG z0 z1 z2 z3 z4 z5 z6 z7) index
   = ZetaG (add_at index (d_gam0r g) z0) (add_at index (d_gam0i g) z1)
           (add_at index (d_gam1r g) z2) (add_at index (d_gam1i g) z3)
           (add_at index (d_gam2r g) z4) (add_at index (d_gam2i g) z5)
           (add_at index (d_gam3r g) z6) (add_at index (d_gam3i g) z7)) /\
  d_gam0r g == fst (gam0_spec g1 g2 g3) /\
  d_gam0i g == snd (gam0_spec g1 g2 g3) /\
  d_gam1r g == fst (gam1_spec g1 g2 g3) /\
  d_gam1i g == snd (gam1_spec g1 g2 g3) /\
  d_gam2r g == fst (gam2_spec g1 g2 g3) /\
  d_gam2i g == snd (gam2_spec g1 g2 g3) /\
  d_gam3r g == fst (gam3_spec g1 g2 g3) /\
  d_gam3i g == snd (gam3_spec g1 g2 g3).
Proof.
  destruct g1 as [g1r g1i], g2 as [g2r g2i], g3 as [g3r g3i].
  split.
  - intros Hp. unfold ProcessZeta. rewrite Hp. reflexivity.
  - unfold ggg_increments, gam0_spec, gam1_spec, gam2_spec, gam3_spec,
      Cmul, Cconj; cbn [fst snd d_gam0r d_gam0i d_gam1r d_gam1i d_gam2r
      d_gam2i d_gam3r d_gam3i].
    repeat split; ring.
Qed.

(** ** process111: sorting and routing *)

Lemma sort111_sigma A c1 c2 c3 d1sq d2sq d3sq :
  let so := sort111 A c1 c2 c3 d1sq d2sq d3sq in
  let s := sigma111 d1sq d2sq d3sq in
  (so_c1 so, so_c2 so, so_c3 so) = pick s c1 c2 c3 /\
  (so_d1sq so, so_d2sq so, so_d3sq so) = pick s d1sq d2sq d3sq /\
  (forall t, slot (so_sibs so) t = slot A (compose s t)).
Proof.
  unfold sort111, sigma111.
  destruct (d1sq >? d2sq), (d2sq >? d3sq), (d1sq >? d3sq); cbn;
    (split; [reflexivity | split; [reflexivity | intros []; reflexivity]]).
Qed.

Lemma sort111_sorted A c1 c2 c3 d1sq d2sq d3sq :
  let so := sort111 A c1 c2 c3 d1sq d2sq d3sq in
  so_d2sq so <= so_d1sq so /\ so_d3sq so <= so_d2sq so.
Proof.
  unfold sort111.
  destruct (d1sq >? d2sq) eqn:E12, (d2sq >? d3sq) eqn:E23,
           (d1sq >? d3sq) eqn:E13; cbn; dbl_hyps; split; lra.
Qed.

(** C5: a call of process111 on three cells of nonzero weight is one call of
    process111Sorted; its squared sides are in decreasing order, its cells
    and sides are those of the caller in one of the six orders [s], it is
    run by the accumulator of the slot [s], and the accumulator it holds in
    a slot [t] is the caller's accumulator of the slot [compose s t]. *)
Theorem process111_sorts_and_routes fuel chk lm metric params A c1 c2 c3
    d1sq d2sq d3sq :
  ~ cellW c1 == 0 -> ~ cellW c2 == 0 -> ~ cellW c3 == 0 ->
  let '(e1, e2, e3) := dists111 metric c1 c2 c3 d1sq d2sq d3sq in
  let s := sigma111 e1 e2 e3 in
  exists B c1' c2' c3' f1 f2 f3,
    process111_fuel (S fuel) chk lm metric params A c1 c2 c3 d1sq d2sq d3sq
    = process111Sorted chk lm metric params
        (process111_fuel fuel chk lm metric params) B c1' c2' c3' f1 f2 f3 /\
    f2 <= f1 /\ f3 <= f2 /\
    (c1', c2', c3') = pick s c1 c2 c3 /\
    (f1, f2, f3) = pick s e1 e2 e3 /\
    a123 B = slot A s /\
    (forall t, slot B t = slot A (compose s t)).
Proof.
  intros H1 H2 H3.
  destruct (dists111 metric c1 c2 c3 d1sq d2sq d3sq) as [[e1 e2] e3] eqn:Ed.
  pose proof (sort111_sigma A c1 c2 c3 e1 e2 e3) as Hs.
  pose proof (sort111_sorted A c1 c2 c3 e1 e2 e3) as Ho.
  cbv zeta in Hs, Ho. destruct Hs as (Hc & Hd & Hr). destruct Ho as (Ho1 & Ho2).
  exists (so_sibs (sort111 A c1 c2 c3 e1 e2 e3)),
         (so_c1 (sort111 A c1 c2 c3 e1 e2 e3)),
         (so_c2 (sort111 A c1 c2 c3 e1 e2 e3)),
         (so_c3 (sort111 A c1 c2 c3 e1 e2 e3)),
         (so_d1sq (sort111 A c1 c2 c3 e1 e2 e3)),
         (so_d2sq (sort111 A c1 c2 c3 e1 e2 e3)),
         (so_d3sq (sort111 A c1 c2 c3 e1 e2 e3)).
  repeat split; auto.
  - cbn [process111_fuel].
    apply deq_false in H1, H2, H3. rewrite H1, H2, H3, Ed. reflexivity.
  - specialize (Hr p123). cbn [slot] in Hr. rewrite Hr.
    destruct (sigma111 e1 e2 e3); reflexivity.
Qed.

(** ** Traces *)

Lemma seq_tr_Ok (r1 r2 : Result Trace) (t : Trace) :
  (r1 ;; r2) = Ok t ->
  exists t1 t2, r1 = Ok t1 /\ r2 = Ok t2 /\ t = t1 ++ t2.
Proof.
  destruct r1 as [t1|], r2 as [t2|]; cbn; intros H; inversion H.
  exists t1, t2. auto.
Qed.

Lemma Assert_Ok {A} chk s cond (k : Result A) (a : A) :
  Assert chk s cond k = Ok a -> k = Ok a.
Proof. unfold Assert. destruct (chk && negb cond); [discriminate | auto]. Qed.

Lemma deref_Ok {A} chk s o (k : Cell -> Result A) (a : A) :
  deref chk s o k = Ok a -> exists c, o = Some c /\ k c = Ok a.
Proof. destruct o as [c|]; cbn; [eauto | destruct chk; discriminate]. Qed.

(** Split a hypothesis [r1 ;; ... ;; rn = Ok t] into its components. *)
Ltac seq_inv H :=
  let t1 := fresh "t" in let t2 := fresh "t" in
  let H1 := fresh "Hr" in let H2 := fresh "Hr" in let E := fresh "Et" in
  apply seq_tr_Ok in H; destruct H as (t1 & t2 & H1 & H2 & E);
  try seq_inv H2.

Ltac deref_inv H :=
  repeat (let c := fresh "ch" in let E := fresh "Ech" in
          apply deref_Ok in H; destruct H as (c & E & H)).

(** Induction on a cell with its children. *)
Lemma Cell_children_ind (Pr : Cell -> Prop) :
  (forall d s l r,
      (forall x, l = Some x -> Pr x) -> (forall y, r = Some y -> Pr y) ->
      Pr (mkCell d s l r)) ->
  forall c, Pr c.
Proof.
  intros H. fix IH 1. intros [d s l r].
  apply H.
  - destruct l as [x|]; intros z E; [|discriminate].
    pose proof (IH x) as Hx. inversion E; subst; exact Hx.
  - destruct r as [y|]; intros z E; [|discriminate].
    pose proof (IH y) as Hy. inversion E; subst; exact Hy.
Qed.

(** What a property of the events needs in order to hold along a whole
    traversal: it holds at every early return and at the commits of
    process111Sorted on sorted sides. *)
Section TraceInvariant.
Variables (chk : bool) (lm : Libm) (metric : MetricHelper)
          (params : Acc -> BaseCorr3).
Variable Q : Event -> Prop.

Hypothesis Q_ret3 : forall r c, Q (Ret3 r c).
Hypothesis Q_ret12 : forall r a c1 c2, Q (Ret12 r a c1 c2).
Hypothesis Q_ret111 : forall r a c1 c2 c3, Q (Ret111 r a c1 c2 c3).
Hypothesis Q_commit :
  forall self c1 c2 c3 d1sq d2sq d3sq d2 t,
    d2sq <= d1sq -> d3sq <= d2sq ->
    call_stop111 lm (params self) d1sq d2sq d3sq
                 (getSize c1) (getSize c2) (getSize c3) = (false, d2) ->
    let sp := decide_split lm (params self) d1sq d2sq d3sq d2
                           (getSize c1) (getSize c2) (getSize c3) in
    split sp = false ->
    commit111 chk lm metric (params self) self c1 c2 c3
              (sp_d1 sp) d2 (sp_d3 sp) (sp_u sp) (sp_v sp) = Ok t ->
    Forall Q t.

Lemma split_calls_inv (rec : Proc111) A c1 c2 c3 d1sq d2sq d3sq sp t :
  (forall B x1 x2 x3 e1 e2 e3 t',
      rec B x1 x2 x3 e1 e2 e3 = Ok t' -> Forall Q t') ->
  split_calls chk rec A c1 c2 c3 d1sq d2sq d3sq sp = Ok t ->
  Forall Q t.
Proof.
  intros Hrec. unfold split_calls.
  destruct (split3 sp), (split2 sp), (split1 sp); intros H;
    deref_inv H; seq_inv H; subst;
    repeat (apply Forall_app; split); eauto.
Qed.

Lemma process111Sorted_inv (rec : Proc111) A c1 c2 c3 d1sq d2sq d3sq t :
  (forall B x1 x2 x3 e1 e2 e3 t',
      rec B x1 x2 x3 e1 e2 e3 = Ok t' -> Forall Q t') ->
  d2sq <= d1sq -> d3sq <= d2sq ->
  process111Sorted chk lm metric params rec A c1 c2 c3 d1sq d2sq d3sq = Ok t ->
  Forall Q t.
Proof.
  intros Hrec H12 H23. unfold process111Sorted. intros H.
  apply Assert_Ok in H.
  destruct (call_stop111 _ _ _ _ _ _ _ _) as [stop d2] eqn:Es.
  destruct stop.
  - inversion H; subst. repeat constructor. apply Q_ret111.
  - destruct (split _) eqn:Esp.
    + apply Assert_Ok in H. eapply split_calls_inv; eauto.
    + exact (Q_commit (a123 A) c1 c2 c3 d1sq d2sq d3sq d2 t H12 H23 Es Esp H).
Qed.

Lemma process111_fuel_inv fuel : forall A c1 c2 c3 d1sq d2sq d3sq t,
  process111_fuel fuel chk lm metric params A c1 c2 c3 d1sq d2sq d3sq = Ok t ->
  Forall Q t.
Proof.
  induction fuel as [|fuel IH]; intros A c1 c2 c3 d1sq d2sq d3sq t H.
  - discriminate.
  - cbn [process111_fuel] in H.
    destruct (cellW c1 =? 0);
      [inversion H; subst; repeat constructor; apply Q_ret111|].
    destruct (cellW c2 =? 0);
      [inversion H; subst; repeat constructor; apply Q_ret111|].
    destruct (cellW c3 =? 0);
      [inversion H; subst; repeat constructor; apply Q_ret111|].
    destruct (dists111 _ _ _ _ _ _ _) as [[e1 e2] e3].
    pose proof (sort111_sorted A c1 c2 c3 e1 e2 e3) as [Ho1 Ho2].
    eapply process111Sorted_inv with (4 := H); eauto.
Qed.

Lemma process111_inv A c1 c2 c3 d1sq d2sq d3sq t :
  process111 chk lm metric params A c1 c2 c3 d1sq d2sq d3sq = Ok t ->
  Forall Q t.
Proof. apply process111_fuel_inv. Qed.

Lemma process12_inv : forall c2 self bc212 bc221 c1 t,
  process12 chk lm metric params self bc212 bc221 c1 c2 = Ok t ->
  Forall Q t.
Proof.
  induction c2 as [d s l r IHl IHr] using Cell_children_ind.
  intros self bc212 bc221 c1 t H. cbn [process12] in H.
  repeat match type of H with
  | (if ?c then Ok _ else _) = Ok _ =>
      destruct c; [inversion H; subst; repeat constructor; apply Q_ret12|]
  end.
  destruct l as [x|]; [|destruct chk; discriminate].
  destruct r as [y|]; [|destruct chk; discriminate].
  seq_inv H. subst.
  repeat (apply Forall_app; split); eauto using process111_inv.
Qed.

Lemma process3_inv : forall c1 self t,
  process3 chk lm metric params self c1 = Ok t -> Forall Q t.
Proof.
  induction c1 as [d s l r IHl IHr] using Cell_children_ind.
  intros self t H. cbn [process3] in H.
  repeat match type of H with
  | (if ?c then Ok _ else _) = Ok _ =>
      destruct c; [inversion H; subst; repeat constructor; apply Q_ret3|]
  end.
  destruct l as [x|]; [|destruct chk; discriminate].
  destruct r as [y|]; [|destruct chk; discriminate].
  seq_inv H. subst.
  repeat (apply Forall_app; split); eauto using process12_inv.
Qed.

Lemma loop111_inv A c1 c2 cs : forall t,
  loop111 chk lm metric params A c1 c2 cs = Ok t -> Forall Q t.
Proof.
  induction cs as [|c3 cs IH]; intros t H; cbn [loop111] in H.
  - inversion H. constructor.
  - seq_inv H. subst. apply Forall_app; split; eauto using process111_inv.
Qed.

Lemma auto_j_inv bc3 c1 cs : forall t,
  auto_j chk lm metric params bc3 c1 cs = Ok t -> Forall Q t.
Proof.
  induction cs as [|c2 cs IH]; intros t H; cbn [auto_j] in H.
  - inversion H. constructor.
  - seq_inv H. subst.
    repeat (apply Forall_app; split);
      eauto using process12_inv, loop111_inv.
Qed.

Lemma auto_i_inv bc3 cs : forall t,
  auto_i chk lm metric params bc3 cs = Ok t -> Forall Q t.
Proof.
  induction cs as [|c1 cs IH]; intros t H; cbn [auto_i] in H.
  - inversion H. constructor.
  - seq_inv H. subst.
    repeat (apply Forall_app; split);
      eauto using process3_inv, auto_j_inv.
Qed.

Lemma cross12_j_inv a b c c1 cs : forall t,
  cross12_j chk lm metric params a b c c1 cs = Ok t -> Forall Q t.
Proof.
  induction cs as [|c2 cs IH]; intros t H; cbn [cross12_j] in H.
  - inversion H. constructor.
  - seq_inv H. subst.
    repeat (apply Forall_app; split);
      eauto using process12_inv, loop111_inv.
Qed.

Lemma cross12_i_inv a b c f1 f2 : forall t,
  cross12_i chk lm metric params a b c f1 f2 = Ok t -> Forall Q t.
Proof.
  induction f1 as [|c1 f1 IH]; intros t H; cbn [cross12_i] in H.
  - inversion H. constructor.
  - seq_inv H. subst.
    apply Forall_app; split; eauto using cross12_j_inv.
Qed.

Lemma cross_j_inv A c1 f2 f3 : forall t,
  cross_j chk lm metric params A c1 f2 f3 = Ok t -> Forall Q t.
Proof.
  induction f2 as [|c2 f2 IH]; intros t H; cbn [cross_j] in H.
  - inversion H. constructor.
  - seq_inv H. subst. apply Forall_app; split; eauto using loop111_inv.
Qed.

Lemma cross_i_inv A f1 f2 f3 : forall t,
  cross_i chk lm metric params A f1 f2 f3 = Ok t -> Forall Q t.
Proof.
  induction f1 as [|c1 f1 IH]; intros t H; cbn [cross_i] in H.
  - inversion H. constructor.
  - seq_inv H. subst. apply Forall_app; split; eauto using cross_j_inv.
Qed.
End TraceInvariant.

(** ** The commits of a traversal *)

Lemma decide_split_nosplit lm P d1sq d2sq d3sq d2 s1 s2 s3 :
  let sp := decide_split lm P d1sq d2sq d3sq d2 s1 s2 s3 in
  split sp = false ->
  sp_d1 sp = m_sqrt lm d1sq /\ sp_d3 sp = m_sqrt lm d3sq /\
  sp_u sp = m_sqrt lm d3sq / d2 /\
  sp_v sp = (m_sqrt lm d1sq - d2) / m_sqrt lm d3sq.
Proof.
  unfold decide_split.
  repeat match goal with
  | |- context [if ?c then _ else _] => destruct c
  end; cbn; intros H; try discriminate; auto.
Qed.

Lemma commit111_cases chk lm metric P self c1 c2 c3 d1 d2 d3 u v t :
  commit111 chk lm metric P self c1 c2 c3 d1 d2 d3 u v = Ok t ->
  let ccw := CCW metric (cellPos c1) (cellPos c2) (cellPos c3) in
  let B := binning P ccw (m_log lm d2) u v in
  (exists r, t = [Ret111 r self c1 c2 c3]) \/
  (t = [Direct111 self c1 c2 c3 d1 d2 d3 (m_log lm d2) u (b_v B) (b_index B)] /\
   (_minsep P <= d2 /\ d2 < _maxsep P) /\
   (_minu P <= u /\ u < _maxu P) /\
   (_minv P <= v /\ v < _maxv P) /\
   (0 <= b_index B < _ntot P)%Z).
Proof.
  unfold commit111. intros H. apply Assert_Ok in H.
  destruct ((d2 <? _minsep P) || (d2 >=? _maxsep P)) eqn:E1;
    [inversion H; eauto|].
  destruct ((u <? _minu P) || (u >=? _maxu P)) eqn:E2; [inversion H; eauto|].
  destruct ((v <? _minv P) || (v >=? _maxv P)) eqn:E3; [inversion H; eauto|].
  apply Assert_Ok in H.
  match type of H with (if ?c then _ else _) = _ => destruct c eqn:E4 end;
    [inversion H; eauto|].
  inversion H; subst. right. dbl_hyps.
  apply Z.ltb_ge in H0. rewrite Z.geb_leb in H1. apply Z.leb_gt in H1.
  repeat split; auto; lia.
Qed.

(** Every call of directProcess111 made by a traversal satisfies
    [commit_ok]. *)
Lemma commit111_commit_ok chk lm metric params :
  forall self c1 c2 c3 d1sq d2sq d3sq d2 t,
    d2sq <= d1sq -> d3sq <= d2sq ->
    call_stop111 lm (params self) d1sq d2sq d3sq
                 (getSize c1) (getSize c2) (getSize c3) = (false, d2) ->
    let sp := decide_split lm (params self) d1sq d2sq d3sq d2
                           (getSize c1) (getSize c2) (getSize c3) in
    split sp = false ->
    commit111 chk lm metric (params self) self c1 c2 c3
              (sp_d1 sp) d2 (sp_d3 sp) (sp_u sp) (sp_v sp) = Ok t ->
    Forall (commit_ok lm metric params) t.
Proof.
  intros self c1 c2 c3 d1sq d2sq d3sq d2 t H12 H23 Hstop sp Hsp H.
  apply call_stop111_d2 in Hstop.
  destruct (decide_split_nosplit lm (params self) d1sq d2sq d3sq d2
              (getSize c1) (getSize c2) (getSize c3) Hsp)
    as (E1 & E3 & Eu & Ev).
  fold sp in E1, E3, Eu, Ev.
  apply commit111_cases in H. cbv zeta in H.
  destruct H as [[r ->] | (-> & Hd & Hu & Hv & Hi)].
  - repeat constructor.
  - repeat constructor. cbn.
    exists d1sq, d2sq, d3sq, (sp_v sp).
    rewrite E1, E3, Eu, Ev in *. subst d2.
    repeat split; auto; tauto.
Qed.

Lemma traverse_inv chk lm metric params (Q : Event -> Prop) :
  (forall r c, Q (Ret3 r c)) ->
  (forall r a c1 c2, Q (Ret12 r a c1 c2)) ->
  (forall r a c1 c2 c3, Q (Ret111 r a c1 c2 c3)) ->
  (forall self c1 c2 c3 d1sq d2sq d3sq d2 t,
      d2sq <= d1sq -> d3sq <= d2sq ->
      call_stop111 lm (params self) d1sq d2sq d3sq
                   (getSize c1) (getSize c2) (getSize c3) = (false, d2) ->
      let sp := decide_split lm (params self) d1sq d2sq d3sq d2
                             (getSize c1) (getSize c2) (getSize c3) in
      split sp = false ->
      commit111 chk lm metric (params self) self c1 c2 c3
                (sp_d1 sp) d2 (sp_d3 sp) (sp_u sp) (sp_v sp) = Ok t ->
      Forall Q t) ->
  forall call t, traverse chk lm metric params call = Ok t -> Forall Q t.
Proof.
  intros Q3 Q12 Q111 Qc [] t H; cbn [traverse] in H.
  - eapply process111_fuel_inv; eauto.
  - eapply process12_inv; eauto.
  - eapply process3_inv; eauto.
  - eapply auto_i_inv; eauto.
  - eapply cross12_i_inv; eauto.
  - eapply cross_i_inv; eauto.
Qed.

Lemma traverse_commit_ok chk lm metric params call t :
  traverse chk lm metric params call = Ok t ->
  Forall (commit_ok lm metric params) t.
Proof.
  apply traverse_inv; try (intros; exact I).
  apply commit111_commit_ok.
Qed.

(** The unsigned v of a sorted triple is not negative. *)
Lemma unsigned_v_nonneg lm d1sq d2sq d3sq :
  sqrt_ok lm -> d2sq <= d1sq ->
  0 <= (m_sqrt lm d1sq - m_sqrt lm d2sq) / m_sqrt lm d3sq.
Proof.
  intros [Hpos Hmono] H12.
  apply Qmult_le_0_compat.
  - specialize (Hmono _ _ H12). lra.
  - apply Qinv_le_0_compat, Hpos.
Qed.

Lemma commit_ok_in_range lm metric params e :
  sqrt_ok lm -> commit_ok lm metric params e -> in_range params e.
Proof.
  intros Hs. destruct e; cbn; auto.
  intros (d1sq & d2sq & d3sq & v0 & H12 & H23 & E1 & E2 & E3 & Eu & Ev &
          El & Hd & Hu & Hv & Evs & Ei & Hi).
  pose proof (unsigned_v_nonneg lm d1sq d2sq d3sq Hs H12) as Hv0.
  rewrite <- E1, <- E2, <- E3, <- Ev in Hv0.
  assert (Ea : Qabs v == v0).
  { rewrite Evs. destruct (CCW _ _ _ _); cbn [negb].
    - apply Qabs_pos, Hv0.
    - rewrite Qabs_opp. apply Qabs_pos, Hv0. }
  repeat split; try tauto; rewrite Ea; tauto.
Qed.

(** C2: whatever call of the traversal is run (process111 with any bound,
    process12, process3 or the loops of an entry point), every call of
    directProcess111 it makes, on whichever accumulator, has
    minsep <= d2 < maxsep, minu <= u < maxu and minv <= |v| < maxv for the
    parameters of that accumulator; the other steps write nothing. *)
Theorem commits_in_range chk lm metric params call t :
  sqrt_ok lm ->
  traverse chk lm metric params call = Ok t ->
  Forall (in_range params) t /\
  (forall project e st,
      In e t -> is_commit e = false -> apply_event lm project st e = st).
Proof.
  intros Hs H. split.
  - apply traverse_commit_ok in H.
    eapply Forall_impl; [|exact H].
    intros e. apply commit_ok_in_range, Hs.
  - intros project [] st _ He; try reflexivity. discriminate.
Qed.

Lemma inject_Z_nonneg (z : Z) : (0 <= z)%Z -> 0 <= inject_Z z.
Proof. intros H. unfold Qle; cbn. lia. Qed.

(** The square root used to run the model satisfies [sqrt_ok]. *)
Lemma dyadic_sqrt_ok : sqrt_ok test_libm.
Proof.
  assert (Hc : forall k, 0 <= inject_Z (2 ^ k)).
  { intros k. apply inject_Z_nonneg, Z.pow_nonneg. lia. }
  split; cbn [m_sqrt test_libm]; unfold dyadic_sqrt.
  - intros x. apply Qmult_le_0_compat.
    + apply inject_Z_nonneg, Z.sqrt_nonneg.
    + apply Qinv_le_0_compat, Hc.
  - intros x y Hxy. apply Qmult_le_compat_r.
    + rewrite <- Zle_Qle. apply Z.sqrt_le_mono, Qfloor_resp_le.
      apply Qmult_le_compat_r; [exact Hxy | apply Hc].
    + apply Qinv_le_0_compat, Hc.
Qed.

(** ** The sign of v *)

Lemma commit_ok_signed lm metric params e :
  sqrt_ok lm -> commit_ok lm metric params e -> signed_ok metric params e.
Proof.
  intros Hs. destruct e; cbn; auto.
  intros (d1sq & d2sq & d3sq & v0 & H12 & H23 & E1 & E2 & E3 & Eu & Ev &
          El & Hd & Hu & Hv & Evs & Ei & Hi).
  pose proof (unsigned_v_nonneg lm d1sq d2sq d3sq Hs H12) as Hv0.
  rewrite <- E1, <- E2, <- E3, <- Ev in Hv0.
  exists v0. rewrite Evs, Ei.
  destruct (CCW _ _ _ _); cbn [negb]; repeat split; auto; try lra.
Qed.

(** C4, as the code has it: the committed v is the unsigned
    v0 = (d1 - d2) / d3 >= 0 when CCW(c1, c2, c3) holds and -v0 when it does
    not, [kv] is kv + nvbins in the first case and nvbins - kv - 1 in the
    second, and this signed v is what meanv receives.  Hence v <= 0 without
    CCW, and v < 0 exactly when CCW fails and v0 is not zero. *)
Theorem v_sign_by_orientation chk lm metric params call t :
  sqrt_ok lm ->
  traverse chk lm metric params call = Ok t ->
  Forall (signed_ok metric params) t /\
  (forall project X c1 c2 c3 d1 d2 d3 logr u v index,
      _meanv (directProcess111 lm project X c1 c2 c3 d1 d2 d3 logr u v index)
      = add_at (Z.to_nat index) (cellW c1 * cellW c2 * cellW c3 * v) (_meanv X)).
Proof.
  intros Hs H. split; [|reflexivity].
  apply traverse_commit_ok in H.
  eapply Forall_impl; [|exact H].
  intros e. apply commit_ok_signed, Hs.
Qed.

(** The triangle with sides 13, 13, 10: the sorted order is not
    counter-clockwise and the committed v is 0, not a negative number. *)
Lemma v_zero_without_ccw :
  match process111 false test_libm flat_metric (fun _ => P_wide) one_acc
                   iso_a iso_b iso_c 0 0 0 with
  | Ok [Direct111 _ c1 c2 c3 _ _ _ _ _ v _] =>
      CCW flat_metric (cellPos c1) (cellPos c2) (cellPos c3) = false /\
      ~ v < 0
  | _ => False
  end.
Proof. vm_compute. split; [reflexivity | discriminate]. Qed.

(** ** The flat index *)

Lemma derived_nuv lm P :
  derived_ok lm P ->
  _nvbins2 P = (_nvbins P * 2)%Z /\
  _nuv P = (_nubins P * (_nvbins P * 2))%Z /\
  _ntot P = (_nbins P * (_nubins P * (_nvbins P * 2)))%Z.
Proof.
  intros H.
  pose proof (f_equal _nvbins2 H) as E1.
  pose proof (f_equal _nuv H) as E2.
  pose proof (f_equal _ntot H) as E3.
  cbn in E1, E2, E3. auto.
Qed.

(** C7: when process111Sorted neither stops nor splits, the only call of
    directProcess111 it can make is at the flat index
    kr (nubins 2 nvbins) + ku (2 nvbins) + kv, which then lies in
    [0, ntot); when that index is outside [0, ntot) the function makes no
    call at all: it returns (it fails an assertion instead if those are
    active) and the replay of its trace leaves every accumulator as it
    was. *)
Theorem flat_index_and_drop chk lm metric params rec A c1 c2 c3
    d1sq d2sq d3sq d2 :
  let P := params (a123 A) in
  let sp := decide_split lm P d1sq d2sq d3sq d2
                         (getSize c1) (getSize c2) (getSize c3) in
  let ccw := CCW metric (cellPos c1) (cellPos c2) (cellPos c3) in
  let B := binning P ccw (m_log lm d2) (sp_u sp) (sp_v sp) in
  let r := process111Sorted chk lm metric params rec A c1 c2 c3
                            d1sq d2sq d3sq in
  derived_ok lm P ->
  call_stop111 lm P d1sq d2sq d3sq (getSize c1) (getSize c2) (getSize c3)
    = (false, d2) ->
  split sp = false ->
  b_index B = (b_kr B * (_nubins P * (2 * _nvbins P))
               + b_ku B * (2 * _nvbins P) + b_kv B)%Z /\
  (forall t e, r = Ok t -> In e t -> is_commit e = true ->
     e = Direct111 (a123 A) c1 c2 c3 (sp_d1 sp) d2 (sp_d3 sp) (m_log lm d2)
                   (sp_u sp) (b_v B) (b_index B) /\
     (0 <= b_index B < _ntot P)%Z) /\
  ((b_index B < 0 \/ _ntot P <= b_index B)%Z ->
   (forall t, r = Ok t ->
      (exists reason, t = [Ret111 reason (a123 A) c1 c2 c3]) /\
      (forall project st, replay lm project t st = st)) /\
   (chk = false -> exists t, r = Ok t)).
Proof.
  intros P sp ccw B r HP Hstop Hsp.
  destruct (derived_nuv lm P HP) as (E1 & E2 & E3).
  assert (Hr : r = Assert chk In_process111Sorted
                     ((d1sq >=? d2sq) && (d2sq >=? d3sq))
                     (commit111 chk lm metric P (a123 A) c1 c2 c3
                        (sp_d1 sp) d2 (sp_d3 sp) (sp_u sp) (sp_v sp))).
  { unfold r, process111Sorted. fold P. rewrite Hstop. fold sp.
    rewrite Hsp. reflexivity. }
  split; [|split].
  - unfold B, binning; cbn [b_index b_kr b_ku b_kv]. rewrite E1, E2. lia.
  - intros t e Ht Hin He. rewrite Hr in Ht. apply Assert_Ok in Ht.
    apply commit111_cases in Ht. cbv zeta in Ht. fold ccw B in Ht.
    destruct Ht as [[reason ->] | (-> & _ & _ & _ & Hi)].
    + destruct Hin as [<- | []]. discriminate.
    + destruct Hin as [<- | []]. split; [reflexivity | exact Hi].
  - intros Hout. split.
    + intros t Ht. rewrite Hr in Ht. apply Assert_Ok in Ht.
      apply commit111_cases in Ht. cbv zeta in Ht. fold ccw B in Ht.
      destruct Ht as [[reason ->] | (-> & _ & _ & _ & Hi)]; [|lia].
      split; [eauto | reflexivity].
    + intros ->. rewrite Hr. unfold commit111, Assert; cbn [andb].
      fold ccw B.
      repeat match goal with
      | |- context [if ?c then Ok _ else _] =>
          destruct c eqn:?; [eauto|]
      end.
      exfalso. dbl_hyps.
      match goal with
      | H1 : (_ <? _)%Z = false, H2 : (_ >=? _)%Z = false |- _ =>
          apply Z.ltb_ge in H1; rewrite Z.geb_leb in H2;
          apply Z.leb_gt in H2; lia
      end.
Qed.

(** ** Arrays and the store *)

Lemma add_at_length i x a : length (add_at i x a) = length a.
Proof.
  revert i; induction a as [|y a IH]; intros [|i]; cbn; auto.
Qed.

Lemma add_at_nth i x a j :
  nth j (add_at i x a) 0 =
  if (j =? i)%nat && (i <? length a)%nat then nth j a 0 + x else nth j a 0.
Proof.
  revert i j; induction a as [|y a IH]; intros i j.
  - destruct i; cbn [add_at length]; rewrite andb_false_r; reflexivity.
  - destruct i as [|i], j as [|j]; cbn; auto.
Qed.

Lemma add_loop_seq b : forall k s a,
  let a' := fold_left (fun a i => add_at i (nth i b 0) a) (seq s k) a in
  length a' = length a /\
  forall i, (i < length a)%nat ->
    nth i a' 0 = if (s <=? i)%nat && (i <? s + k)%nat
                 then nth i a 0 + nth i b 0 else nth i a 0.
Proof.
  induction k as [|k IH]; intros s a; cbn [seq fold_left].
  - split; [reflexivity|]. intros i _.
    destruct (s <=? i)%nat eqn:E1, (i <? s + 0)%nat eqn:E2; cbn; auto.
    apply Nat.leb_le in E1. apply Nat.ltb_lt in E2. lia.
  - destruct (IH (S s) (add_at s (nth s b 0) a)) as [Hl Hn].
    rewrite add_at_length in Hl, Hn. split; [exact Hl|].
    intros i Hi. rewrite (Hn i Hi), add_at_nth.
    destruct (Nat.eq_dec i s) as [->|Hne].
    + rewrite Nat.eqb_refl.
      replace (S s <=? s)%nat with false by (symmetry; apply Nat.leb_gt; lia).
      replace (s <? length a)%nat with true by (symmetry; apply Nat.ltb_lt; lia).
      replace (s <=? s)%nat with true by (symmetry; apply Nat.leb_le; lia).
      replace (s <? s + S k)%nat with true by (symmetry; apply Nat.ltb_lt; lia).
      reflexivity.
    + replace (i =? s)%nat with false by (symmetry; apply Nat.eqb_neq; lia).
      cbn [andb].
      destruct (S s <=? i)%nat eqn:E1, (i <? S s + k)%nat eqn:E2,
               (s <=? i)%nat eqn:E3, (i <? s + S k)%nat eqn:E4;
        cbn [andb]; try reflexivity; exfalso;
        repeat match goal with
        | H : (_ <=? _)%nat = true |- _ => apply Nat.leb_le in H
        | H : (_ <=? _)%nat = false |- _ => apply Nat.leb_gt in H
        | H : (_ <? _)%nat = true |- _ => apply Nat.ltb_lt in H
        | H : (_ <? _)%nat = false |- _ => apply Nat.ltb_ge in H
        end; lia.
Qed.

Lemma add_loop_added n a b : added n a b (add_loop n a b).
Proof.
  destruct (add_loop_seq b (Z.to_nat n) 0%nat a) as [Hl Hn].
  split; [exact Hl|]. intros i Hi. unfold add_loop.
  refine (eq_trans (Hn i Hi) _).
  cbn [Nat.leb andb].
  destruct (i <? 0 + Z.to_nat n)%nat eqn:E1, (Z.of_nat i <? n)%Z eqn:E2;
    try reflexivity; exfalso.
  - apply Nat.ltb_lt in E1. apply Z.ltb_ge in E2. lia.
  - apply Nat.ltb_ge in E1. apply Z.ltb_lt in E2. lia.
Qed.

Lemma zeta_add_added n z rhs : zeta_added n z rhs (zeta_add n z rhs).
Proof.
  destruct z, rhs; cbn; auto using add_loop_added.
  repeat split; apply add_loop_added.
Qed.

Lemma update_length a f st : length (update a f st) = length st.
Proof.
  revert a; induction st as [|X st IH]; intros [|a]; cbn; auto.
Qed.

Lemma get_update_same a f st :
  (a < length st)%nat -> get (update a f st) a = f (get st a).
Proof.
  unfold get. revert a; induction st as [|X st IH]; intros [|a] H; cbn in *;
    try lia; auto.
  apply IH. lia.
Qed.

Lemma get_update_other a c f st :
  c <> a -> get (update a f st) c = get st c.
Proof.
  unfold get. revert a c; induction st as [|X st IH]; intros [|a] [|c] H;
    cbn; auto; try congruence.
Qed.

(** C9: for two distinct accumulators [a] and [rhs] of equal [_ntot],
    [a += rhs] succeeds; afterwards every array of [a] (the zeta payload,
    meand1 ... meanlogd3, meanu, meanv, weight, ntri) holds, in each of its
    first [_ntot] entries, the old entry plus that of [rhs]; the parameters
    and the coordinate tag of [a] are what they were; [rhs] and every other
    object are what they were. *)
Theorem add_assign_frame chk a rhs st :
  a <> rhs -> (a < length st)%nat -> (rhs < length st)%nat ->
  _ntot (base (get st rhs)) = _ntot (base (get st a)) ->
  exists st',
    op_add_assign chk a rhs st = Ok st' /\
    let X := get st a in
    let R := get st rhs in
    let X' := get st' a in
    let n := _ntot (base X) in
    zeta_added n (_zeta X) (_zeta R) (_zeta X') /\
    added n (_meand1 X) (_meand1 R) (_meand1 X') /\
    added n (_meanlogd1 X) (_meanlogd1 R) (_meanlogd1 X') /\
    added n (_meand2 X) (_meand2 R) (_meand2 X') /\
    added n (_meanlogd2 X) (_meanlogd2 R) (_meanlogd2 X') /\
    added n (_meand3 X) (_meand3 R) (_meand3 X') /\
    added n (_meanlogd3 X) (_meanlogd3 R) (_meanlogd3 X') /\
    added n (_meanu X) (_meanu R) (_meanu X') /\
    added n (_meanv X) (_meanv R) (_meanv X') /\
    added n (_weight X) (_weight R) (_weight X') /\
    added n (_ntri X) (_ntri R) (_ntri X') /\
    base X' = base X /\ _owns_data X' = _owns_data X /\
    get st' rhs = get st rhs /\
    (forall c, c <> a -> get st' c = get st c) /\
    length st' = length st.
Proof.
  intros Hne Ha Hr Hn.
  exists (update a (fun X => add_arrays X (get st rhs)) st). split.
  - unfold op_add_assign, Assert. rewrite Hn, Z.eqb_refl, andb_false_r.
    reflexivity.
  - cbv zeta. rewrite get_update_same by exact Ha.
    unfold add_arrays; cbn [_zeta _meand1 _meanlogd1 _meand2 _meanlogd2
      _meand3 _meanlogd3 _meanu _meanv _weight _ntri base _owns_data].
    repeat split; try apply add_loop_added; try apply zeta_add_added.
    + apply get_update_other. congruence.
    + intros c Hc. apply get_update_other. exact Hc.
    + apply update_length.
Qed.

(** ** Failures *)

Lemma seq_tr_Fail (r1 r2 : Result Trace) (f : Failure) :
  (r1 ;; r2) = Fail f -> r1 = Fail f \/ r2 = Fail f.
Proof.
  destruct r1 as [t1|], r2 as [t2|]; cbn; intros H; inversion H; auto.
Qed.

Lemma Assert_Fail {A} chk s cond (k : Result A) f :
  Assert chk s cond k = Fail f -> f = AssertFailed s \/ k = Fail f.
Proof.
  unfold Assert. destruct (chk && negb cond); intros H; [inversion H|]; auto.
Qed.

Lemma deref_Fail {A} chk s o (k : Cell -> Result A) f :
  deref chk s o k = Fail f ->
  f = AssertFailed s \/ f = NullChild s \/ exists c, o = Some c /\ k c = Fail f.
Proof.
  destruct o as [c|]; cbn; [eauto|].
  destruct chk; intros H; inversion H; auto.
Qed.

Ltac fail_inv H :=
  repeat match type of H with
  | deref _ _ _ _ = Fail _ =>
      apply deref_Fail in H;
      destruct H as [H | [H | (? & _ & H)]];
      [solve [unfold fail111; auto] | solve [unfold fail111; auto] |]
  | (_ ;; _) = Fail _ =>
      apply seq_tr_Fail in H; destruct H as [H | H]; [solve [eauto] |]
  end.

Lemma split_calls_fail chk (rec : Proc111) A c1 c2 c3 d1sq d2sq d3sq sp f :
  (forall B x1 x2 x3 e1 e2 e3 f',
      rec B x1 x2 x3 e1 e2 e3 = Fail f' -> fail111 f') ->
  split_calls chk rec A c1 c2 c3 d1sq d2sq d3sq sp = Fail f ->
  fail111 f.
Proof.
  intros Hrec. unfold split_calls.
  destruct (split3 sp), (split2 sp), (split1 sp); intros H;
    fail_inv H; eauto.
Qed.

Lemma commit111_fail chk lm metric P self c1 c2 c3 d1 d2 d3 u v f :
  commit111 chk lm metric P self c1 c2 c3 d1 d2 d3 u v = Fail f ->
  f = AssertFailed In_commit.
Proof.
  unfold commit111. intros H.
  apply Assert_Fail in H. destruct H as [H | H]; [exact H|].
  repeat match type of H with
  | (if ?c then Ok _ else _) = Fail _ => destruct c; [discriminate|]
  end.
  apply Assert_Fail in H. destruct H as [H | H]; [exact H|].
  destruct (_ || _) in H; discriminate.
Qed.

Lemma process111Sorted_fail chk lm metric params (rec : Proc111) A c1 c2 c3
      d1sq d2sq d3sq f :
  (forall B x1 x2 x3 e1 e2 e3 f',
      rec B x1 x2 x3 e1 e2 e3 = Fail f' -> fail111 f') ->
  process111Sorted chk lm metric params rec A c1 c2 c3 d1sq d2sq d3sq = Fail f ->
  fail111 f.
Proof.
  intros Hrec. unfold process111Sorted. intros H.
  apply Assert_Fail in H. destruct H as [H | H]; [unfold fail111; auto|].
  destruct (call_stop111 _ _ _ _ _ _ _ _) as [stop d2].
  destruct stop; [discriminate|].
  destruct (split _).
  - apply Assert_Fail in H. destruct H as [H | H]; [unfold fail111; auto|].
    eapply split_calls_fail; eauto.
  - apply commit111_fail in H. unfold fail111; auto.
Qed.

Lemma process111_fuel_fail chk lm metric params fuel :
  forall A c1 c2 c3 d1sq d2sq d3sq f,
    process111_fuel fuel chk lm metric params A c1 c2 c3 d1sq d2sq d3sq
    = Fail f -> fail111 f.
Proof.
  induction fuel as [|fuel IH]; intros A c1 c2 c3 d1sq d2sq d3sq f H.
  - inversion H. unfold fail111; auto.
  - cbn [process111_fuel] in H.
    repeat match type of H with
    | (if ?c then Ok _ else _) = Fail _ => destruct c; [discriminate|]
    end.
    destruct (dists111 _ _ _ _ _ _ _) as [[e1 e2] e3].
    eapply process111Sorted_fail; eauto.
Qed.

Lemma process12_fail chk lm metric params :
  forall c2 self bc212 bc221 c1 f,
    process12 chk lm metric params self bc212 bc221 c1 c2 = Fail f ->
    fail111 f \/ f = AssertFailed In_process12 \/ f = NullChild In_process12.
Proof.
  induction c2 as [d s l r IHl IHr] using Cell_children_ind.
  intros self bc212 bc221 c1 f H. cbn [process12] in H.
  repeat match type of H with
  | (if ?c then Ok _ else _) = Fail _ => destruct c; [discriminate|]
  end.
  destruct l as [x|]; [|destruct chk; inversion H; auto].
  destruct r as [y|]; [|destruct chk; inversion H; auto].
  apply seq_tr_Fail in H. destruct H as [H | H]; [eauto|].
  apply seq_tr_Fail in H. destruct H as [H | H]; [eauto|].
  left. eapply process111_fuel_fail; eauto.
Qed.

(** C10: on a tree whose leaves have size 0 and whose internal cells have
    both children, with minsep > 0 (so that halfminsep = minsep / 2 > 0),
    the child assertions of process3 never fail; with minsep = 0 they fail
    on every leaf of nonzero weight and size 0. *)
Theorem process3_children chk lm metric params self :
  derived_ok lm (params self) ->
  (0 < _minsep (params self) ->
   forall c1, shape_ok c1 ->
     process3 chk lm metric params self c1 <> Fail (AssertFailed In_process3) /\
     process3 chk lm metric params self c1 <> Fail (NullChild In_process3)) /\
  (_minsep (params self) == 0 ->
   forall c1, is_leaf c1 -> ~ cellW c1 == 0 -> getSize c1 == 0 ->
     process3 chk lm metric params self c1
     = Fail (if chk then AssertFailed In_process3 else NullChild In_process3)).
Proof.
  intros HP.
  assert (Hh : _halfminsep (params self) = (1#2) * _minsep (params self)).
  { pose proof (f_equal _halfminsep HP) as E. exact E. }
  split.
  - intros Hmin.
    assert (Hgen : forall c1, shape_ok c1 -> forall f,
               process3 chk lm metric params self c1 = Fail f ->
               fail111 f \/ f = AssertFailed In_process12 \/
               f = NullChild In_process12).
    { induction c1 as [d s l r IHl IHr] using Cell_children_ind.
      intros Hok f H. cbn [process3] in H.
      destruct (cellW _ =? 0); [discriminate|].
      destruct (getSize _ <? _) eqn:Es; [discriminate|].
      cbn [shape_ok] in Hok.
      destruct l as [x|], r as [y|]; try contradiction.
      - destruct Hok as [Hx Hy].
        apply seq_tr_Fail in H. destruct H as [H | H]; [eauto|].
        apply seq_tr_Fail in H. destruct H as [H | H]; [eauto|].
        apply seq_tr_Fail in H.
        destruct H as [H | H]; eapply process12_fail; eauto.
      - exfalso. apply dlt_false in Es. cbn [getSize] in Es.
        rewrite Hh in Es. lra. }
    intros c1 Hok. split; intros H; apply Hgen in H; auto;
      unfold fail111 in H; intuition discriminate.
  - intros Hmin [d s l r] Hleaf Hw Hs. cbn [process3].
    apply deq_false in Hw. rewrite Hw.
    replace (getSize (mkCell d s l r) <? _halfminsep (params self))
      with false.
    + destruct Hleaf as [E | E]; cbn in E; subst.
      * reflexivity.
      * destruct l; reflexivity.
    + symmetry. apply dlt_false. rewrite Hh. cbn [getSize] in *. lra.
Qed.

(** ** The recursion of process111Sorted *)

Lemma height_child c x : is_child c x -> (height x < height c)%nat.
Proof.
  destruct c as [d s l r]. unfold is_child; cbn.
  intros [-> | ->]; lia.
Qed.

Lemma descend1_height b c x : descend1 b c x -> (height x <= height c)%nat.
Proof.
  destruct b; cbn; [intros H; apply height_child in H; lia | intros ->; lia].
Qed.

Lemma descend1_true_height c x :
  descend1 true c x -> (height x < height c)%nat.
Proof. apply height_child. Qed.


Ltac rec_args_tac :=
  unfold rec_args, eff1, descend1, is_child;
  repeat match goal with H : ?b = _ |- context [?b] => rewrite H end;
  cbn [orb andb negb]; intuition auto.

Lemma split_calls_fail_args chk (rec : Proc111) A c1 c2 c3 d1sq d2sq d3sq sp f :
  split_calls chk rec A c1 c2 c3 d1sq d2sq d3sq sp = Fail f ->
  ((f = AssertFailed In_process111Sorted \/ f = NullChild In_process111Sorted) /\
   ((eff1 sp = true /\ ~ has_children c1) \/
    (split2 sp = true /\ ~ has_children c2) \/
    (split3 sp = true /\ ~ has_children c3))) \/
  exists B x1 x2 x3 e1 e2 e3,
    rec B x1 x2 x3 e1 e2 e3 = Fail f /\
    rec_args sp c1 c2 c3 d1sq d2sq d3sq x1 x2 x3 e1 e2 e3.
Proof.
  unfold split_calls, deref, has_children, eff1.
  destruct (split3 sp) eqn:E3, (split2 sp) eqn:E2, (split1 sp) eqn:E1;
    cbn [orb andb negb];
    repeat match goal with
    | |- context [match getLeft ?c with _ => _ end] =>
        destruct (getLeft c) eqn:?
    | |- context [match getRight ?c with _ => _ end] =>
        destruct (getRight c) eqn:?
    end;
    intros H;
    try (left; split;
         [destruct chk; inversion H; auto
         | solve [ left; split; [reflexivity | intros (? & ? & ? & ?); congruence]
                 | right; left; split;
                   [reflexivity | intros (? & ? & ? & ?); congruence]
                 | right; right; split;
                   [reflexivity | intros (? & ? & ? & ?); congruence] ]]);
    right;
    repeat (apply seq_tr_Fail in H; destruct H as [H | H];
            [do 7 eexists; split; [exact H | rec_args_tac] |]);
    (do 7 eexists; split; [exact H | rec_args_tac]).
Qed.

Lemma split_calls_probe chk A c1 c2 c3 d1sq d2sq d3sq sp t :
  split_calls chk probe111 A c1 c2 c3 d1sq d2sq d3sq sp = Ok t ->
  Forall (fun e => exists x1 x2 x3,
              e = Ret111 R_w1 (a123 A) x1 x2 x3 /\
              descend1 (eff1 sp) c1 x1 /\ descend1 (split2 sp) c2 x2 /\
              descend1 (split3 sp) c3 x3) t.
Proof.
  unfold split_calls, eff1.
  destruct (split3 sp) eqn:E3, (split2 sp) eqn:E2, (split1 sp) eqn:E1;
    cbn [orb andb negb]; intros H; deref_inv H; unfold probe111 in H;
    cbn in H; inversion H; subst;
    repeat constructor;
    (do 3 eexists; split; [reflexivity|];
     unfold descend1, is_child; intuition auto).
Qed.

(** When process111Sorted splits, a cell of positive size is among those
    it replaces by their children. *)
Lemma decide_split_positive lm P d1sq d2sq d3sq d2 s1 s2 s3 :
  let sp := decide_split lm P d1sq d2sq d3sq d2 s1 s2 s3 in
  split sp = true ->
  (split3 sp = true /\ 0 < s3) \/
  (split3 sp = false /\ split2 sp = true /\ 0 < s2) \/
  (split3 sp = false /\ split2 sp = false /\ split1 sp = true /\ 0 < s1).
Proof.
  unfold decide_split.
  destruct (split3_of _ _ _ _ _ _ _ _) eqn:E3.
  - intros _. left. split; [reflexivity|].
    unfold split3_of in E3. apply andb_true_iff in E3.
    destruct E3 as [E3 _]. apply dgt_true in E3. exact E3.
  - destruct ((s1 >? 0) || (s2 >? 0)) eqn:E12; [|cbn; discriminate].
    assert (Hpos : forall sp1 sp2 : bool,
               (sp1 = true -> 0 < s1) -> (sp2 = true -> 0 < s2) ->
               (false = false /\ sp2 || (s2 >=? s1) = true /\ 0 < s2) \/
               (false = false /\ sp2 || (s2 >=? s1) = false /\
                sp1 || (s1 >=? s2) = true /\ 0 < s1)).
    { intros sp1 sp2 H1 H2.
      apply orb_true_iff in E12. rewrite !dgt_true in E12.
      destruct (sp2 || (s2 >=? s1)) eqn:F2.
      - left. repeat split. apply orb_true_iff in F2.
        destruct F2 as [F2 | F2]; [auto|]. apply dge_true in F2. lra.
      - right. apply orb_false_iff in F2. destruct F2 as [_ F2].
        apply dge_false in F2.
        repeat split; [|lra].
        apply orb_true_iff. right. apply dge_true. lra. }
    match goal with
    | |- context [if ?a || ?b then _ else _] =>
        set (sp1 := a); set (sp2 := b);
        assert (H1 : sp1 = true -> 0 < s1)
          by (unfold sp1; intros H; apply andb_true_iff in H;
              destruct H as [H _]; apply dgt_true in H; exact H);
        assert (H2 : sp2 = true -> 0 < s2)
          by (unfold sp2; intros H; apply andb_true_iff in H;
              destruct H as [H _]; apply dgt_true in H; exact H);
        specialize (Hpos sp1 sp2 H1 H2)
    end.
    repeat match goal with
    | |- context [if ?c then _ else _] => destruct c
    end; cbn [split split1 split2 split3]; intros H; try discriminate;
      right; exact Hpos.
Qed.

(** With sizes and squared sides that are not negative, every cell that is
    split has a positive size (the assertions of lines 825-827). *)
Lemma decide_split_all_positive lm P d1sq d2sq d3sq d2 s1 s2 s3 :
  let sp := decide_split lm P d1sq d2sq d3sq d2 s1 s2 s3 in
  0 <= s1 -> 0 <= s2 -> 0 <= d3sq ->
  split sp = true ->
  (eff1 sp = true -> 0 < s1) /\ (split2 sp = true -> 0 < s2) /\
  (split3 sp = true -> 0 < s3).
Proof.
  intros sp Hs1 Hs2 Hd3 Hsp.
  pose proof (decide_split_positive lm P d1sq d2sq d3sq d2 s1 s2 s3 Hsp) as Hp.
  fold sp in Hp.
  assert (H3 : split3 sp = true ->
               (split1 sp = true -> 0 < s1) /\ (split2 sp = true -> 0 < s2)).
  { unfold sp. rewrite split3_decide. unfold decide_split.
    intros E. rewrite E. cbn [split1 split2].
    assert (Hz : forall s, 0 <= s ->
                 (SQR s * d2sq >? factor2 * SQR s3 * d3sq) = true -> 0 < s).
    { intros s Hs H. apply dgt_true in H. unfold SQR, factor2 in H.
      destruct (Qlt_le_dec 0 s) as [Hl | Hl]; [exact Hl|].
      assert (s == 0) as Hs0 by lra.
      rewrite Hs0 in H.
      assert (0 <= (7 # 10) * (s3 * s3) * d3sq).
      { apply Qmult_le_0_compat; [|exact Hd3].
        apply Qmult_le_0_compat; [lra|]. nra. }
      lra. }
    split; apply Hz; assumption. }
  clear Hp. revert H3 Hsp. unfold eff1, sp. rewrite split3_decide.
  unfold decide_split.
  destruct (split3_of _ _ _ _ _ _ _ _) eqn:E3.
  - cbn [split split1 split2 split3 negb andb]. intros H3 _.
    destruct (H3 eq_refl) as [A1 A2]. rewrite orb_false_r.
    repeat split; auto. intros _.
    unfold split3_of in E3. apply andb_true_iff in E3.
    destruct E3 as [E3 _]. apply dgt_true in E3. exact E3.
  - intros _.
    destruct ((s1 >? 0) || (s2 >? 0)) eqn:E12; [|cbn; discriminate].
    match goal with
    | |- context [(s1 >? 0) && ?b] => generalize b
    end.
    intros X.
    match goal with
    | |- context [(s2 >? 0) && ?b] => generalize b
    end.
    intros Y.
    destruct (s1 >? 0) eqn:F1, (s2 >? 0) eqn:F2, X, Y,
             (s1 >=? s2) eqn:G12, (s2 >=? s1) eqn:G21;
      cbn [orb andb negb] in *;
      repeat match goal with
      | |- context [if ?c then _ else _] => destruct c
      end;
      cbn [split split1 split2 split3 orb andb negb];
      intros Hsp; try discriminate;
      dbl_hyps; repeat split; intros; try discriminate; try lra.
Qed.

Lemma commit111_no_w1 chk lm metric P self c1 c2 c3 d1 d2 d3 u v t
      (Q : Cell -> Cell -> Cell -> Prop) :
  commit111 chk lm metric P self c1 c2 c3 d1 d2 d3 u v = Ok t ->
  Forall (fun e => match e with
                   | Ret111 R_w1 _ x1 x2 x3 => Q x1 x2 x3
                   | _ => True
                   end) t.
Proof.
  unfold commit111. intros H. apply Assert_Ok in H.
  repeat match type of H with
  | (if ?c then Ok _ else _) = Ok _ =>
      destruct c; [inversion H; repeat constructor|]
  end.
  apply Assert_Ok in H.
  destruct (_ || _) in H; inversion H; repeat constructor.
Qed.

Lemma process111Sorted_probe chk lm metric params A c1 c2 c3 d1sq d2sq d3sq t :
  process111Sorted chk lm metric params probe111 A c1 c2 c3 d1sq d2sq d3sq
  = Ok t ->
  Forall (fun e => match e with
                   | Ret111 R_w1 _ x1 x2 x3 => descends c1 c2 c3 x1 x2 x3
                   | _ => True
                   end) t.
Proof.
  unfold process111Sorted. intros H. apply Assert_Ok in H.
  destruct (call_stop111 _ _ _ _ _ _ _ _) as [stop d2].
  destruct stop; [inversion H; repeat constructor|].
  destruct (split _) eqn:Esp.
  - apply Assert_Ok in H. apply split_calls_probe in H.
    apply decide_split_positive in Esp.
    eapply Forall_impl; [|exact H].
    intros e (x1 & x2 & x3 & -> & D1 & D2 & D3).
    unfold descends, eff1, descend1 in *.
    destruct Esp as [[E3 Hp] | [(E3 & E2 & Hp) | (E3 & E2 & E1 & Hp)]].
    + rewrite E3 in *. cbn [negb andb] in D1. rewrite orb_false_r in D1.
      destruct (split1 _), (split2 _); intuition auto.
    + rewrite E3, E2 in *. cbn [negb andb] in D1. rewrite orb_false_r in D1.
      destruct (split1 _); intuition auto.
    + rewrite E3, E2, E1 in *. cbn in D1. intuition auto.
  - eapply commit111_no_w1; eauto.
Qed.

Lemma rec_args_height sp c1 c2 c3 d1sq d2sq d3sq x1 x2 x3 e1 e2 e3 :
  rec_args sp c1 c2 c3 d1sq d2sq d3sq x1 x2 x3 e1 e2 e3 ->
  (height x1 + height x2 + height x3 < height c1 + height c2 + height c3)%nat.
Proof.
  intros (D1 & D2 & D3 & _).
  pose proof (descend1_height _ _ _ D1).
  pose proof (descend1_height _ _ _ D2).
  pose proof (descend1_height _ _ _ D3).
  unfold eff1 in D1.
  destruct (split3 sp).
  - apply descend1_true_height in D3. lia.
  - destruct (split2 sp).
    + apply descend1_true_height in D2. lia.
    + cbn [negb andb] in D1. rewrite orb_true_r in D1.
      apply descend1_true_height in D1. lia.
Qed.

Lemma sort111_height A c1 c2 c3 d1sq d2sq d3sq :
  let so := sort111 A c1 c2 c3 d1sq d2sq d3sq in
  (height (so_c1 so) + height (so_c2 so) + height (so_c3 so)
   = height c1 + height c2 + height c3)%nat.
Proof.
  unfold sort111.
  destruct (d1sq >? d2sq), (d2sq >? d3sq), (d1sq >? d3sq); cbn; lia.
Qed.

(** The recursion never reaches the bound when the bound exceeds the sum of
    the heights of the three cells. *)
Lemma process111_fuel_enough chk lm metric params fuel :
  forall A c1 c2 c3 d1sq d2sq d3sq,
    (height c1 + height c2 + height c3 < fuel)%nat ->
    process111_fuel fuel chk lm metric params A c1 c2 c3 d1sq d2sq d3sq
    <> Fail OutOfFuel.
Proof.
  induction fuel as [|fuel IH]; intros A c1 c2 c3 d1sq d2sq d3sq Hf; [lia|].
  cbn [process111_fuel].
  repeat match goal with
  | |- (if ?c then Ok _ else _) <> _ => destruct c; [discriminate|]
  end.
  destruct (dists111 _ _ _ _ _ _ _) as [[e1 e2] e3].
  pose proof (sort111_height A c1 c2 c3 e1 e2 e3) as Hh. cbv zeta in Hh.
  unfold process111Sorted. intros H.
  apply Assert_Fail in H. destruct H as [H | H]; [discriminate|].
  destruct (call_stop111 _ _ _ _ _ _ _ _) as [stop d2].
  destruct stop; [discriminate|].
  destruct (split _).
  - apply Assert_Fail in H. destruct H as [H | H]; [discriminate|].
    apply split_calls_fail_args in H.
    destruct H as [[[H | H] _] | (B & x1 & x2 & x3 & f1 & f2 & f3 & H & Ha)];
      try discriminate.
    apply rec_args_height in Ha. apply IH in H; [exact H | lia].
  - apply commit111_fail in H. discriminate.
Qed.

Lemma process111_no_oof chk lm metric params A c1 c2 c3 d1sq d2sq d3sq :
  process111 chk lm metric params A c1 c2 c3 d1sq d2sq d3sq <> Fail OutOfFuel.
Proof. apply process111_fuel_enough. unfold fuel111. lia. Qed.

Lemma process12_no_oof chk lm metric params :
  forall c2 self bc212 bc221 c1,
    process12 chk lm metric params self bc212 bc221 c1 c2 <> Fail OutOfFuel.
Proof.
  induction c2 as [d s l r IHl IHr] using Cell_children_ind.
  intros self bc212 bc221 c1 H. cbn [process12] in H.
  repeat match type of H with
  | (if ?c then Ok _ else _) = Fail _ => destruct c; [discriminate|]
  end.
  destruct l as [x|]; [|destruct chk; discriminate].
  destruct r as [y|]; [|destruct chk; discriminate].
  apply seq_tr_Fail in H. destruct H as [H | H]; [eapply IHl; eauto|].
  apply seq_tr_Fail in H. destruct H as [H | H]; [eapply IHr; eauto|].
  eapply process111_no_oof; eauto.
Qed.

Lemma process3_no_oof chk lm metric params :
  forall c1 self, process3 chk lm metric params self c1 <> Fail OutOfFuel.
Proof.
  induction c1 as [d s l r IHl IHr] using Cell_children_ind.
  intros self H. cbn [process3] in H.
  repeat match type of H with
  | (if ?c then Ok _ else _) = Fail _ => destruct c; [discriminate|]
  end.
  destruct l as [x|]; [|destruct chk; discriminate].
  destruct r as [y|]; [|destruct chk; discriminate].
  apply seq_tr_Fail in H. destruct H as [H | H]; [eapply IHl; eauto|].
  apply seq_tr_Fail in H. destruct H as [H | H]; [eapply IHr; eauto|].
  apply seq_tr_Fail in H.
  destruct H as [H | H]; eapply process12_no_oof; eauto.
Qed.

(** ** Normal return on well-formed trees *)

Lemma tree_ok_size c : tree_ok c -> 0 <= getSize c.
Proof. destruct c as [d s l r]; cbn. tauto. Qed.

Lemma tree_ok_child c x : tree_ok c -> is_child c x -> tree_ok x.
Proof.
  destruct c as [d s l r]; unfold is_child; cbn. intros [_ H] [-> | ->].
  - destruct r; tauto.
  - destruct l; tauto.
Qed.

Lemma tree_ok_internal c : tree_ok c -> ~ getSize c == 0 -> has_children c.
Proof.
  destruct c as [d s l r]; unfold has_children; cbn. intros [_ H] Hs.
  destruct l as [x|], r as [y|]; try tauto. eauto.
Qed.

Lemma tree_ok_descend b c x : tree_ok c -> descend1 b c x -> tree_ok x.
Proof.
  destruct b; cbn; [apply tree_ok_child | intros H ->; exact H].
Qed.

Lemma Assert_Fail_chk {A} chk s cond (k : Result A) f :
  Assert chk s cond k = Fail f ->
  (chk = true /\ f = AssertFailed s) \/ k = Fail f.
Proof.
  unfold Assert. destruct chk; cbn; [|auto].
  destruct (negb cond); intros H; [inversion H|]; auto.
Qed.

Lemma commit111_fail_chk chk lm metric P self c1 c2 c3 d1 d2 d3 u v f :
  commit111 chk lm metric P self c1 c2 c3 d1 d2 d3 u v = Fail f ->
  chk = true /\ f = AssertFailed In_commit.
Proof.
  unfold commit111. intros H.
  apply Assert_Fail_chk in H. destruct H as [H | H]; [exact H|].
  repeat match type of H with
  | (if ?c then Ok _ else _) = Fail _ => destruct c; [discriminate|]
  end.
  apply Assert_Fail_chk in H. destruct H as [H | H]; [exact H|].
  destruct (_ || _) in H; discriminate.
Qed.

Lemma dists111_nonneg metric c1 c2 c3 d1sq d2sq d3sq e1 e2 e3 :
  metric_nonneg metric -> 0 <= d1sq -> 0 <= d2sq -> 0 <= d3sq ->
  dists111 metric c1 c2 c3 d1sq d2sq d3sq = (e1, e2, e3) ->
  0 <= e1 /\ 0 <= e2 /\ 0 <= e3.
Proof.
  intros Hm H1 H2 H3. unfold dists111. intros H. inversion H; subst.
  repeat split;
    match goal with |- 0 <= (if ?c then _ else _) => destruct c end;
    auto.
Qed.

(** [sort111] hands over the same three cells and the same three sides. *)
Lemma sort111_all (Pc : Cell -> Prop) (Pd : double -> Prop)
      A c1 c2 c3 d1sq d2sq d3sq :
  Pc c1 -> Pc c2 -> Pc c3 -> Pd d1sq -> Pd d2sq -> Pd d3sq ->
  let so := sort111 A c1 c2 c3 d1sq d2sq d3sq in
  Pc (so_c1 so) /\ Pc (so_c2 so) /\ Pc (so_c3 so) /\
  Pd (so_d1sq so) /\ Pd (so_d2sq so) /\ Pd (so_d3sq so).
Proof.
  intros H1 H2 H3 H4 H5 H6 so. unfold so, sort111.
  destruct (d1sq >? d2sq), (d2sq >? d3sq), (d1sq >? d3sq); cbn;
    repeat split; assumption.
Qed.


Lemma process111_fuel_returns chk lm metric params :
  metric_nonneg metric ->
  forall fuel A c1 c2 c3 d1sq d2sq d3sq f,
    (height c1 + height c2 + height c3 < fuel)%nat ->
    tree_ok c1 -> tree_ok c2 -> tree_ok c3 ->
    0 <= d1sq -> 0 <= d2sq -> 0 <= d3sq ->
    process111_fuel fuel chk lm metric params A c1 c2 c3 d1sq d2sq d3sq
    = Fail f ->
    assert_only chk f.
Proof.
  intros Hm. unfold assert_only.
  induction fuel as [|fuel IH];
    intros A c1 c2 c3 d1sq d2sq d3sq f Hf T1 T2 T3 N1 N2 N3 H; [lia|].
  cbn [process111_fuel] in H.
  repeat match type of H with
  | (if ?c then Ok _ else _) = Fail _ => destruct c; [discriminate|]
  end.
  destruct (dists111 _ _ _ _ _ _ _) as [[e1 e2] e3] eqn:Ed.
  destruct (dists111_nonneg _ _ _ _ _ _ _ _ _ _ Hm N1 N2 N3 Ed)
    as (M1 & M2 & M3).
  pose proof (sort111_height A c1 c2 c3 e1 e2 e3) as Hh. cbv zeta in Hh.
  destruct (sort111_all tree_ok (fun d => 0 <= d) A c1 c2 c3 e1 e2 e3
              T1 T2 T3 M1 M2 M3) as (U1 & U2 & U3 & V1 & V2 & V3).
  set (so := sort111 A c1 c2 c3 e1 e2 e3) in *.
  unfold process111Sorted in H.
  apply Assert_Fail_chk in H. destruct H as [[-> ->] | H]; [auto|].
  destruct (call_stop111 _ _ _ _ _ _ _ _) as [stop d2].
  destruct stop; [discriminate|].
  destruct (split _) eqn:Esp.
  - apply Assert_Fail_chk in H. destruct H as [[-> ->] | H]; [auto|].
    destruct (decide_split_all_positive lm (params (a123 (so_sibs so)))
                (so_d1sq so) (so_d2sq so) (so_d3sq so) d2
                (getSize (so_c1 so)) (getSize (so_c2 so)) (getSize (so_c3 so))
                (tree_ok_size _ U1) (tree_ok_size _ U2) V3 Esp)
      as (P1 & P2 & P3).
    apply split_calls_fail_args in H.
    destruct H as [[_ Hc] | (B & x1 & x2 & x3 & f1 & f2 & f3 & H & Ha)].
    + exfalso.
      destruct Hc as [[E Hc] | [[E Hc] | [E Hc]]]; apply Hc;
        apply tree_ok_internal; auto;
        [specialize (P1 E) | specialize (P2 E) | specialize (P3 E)]; lra.
    + pose proof (rec_args_height _ _ _ _ _ _ _ _ _ _ _ _ _ Ha) as Hlt.
      destruct Ha as (D1 & D2 & D3 & F1 & F2 & F3).
      apply IH in H; auto; try lia.
      * exact (tree_ok_descend _ _ _ U1 D1).
      * exact (tree_ok_descend _ _ _ U2 D2).
      * exact (tree_ok_descend _ _ _ U3 D3).
      * destruct F1 as [-> | ->]; [lra | auto].
      * destruct F2 as [-> | ->]; [lra | auto].
      * destruct F3 as [-> | ->]; [lra | auto].
  - apply commit111_fail_chk in H. tauto.
Qed.

Lemma process12_returns chk lm metric params :
  metric_nonneg metric ->
  forall c2 self bc212 bc221 c1 f,
    tree_ok c1 -> tree_ok c2 ->
    process12 chk lm metric params self bc212 bc221 c1 c2 = Fail f ->
    assert_only chk f.
Proof.
  intros Hm.
  induction c2 as [d s l r IHl IHr] using Cell_children_ind.
  intros self bc212 bc221 c1 f T1 T2 H. cbn [process12] in H.
  destruct (cellW c1 =? 0); [discriminate|].
  destruct (cellW _ =? 0); [discriminate|].
  destruct (getSize _ =? 0) eqn:Es; [discriminate|].
  repeat match type of H with
  | (if ?c then Ok _ else _) = Fail _ => destruct c; [discriminate|]
  end.
  apply deq_false in Es.
  destruct (tree_ok_internal _ T2 Es) as (x & y & Ex & Ey).
  cbn in Ex, Ey. subst l r.
  assert (Tx : tree_ok x) by (apply (tree_ok_child _ x T2); left; reflexivity).
  assert (Ty : tree_ok y) by (apply (tree_ok_child _ y T2); right; reflexivity).
  apply seq_tr_Fail in H.
  destruct H as [H | H]; [exact (IHl x eq_refl _ _ _ _ _ T1 Tx H)|].
  apply seq_tr_Fail in H.
  destruct H as [H | H]; [exact (IHr y eq_refl _ _ _ _ _ T1 Ty H)|].
  unfold process111 in H.
  refine (process111_fuel_returns chk lm metric params Hm _ _ _ _ _ _ _ _ _
            _ T1 Tx Ty _ _ _ H); [unfold fuel111; lia | lra | lra | lra].
Qed.

Lemma process3_returns chk lm metric params :
  metric_nonneg metric ->
  forall c1 self f,
    0 < _halfminsep (params self) -> tree_ok c1 ->
    process3 chk lm metric params self c1 = Fail f ->
    assert_only chk f.
Proof.
  intros Hm.
  induction c1 as [d s l r IHl IHr] using Cell_children_ind.
  intros self f Hh T1 H. cbn [process3] in H.
  destruct (cellW _ =? 0); [discriminate|].
  destruct (getSize _ <? _) eqn:Es; [discriminate|].
  apply dlt_false in Es.
  assert (Hs : ~ getSize (mkCell d s l r) == 0) by lra.
  destruct (tree_ok_internal _ T1 Hs) as (x & y & Ex & Ey).
  cbn in Ex, Ey. subst l r.
  assert (Tx : tree_ok x) by (apply (tree_ok_child _ x T1); left; reflexivity).
  assert (Ty : tree_ok y) by (apply (tree_ok_child _ y T1); right; reflexivity).
  apply seq_tr_Fail in H.
  destruct H as [H | H]; [exact (IHl x eq_refl _ _ Hh Tx H)|].
  apply seq_tr_Fail in H.
  destruct H as [H | H]; [exact (IHr y eq_refl _ _ Hh Ty H)|].
  apply seq_tr_Fail in H.
  destruct H as [H | H];
    [exact (process12_returns chk lm metric params Hm _ _ _ _ _ _ Tx Ty H)
    |exact (process12_returns chk lm metric params Hm _ _ _ _ _ _ Ty Tx H)].
Qed.

Lemma not_fail_ok {A} (r : Result A) :
  (forall f, r <> Fail f) -> exists a, r = Ok a.
Proof. destruct r as [a|f]; [eauto|]. intros H. destruct (H f eq_refl). Qed.

(** C8, as the code has it: termination of the triple recursion.
    - The nesting of the calls of process111 is bounded by [fuel111], one
      more than the sum of the heights of its three cells, hence by
      3 D + 1 for trees of height at most D (not by D: the cells are split
      one or several at a time); within this bound process111 never runs
      out, and process12 and process3, which follow one tree, never do,
      whatever the input.
    - Every call process111Sorted makes to process111 is on a triple in
      which each cell is kept or replaced by one of its children and at
      least one cell of positive size is replaced.
    - On trees whose leaves have size 0 and whose internal cells have both
      children, with squared distances that are not negative, the three
      procedures return normally when assertions are inactive (process3
      needing halfminsep > 0), and can otherwise only end on a failed
      numeric assertion. *)
Theorem traversal_terminates chk lm metric params :
  (forall A c1 c2 c3 d1sq d2sq d3sq,
      process111 chk lm metric params A c1 c2 c3 d1sq d2sq d3sq
      <> Fail OutOfFuel) /\
  (forall D fuel A c1 c2 c3 d1sq d2sq d3sq,
      (height c1 <= D)%nat -> (height c2 <= D)%nat -> (height c3 <= D)%nat ->
      (3 * D < fuel)%nat ->
      process111_fuel fuel chk lm metric params A c1 c2 c3 d1sq d2sq d3sq
      <> Fail OutOfFuel) /\
  (forall self bc212 bc221 c1 c2,
      process12 chk lm metric params self bc212 bc221 c1 c2
      <> Fail OutOfFuel) /\
  (forall self c1, process3 chk lm metric params self c1 <> Fail OutOfFuel) /\
  (forall A c1 c2 c3 d1sq d2sq d3sq t,
      process111Sorted chk lm metric params probe111 A c1 c2 c3
                       d1sq d2sq d3sq = Ok t ->
      Forall (fun e => match e with
                       | Ret111 R_w1 _ x1 x2 x3 => descends c1 c2 c3 x1 x2 x3
                       | _ => True
                       end) t) /\
  (metric_nonneg metric ->
   (forall A c1 c2 c3 f,
       tree_ok c1 -> tree_ok c2 -> tree_ok c3 ->
       process111 chk lm metric params A c1 c2 c3 0 0 0 = Fail f ->
       assert_only chk f) /\
   (forall self bc212 bc221 c1 c2 f,
       tree_ok c1 -> tree_ok c2 ->
       process12 chk lm metric params self bc212 bc221 c1 c2 = Fail f ->
       assert_only chk f) /\
   (forall self c1 f,
       0 < _halfminsep (params self) -> tree_ok c1 ->
       process3 chk lm metric params self c1 = Fail f ->
       assert_only chk f) /\
   (chk = false ->
    (forall A c1 c2 c3,
        tree_ok c1 -> tree_ok c2 -> tree_ok c3 ->
        exists t, process111 chk lm metric params A c1 c2 c3 0 0 0 = Ok t) /\
    (forall self bc212 bc221 c1 c2,
        tree_ok c1 -> tree_ok c2 ->
        exists t,
          process12 chk lm metric params self bc212 bc221 c1 c2 = Ok t) /\
    (forall self c1,
        0 < _halfminsep (params self) -> tree_ok c1 ->
        exists t, process3 chk lm metric params self c1 = Ok t))).
Proof.
  assert (H111 : metric_nonneg metric ->
                 forall A c1 c2 c3 f,
                   tree_ok c1 -> tree_ok c2 -> tree_ok c3 ->
                   process111 chk lm metric params A c1 c2 c3 0 0 0 = Fail f ->
                   assert_only chk f).
  { intros Hm A c1 c2 c3 f T1 T2 T3 H. unfold process111 in H.
    refine (process111_fuel_returns chk lm metric params Hm _ _ _ _ _ _ _ _ _
              _ T1 T2 T3 _ _ _ H); [unfold fuel111; lia | lra | lra | lra]. }
  split; [apply process111_no_oof|].
  split.
  { intros D fuel A c1 c2 c3 d1sq d2sq d3sq H1 H2 H3 Hf.
    apply process111_fuel_enough. lia. }
  split; [intros self bc212 bc221 c1 c2; apply process12_no_oof|].
  split; [intros self c1; apply process3_no_oof|].
  split; [apply process111Sorted_probe|].
  intros Hm.
  split; [apply H111, Hm|].
  split.
  { intros self bc212 bc221 c1 c2 f T1 T2 H.
    exact (process12_returns chk lm metric params Hm _ _ _ _ _ _ T1 T2 H). }
  split.
  { intros self c1 f Hh T1 H.
    exact (process3_returns chk lm metric params Hm _ _ _ Hh T1 H). }
  intros ->. repeat split.
  - intros A c1 c2 c3 T1 T2 T3. apply not_fail_ok. intros f H.
    apply (H111 Hm) in H; auto. destruct H; discriminate.
  - intros self bc212 bc221 c1 c2 T1 T2. apply not_fail_ok. intros f H.
    apply (process12_returns false lm metric params Hm _ _ _ _ _ _ T1 T2) in H.
    destruct H; discriminate.
  - intros self c1 Hh T1. apply not_fail_ok. intros f H.
    apply (process3_returns false lm metric params Hm _ _ _ Hh T1) in H.
    destruct H; discriminate.
Qed.

(** ** Every point triple is counted once or given up once *)

Lemma sum_over_app f t1 t2 :
  sum_over f (t1 ++ t2) == sum_over f t1 + sum_over f t2.
Proof.
  induction t1 as [|e t1 IH].
  - change (sum_over f t2 == 0 + sum_over f t2). ring.
  - change (f e + sum_over f (t1 ++ t2)
            == f e + sum_over f t1 + sum_over f t2).
    rewrite IH. ring.
Qed.

Lemma sum_over_one f e : sum_over f [e] == f e.
Proof. change (f e + 0 == f e). ring. Qed.

Lemma counts_ok_children c l r :
  counts_ok c -> getLeft c = Some l -> getRight c = Some r ->
  nQ c == nQ l + nQ r /\ counts_ok l /\ counts_ok r.
Proof.
  destruct c as [d s l0 r0]; cbn. intros H -> ->.
  destruct H as (E & Hl & Hr). unfold nQ, cellN at 1; cbn.
  rewrite E, inject_Z_plus. repeat split; auto.
Qed.

(** Bring the facts about the children of the split cells into the
    context, then the sums of the sub-traces. *)
Ltac children_facts :=
  repeat match goal with
  | K : counts_ok ?c, E1 : getLeft ?c = Some ?l, E2 : getRight ?c = Some ?r
    |- _ =>
      let Hn := fresh "Hn" in
      destruct (counts_ok_children c l r K E1 E2) as (Hn & ? & ?);
      clear E1 E2
  end.

Ltac sum_rewrite :=
  rewrite ?sum_over_app;
  repeat match goal with
  | H : sum_over _ ?t == _ |- context [sum_over _ ?t] => rewrite H; clear H
  end.

Lemma split_calls_acct chk (rec : Proc111) A c1 c2 c3 d1sq d2sq d3sq sp t :
  (forall B x1 x2 x3 e1 e2 e3 t',
      counts_ok x1 -> counts_ok x2 -> counts_ok x3 ->
      rec B x1 x2 x3 e1 e2 e3 = Ok t' ->
      sum_over acct t' == nQ x1 * nQ x2 * nQ x3) ->
  counts_ok c1 -> counts_ok c2 -> counts_ok c3 ->
  split_calls chk rec A c1 c2 c3 d1sq d2sq d3sq sp = Ok t ->
  sum_over acct t == nQ c1 * nQ c2 * nQ c3.
Proof.
  intros Hrec K1 K2 K3. unfold split_calls.
  destruct (split3 sp), (split2 sp), (split1 sp); intros H;
    deref_inv H; seq_inv H; subst; children_facts;
    repeat match goal with
    | Hr : rec _ _ _ _ _ _ _ = Ok _ |- _ => apply Hrec in Hr; [|assumption..]
    end;
    sum_rewrite;
    repeat match goal with
    | Hn : nQ ?c == _ |- context [nQ ?c] => rewrite Hn; clear Hn
    end; ring.
Qed.

Lemma commit111_acct chk lm metric P self c1 c2 c3 d1 d2 d3 u v t :
  commit111 chk lm metric P self c1 c2 c3 d1 d2 d3 u v = Ok t ->
  sum_over acct t == nQ c1 * nQ c2 * nQ c3.
Proof.
  intros H. apply commit111_cases in H. cbv zeta in H.
  destruct H as [[r ->] | [-> _]]; rewrite sum_over_one; unfold acct; cbn [counted lost]; ring.
Qed.

Lemma process111Sorted_acct chk lm metric params (rec : Proc111) A c1 c2 c3
      d1sq d2sq d3sq t :
  (forall B x1 x2 x3 e1 e2 e3 t',
      counts_ok x1 -> counts_ok x2 -> counts_ok x3 ->
      rec B x1 x2 x3 e1 e2 e3 = Ok t' ->
      sum_over acct t' == nQ x1 * nQ x2 * nQ x3) ->
  counts_ok c1 -> counts_ok c2 -> counts_ok c3 ->
  process111Sorted chk lm metric params rec A c1 c2 c3 d1sq d2sq d3sq = Ok t ->
  sum_over acct t == nQ c1 * nQ c2 * nQ c3.
Proof.
  intros Hrec K1 K2 K3. unfold process111Sorted. intros H.
  apply Assert_Ok in H.
  destruct (call_stop111 _ _ _ _ _ _ _ _) as [stop d2].
  destruct stop.
  - inversion H; subst. rewrite sum_over_one. unfold acct; cbn [counted lost]; ring.
  - destruct (split _).
    + apply Assert_Ok in H. eapply split_calls_acct; eauto.
    + eapply commit111_acct; eauto.
Qed.

Lemma sort111_product A c1 c2 c3 d1sq d2sq d3sq :
  let so := sort111 A c1 c2 c3 d1sq d2sq d3sq in
  nQ (so_c1 so) * nQ (so_c2 so) * nQ (so_c3 so) == nQ c1 * nQ c2 * nQ c3.
Proof.
  unfold sort111.
  destruct (d1sq >? d2sq), (d2sq >? d3sq), (d1sq >? d3sq);
    cbn [so_c1 so_c2 so_c3]; ring.
Qed.

Lemma process111_fuel_acct chk lm metric params fuel :
  forall A c1 c2 c3 d1sq d2sq d3sq t,
    counts_ok c1 -> counts_ok c2 -> counts_ok c3 ->
    process111_fuel fuel chk lm metric params A c1 c2 c3 d1sq d2sq d3sq = Ok t ->
    sum_over acct t == nQ c1 * nQ c2 * nQ c3.
Proof.
  induction fuel as [|fuel IH]; intros A c1 c2 c3 d1sq d2sq d3sq t K1 K2 K3 H.
  - discriminate.
  - cbn [process111_fuel] in H.
    repeat match type of H with
    | (if ?c then Ok _ else _) = Ok _ =>
        destruct c;
        [inversion H; subst; rewrite sum_over_one; unfold acct; cbn [counted lost]; ring|]
    end.
    destruct (dists111 _ _ _ _ _ _ _) as [[e1 e2] e3].
    destruct (sort111_all counts_ok (fun _ => True) A c1 c2 c3 e1 e2 e3
                K1 K2 K3 I I I) as (U1 & U2 & U3 & _).
    rewrite <- (sort111_product A c1 c2 c3 e1 e2 e3).
    eapply process111Sorted_acct with (5 := H); eauto.
Qed.

Lemma process12_acct chk lm metric params :
  forall c2 self bc212 bc221 c1 t,
    counts_ok c1 -> counts_ok c2 ->
    process12 chk lm metric params self bc212 bc221 c1 c2 = Ok t ->
    sum_over acct t == nQ c1 * pair2 (nQ c2).
Proof.
  induction c2 as [d s l r IHl IHr] using Cell_children_ind.
  intros self bc212 bc221 c1 t K1 K2 H. cbn [process12] in H.
  repeat match type of H with
  | (if ?c then Ok _ else _) = Ok _ =>
      destruct c;
      [inversion H; subst; rewrite sum_over_one; unfold acct; cbn [counted lost]; ring|]
  end.
  destruct l as [x|]; [|destruct chk; discriminate].
  destruct r as [y|]; [|destruct chk; discriminate].
  destruct (counts_ok_children _ x y K2 eq_refl eq_refl) as (Hn & Kx & Ky).
  seq_inv H. subst.
  apply (IHl x eq_refl) in Hr; auto.
  apply (IHr y eq_refl) in Hr1; auto.
  apply process111_fuel_acct in Hr2; auto.
  sum_rewrite. unfold pair2. rewrite Hn. field.
Qed.

Lemma process3_acct chk lm metric params :
  forall c1 self t,
    counts_ok c1 ->
    process3 chk lm metric params self c1 = Ok t ->
    sum_over acct t == tri3 (nQ c1).
Proof.
  induction c1 as [d s l r IHl IHr] using Cell_children_ind.
  intros self t K1 H. cbn [process3] in H.
  repeat match type of H with
  | (if ?c then Ok _ else _) = Ok _ =>
      destruct c;
      [inversion H; subst; rewrite sum_over_one; unfold acct; cbn [counted lost]; ring|]
  end.
  destruct l as [x|]; [|destruct chk; discriminate].
  destruct r as [y|]; [|destruct chk; discriminate].
  destruct (counts_ok_children _ x y K1 eq_refl eq_refl) as (Hn & Kx & Ky).
  seq_inv H. subst.
  apply (IHl x eq_refl) in Hr; auto.
  apply (IHr y eq_refl) in Hr1; auto.
  apply process12_acct in Hr0; auto.
  apply process12_acct in Hr3; auto.
  sum_rewrite. unfold tri3, pair2. rewrite Hn. field.
Qed.

Lemma loop111_acct chk lm metric params A c1 c2 cs : forall t,
  counts_ok c1 -> counts_ok c2 -> Forall counts_ok cs ->
  loop111 chk lm metric params A c1 c2 cs = Ok t ->
  sum_over acct t == nQ c1 * nQ c2 * field_N cs.
Proof.
  induction cs as [|c3 cs IH]; intros t K1 K2 Ks H; cbn [loop111] in H.
  - inversion H. cbn [sum_over fold_right field_N]. ring.
  - inversion Ks; subst. seq_inv H. subst.
    apply process111_fuel_acct in Hr; auto.
    apply IH in Hr0; auto.
    sum_rewrite. cbn [field_N fold_right]. fold (field_N cs). ring.
Qed.

Lemma auto_j_acct chk lm metric params bc3 c1 cs : forall t,
  counts_ok c1 -> Forall counts_ok cs ->
  auto_j chk lm metric params bc3 c1 cs = Ok t ->
  sum_over acct t
  == nQ c1 * pair2 (field_N cs) + pair2 (nQ c1) * field_N cs.
Proof.
  induction cs as [|c2 cs IH]; intros t K1 Ks H; cbn [auto_j] in H.
  - inversion H. cbn [sum_over fold_right field_N]. unfold pair2. field.
  - inversion Ks; subst. seq_inv H. subst.
    apply process12_acct in Hr; auto.
    apply process12_acct in Hr1; auto.
    apply loop111_acct in Hr0; auto.
    apply IH in Hr3; auto.
    sum_rewrite. cbn [field_N fold_right]. fold (field_N cs).
    unfold pair2. field.
Qed.

Lemma auto_i_acct chk lm metric params bc3 cs : forall t,
  Forall counts_ok cs ->
  auto_i chk lm metric params bc3 cs = Ok t ->
  sum_over acct t == tri3 (field_N cs).
Proof.
  induction cs as [|c1 cs IH]; intros t Ks H; cbn [auto_i] in H.
  - inversion H. cbn [sum_over fold_right field_N]. unfold tri3. field.
  - inversion Ks; subst. seq_inv H. subst.
    apply process3_acct in Hr; auto.
    apply auto_j_acct in Hr1; auto.
    apply IH in Hr2; auto.
    sum_rewrite. cbn [field_N fold_right]. fold (field_N cs).
    unfold tri3, pair2. field.
Qed.

Lemma cross12_j_acct chk lm metric params a b c c1 cs : forall t,
  counts_ok c1 -> Forall counts_ok cs ->
  cross12_j chk lm metric params a b c c1 cs = Ok t ->
  sum_over acct t == nQ c1 * pair2 (field_N cs).
Proof.
  induction cs as [|c2 cs IH]; intros t K1 Ks H; cbn [cross12_j] in H.
  - inversion H. cbn [sum_over fold_right field_N]. unfold pair2. field.
  - inversion Ks; subst. seq_inv H. subst.
    apply process12_acct in Hr; auto.
    apply loop111_acct in Hr1; auto.
    apply IH in Hr2; auto.
    sum_rewrite. cbn [field_N fold_right]. fold (field_N cs).
    unfold pair2. field.
Qed.

Lemma cross12_i_acct chk lm metric params a b c f1 f2 : forall t,
  Forall counts_ok f1 -> Forall counts_ok f2 ->
  cross12_i chk lm metric params a b c f1 f2 = Ok t ->
  sum_over acct t == field_N f1 * pair2 (field_N f2).
Proof.
  induction f1 as [|c1 f1 IH]; intros t K1 K2 H; cbn [cross12_i] in H.
  - inversion H. cbn [sum_over fold_right field_N]. ring.
  - inversion K1; subst. seq_inv H. subst.
    apply cross12_j_acct in Hr; auto.
    apply IH in Hr0; auto.
    sum_rewrite. cbn [field_N fold_right]. fold (field_N f1). ring.
Qed.

Lemma cross_j_acct chk lm metric params A c1 f2 f3 : forall t,
  counts_ok c1 -> Forall counts_ok f2 -> Forall counts_ok f3 ->
  cross_j chk lm metric params A c1 f2 f3 = Ok t ->
  sum_over acct t == nQ c1 * field_N f2 * field_N f3.
Proof.
  induction f2 as [|c2 f2 IH]; intros t K1 K2 K3 H; cbn [cross_j] in H.
  - inversion H. cbn [sum_over fold_right field_N]. ring.
  - inversion K2; subst. seq_inv H. subst.
    apply loop111_acct in Hr; auto.
    apply IH in Hr0; auto.
    sum_rewrite. cbn [field_N fold_right]. fold (field_N f2). ring.
Qed.

Lemma cross_i_acct chk lm metric params A f1 f2 f3 : forall t,
  Forall counts_ok f1 -> Forall counts_ok f2 -> Forall counts_ok f3 ->
  cross_i chk lm metric params A f1 f2 f3 = Ok t ->
  sum_over acct t == field_N f1 * field_N f2 * field_N f3.
Proof.
  induction f1 as [|c1 f1 IH]; intros t K1 K2 K3 H; cbn [cross_i] in H.
  - inversion H. cbn [sum_over fold_right field_N]. ring.
  - inversion K1; subst. seq_inv H. subst.
    apply cross_j_acct in Hr; auto.
    apply IH in Hr0; auto.
    sum_rewrite. cbn [field_N fold_right]. fold (field_N f1). ring.
Qed.

(** The conservation law of an entry point: what its traversal counts and
    what it gives up add up to the point triples of the fields. *)
Lemma entry_acct chk lm metric params e t :
  entry_counts_ok e ->
  traverse chk lm metric params (entry_call e) = Ok t ->
  sum_over acct t == entry_triples e.
Proof.
  destruct e; cbn [entry_counts_ok entry_call traverse entry_triples].
  - apply auto_i_acct.
  - intros [K1 K2]. apply cross12_i_acct; auto.
  - intros (K1 & K2 & K3). apply cross_i_acct; auto.
Qed.

Lemma sum_over_acct t :
  sum_over acct t == sum_over counted t + sum_over lost t.
Proof.
  induction t as [|e t IH].
  - cbn [sum_over fold_right]. ring.
  - change (acct e + sum_over acct t
            == counted e + sum_over counted t + (lost e + sum_over lost t)).
    rewrite IH. unfold acct. ring.
Qed.

Lemma sum_over_lost_zero t :
  Forall (fun e => lost e == 0) t -> sum_over lost t == 0.
Proof.
  induction 1 as [|e t He _ IH].
  - reflexivity.
  - change (lost e + sum_over lost t == 0). rewrite He, IH. ring.
Qed.

(** ** The writes of a traversal into ntri *)

Lemma sum_array_add_at i x a :
  (i < length a)%nat -> sum_array (add_at i x a) == sum_array a + x.
Proof.
  revert i; induction a as [|y a IH]; intros i Hi; cbn [length] in Hi; [lia|].
  destruct i as [|i].
  - change (y + x + sum_array a == y + sum_array a + x). ring.
  - change (y + sum_array (add_at i x a) == y + sum_array a + x).
    rewrite IH by lia. ring.
Qed.

Lemma total_ntri_update a f st :
  (a < length st)%nat ->
  total_ntri (update a f st)
  == total_ntri st - sum_array (_ntri (get st a))
     + sum_array (_ntri (f (get st a))).
Proof.
  unfold get. revert a; induction st as [|X st IH]; intros a Ha;
    cbn [length] in Ha; [lia|].
  destruct a as [|a].
  - change (sum_array (_ntri (f X)) + total_ntri st
            == sum_array (_ntri X) + total_ntri st - sum_array (_ntri X)
               + sum_array (_ntri (f X))). ring.
  - change (sum_array (_ntri X) + total_ntri (update a f st)
            == sum_array (_ntri X) + total_ntri st
               - sum_array (_ntri (nth a st no_corr))
               + sum_array (_ntri (f (nth a st no_corr)))).
    rewrite IH by lia. ring.
Qed.

Lemma total_ntri_update_same a f st :
  (forall X, _ntri (f X) = _ntri X) ->
  total_ntri (update a f st) = total_ntri st.
Proof.
  intros Hf. revert a; induction st as [|X st IH]; intros [|a];
    cbn [update total_ntri fold_right]; auto.
  - rewrite Hf. reflexivity.
  - fold (total_ntri (update a f st)). fold (total_ntri st).
    rewrite IH. reflexivity.
Qed.

Lemma store_ok_update a f st :
  (forall X, Z.of_nat (length (_ntri X)) = _ntot (base X) ->
             Z.of_nat (length (_ntri (f X))) = _ntot (base (f X))) ->
  store_ok st -> store_ok (update a f st).
Proof.
  intros Hf. unfold store_ok.
  revert a; induction st as [|X st IH]; intros [|a] H; cbn [update]; auto;
    inversion H; subst; constructor; auto.
Qed.

Lemma params_of_update a f st :
  (forall X, base (f X) = base X) ->
  forall c, params_of (update a f st) c = params_of st c.
Proof.
  intros Hf c. unfold params_of.
  destruct (Nat.eq_dec c a) as [->|Hne].
  - destruct (Nat.lt_ge_cases a (length st)) as [Hlt | Hge].
    + rewrite get_update_same by exact Hlt. apply Hf.
    + replace (update a f st) with st; [reflexivity|].
      clear -Hge. revert a Hge; induction st as [|X st IH]; intros [|a] H;
        cbn in *; try lia; auto. f_equal. apply IH. lia.
  - rewrite get_update_other by exact Hne. reflexivity.
Qed.

Lemma get_outside st a : (length st <= a)%nat -> get st a = no_corr.
Proof. intros H. unfold get. apply nth_overflow. exact H. Qed.

Lemma store_ok_get st a :
  store_ok st -> (a < length st)%nat ->
  Z.of_nat (length (_ntri (get st a))) = _ntot (base (get st a)).
Proof.
  unfold store_ok, get. intros H Ha.
  rewrite Forall_forall in H. apply H. apply nth_In. exact Ha.
Qed.

(** One step of the replay. *)
Lemma apply_event_total lm metric project P0 st e :
  store_ok st -> (forall a, params_of st a = P0 a) ->
  commit_ok lm metric P0 e ->
  let st' := apply_event lm project st e in
  store_ok st' /\ (forall a, params_of st' a = P0 a) /\
  total_ntri st' == total_ntri st + counted e.
Proof.
  intros Hok HP Hc. destruct e; cbn [apply_event counted];
    try (repeat split; auto; ring).
  cbn [commit_ok] in Hc.
  destruct Hc as (d1sq & d2sq & d3sq & v0 & _ & _ & _ & _ & _ & _ & _ & _ &
                  _ & _ & _ & _ & _ & Hi).
  rewrite <- HP in Hi. unfold params_of in Hi.
  assert (Hs : (self < length st)%nat).
  { destruct (Nat.lt_ge_cases self (length st)) as [H | H]; [exact H|].
    rewrite (get_outside st self H) in Hi. cbn in Hi. lia. }
  pose proof (store_ok_get st self Hok Hs) as Hl.
  split; [|split].
  - apply store_ok_update; [|exact Hok].
    intros X HX. unfold directProcess111, finishProcess; cbn [_ntri base].
    rewrite add_at_length. exact HX.
  - intros a. rewrite params_of_update; [apply HP | reflexivity].
  - rewrite total_ntri_update by exact Hs.
    unfold directProcess111, finishProcess; cbn [_ntri].
    rewrite sum_array_add_at by lia.
    unfold nQ. ring.
Qed.

Lemma replay_total lm metric project P0 t : forall st,
  store_ok st -> (forall a, params_of st a = P0 a) ->
  Forall (commit_ok lm metric P0) t ->
  total_ntri (replay lm project t st) == total_ntri st + sum_over counted t.
Proof.
  induction t as [|e t IH]; intros st Hok HP Hc.
  - cbn [replay fold_left sum_over fold_right]. ring.
  - inversion Hc; subst.
    destruct (apply_event_total lm metric project P0 st e Hok HP H1)
      as (Hok' & HP' & Ht).
    change (total_ntri (replay lm project t (apply_event lm project st e))
            == total_ntri st + (counted e + sum_over counted t)).
    rewrite (IH _ Hok' HP' H2), Ht. ring.
Qed.

Lemma with_coords_store_ok C self st :
  store_ok st -> store_ok (with_coords C self st).
Proof.
  apply store_ok_update. intros X HX. cbn [_ntri base set_coords _ntot].
  exact HX.
Qed.

Lemma with_coords_total C self st :
  total_ntri (with_coords C self st) = total_ntri st.
Proof. apply total_ntri_update_same. reflexivity. Qed.

Lemma run_process_Ok chk lm project C self ne walk st st' :
  run_process chk lm project C self ne walk st = Ok st' ->
  exists t, walk (params_of (with_coords C self st)) = Ok t /\
            st' = replay lm project t (with_coords C self st).
Proof.
  unfold run_process. intros H. apply Assert_Ok in H. cbv zeta in H.
  apply Assert_Ok in H.
  destruct (walk _) as [t|f]; [|discriminate].
  inversion H. eauto.
Qed.

Lemma run_entry_Ok chk lm metric project C e st st' :
  run_entry chk lm metric project C e st = Ok st' ->
  exists t, entry_trace chk lm metric C e st = Ok t /\
            st' = replay lm project t (with_coords C (entry_self e) st).
Proof.
  destruct e; cbn [run_entry]; unfold process_auto, process_cross12,
    process_cross; intros H; apply run_process_Ok in H; exact H.
Qed.

(** What an entry point adds to ntri when its traversal gives up no point
    triple at any early return: N (N-1) (N-2) / 6 for the auto entry point
    on a field of N points, N1 N2 (N2-1) / 2 for cross-12 and N1 N2 N3 for
    cross-111.  (The statement needs only that the number of points of an
    internal cell is the sum over its children.) *)
Lemma count_conserved_unpruned chk lm metric project C e st st' :
  store_ok st ->
  entry_counts_ok e ->
  run_entry chk lm metric project C e st = Ok st' ->
  unpruned (entry_trace chk lm metric C e st) ->
  total_ntri st' == total_ntri st + entry_triples e.
Proof.
  intros Hok Hn Hrun (t & Ht & Hl).
  apply run_entry_Ok in Hrun. destruct Hrun as (t' & Ht' & ->).
  rewrite Ht in Ht'. inversion Ht'; subst t'. clear Ht'.
  unfold entry_trace in Ht.
  pose proof (traverse_commit_ok _ _ _ _ _ _ Ht) as Hc.
  pose proof (entry_acct _ _ _ _ _ _ Hn Ht) as Ha.
  rewrite sum_over_acct, (sum_over_lost_zero t Hl) in Ha.
  rewrite (replay_total lm metric project _ t _
             (with_coords_store_ok C (entry_self e) st Hok)
             (fun a => eq_refl) Hc).
  rewrite with_coords_total, <- Ha. ring.
Qed.

(** * The statements on concrete inputs *)

(** The auto entry point on the four points of [field4] counts the four
    triangles. *)
Lemma auto_four_points : total_ntri st4 == 4.
Proof. vm_compute. reflexivity. Qed.

(** Cross-12 on one point and three points: 1 * 3 * 2 / 2 = 3 triangles,
    over the three accumulators. *)
Lemma cross12_three_triangles :
  match run_entry false test_libm flat_metric no_projection 1
                  (Cross12 0%nat 1%nat 2%nat [ptA] [cellR; ptB]) st_three with
  | Ok st => total_ntri st == 3
  | Fail _ => False
  end.
Proof. vm_compute. reflexivity. Qed.

(** Cross-111 on two points, one point and one point: 2 triangles, over
    the six accumulators. *)
Lemma cross111_two_triangles :
  match run_entry false test_libm flat_metric no_projection 1
                  (Cross111 0%nat 1%nat 2%nat 3%nat 4%nat 5%nat
                            [cellL] [ptC] [ptD]) st_six with
  | Ok st => total_ntri st == 2
  | Fail _ => False
  end.
Proof. vm_compute. reflexivity. Qed.


Lemma commits_in_range_witness :
  sqrt_ok test_libm /\
  traverse false test_libm flat_metric (params_of st0)
           (CallAuto 0%nat field4) = Ok trace4 /\
  (Forall (in_range (params_of st0)) trace4 /\
   (forall project e st,
       In e trace4 -> is_commit e = false ->
       apply_event test_libm project st e = st)).
Proof.
  assert (H : traverse false test_libm flat_metric (params_of st0)
                       (CallAuto 0%nat field4) = Ok trace4)
    by (vm_compute; reflexivity).
  split; [exact dyadic_sqrt_ok|]. split; [exact H|].
  exact (commits_in_range false test_libm flat_metric (params_of st0)
           (CallAuto 0%nat field4) trace4 dyadic_sqrt_ok H).
Defined.

Lemma v_sign_by_orientation_witness :
  sqrt_ok test_libm /\
  traverse false test_libm flat_metric (params_of st0)
           (CallAuto 0%nat field4) = Ok trace4 /\
  (Forall (signed_ok flat_metric (params_of st0)) trace4 /\
   (forall project X c1 c2 c3 d1 d2 d3 logr u v index,
       _meanv (directProcess111 test_libm project X c1 c2 c3 d1 d2 d3
                                logr u v index)
       = add_at (Z.to_nat index) (cellW c1 * cellW c2 * cellW c3 * v)
                (_meanv X))).
Proof.
  assert (H : traverse false test_libm flat_metric (params_of st0)
                       (CallAuto 0%nat field4) = Ok trace4)
    by (vm_compute; reflexivity).
  split; [exact dyadic_sqrt_ok|]. split; [exact H|].
  exact (v_sign_by_orientation false test_libm flat_metric (params_of st0)
           (CallAuto 0%nat field4) trace4 dyadic_sqrt_ok H).
Defined.

Lemma process111_sorts_and_routes_witness :
  ~ cellW iso_a == 0 /\ ~ cellW iso_b == 0 /\ ~ cellW iso_c == 0 /\
  (let '(e1, e2, e3) := dists111 flat_metric iso_a iso_b iso_c 0 0 0 in
   let s := sigma111 e1 e2 e3 in
   exists B c1' c2' c3' f1 f2 f3,
     process111_fuel 4 false test_libm flat_metric (fun _ => P_wide) one_acc
                     iso_a iso_b iso_c 0 0 0
     = process111Sorted false test_libm flat_metric (fun _ => P_wide)
         (process111_fuel 3 false test_libm flat_metric (fun _ => P_wide))
         B c1' c2' c3' f1 f2 f3 /\
     f2 <= f1 /\ f3 <= f2 /\
     (c1', c2', c3') = pick s iso_a iso_b iso_c /\
     (f1, f2, f3) = pick s e1 e2 e3 /\
     a123 B = slot one_acc s /\
     (forall t, slot B t = slot one_acc (compose s t))).
Proof.
  assert (H : ~ 1 == 0) by (intros E; discriminate E).
  split; [exact H|]. split; [exact H|]. split; [exact H|].
  exact (process111_sorts_and_routes 3 false test_libm flat_metric
           (fun _ => P_wide) one_acc iso_a iso_b iso_c 0 0 0 H H H).
Defined.

Lemma flat_index_and_drop_witness :
  let P := P_wide in
  let sp := decide_split test_libm P 169 169 100 iso_d2 0 0 0 in
  let ccw := CCW flat_metric (cellPos iso_b) (cellPos iso_a) (cellPos iso_c) in
  let B := binning P ccw (m_log test_libm iso_d2) (sp_u sp) (sp_v sp) in
  let r := process111Sorted false test_libm flat_metric (fun _ => P_wide)
             probe111 one_acc iso_b iso_a iso_c 169 169 100 in
  derived_ok test_libm P /\
  call_stop111 test_libm P 169 169 100 0 0 0 = (false, iso_d2) /\
  split sp = false /\
  (b_index B = (b_kr B * (_nubins P * (2 * _nvbins P))
                + b_ku B * (2 * _nvbins P) + b_kv B)%Z /\
   (forall t e, r = Ok t -> In e t -> is_commit e = true ->
      e = Direct111 0%nat iso_b iso_a iso_c (sp_d1 sp) iso_d2 (sp_d3 sp)
                    (m_log test_libm iso_d2) (sp_u sp) (b_v B) (b_index B) /\
      (0 <= b_index B < _ntot P)%Z) /\
   ((b_index B < 0 \/ _ntot P <= b_index B)%Z ->
    (forall t, r = Ok t ->
       (exists reason, t = [Ret111 reason 0%nat iso_b iso_a iso_c]) /\
       (forall project st, replay test_libm project t st = st)) /\
    (false = false -> exists t, r = Ok t))).
Proof.
  cbv zeta.
  assert (H1 : derived_ok test_libm P_wide) by (vm_compute; reflexivity).
  assert (H2 : call_stop111 test_libm P_wide 169 169 100 0 0 0
               = (false, iso_d2)) by (vm_compute; reflexivity).
  assert (H3 : split (decide_split test_libm P_wide 169 169 100 iso_d2 0 0 0)
               = false) by (vm_compute; reflexivity).
  split; [exact H1|]. split; [exact H2|]. split; [exact H3|].
  exact (flat_index_and_drop false test_libm flat_metric (fun _ => P_wide)
           probe111 one_acc iso_b iso_a iso_c 169 169 100 iso_d2 H1 H2 H3).
Defined.

Lemma add_assign_frame_witness :
  0%nat <> 1%nat /\ (0 < length st_two)%nat /\ (1 < length st_two)%nat /\
  _ntot (base (get st_two 1%nat)) = _ntot (base (get st_two 0%nat)) /\
  exists st',
    op_add_assign false 0%nat 1%nat st_two = Ok st' /\
    let X := get st_two 0%nat in
    let R := get st_two 1%nat in
    let X' := get st' 0%nat in
    let n := _ntot (base X) in
    zeta_added n (_zeta X) (_zeta R) (_zeta X') /\
    added n (_meand1 X) (_meand1 R) (_meand1 X') /\
    added n (_meanlogd1 X) (_meanlogd1 R) (_meanlogd1 X') /\
    added n (_meand2 X) (_meand2 R) (_meand2 X') /\
    added n (_meanlogd2 X) (_meanlogd2 R) (_meanlogd2 X') /\
    added n (_meand3 X) (_meand3 R) (_meand3 X') /\
    added n (_meanlogd3 X) (_meanlogd3 R) (_meanlogd3 X') /\
    added n (_meanu X) (_meanu R) (_meanu X') /\
    added n (_meanv X) (_meanv R) (_meanv X') /\
    added n (_weight X) (_weight R) (_weight X') /\
    added n (_ntri X) (_ntri R) (_ntri X') /\
    base X' = base X /\ _owns_data X' = _owns_data X /\
    get st' 1%nat = get st_two 1%nat /\
    (forall c, c <> 0%nat -> get st' c = get st_two c) /\
    length st' = length st_two.
Proof.
  assert (H1 : 0%nat <> 1%nat) by discriminate.
  assert (H2 : (0 < length st_two)%nat) by (cbn; lia).
  assert (H3 : (1 < length st_two)%nat) by (cbn; lia).
  assert (H4 : _ntot (base (get st_two 1%nat)) = _ntot (base (get st_two 0%nat)))
    by reflexivity.
  repeat (split; [assumption|]).
  exact (add_assign_frame false 0%nat 1%nat st_two H1 H2 H3 H4).
Defined.

Lemma process3_children_witness :
  derived_ok test_libm P_fine /\
  ((0 < _minsep P_fine ->
    forall c1, shape_ok c1 ->
      process3 false test_libm flat_metric (fun _ => P_fine) 0%nat c1
      <> Fail (AssertFailed In_process3) /\
      process3 false test_libm flat_metric (fun _ => P_fine) 0%nat c1
      <> Fail (NullChild In_process3)) /\
   (_minsep P_fine == 0 ->
    forall c1, is_leaf c1 -> ~ cellW c1 == 0 -> getSize c1 == 0 ->
      process3 false test_libm flat_metric (fun _ => P_fine) 0%nat c1
      = Fail (if false then AssertFailed In_process3
              else NullChild In_process3))).
Proof.
  assert (H : derived_ok test_libm P_fine) by (vm_compute; reflexivity).
  split; [exact H|].
  exact (process3_children false test_libm flat_metric (fun _ => P_fine)
           0%nat H).
Defined.
(** * Further properties of the code *)

(** ** The bins of a commit (lines 954-1004) *)

Lemma Qfloor_range (x : Q) (n : Z) :
  0 <= x -> x < inject_Z n -> (0 <= Qfloor x < n)%Z.
Proof.
  intros H0 Hn. split.
  - change 0%Z with (Qfloor 0). apply Qfloor_resp_le. exact H0.
  - rewrite Zlt_Qlt. eapply Qle_lt_trans; [apply Qfloor_le | exact Hn].
Qed.

Lemma Qfloor_range_le (x : Q) (n : Z) :
  0 <= x -> x <= inject_Z n -> (0 <= Qfloor x <= n)%Z.
Proof.
  intros H0 Hn. split.
  - change 0%Z with (Qfloor 0). apply Qfloor_resp_le. exact H0.
  - rewrite <- (Qfloor_Z n). apply Qfloor_resp_le. exact Hn.
Qed.

Lemma div_range (x w : Q) (n : Z) :
  0 < w -> 0 <= x -> x < inject_Z n * w ->
  0 <= x / w /\ x / w < inject_Z n.
Proof.
  intros Hw H0 Hn. split.
  - apply Qle_shift_div_l; [exact Hw | lra].
  - apply Qlt_shift_div_r; [exact Hw | exact Hn].
Qed.

Lemma div_range_le (x w : Q) (n : Z) :
  0 < w -> 0 <= x -> x <= inject_Z n * w ->
  0 <= x / w /\ x / w <= inject_Z n.
Proof.
  intros Hw H0 Hn. split.
  - apply Qle_shift_div_l; [exact Hw | lra].
  - apply Qle_shift_div_r; [exact Hw | exact Hn].
Qed.

Lemma derived_logminsep lm P :
  derived_ok lm P -> _logminsep P = m_log lm (_minsep P).
Proof. intros H. exact (f_equal _logminsep H). Qed.

(** The three bin numbers of a value in range, before the sign step. *)
Lemma bin_numbers_in_range lm P d2 u v :
  derived_ok lm P -> bins_cover lm P -> log_mono lm ->
  _minsep P <= d2 -> d2 < _maxsep P ->
  _minu P <= u -> u < _maxu P ->
  _minv P <= v -> v < _maxv P ->
  (0 <= ifloor ((m_log lm d2 - _logminsep P) / _binsize P) <= _nbins P)%Z /\
  (0 <= bin_kr P (m_log lm d2) < _nbins P)%Z /\
  (0 <= ifloor ((u - _minu P) / _ubinsize P) < _nubins P)%Z /\
  bin_ku P u = ifloor ((u - _minu P) / _ubinsize P) /\
  (0 <= ifloor ((v - _minv P) / _vbinsize P) < _nvbins P)%Z /\
  bin_kv P v = ifloor ((v - _minv P) / _vbinsize P).
Proof.
  intros HP (Hmin & Hb & Hub & Hvb & Hn & Cr & Cu & Cv) Hlog
         Hd1 Hd2 Hu1 Hu2 Hv1 Hv2.
  rewrite (derived_logminsep lm P HP).
  assert (L1 : m_log lm (_minsep P) <= m_log lm d2)
    by (apply Hlog; assumption).
  assert (L2 : m_log lm d2 <= m_log lm (_maxsep P))
    by (apply Hlog; lra).
  destruct (div_range_le (m_log lm d2 - m_log lm (_minsep P)) (_binsize P)
              (_nbins P) Hb) as [R1 R2]; [lra | lra |].
  pose proof (Qfloor_range_le _ _ R1 R2) as Kr.
  destruct (div_range (u - _minu P) (_ubinsize P) (_nubins P) Hub)
    as [U1 U2]; [lra | lra |].
  pose proof (Qfloor_range _ _ U1 U2) as Ku.
  destruct (div_range (v - _minv P) (_vbinsize P) (_nvbins P) Hvb)
    as [V1 V2]; [lra | lra |].
  pose proof (Qfloor_range _ _ V1 V2) as Kv.
  unfold bin_kr, bin_ku, bin_kv, ifloor in *.
  rewrite (derived_logminsep lm P HP).
  repeat split; try lia.
  - destruct (Z.eqb_spec (Qfloor ((m_log lm d2 - m_log lm (_minsep P))
                                  / _binsize P)) (_nbins P)); lia.
  - destruct (Z.eqb_spec (Qfloor ((m_log lm d2 - m_log lm (_minsep P))
                                  / _binsize P)) (_nbins P)); lia.
  - rewrite Z.geb_leb.
    destruct (Z.leb_spec (_nubins P) (Qfloor ((u - _minu P) / _ubinsize P)));
      [lia | reflexivity].
  - rewrite Z.geb_leb.
    destruct (Z.leb_spec (_nvbins P) (Qfloor ((v - _minv P) / _vbinsize P)));
      [lia | reflexivity].
Qed.

Lemma flat_index_range (nb nu nv2 kr ku kv : Z) :
  (0 <= kr < nb)%Z -> (0 <= ku < nu)%Z -> (0 <= kv < nv2)%Z ->
  (0 <= kr * (nu * nv2) + ku * nv2 + kv < nb * (nu * nv2))%Z.
Proof.
  intros Hr Hu Hv.
  assert (0 <= ku * nv2)%Z by (apply Z.mul_nonneg_nonneg; lia).
  assert (ku * nv2 <= (nu - 1) * nv2)%Z
    by (apply Z.mul_le_mono_nonneg_r; lia).
  assert (0 <= nu * nv2)%Z by (apply Z.mul_nonneg_nonneg; lia).
  assert (0 <= kr * (nu * nv2))%Z by (apply Z.mul_nonneg_nonneg; lia).
  assert (kr * (nu * nv2) <= (nb - 1) * (nu * nv2))%Z
    by (apply Z.mul_le_mono_nonneg_r; lia).
  lia.
Qed.

Lemma commit111_bins_ok chk lm metric P self c1 c2 c3 d1 d2 d3 u v :
  derived_ok lm P -> bins_cover lm P -> log_mono lm ->
  _minsep P <= d2 -> d2 < _maxsep P ->
  _minu P <= u -> u < _maxu P ->
  _minv P <= v -> v < _maxv P ->
  let ccw := CCW metric (cellPos c1) (cellPos c2) (cellPos c3) in
  let B := binning P ccw (m_log lm d2) u v in
  (0 <= b_kr B < _nbins P)%Z /\ (0 <= b_ku B < _nubins P)%Z /\
  (if ccw then (_nvbins P <= b_kv B < 2 * _nvbins P)%Z
   else (0 <= b_kv B < _nvbins P)%Z) /\
  (0 <= b_index B < _ntot P)%Z /\
  binning_asserts P ccw (m_log lm d2) u v = true /\
  (chk = false \/ (0 < d1 /\ 0 < d3 /\ 0 < u /\ 0 <= v) ->
   commit111 chk lm metric P self c1 c2 c3 d1 d2 d3 u v
   = Ok [Direct111 self c1 c2 c3 d1 d2 d3 (m_log lm d2) u (b_v B)
                   (b_index B)]).
Proof.
  intros HP HC HL Hd1 Hd2 Hu1 Hu2 Hv1 Hv2 ccw B.
  destruct (bin_numbers_in_range lm P d2 u v HP HC HL Hd1 Hd2 Hu1 Hu2 Hv1 Hv2)
    as (Kr0 & Kr & Ku0 & Eu & Kv0 & Ev).
  destruct (derived_nuv lm P HP) as (E1 & E2 & E3).
  assert (Kv : if ccw then (_nvbins P <= b_kv B < 2 * _nvbins P)%Z
               else (0 <= b_kv B < _nvbins P)%Z).
  { unfold B, binning; cbn [b_kv]. rewrite Ev. destruct ccw; cbn [negb]; lia. }
  assert (Kv2 : (0 <= b_kv B < _nvbins P * 2)%Z) by (destruct ccw; lia).
  assert (Kr' : (0 <= b_kr B < _nbins P)%Z) by exact Kr.
  assert (Ku' : (0 <= b_ku B < _nubins P)%Z)
    by (unfold B, binning; cbn [b_ku]; rewrite Eu; exact Ku0).
  assert (Ki : (0 <= b_index B < _ntot P)%Z).
  { pose proof (flat_index_range _ _ _ _ _ _ Kr' Ku' Kv2) as Hi.
    unfold B, binning in *; cbn [b_index b_kr b_ku b_kv] in *.
    rewrite E1, E2, E3. exact Hi. }
  assert (Ha : binning_asserts P ccw (m_log lm d2) u v = true).
  { unfold binning_asserts. fold B. rewrite Ev.
    rewrite !andb_true_iff, !orb_true_iff, !negb_true_iff.
    rewrite !Z.geb_leb, !Z.leb_le, !Z.ltb_lt, !Z.leb_gt, !Z.eqb_eq.
    rewrite E1. repeat split; try lia. }
  repeat split; try tauto; try lia.
  intros Hchk. unfold commit111, Assert. fold ccw B. rewrite Ha.
  assert (F1 : chk && negb ((d1 >? 0) && (d3 >? 0) && (u >? 0) && (v >=? 0))
               = false).
  { destruct Hchk as [-> | (A1 & A2 & A3 & A4)]; [reflexivity|].
    apply andb_false_iff. right. apply negb_false_iff. dbl_goal; assumption. }
  rewrite F1. cbn [negb andb]. rewrite andb_false_r.
  replace ((d2 <? _minsep P) || (d2 >=? _maxsep P)) with false
    by (symmetry; dbl_goal; lra).
  replace ((u <? _minu P) || (u >=? _maxu P)) with false
    by (symmetry; dbl_goal; lra).
  replace ((v <? _minv P) || (v >=? _maxv P)) with false
    by (symmetry; dbl_goal; lra).
  replace ((b_index B <? 0)%Z || (b_index B >=? _ntot P)%Z) with false;
    [reflexivity|].
  symmetry. apply orb_false_iff. rewrite Z.geb_leb, Z.ltb_ge, Z.leb_gt. lia.
Qed.

(** X1: when the bins cover the ranges and the logarithm does not decrease,
    a triple whose d2, u and v passed the range tests of the commit gets bin
    numbers kr in [0, nbins), ku in [0, nubins) and kv in [nvbins, 2 nvbins)
    for a counter-clockwise triple, in [0, nvbins) otherwise; every
    assertion on the bins holds, the flat index lies in [0, ntot), and the
    commit calls directProcess111 at that index: nothing is dropped. *)
Theorem commit_bins_in_range chk lm metric P self c1 c2 c3 d1 d2 d3 u v :
  derived_ok lm P -> bins_cover lm P -> log_mono lm ->
  _minsep P <= d2 -> d2 < _maxsep P ->
  _minu P <= u -> u < _maxu P ->
  _minv P <= v -> v < _maxv P ->
  let ccw := CCW metric (cellPos c1) (cellPos c2) (cellPos c3) in
  let B := binning P ccw (m_log lm d2) u v in
  (0 <= b_kr B < _nbins P)%Z /\ (0 <= b_ku B < _nubins P)%Z /\
  (if ccw then (_nvbins P <= b_kv B < 2 * _nvbins P)%Z
   else (0 <= b_kv B < _nvbins P)%Z) /\
  (0 <= b_index B < _ntot P)%Z /\
  binning_asserts P ccw (m_log lm d2) u v = true /\
  (chk = false \/ (0 < d1 /\ 0 < d3 /\ 0 < u /\ 0 <= v) ->
   commit111 chk lm metric P self c1 c2 c3 d1 d2 d3 u v
   = Ok [Direct111 self c1 c2 c3 d1 d2 d3 (m_log lm d2) u (b_v B)
                   (b_index B)]).
Proof. apply commit111_bins_ok. Qed.

Lemma floor_bracket (x w : Q) :
  0 < w ->
  inject_Z (Qfloor (x / w)) * w <= x /\ x < inject_Z (Qfloor (x / w) + 1) * w.
Proof.
  intros Hw.
  pose proof (Qfloor_le (x / w)) as H1.
  pose proof (Qlt_floor (x / w)) as H2.
  assert (E : x / w * w == x) by (field; lra).
  split.
  - rewrite <- E at 2. apply Qmult_le_compat_r; [exact H1 | lra].
  - rewrite <- E at 1. apply Qmult_lt_compat_r; [exact Hw | exact H2].
Qed.

Lemma binning_bracket lm P ccw d2 u v :
  derived_ok lm P -> bins_cover lm P -> log_mono lm ->
  _minsep P <= d2 -> d2 < _maxsep P ->
  _minu P <= u -> u < _maxu P ->
  _minv P <= v -> v < _maxv P ->
  let B := binning P ccw (m_log lm d2) u v in
  let kr := inject_Z (b_kr B) in
  let ku := inject_Z (b_ku B) in
  let kv := inject_Z (b_kv B) in
  let nv := inject_Z (_nvbins P) in
  (_logminsep P + kr * _binsize P <= m_log lm d2 /\
   m_log lm d2 <= _logminsep P + (kr + 1) * _binsize P) /\
  (_minu P + ku * _ubinsize P <= u /\
   u < _minu P + (ku + 1) * _ubinsize P) /\
  (if ccw
   then _minv P + (kv - nv) * _vbinsize P <= b_v B /\
        b_v B < _minv P + (kv - nv + 1) * _vbinsize P
   else - (_minv P + (nv - kv) * _vbinsize P) < b_v B /\
        b_v B <= - (_minv P + (nv - kv - 1) * _vbinsize P)).
Proof.
  intros HP HC HL Hd1 Hd2 Hu1 Hu2 Hv1 Hv2 B kr ku kv nv.
  destruct (bin_numbers_in_range lm P d2 u v HP HC HL Hd1 Hd2 Hu1 Hu2 Hv1 Hv2)
    as (Kr0 & Kr & Ku0 & Eu & Kv0 & Ev).
  destruct HC as (Hmin & Hb & Hub & Hvb & Hn & Cr & Cu & Cv).
  pose proof (floor_bracket (m_log lm d2 - _logminsep P) (_binsize P) Hb)
    as [R1 R2].
  pose proof (floor_bracket (u - _minu P) (_ubinsize P) Hub) as [U1 U2].
  pose proof (floor_bracket (v - _minv P) (_vbinsize P) Hvb) as [V1 V2].
  rewrite inject_Z_plus in R2, U2, V2.
  change (inject_Z 1) with 1 in R2, U2, V2.
  split; [|split].
  - unfold kr, B, binning; cbn [b_kr]. unfold bin_kr, ifloor in *.
    destruct (Z.eqb_spec (Qfloor ((m_log lm d2 - _logminsep P) / _binsize P))
                (_nbins P)) as [E | E].
    + rewrite E in *.
      replace (_nbins P - 1)%Z with (_nbins P + -1)%Z by lia.
      rewrite inject_Z_plus. change (inject_Z (-1)) with (-1 # 1).
      rewrite (derived_logminsep lm P HP) in *.
      assert (m_log lm d2 <= m_log lm (_maxsep P)) by (apply HL; lra).
      split; nra.
    + split; nra.
  - unfold ku, B, binning; cbn [b_ku]. rewrite Eu. unfold ifloor. split; nra.
  - unfold kv, nv, B, binning; cbn [b_kv b_v]. rewrite Ev. unfold ifloor.
    destruct ccw; cbn [negb].
    + rewrite inject_Z_plus. split; nra.
    + replace (_nvbins P - Qfloor ((v - _minv P) / _vbinsize P) - 1)%Z
        with (_nvbins P + - Qfloor ((v - _minv P) / _vbinsize P) + -1)%Z
        by lia.
      rewrite !inject_Z_plus, inject_Z_opp.
      change (inject_Z (-1)) with (-1 # 1).
      split; nra.
Qed.

(** X2: the bin of a value in range brackets the value.  With bins that
    cover the ranges, bin [ku] holds minu + ku ubinsize <= u
    < minu + (ku+1) ubinsize, bin [kr] holds
    logminsep + kr binsize <= log(d2) <= logminsep + (kr+1) binsize (the
    upper edge being reached only by the last bin), and the signed bin [kv]
    holds the signed v: bins nvbins and above the values
    minv + (kv-nvbins) vbinsize <= v < minv + (kv-nvbins+1) vbinsize of the
    counter-clockwise triples, the bins below nvbins the values
    -(minv + (nvbins-kv) vbinsize) < v <= -(minv + (nvbins-kv-1) vbinsize)
    of the others. *)
Theorem bins_bracket lm P ccw d2 u v :
  derived_ok lm P -> bins_cover lm P -> log_mono lm ->
  _minsep P <= d2 -> d2 < _maxsep P ->
  _minu P <= u -> u < _maxu P ->
  _minv P <= v -> v < _maxv P ->
  let B := binning P ccw (m_log lm d2) u v in
  let kr := inject_Z (b_kr B) in
  let ku := inject_Z (b_ku B) in
  let kv := inject_Z (b_kv B) in
  let nv := inject_Z (_nvbins P) in
  (_logminsep P + kr * _binsize P <= m_log lm d2 /\
   m_log lm d2 <= _logminsep P + (kr + 1) * _binsize P) /\
  (_minu P + ku * _ubinsize P <= u /\
   u < _minu P + (ku + 1) * _ubinsize P) /\
  (if ccw
   then _minv P + (kv - nv) * _vbinsize P <= b_v B /\
        b_v B < _minv P + (kv - nv + 1) * _vbinsize P
   else - (_minv P + (nv - kv) * _vbinsize P) < b_v B /\
        b_v B <= - (_minv P + (nv - kv - 1) * _vbinsize P)).
Proof. apply binning_bracket. Qed.

Lemma div_mod_unique (a b q r : Z) :
  (0 <= r < b)%Z -> a = (q * b + r)%Z -> (a / b = q /\ a mod b = r)%Z.
Proof.
  intros Hr E.
  assert (E' : a = (b * q + r)%Z) by lia.
  split.
  - symmetry. apply (Z.div_unique a b q r); [left; exact Hr | exact E'].
  - symmetry. apply (Z.mod_unique a b q r); [left; exact Hr | exact E'].
Qed.

Lemma asserted_bins lm P ccw logr u v :
  derived_ok lm P ->
  binning_asserts P ccw logr u v = true ->
  let B := binning P ccw logr u v in
  (0 <= b_kr B < _nbins P)%Z /\ (0 <= b_ku B < _nubins P)%Z /\
  (0 <= b_kv B < _nvbins2 P)%Z /\ (0 <= b_index B < _ntot P)%Z.
Proof.
  intros HP Ha B. destruct (derived_nuv lm P HP) as (E1 & E2 & E3).
  unfold binning_asserts in Ha. fold B in Ha.
  rewrite !andb_true_iff in Ha.
  rewrite !Z.geb_leb, !Z.leb_le, !Z.ltb_lt in Ha.
  destruct Ha as ((((((((((((A1 & A2) & A3) & _) & A5) & A6) & _) & _) & _)
                     & A10) & A11) & A12) & A13).
  assert (Kr : (0 <= b_kr B)%Z).
  { unfold B, binning in *; cbn [b_kr b_index] in *. unfold bin_kr in *.
    destruct (Z.eqb_spec (ifloor ((logr - _logminsep P) / _binsize P))
                (_nbins P)) as [E | E]; [|lia].
    destruct (Z.le_gt_cases 1 (_nbins P)) as [Hn | Hn]; [lia|].
    exfalso. rewrite E3 in A13.
    assert (_nbins P * (_nubins P * (_nvbins P * 2)) <= 0)%Z; [|lia].
    assert (0 <= _nbins P)%Z by lia.
    assert (_nbins P = 0)%Z by lia. lia. }
  repeat split; lia.
Qed.

Lemma binning_decode lm P ccw logr u v :
  derived_ok lm P ->
  binning_asserts P ccw logr u v = true ->
  let B := binning P ccw logr u v in
  (b_kr B = b_index B / _nuv P /\
   b_ku B = (b_index B mod _nuv P) / _nvbins2 P /\
   b_kv B = b_index B mod _nvbins2 P)%Z /\
  (forall ccw' logr' u' v',
      binning_asserts P ccw' logr' u' v' = true ->
      let B' := binning P ccw' logr' u' v' in
      b_index B' = b_index B ->
      b_kr B' = b_kr B /\ b_ku B' = b_ku B /\ b_kv B' = b_kv B).
Proof.
  intros HP Ha B.
  assert (Hdec : forall c l x y,
             binning_asserts P c l x y = true ->
             let D := binning P c l x y in
             (b_kr D = b_index D / _nuv P /\
              b_ku D = (b_index D mod _nuv P) / _nvbins2 P /\
              b_kv D = b_index D mod _nvbins2 P)%Z).
  { intros c l x y H D.
    destruct (asserted_bins lm P c l x y HP H) as (Kr & Ku & Kv & _).
    fold D in Kr, Ku, Kv.
    destruct (derived_nuv lm P HP) as (E1 & E2 & E3).
    assert (Ei : b_index D
                 = (b_kr D * _nuv P + (b_ku D * _nvbins2 P + b_kv D))%Z).
    { unfold D, binning; cbn [b_index b_kr b_ku b_kv]. lia. }
    assert (Hin : (0 <= b_ku D * _nvbins2 P + b_kv D < _nuv P)%Z).
    { rewrite E2, <- E1.
      assert (0 <= b_ku D * _nvbins2 P)%Z
        by (apply Z.mul_nonneg_nonneg; lia).
      assert (b_ku D * _nvbins2 P <= (_nubins P - 1) * _nvbins2 P)%Z
        by (apply Z.mul_le_mono_nonneg_r; lia).
      lia. }
    destruct (div_mod_unique _ _ _ _ Hin Ei) as [Q1 Q2].
    destruct (div_mod_unique _ _ _ _ Kv (eq_refl (b_ku D * _nvbins2 P + b_kv D)%Z))
      as [Q3 Q4].
    assert (Ei' : b_index D
                  = ((b_kr D * _nubins P + b_ku D) * _nvbins2 P + b_kv D)%Z).
    { rewrite Ei, E2, <- E1. ring. }
    destruct (div_mod_unique _ _ _ _ Kv Ei') as [_ Q5].
    rewrite Q2. repeat split; symmetry; assumption. }
  split; [exact (Hdec ccw logr u v Ha)|].
  intros ccw' logr' u' v' Ha' B' Ei.
  destruct (Hdec ccw logr u v Ha) as (A1 & A2 & A3).
  destruct (Hdec ccw' logr' u' v' Ha') as (A1' & A2' & A3').
  fold B in A1, A2, A3. fold B' in A1', A2', A3'.
  rewrite A1, A2, A3, A1', A2', A3', Ei. auto.
Qed.

(** X3: the flat index determines the bin.  When the assertions on the
    bins hold, [kr], [ku] and [kv] are recovered from the index as
    index / nuv, (index mod nuv) / nvbins2 and index mod nvbins2 (the layout
    of an array of shape nbins x nubins x 2 nvbins); hence two commits with
    the same index have the same three bin numbers. *)
Theorem flat_index_decode lm P ccw logr u v :
  derived_ok lm P ->
  binning_asserts P ccw logr u v = true ->
  let B := binning P ccw logr u v in
  (b_kr B = b_index B / _nuv P /\
   b_ku B = (b_index B mod _nuv P) / _nvbins2 P /\
   b_kv B = b_index B mod _nvbins2 P)%Z /\
  (forall ccw' logr' u' v',
      binning_asserts P ccw' logr' u' v' = true ->
      let B' := binning P ccw' logr' u' v' in
      b_index B' = b_index B ->
      b_kr B' = b_kr B /\ b_ku B' = b_ku B /\ b_kv B' = b_kv B).
Proof. apply binning_decode. Qed.

(** ** stop111 (lines 497-602) *)

Lemma derived_squares lm P :
  derived_ok lm P ->
  _minsepsq P = _minsep P * _minsep P /\ _maxsepsq P = _maxsep P * _maxsep P /\
  _minusq P = _minu P * _minu P /\ _maxusq P = _maxu P * _maxu P /\
  _minvsq P = _minv P * _minv P /\ _maxvsq P = _maxv P * _maxv P /\
  _bsq P = _b P * _b P /\ _busq P = _bu P * _bu P /\ _bvsq P = _bv P * _bv P /\
  _halfminsep P = (1#2) * _minsep P /\
  _halfmind3 P = (1#2) * _minsep P * _minu P.
Proof.
  intros H.
  repeat split;
    [ exact (f_equal _minsepsq H) | exact (f_equal _maxsepsq H)
    | exact (f_equal _minusq H) | exact (f_equal _maxusq H)
    | exact (f_equal _minvsq H) | exact (f_equal _maxvsq H)
    | exact (f_equal _bsq H) | exact (f_equal _busq H)
    | exact (f_equal _bvsq H) | exact (f_equal _halfminsep H)
    | exact (f_equal _halfmind3 H) ].
Qed.

Lemma stop111_keeps_leaf lm P d1 d2 d3 s1 s2 s3 d1sq d2sq d3sq :
  derived_ok lm P ->
  s1 == 0 -> s2 == 0 -> s3 == 0 ->
  d1sq == d1 * d1 -> d2sq == d2 * d2 -> d3sq == d3 * d3 ->
  m_sqrt lm d2sq == d2 ->
  0 < d3 -> d3 <= d2 -> d2 <= d1 ->
  _minsep P <= d2 -> d2 < _maxsep P ->
  _minu P <= d3 / d2 -> d3 / d2 < _maxu P ->
  _minv P <= (d1 - d2) / d3 -> (d1 - d2) / d3 < _maxv P ->
  call_stop111 lm P d1sq d2sq d3sq s1 s2 s3 = (false, m_sqrt lm d2sq).
Proof.
  intros HP Z1 Z2 Z3 E1 E2 E3 Er Hd3 H32 H21 Hr1 Hr2 Hu1 Hu2 Hv1 Hv2.
  destruct (derived_squares lm P HP)
    as (Q1 & Q2 & Q3 & Q4 & Q5 & Q6 & _).
  unfold call_stop111, stop111. rewrite Q1, Q2, Q3, Q4, Q5.
  set (r := m_sqrt lm d2sq) in *.
  assert (Hu : exists uu, uu == d3 / d2 /\ uu * d2 == d3).
  { exists (d3 / d2). split; [reflexivity | field; lra]. }
  destruct Hu as (uu & Euu & Hu). rewrite <- Euu in Hu1, Hu2. clear Euu.
  assert (Hv : exists vv, vv == (d1 - d2) / d3 /\ vv * d3 == d1 - d2).
  { exists ((d1 - d2) / d3). split; [reflexivity | field; lra]. }
  destruct Hv as (vv & Evv & Hv). rewrite <- Evv in Hv1, Hv2. clear Evv.
  assert (Hz : (d1sq - d2sq) / (2 * r) * (2 * d2) == d1sq - d2sq).
  { rewrite Er. field. lra. }
  set (z := (d1sq - d2sq) / (2 * r)) in *. clearbody z r.
  unfold SQR.
  repeat match goal with
  | |- (if ?c then (true, _) else _) = _ =>
      let E := fresh "T" in destruct c eqn:E; [exfalso; dbl_hyps | clear E]
  end.
  all: try reflexivity.
  all: repeat match goal with
       | K : ?a < ?b |- _ =>
           first [ progress rewrite Z1 in K | progress rewrite Z2 in K
                 | progress rewrite Z3 in K | progress rewrite Er in K ]
       | K : ?a <= ?b |- _ =>
           first [ progress rewrite Z1 in K | progress rewrite Z2 in K
                 | progress rewrite Z3 in K | progress rewrite Er in K ]
       end.
  all: assert (Hd2 : 0 < d2) by lra.
  all: assert (Hvv : 0 <= vv) by nra.
  - nra.
  - nra.
  - match goal with K : d3sq < _minu P * _minu P * d2sq |- _ => rename K into K1 end.
    assert (A : _minu P * d2 <= d3) by nra.
    assert (B : 0 <= _minu P * d2) by nra.
    assert (C : (_minu P * d2) * (_minu P * d2) <= d3 * d3) by nra.
    clear - C K1 E2 E3. nra.
  - match goal with K : _maxu P * _maxu P * d2sq <= d3sq |- _ => rename K into K1 end.
    assert (A : d3 < _maxu P * d2) by nra.
    assert (C : d3 * d3 < (_maxu P * d2) * (_maxu P * d2)) by nra.
    clear - C K1 E2 E3. nra.
  - match goal with K : _ < d1sq |- _ => rename K into K1 end.
    assert (A0 : vv * d3 <= vv * d2) by nra.
    assert (A1 : vv * d2 < _maxv P * d2) by nra.
    assert (A : d1 < (1 + _maxv P) * d2) by lra.
    assert (C : d1 * d1 < ((1 + _maxv P) * d2) * ((1 + _maxv P) * d2)) by nra.
    clear - C K1 E1. nra.
  - match goal with K : _ < _minv P * _minv P * d3sq |- _ => rename K into K1 end.
    assert (A : (d1 - d2) * (2 * d2) <= z * (2 * d2)) by nra.
    assert (A2 : d1 - d2 <= z) by nra.
    assert (A3 : _minv P * d3 <= z) by nra.
    assert (A4 : 0 <= _minv P * d3) by nra.
    assert (C : (_minv P * d3) * (_minv P * d3) <= z * z) by nra.
    clear - C K1 E3. nra.
  - nra.
  - nra.
  - nra.
Qed.

(** X4: stop111 lets every leaf triple in range through.  For three cells
    of size 0 whose triangle has sides d1 >= d2 >= d3 > 0 with
    minsep <= d2 < maxsep, minu <= d3/d2 < maxu and
    minv <= (d1-d2)/d3 < maxv, none of the tests of stop111 fires, provided
    the square root is exact at d2^2: the answer is "do not stop", and the
    [d2] handed back is sqrt(d2sq). *)
Theorem stop111_keeps_leaf_triangle lm P d1 d2 d3 s1 s2 s3 d1sq d2sq d3sq :
  derived_ok lm P ->
  s1 == 0 -> s2 == 0 -> s3 == 0 ->
  d1sq == d1 * d1 -> d2sq == d2 * d2 -> d3sq == d3 * d3 ->
  m_sqrt lm d2sq == d2 ->
  0 < d3 -> d3 <= d2 -> d2 <= d1 ->
  _minsep P <= d2 -> d2 < _maxsep P ->
  _minu P <= d3 / d2 -> d3 / d2 < _maxu P ->
  _minv P <= (d1 - d2) / d3 -> (d1 - d2) / d3 < _maxv P ->
  call_stop111 lm P d1sq d2sq d3sq s1 s2 s3 = (false, m_sqrt lm d2sq).
Proof. apply stop111_keeps_leaf. Qed.

(** X5: what stop111 always stops.  With sizes that are not negative:
    - a triple with d2 + s1 + s3 < minsep and d3 + s1 + s2 < minsep (two
      sides too short whatever the points in the cells);
    - a triple with d2 - s1 - s3 >= maxsep and d1 - s2 - s3 >= maxsep (two
      sides too long);
    - a triple in which two cells of size 0 are at squared distance 0
      (whose u or v would divide by zero). *)
Theorem stop111_stops lm P d1sq d2sq d3sq s1 s2 s3 :
  derived_ok lm P -> 0 <= s1 -> 0 <= s2 -> 0 <= s3 ->
  (forall d2 d3,
      0 <= d2 -> 0 <= d3 -> d2sq == d2 * d2 -> d3sq == d3 * d3 ->
      d2 + s1 + s3 < _minsep P -> d3 + s1 + s2 < _minsep P ->
      fst (call_stop111 lm P d1sq d2sq d3sq s1 s2 s3) = true) /\
  (forall d1 d2,
      0 <= d1 -> 0 <= d2 -> d1sq == d1 * d1 -> d2sq == d2 * d2 ->
      0 <= _maxsep P ->
      _maxsep P + s1 + s3 <= d2 -> _maxsep P + s2 + s3 <= d1 ->
      fst (call_stop111 lm P d1sq d2sq d3sq s1 s2 s3) = true) /\
  ((s2 == 0 /\ s3 == 0 /\ d1sq == 0) \/ (s1 == 0 /\ s3 == 0 /\ d2sq == 0) \/
   (s1 == 0 /\ s2 == 0 /\ d3sq == 0) ->
   fst (call_stop111 lm P d1sq d2sq d3sq s1 s2 s3) = true).
Proof.
  intros HP S1 S2 S3.
  destruct (derived_squares lm P HP) as (Q1 & Q2 & _).
  split; [|split].
  - intros d2 d3 P2 P3 E2 E3 H2 H3.
    unfold call_stop111, stop111. rewrite Q1. unfold SQR.
    match goal with
    | |- fst (if ?c then _ else _) = true =>
        replace c with true; [reflexivity|]
    end.
    symmetry. rewrite !andb_true_iff, !orb_true_iff.
    repeat split; try right; dbl_goal; nra.
  - intros d1 d2 P1 P2 E1 E2 Hm H2 H1.
    unfold call_stop111, stop111. rewrite Q2. unfold SQR.
    match goal with
    | |- fst (if ?c then _ else _) = true =>
        destruct c; [reflexivity|]
    end.
    match goal with
    | |- fst (if ?c then _ else _) = true =>
        replace c with true; [reflexivity|]
    end.
    symmetry. rewrite !andb_true_iff, !orb_true_iff.
    repeat split; try right; dbl_goal; nra.
  - intros H. unfold call_stop111, stop111.
    destruct H as [(A & B & C) | [(A & B & C) | (A & B & C)]];
      apply deq_true in A, B, C; rewrite A, B, C; cbn [andb];
      repeat match goal with
      | |- fst (if ?c then (true, _) else _) = true =>
          destruct c; [reflexivity|]
      end; reflexivity.
Qed.

(** ** The tests of process12 (lines 441-486) *)

(** X6: the tests of process12 on squares say what its comments say on
    distances.  For cells of nonzero weight, with s2 not zero and not below
    halfmind3, sizes that are not negative and d the distance of the
    centres (d >= 0, d^2 the squared distance the metric gives), process12
    - returns at once when d + s1 + s2 < minsep;
    - otherwise returns at once when d - s1 - s2 >= maxsep;
    - otherwise returns at once when d > s1 + s2 and
      2 s2 + minu (s1 + s2) < minu d, that is 2 s2 / (d - s1 - s2) < minu;
    - and otherwise goes on to the children of c2. *)
Theorem process12_tests chk lm metric params self bc212 bc221 c1 c2 d :
  let P := params self in
  let s1 := getSize c1 in
  let s2 := getSize c2 in
  let r := process12 chk lm metric params self bc212 bc221 c1 c2 in
  derived_ok lm P ->
  ~ cellW c1 == 0 -> ~ cellW c2 == 0 -> ~ s2 == 0 -> _halfmind3 P <= s2 ->
  0 <= s1 -> 0 <= s2 -> 0 <= d ->
  DistSq metric (cellPos c1) (cellPos c2) s1 s2 == d * d ->
  0 <= _maxsep P -> 0 <= _minu P ->
  (d + s1 + s2 < _minsep P -> r = Ok [Ret12 R_minsep self c1 c2]) /\
  (_minsep P <= d + s1 + s2 -> _maxsep P + s1 + s2 <= d ->
   r = Ok [Ret12 R_maxsep self c1 c2]) /\
  (_minsep P <= d + s1 + s2 -> d < _maxsep P + s1 + s2 ->
   s1 + s2 < d -> 2 * s2 + _minu P * (s1 + s2) < _minu P * d ->
   r = Ok [Ret12 R_minu self c1 c2]) /\
  (_minsep P <= d + s1 + s2 -> d < _maxsep P + s1 + s2 ->
   d <= s1 + s2 \/ _minu P * d <= 2 * s2 + _minu P * (s1 + s2) ->
   r = match getLeft c2, getRight c2 with
       | Some l, Some r =>
           process12 chk lm metric params self bc212 bc221 c1 l ;;
           process12 chk lm metric params self bc212 bc221 c1 r ;;
           process111 chk lm metric params
                      (mkSibs self self bc212 bc221 bc212 bc221) c1 l r 0 0 0
       | _, _ => Fail (if chk then AssertFailed In_process12
                       else NullChild In_process12)
       end).
Proof.
  intros P s1 s2 r HP W1 W2 Hs2 Hh S1 S2 Hd Ed Hmax Hmu.
  destruct (derived_squares lm P HP) as (Q1 & Q2 & Q3 & _).
  apply deq_false in W1, W2, Hs2. apply dlt_false in Hh.
  assert (Er : r = let dsq := DistSq metric (cellPos c1) (cellPos c2) s1 s2 in
                   let s1ps2 := s1 + s2 in
                   if (dsq <? _minsepsq P) && (s1ps2 <? _minsep P) &&
                      (dsq <? SQR (_minsep P - s1ps2))
                   then Ok [Ret12 R_minsep self c1 c2]
                   else if (dsq >=? _maxsepsq P) &&
                           (dsq >=? SQR (_maxsep P + s1ps2))
                   then Ok [Ret12 R_maxsep self c1 c2]
                   else if (dsq >? SQR (s1 + s2)) &&
                           (_minusq P * dsq >? SQR (2 * s2 + _minu P * (s1 + s2)))
                   then Ok [Ret12 R_minu self c1 c2]
                   else
                     match getLeft c2, getRight c2 with
                     | Some l, Some r =>
                         process12 chk lm metric params self bc212 bc221 c1 l ;;
                         process12 chk lm metric params self bc212 bc221 c1 r ;;
                         process111 chk lm metric params
                           (mkSibs self self bc212 bc221 bc212 bc221)
                           c1 l r 0 0 0
                     | _, _ => Fail (if chk then AssertFailed In_process12
                                     else NullChild In_process12)
                     end).
  { unfold r, s1, s2, P in *. destruct c2 as [dat sz l rr].
    cbn [process12]. cbn [getSize getLeft getRight] in *.
    rewrite W1, W2, Hs2, Hh.
    destruct l, rr; reflexivity. }
  rewrite Er. cbv zeta. rewrite Q1, Q2, Q3. unfold SQR.
  set (dsq := DistSq metric (cellPos c1) (cellPos c2) s1 s2) in *.
  clearbody dsq. clear Er.
  assert (T1 : d + s1 + s2 < _minsep P <->
               (dsq <? _minsep P * _minsep P) && (s1 + s2 <? _minsep P) &&
               (dsq <? (_minsep P - (s1 + s2)) * (_minsep P - (s1 + s2)))
               = true).
  { rewrite !andb_true_iff, !dlt_true. split; [intros H; repeat split; nra|].
    intros [[A B] C]. nra. }
  assert (T2 : _maxsep P + s1 + s2 <= d <->
               (dsq >=? _maxsep P * _maxsep P) &&
               (dsq >=? (_maxsep P + (s1 + s2)) * (_maxsep P + (s1 + s2)))
               = true).
  { rewrite !andb_true_iff, !dge_true. split; [intros H; split; nra|].
    intros [A B]. nra. }
  assert (T3 : s1 + s2 < d /\ 2 * s2 + _minu P * (s1 + s2) < _minu P * d <->
               (dsq >? (s1 + s2) * (s1 + s2)) &&
               (_minu P * _minu P * dsq
                  >? (2 * s2 + _minu P * (s1 + s2))
                     * (2 * s2 + _minu P * (s1 + s2))) = true).
  { rewrite !andb_true_iff, !dgt_true. split.
    - intros [A B]. split; [nra|].
      assert (0 <= 2 * s2 + _minu P * (s1 + s2)) by nra.
      assert ((2 * s2 + _minu P * (s1 + s2)) * (2 * s2 + _minu P * (s1 + s2))
              < (_minu P * d) * (_minu P * d)) by nra.
      nra.
    - intros [A B]. split; [nra|].
      assert (0 <= 2 * s2 + _minu P * (s1 + s2)) by nra.
      assert (0 <= _minu P * d) by nra.
      assert ((2 * s2 + _minu P * (s1 + s2)) * (2 * s2 + _minu P * (s1 + s2))
              < (_minu P * d) * (_minu P * d)) by nra.
      nra. }
  repeat match goal with
  | |- context [if ?c then _ else _] =>
      let E := fresh "C" in destruct c eqn:E
  end;
  repeat match goal with
  | K : _ = false |- _ => apply not_true_iff_false in K
  end;
  rewrite <- ?T1, <- ?T2, <- ?T3 in *;
  repeat split; intros; try reflexivity; exfalso; try tauto; lra.
Qed.

(** ** Properties of the calls of a traversal on well-formed trees *)

Lemma split_calls_inv_args chk (rec : Proc111) A c1 c2 c3 d1sq d2sq d3sq sp
      (Q : Event -> Prop) t :
  (forall x1 x2 x3 e1 e2 e3 t',
      rec_args sp c1 c2 c3 d1sq d2sq d3sq x1 x2 x3 e1 e2 e3 ->
      rec A x1 x2 x3 e1 e2 e3 = Ok t' -> Forall Q t') ->
  split_calls chk rec A c1 c2 c3 d1sq d2sq d3sq sp = Ok t ->
  Forall Q t.
Proof.
  intros Hrec. unfold split_calls.
  destruct (split3 sp) eqn:E3, (split2 sp) eqn:E2, (split1 sp) eqn:E1;
    intros H; deref_inv H; seq_inv H; subst;
    repeat (apply Forall_app; split);
    (eapply Hrec; [|eassumption]); rec_args_tac.
Qed.

Section TreeInvariant.
Variables (chk : bool) (lm : Libm) (metric : MetricHelper)
          (params : Acc -> BaseCorr3).
Variable Q : Event -> Prop.

Hypothesis Hmetric : metric_nonneg metric.
Hypothesis Q_ret3 : forall r c, Q (Ret3 r c).
Hypothesis Q_ret12 : forall r a c1 c2, Q (Ret12 r a c1 c2).
Hypothesis Q_ret111 : forall r a c1 c2 c3, Q (Ret111 r a c1 c2 c3).
Hypothesis Q_commit :
  forall self c1 c2 c3 d1sq d2sq d3sq d2 t,
    tree_ok c1 -> tree_ok c2 -> tree_ok c3 ->
    0 <= d3sq -> d3sq <= d2sq -> d2sq <= d1sq ->
    call_stop111 lm (params self) d1sq d2sq d3sq
                 (getSize c1) (getSize c2) (getSize c3) = (false, d2) ->
    let sp := decide_split lm (params self) d1sq d2sq d3sq d2
                           (getSize c1) (getSize c2) (getSize c3) in
    split sp = false ->
    commit111 chk lm metric (params self) self c1 c2 c3
              (sp_d1 sp) d2 (sp_d3 sp) (sp_u sp) (sp_v sp) = Ok t ->
    Forall Q t.

Lemma process111_fuel_tree fuel : forall A c1 c2 c3 d1sq d2sq d3sq t,
  tree_ok c1 -> tree_ok c2 -> tree_ok c3 ->
  0 <= d1sq -> 0 <= d2sq -> 0 <= d3sq ->
  process111_fuel fuel chk lm metric params A c1 c2 c3 d1sq d2sq d3sq = Ok t ->
  Forall Q t.
Proof.
  induction fuel as [|fuel IH];
    intros A c1 c2 c3 d1sq d2sq d3sq t T1 T2 T3 N1 N2 N3 H; [discriminate|].
  cbn [process111_fuel] in H.
  repeat match type of H with
  | (if ?c then Ok _ else _) = Ok _ =>
      destruct c; [inversion H; subst; repeat constructor; apply Q_ret111|]
  end.
  destruct (dists111 _ _ _ _ _ _ _) as [[e1 e2] e3] eqn:Ed.
  destruct (dists111_nonneg _ _ _ _ _ _ _ _ _ _ Hmetric N1 N2 N3 Ed)
    as (M1 & M2 & M3).
  pose proof (sort111_sorted A c1 c2 c3 e1 e2 e3) as [Ho1 Ho2].
  destruct (sort111_all tree_ok (fun d => 0 <= d) A c1 c2 c3 e1 e2 e3
              T1 T2 T3 M1 M2 M3) as (U1 & U2 & U3 & V1 & V2 & V3).
  set (so := sort111 A c1 c2 c3 e1 e2 e3) in *.
  unfold process111Sorted in H. apply Assert_Ok in H.
  destruct (call_stop111 _ _ _ _ _ _ _ _) as [stop d2] eqn:Es.
  destruct stop; [inversion H; subst; repeat constructor; apply Q_ret111|].
  destruct (split _) eqn:Esp.
  - apply Assert_Ok in H.
    eapply split_calls_inv_args; [|exact H].
    intros x1 x2 x3 f1 f2 f3 t' (D1 & D2 & D3 & F1 & F2 & F3) Hr.
    eapply IH; [| | | | | |exact Hr].
    + exact (tree_ok_descend _ _ _ U1 D1).
    + exact (tree_ok_descend _ _ _ U2 D2).
    + exact (tree_ok_descend _ _ _ U3 D3).
    + destruct F1 as [-> | ->]; [lra | auto].
    + destruct F2 as [-> | ->]; [lra | auto].
    + destruct F3 as [-> | ->]; [lra | auto].
  - exact (Q_commit _ _ _ _ _ _ _ d2 t U1 U2 U3 V3 Ho2 Ho1 Es Esp H).
Qed.

Lemma process111_tree A c1 c2 c3 t :
  tree_ok c1 -> tree_ok c2 -> tree_ok c3 ->
  process111 chk lm metric params A c1 c2 c3 0 0 0 = Ok t -> Forall Q t.
Proof.
  intros T1 T2 T3 H. unfold process111 in H.
  eapply process111_fuel_tree; [| | | | | |exact H]; auto; lra.
Qed.

Lemma process12_tree : forall c2 self bc212 bc221 c1 t,
  tree_ok c1 -> tree_ok c2 ->
  process12 chk lm metric params self bc212 bc221 c1 c2 = Ok t ->
  Forall Q t.
Proof.
  induction c2 as [d s l r IHl IHr] using Cell_children_ind.
  intros self bc212 bc221 c1 t T1 T2 H. cbn [process12] in H.
  repeat match type of H with
  | (if ?c then Ok _ else _) = Ok _ =>
      destruct c; [inversion H; subst; repeat constructor; apply Q_ret12|]
  end.
  destruct l as [x|]; [|destruct chk; discriminate].
  destruct r as [y|]; [|destruct chk; discriminate].
  assert (Tx : tree_ok x) by (apply (tree_ok_child _ x T2); left; reflexivity).
  assert (Ty : tree_ok y) by (apply (tree_ok_child _ y T2); right; reflexivity).
  seq_inv H. subst.
  repeat (apply Forall_app; split).
  - exact (IHl x eq_refl _ _ _ _ _ T1 Tx Hr).
  - exact (IHr y eq_refl _ _ _ _ _ T1 Ty Hr1).
  - exact (process111_tree _ _ _ _ _ T1 Tx Ty Hr2).
Qed.

Lemma process3_tree : forall c1 self t,
  tree_ok c1 -> process3 chk lm metric params self c1 = Ok t -> Forall Q t.
Proof.
  induction c1 as [d s l r IHl IHr] using Cell_children_ind.
  intros self t T1 H. cbn [process3] in H.
  repeat match type of H with
  | (if ?c then Ok _ else _) = Ok _ =>
      destruct c; [inversion H; subst; repeat constructor; apply Q_ret3|]
  end.
  destruct l as [x|]; [|destruct chk; discriminate].
  destruct r as [y|]; [|destruct chk; discriminate].
  assert (Tx : tree_ok x) by (apply (tree_ok_child _ x T1); left; reflexivity).
  assert (Ty : tree_ok y) by (apply (tree_ok_child _ y T1); right; reflexivity).
  seq_inv H. subst.
  repeat (apply Forall_app; split).
  - exact (IHl x eq_refl _ _ Tx Hr).
  - exact (IHr y eq_refl _ _ Ty Hr1).
  - exact (process12_tree _ _ _ _ _ _ Tx Ty Hr0).
  - exact (process12_tree _ _ _ _ _ _ Ty Tx Hr3).
Qed.

Lemma loop111_tree A c1 c2 cs : forall t,
  tree_ok c1 -> tree_ok c2 -> Forall tree_ok cs ->
  loop111 chk lm metric params A c1 c2 cs = Ok t -> Forall Q t.
Proof.
  induction cs as [|c3 cs IH]; intros t T1 T2 Ts H; cbn [loop111] in H.
  - inversion H. constructor.
  - inversion Ts; subst. seq_inv H. subst. apply Forall_app; split.
    + eapply process111_tree; [| | |exact Hr]; auto.
    + apply IH; auto.
Qed.

Lemma auto_j_tree bc3 c1 cs : forall t,
  tree_ok c1 -> Forall tree_ok cs ->
  auto_j chk lm metric params bc3 c1 cs = Ok t -> Forall Q t.
Proof.
  induction cs as [|c2 cs IH]; intros t T1 Ts H; cbn [auto_j] in H.
  - inversion H. constructor.
  - inversion Ts; subst. seq_inv H. subst.
    repeat (apply Forall_app; split).
    + eapply process12_tree; [| |exact Hr]; auto.
    + eapply process12_tree; [| |exact Hr1]; auto.
    + eapply loop111_tree; [| | |exact Hr0]; auto.
    + apply IH; auto.
Qed.

Lemma auto_i_tree bc3 cs : forall t,
  Forall tree_ok cs ->
  auto_i chk lm metric params bc3 cs = Ok t -> Forall Q t.
Proof.
  induction cs as [|c1 cs IH]; intros t Ts H; cbn [auto_i] in H.
  - inversion H. constructor.
  - inversion Ts; subst. seq_inv H. subst.
    repeat (apply Forall_app; split).
    + eapply process3_tree; [|exact Hr]; auto.
    + eapply auto_j_tree; [| |exact Hr1]; auto.
    + apply IH; auto.
Qed.

Lemma cross12_j_tree a b c c1 cs : forall t,
  tree_ok c1 -> Forall tree_ok cs ->
  cross12_j chk lm metric params a b c c1 cs = Ok t -> Forall Q t.
Proof.
  induction cs as [|c2 cs IH]; intros t T1 Ts H; cbn [cross12_j] in H.
  - inversion H. constructor.
  - inversion Ts; subst. seq_inv H. subst.
    repeat (apply Forall_app; split).
    + eapply process12_tree; [| |exact Hr]; auto.
    + eapply loop111_tree; [| | |exact Hr1]; auto.
    + apply IH; auto.
Qed.

Lemma cross12_i_tree a b c f1 f2 : forall t,
  Forall tree_ok f1 -> Forall tree_ok f2 ->
  cross12_i chk lm metric params a b c f1 f2 = Ok t -> Forall Q t.
Proof.
  induction f1 as [|c1 f1 IH]; intros t T1 T2 H; cbn [cross12_i] in H.
  - inversion H. constructor.
  - inversion T1; subst. seq_inv H. subst. apply Forall_app; split.
    + eapply cross12_j_tree; [| |exact Hr]; auto.
    + apply IH; auto.
Qed.

Lemma cross_j_tree A c1 f2 f3 : forall t,
  tree_ok c1 -> Forall tree_ok f2 -> Forall tree_ok f3 ->
  cross_j chk lm metric params A c1 f2 f3 = Ok t -> Forall Q t.
Proof.
  induction f2 as [|c2 f2 IH]; intros t T1 T2 T3 H; cbn [cross_j] in H.
  - inversion H. constructor.
  - inversion T2; subst. seq_inv H. subst. apply Forall_app; split.
    + eapply loop111_tree; [| | |exact Hr]; auto.
    + apply IH; auto.
Qed.

Lemma cross_i_tree A f1 f2 f3 : forall t,
  Forall tree_ok f1 -> Forall tree_ok f2 -> Forall tree_ok f3 ->
  cross_i chk lm metric params A f1 f2 f3 = Ok t -> Forall Q t.
Proof.
  induction f1 as [|c1 f1 IH]; intros t T1 T2 T3 H; cbn [cross_i] in H.
  - inversion H. constructor.
  - inversion T1; subst. seq_inv H. subst. apply Forall_app; split.
    + eapply cross_j_tree; [| | |exact Hr]; auto.
    + apply IH; auto.
Qed.

Lemma traverse_tree call t :
  call_ok call -> traverse chk lm metric params call = Ok t -> Forall Q t.
Proof.
  destruct call; cbn [call_ok traverse].
  - intros (T1 & T2 & T3 & N1 & N2 & N3). apply process111_fuel_tree; auto.
  - intros (T1 & T2). apply process12_tree; auto.
  - apply process3_tree.
  - apply auto_i_tree.
  - intros (T1 & T2). apply cross12_i_tree; auto.
  - intros (T1 & T2 & T3). apply cross_i_tree; auto.
Qed.
End TreeInvariant.

(** What holds when the split decision is "no split". *)
Lemma decide_split_false lm P d1sq d2sq d3sq d2 s1 s2 s3 :
  split (decide_split lm P d1sq d2sq d3sq d2 s1 s2 s3) = false ->
  split3_of (_b P) (_bu P) (_bv P) d2 d2sq d3sq s1 s3 = false /\
  ((s1 >? 0) || (s2 >? 0) = false \/
   ((s1 >? 0) &&
    (d2split_of (_b P) d2 s1 s3 || ((s3 =? 0) && (s3 >? d2 * _b P)) ||
     (SQR s1 >? d3sq)) = false /\
    (s2 >? 0) &&
    ((SQR s2 >? d3sq) || ((s2 >? s3) && (d3sq >? SQR (d2 - s2 + s3))) ||
     ((s2 >? s1) && (d1sq <? SQR (d2 + s2 - s1)))) = false /\
    (SQR (s1 + s2 + s1ps3_of (_b P) d2 s1 s3 * (m_sqrt lm d3sq / d2))
       >? d2sq * _busq P) = false /\
    (SQR ((s1 + s2) * (1 + (m_sqrt lm d1sq - d2) / m_sqrt lm d3sq))
       >? d3sq * _bvsq P) = false)).
Proof.
  unfold decide_split.
  destruct (split3_of _ _ _ _ _ _ _ _) eqn:E3; [cbn; discriminate|].
  destruct ((s1 >? 0) || (s2 >? 0)) eqn:E12; [|cbn; auto].
  match goal with
  | |- context [if ?a || ?b then _ else _] =>
      destruct a eqn:Ea; [cbn; discriminate|];
      destruct b eqn:Eb; [cbn; discriminate|]
  end.
  cbn [orb].
  match goal with
  | |- context [if ?c then _ else _] =>
      destruct c eqn:Eu; [cbn; discriminate|]
  end.
  match goal with
  | |- context [if ?c then _ else _] =>
      destruct c eqn:Ev; [cbn; discriminate|]
  end.
  intros _. split; [reflexivity|]. right. auto.
Qed.

(** When stop111 lets a triple through, no two cells of size 0 are at
    squared distance 0. *)
Lemma stop111_false_zero lm P d1sq d2sq d3sq s1 s2 s3 d2 :
  call_stop111 lm P d1sq d2sq d3sq s1 s2 s3 = (false, d2) ->
  ~ (s2 == 0 /\ s3 == 0 /\ d1sq == 0) /\
  ~ (s1 == 0 /\ s3 == 0 /\ d2sq == 0) /\
  ~ (s1 == 0 /\ s2 == 0 /\ d3sq == 0).
Proof.
  unfold call_stop111, stop111.
  repeat match goal with
  | |- (if ?c then (true, _) else _) = _ -> _ =>
      destruct c eqn:?; [discriminate|]
  end.
  intros _.
  repeat split; intros (A & B & C); apply deq_true in A, B, C;
    match goal with
    | K : (?a =? 0) && (?b =? 0) && (?c =? 0) = false |- _ =>
        rewrite A, B, C in K; discriminate K
    end.
Qed.

(** The smallest squared side of a committed triple is positive. *)
Lemma commit_d3sq_positive lm P d1sq d2sq d3sq s1 s2 s3 d2 :
  0 <= s1 -> 0 <= s2 -> 0 <= d3sq ->
  call_stop111 lm P d1sq d2sq d3sq s1 s2 s3 = (false, d2) ->
  split (decide_split lm P d1sq d2sq d3sq d2 s1 s2 s3) = false ->
  0 < d3sq.
Proof.
  intros S1 S2 N3 Hstop Hsp.
  destruct (Qlt_le_dec 0 d3sq) as [Hp | Hn]; [exact Hp | exfalso].
  assert (Hz : d3sq == 0) by lra.
  destruct (stop111_false_zero _ _ _ _ _ _ _ _ _ Hstop) as (_ & _ & Hnz).
  destruct (decide_split_false _ _ _ _ _ _ _ _ _ Hsp) as (_ & [E12 | (Ea & Eb & _)]).
  - dbl_hyps. apply Hnz. repeat split; lra.
  - destruct (Qlt_le_dec 0 s1) as [P1 | P1].
    + apply andb_false_iff in Ea. destruct Ea as [Ea | Ea]; dbl_hyps.
      * lra.
      * unfold SQR in *. nra.
    + destruct (Qlt_le_dec 0 s2) as [P2 | P2].
      * apply andb_false_iff in Eb. destruct Eb as [Eb | Eb]; dbl_hyps.
        -- lra.
        -- unfold SQR in *. nra.
      * apply Hnz. repeat split; lra.
Qed.

Lemma s1ps3_of_nonneg b d2 s1 s3 :
  0 <= s1 -> 0 <= s3 -> 0 <= s1ps3_of b d2 s1 s3.
Proof.
  intros H1 H3. unfold s1ps3_of.
  destruct ((s3 >? 0) && negb (s3 >? d2 * b)); lra.
Qed.

(** What "no split" says of the sizes of the three cells. *)
Lemma nosplit_tolerance lm P d1sq d2sq d3sq d2 s1 s2 s3 :
  let d1 := m_sqrt lm d1sq in
  let d3 := m_sqrt lm d3sq in
  let v0 := (d1 - d2) / d3 in
  0 <= s1 -> 0 <= s2 -> 0 <= s3 ->
  0 <= d3sq -> d3sq <= d2sq -> 0 <= d2 -> 0 <= d3 ->
  _busq P = _bu P * _bu P -> _bvsq P = _bv P * _bv P ->
  split (decide_split lm P d1sq d2sq d3sq d2 s1 s2 s3) = false ->
  (s3 == 0 \/
   (s1 + s3 <= _b P * d2 /\
    (_bu P < _b P -> SQR s3 * d3sq <= SQR (_bu P * d2sq)) /\
    (_bv P < _b P -> s3 <= _bv P * d2))) /\
  SQR s1 <= d3sq /\ SQR s2 <= d3sq /\
  (s2 <= s3 \/ d3sq <= SQR (d2 - s2 + s3)) /\
  (s2 <= s1 \/ SQR (d2 + s2 - s1) <= d1sq) /\
  SQR (s1 + s2) <= _busq P * d2sq /\
  SQR ((s1 + s2) * (1 + v0)) <= _bvsq P * d3sq.
Proof.
  intros d1 d3 v0 S1 S2 S3 N3 N32 Hd2 Hd3 Qu Qv Hsp.
  destruct (decide_split_false _ _ _ _ _ _ _ _ _ Hsp) as (E3 & Hrest).
  fold d1 d3 in Hrest. fold v0 in Hrest.
  unfold split3_of in E3.
  assert (T1 : s3 == 0 \/
               (s1 + s3 <= _b P * d2 /\
                (_bu P < _b P -> SQR s3 * d3sq <= SQR (_bu P * d2sq)) /\
                (_bv P < _b P -> s3 <= _bv P * d2))).
  { destruct (Qlt_le_dec 0 s3) as [P3 | P3]; [right | left; lra].
    pose proof (proj2 (dgt_true s3 0) P3) as B1.
    rewrite B1 in E3. cbn [andb] in E3.
    apply orb_false_iff in E3. destruct E3 as [E3 ED].
    apply orb_false_iff in E3. destruct E3 as [E3 EC].
    apply orb_false_iff in E3. destruct E3 as [EA EB].
    pose proof EA as EA'. apply dgt_false in EA'.
    split; [|split].
    - destruct (Qlt_le_dec (d2 * _b P) (s1 + s3)) as [Hg | Hl]; [exfalso | lra].
      pose proof (proj2 (dgt_true (s1 + s3) 0) ltac:(lra)) as B3.
      pose proof (proj2 (dgt_true (s1 + s3) (d2 * _b P)) Hg) as B4.
      rewrite B3, B4 in EB. cbn [andb] in EB. apply dge_false in EB.
      destruct Hrest as [E12 | (Ea & _)].
      + dbl_hyps. lra.
      + pose proof (proj2 (dgt_true s1 0) ltac:(lra)) as B5.
        rewrite B5 in Ea. cbn [andb] in Ea.
        apply orb_false_iff in Ea. destruct Ea as [Ea _].
        apply orb_false_iff in Ea. destruct Ea as [Ea _].
        unfold d2split_of, s1ps3_of in Ea.
        rewrite B1, EA in Ea. cbn [andb negb] in Ea.
        rewrite B3, B4 in Ea. discriminate Ea.
    - intros Hbu. apply andb_false_iff in EC. destruct EC as [EC | EC];
        dbl_hyps; lra.
    - intros Hbv. apply andb_false_iff in ED. destruct ED as [ED | ED];
        dbl_hyps; lra. }
  split; [exact T1|]. clear T1 E3.
  destruct Hrest as [E12 | (Ea & Eb & Eu & Ev)].
  - dbl_hyps.
    assert (Z1 : s1 == 0) by lra. assert (Z2 : s2 == 0) by lra.
    unfold SQR. rewrite Qu, Qv.
    repeat split; try (left; lra); rewrite ?Z1, ?Z2; nra.
  - assert (T2 : SQR s1 <= d3sq).
    { destruct (Qlt_le_dec 0 s1) as [P1 | P1].
      - pose proof (proj2 (dgt_true s1 0) P1) as B.
        rewrite B in Ea. cbn [andb] in Ea.
        apply orb_false_iff in Ea. destruct Ea as [_ Ea].
        apply dgt_false in Ea. exact Ea.
      - assert (Z1 : s1 == 0) by lra. unfold SQR. rewrite Z1. lra. }
    assert (T3 : SQR s2 <= d3sq /\
                 (s2 <= s3 \/ d3sq <= SQR (d2 - s2 + s3)) /\
                 (s2 <= s1 \/ SQR (d2 + s2 - s1) <= d1sq)).
    { destruct (Qlt_le_dec 0 s2) as [P2 | P2].
      - pose proof (proj2 (dgt_true s2 0) P2) as B.
        rewrite B in Eb. cbn [andb] in Eb.
        apply orb_false_iff in Eb. destruct Eb as [Eb Eb3].
        apply orb_false_iff in Eb. destruct Eb as [Eb1 Eb2].
        apply dgt_false in Eb1.
        apply andb_false_iff in Eb2, Eb3.
        split; [exact Eb1|]. split.
        + destruct Eb2 as [K | K]; dbl_hyps; [left | right]; lra.
        + destruct Eb3 as [K | K]; dbl_hyps; [left | right]; lra.
      - assert (Z2 : s2 == 0) by lra. unfold SQR. rewrite Z2.
        repeat split; try (left; lra). lra. }
    destruct T3 as (T3 & T4 & T5).
    apply dgt_false in Eu, Ev.
    repeat split; try assumption.
    + pose proof (s1ps3_of_nonneg (_b P) d2 s1 s3 S1 S3) as Hx.
      assert (Hu : 0 <= d3 / d2).
      { apply Qmult_le_0_compat; [exact Hd3|].
        apply Qinv_le_0_compat. exact Hd2. }
      set (x := s1ps3_of (_b P) d2 s1 s3) in *.
      set (u := d3 / d2) in *. clearbody x u.
      assert (0 <= x * u) by (apply Qmult_le_0_compat; assumption).
      unfold SQR in *. nra.
    + lra.
Qed.

Lemma b_v_abs P ccw logr u v : 0 <= v -> Qabs (b_v (binning P ccw logr u v)) == v.
Proof.
  intros Hv. unfold binning; cbn [b_v]. destruct ccw; cbn [negb].
  - apply Qabs_pos, Hv.
  - rewrite Qabs_opp. apply Qabs_pos, Hv.
Qed.

Lemma commit111_within_tolerance chk lm metric params (Own : Acc -> Prop) :
  sqrt_ok lm -> (forall a, Own a -> derived_ok lm (params a)) ->
  forall self c1 c2 c3 d1sq d2sq d3sq d2 t,
    tree_ok c1 -> tree_ok c2 -> tree_ok c3 ->
    0 <= d3sq -> d3sq <= d2sq -> d2sq <= d1sq ->
    call_stop111 lm (params self) d1sq d2sq d3sq
                 (getSize c1) (getSize c2) (getSize c3) = (false, d2) ->
    let sp := decide_split lm (params self) d1sq d2sq d3sq d2
                           (getSize c1) (getSize c2) (getSize c3) in
    split sp = false ->
    commit111 chk lm metric (params self) self c1 c2 c3
              (sp_d1 sp) d2 (sp_d3 sp) (sp_u sp) (sp_v sp) = Ok t ->
    Forall (fun e => on_accs Own e -> within_tolerance lm params e) t.
Proof.
  intros Hs HP self c1 c2 c3 d1sq d2sq d3sq d2 t T1 T2 T3 N3 N32 N21
         Hstop sp Hsp H.
  pose proof (call_stop111_d2 _ _ _ _ _ _ _ _ _ Hstop) as Ed2.
  destruct (decide_split_nosplit lm (params self) d1sq d2sq d3sq d2
              (getSize c1) (getSize c2) (getSize c3) Hsp)
    as (E1 & E3 & Eu & Ev).
  fold sp in E1, E3, Eu, Ev.
  apply commit111_cases in H. cbv zeta in H.
  destruct H as [[r ->] | (-> & _)];
    (constructor; [|constructor]); [intros _; exact I|].
  cbn [on_accs within_tolerance]. intros Hown.
  destruct (derived_squares lm _ (HP self Hown))
    as (_ & _ & _ & _ & _ & _ & _ & Qu & Qv & _).
  destruct Hs as [Hpos Hmono].
  pose proof (nosplit_tolerance lm (params self) d1sq d2sq d3sq d2
                (getSize c1) (getSize c2) (getSize c3)
                (tree_ok_size _ T1) (tree_ok_size _ T2) (tree_ok_size _ T3)
                N3 N32 ltac:(rewrite Ed2; apply Hpos) (Hpos d3sq) Qu Qv Hsp)
    as (A1 & A2 & A3 & A4 & A5 & A6 & A7).
  exists d1sq, d2sq, d3sq.
  assert (Hv0 : 0 <= sp_v sp).
  { rewrite Ev, Ed2.
    apply (unsigned_v_nonneg lm d1sq d2sq d3sq (conj Hpos Hmono) N21). }
  repeat split; try assumption.
  unfold SQR. rewrite (b_v_abs _ _ _ _ _ Hv0), Ev. exact A7.
Qed.

Lemma commit111_positive_sides chk lm metric params :
  sqrt_ok lm -> sqrt_pos lm ->
  forall self c1 c2 c3 d1sq d2sq d3sq d2 t,
    tree_ok c1 -> tree_ok c2 -> tree_ok c3 ->
    0 <= d3sq -> d3sq <= d2sq -> d2sq <= d1sq ->
    call_stop111 lm (params self) d1sq d2sq d3sq
                 (getSize c1) (getSize c2) (getSize c3) = (false, d2) ->
    let sp := decide_split lm (params self) d1sq d2sq d3sq d2
                           (getSize c1) (getSize c2) (getSize c3) in
    split sp = false ->
    commit111 chk lm metric (params self) self c1 c2 c3
              (sp_d1 sp) d2 (sp_d3 sp) (sp_u sp) (sp_v sp) = Ok t ->
    Forall positive_sides t.
Proof.
  intros [Hpos Hmono] Hsp0 self c1 c2 c3 d1sq d2sq d3sq d2 t T1 T2 T3
         N3 N32 N21 Hstop sp Hsp H.
  pose proof (call_stop111_d2 _ _ _ _ _ _ _ _ _ Hstop) as Ed2.
  destruct (decide_split_nosplit lm (params self) d1sq d2sq d3sq d2
              (getSize c1) (getSize c2) (getSize c3) Hsp)
    as (E1 & E3 & Eu & Ev).
  fold sp in E1, E3, Eu, Ev.
  pose proof (commit_d3sq_positive lm (params self) d1sq d2sq d3sq
                (getSize c1) (getSize c2) (getSize c3) d2
                (tree_ok_size _ T1) (tree_ok_size _ T2) N3 Hstop Hsp) as P3.
  apply commit111_cases in H. cbv zeta in H.
  destruct H as [[r ->] | (-> & _)];
    (constructor; [|constructor]); [exact I|].
  cbn [positive_sides]. rewrite E1, E3, Eu, Ed2.
  pose proof (Hsp0 d3sq P3) as D3.
  pose proof (Hmono _ _ N32) as D32.
  pose proof (Hmono _ _ N21) as D21.
  repeat split; try assumption; try reflexivity.
  - apply Qlt_shift_div_l; lra.
  - apply Qle_shift_div_r; lra.
Qed.

(** X8: no division by zero at a commit.  On well-formed trees, with a
    square root that is positive on the positive numbers, every call of
    directProcess111 has sides 0 < d3 <= d2 <= d1 and u = d3/d2 in (0, 1]:
    triples with a zero side never reach the commit, whose quotients d3/d2
    and (d1-d2)/d3 have positive divisors. *)
Theorem commits_have_positive_sides chk lm metric params call t :
  metric_nonneg metric -> sqrt_ok lm -> sqrt_pos lm ->
  call_ok call ->
  traverse chk lm metric params call = Ok t ->
  Forall positive_sides t.
Proof.
  intros Hm Hs Hp Hc H.
  eapply traverse_tree; [exact Hm | | | | | exact Hc | exact H];
    try (intros; exact I).
  apply commit111_positive_sides; assumption.
Qed.

(** ** Leaf triples in range are committed *)

(** X9: process111Sorted commits every leaf triple in range.  For three
    cells of size 0 and the sorted squared sides of a triangle with sides
    d1 >= d2 >= d3 > 0 such that minsep <= d2 < maxsep,
    minu <= d3/d2 < maxu and minv <= (d1-d2)/d3 < maxv, with bins that
    cover the ranges, a logarithm that does not decrease and a square root
    exact at the three squares, process111Sorted neither stops nor splits
    nor drops: it makes exactly one call of directProcess111, by its own
    accumulator, with these sides, this u, |v| = (d1-d2)/d3 and an index
    in [0, ntot); no assertion fails. *)
Theorem leaf_triangle_committed chk lm metric params rec A c1 c2 c3
    d1 d2 d3 d1sq d2sq d3sq :
  let P := params (a123 A) in
  derived_ok lm P -> bins_cover lm P -> log_mono lm ->
  getSize c1 == 0 -> getSize c2 == 0 -> getSize c3 == 0 ->
  d1sq == d1 * d1 -> d2sq == d2 * d2 -> d3sq == d3 * d3 ->
  m_sqrt lm d1sq == d1 -> m_sqrt lm d2sq == d2 -> m_sqrt lm d3sq == d3 ->
  0 < d3 -> d3 <= d2 -> d2 <= d1 ->
  _minsep P <= d2 -> d2 < _maxsep P ->
  _minu P <= d3 / d2 -> d3 / d2 < _maxu P ->
  _minv P <= (d1 - d2) / d3 -> (d1 - d2) / d3 < _maxv P ->
  exists d1' d2' d3' u' v' index,
    process111Sorted chk lm metric params rec A c1 c2 c3 d1sq d2sq d3sq
    = Ok [Direct111 (a123 A) c1 c2 c3 d1' d2' d3' (m_log lm d2') u' v' index] /\
    d1' == d1 /\ d2' == d2 /\ d3' == d3 /\ u' == d3 / d2 /\
    Qabs v' == (d1 - d2) / d3 /\ (0 <= index < _ntot P)%Z.
Proof.
  intros P HP HC HL Z1 Z2 Z3 E1 E2 E3 R1 R2 R3 Hd3 H32 H21
         Hr1 Hr2 Hu1 Hu2 Hv1 Hv2.
  pose proof (stop111_keeps_leaf lm P d1 d2 d3 _ _ _ d1sq d2sq d3sq
                HP Z1 Z2 Z3 E1 E2 E3 R2 Hd3 H32 H21 Hr1 Hr2 Hu1 Hu2 Hv1 Hv2)
    as Hstop.
  set (r1 := m_sqrt lm d1sq) in *. set (r2 := m_sqrt lm d2sq) in *.
  set (r3 := m_sqrt lm d3sq) in *.
  assert (Hsp : decide_split lm P d1sq d2sq d3sq r2
                  (getSize c1) (getSize c2) (getSize c3)
                = mkSplit false false false false r1 r3 (r3 / r2)
                          ((r1 - r2) / r3)).
  { unfold decide_split, split3_of.
    replace (getSize c3 >? 0) with false by (symmetry; dbl_goal; lra).
    cbn [andb].
    replace (getSize c1 >? 0) with false by (symmetry; dbl_goal; lra).
    replace (getSize c2 >? 0) with false by (symmetry; dbl_goal; lra).
    reflexivity. }
  assert (Eu : r3 / r2 == d3 / d2) by (rewrite R2, R3; reflexivity).
  assert (Ev : (r1 - r2) / r3 == (d1 - d2) / d3)
    by (rewrite R1, R2, R3; reflexivity).
  assert (Hv0 : 0 <= (r1 - r2) / r3).
  { rewrite Ev. apply Qle_shift_div_l; lra. }
  assert (Hu0 : 0 < r3 / r2).
  { rewrite Eu. apply Qlt_shift_div_l; lra. }
  destruct (commit111_bins_ok chk lm metric P (a123 A) c1 c2 c3 r1 r2 r3
              (r3 / r2) ((r1 - r2) / r3) HP HC HL)
    as (_ & _ & _ & Hi & _ & Hc); try lra.
  eexists r1, r2, r3, (r3 / r2), _, _. split; [|repeat split].
  - unfold process111Sorted. fold P. rewrite Hstop, Hsp.
    cbn [split sp_d1 sp_d3 sp_u sp_v].
    unfold Assert at 1.
    replace ((d1sq >=? d2sq) && (d2sq >=? d3sq)) with true
      by (symmetry; dbl_goal; nra).
    rewrite andb_false_r.
    apply Hc. right. repeat split; lra.
  - exact R1.
  - exact R2.
  - exact R3.
  - exact Eu.
  - rewrite (b_v_abs _ _ _ _ _ Hv0). exact Ev.
  - apply Hi.
  - apply Hi.
Qed.

(** ** What a traversal writes *)

Lemma sort111_sibs (Own : Acc -> Prop) A c1 c2 c3 d1sq d2sq d3sq :
  Forall Own (sibs_list A) ->
  Forall Own (sibs_list (so_sibs (sort111 A c1 c2 c3 d1sq d2sq d3sq))).
Proof.
  unfold sibs_list, sort111. intros H.
  repeat match goal with
  | K : Forall _ (_ :: _) |- _ => inversion K; subst; clear K
  end.
  destruct (d1sq >? d2sq), (d2sq >? d3sq), (d1sq >? d3sq); cbn;
    repeat constructor; assumption.
Qed.

Section Writes.
Variables (chk : bool) (lm : Libm) (metric : MetricHelper)
          (params : Acc -> BaseCorr3).
Variable Own : Acc -> Prop.

Lemma commit111_on P self c1 c2 c3 d1 d2 d3 u v t :
  Own self ->
  commit111 chk lm metric P self c1 c2 c3 d1 d2 d3 u v = Ok t ->
  Forall (on_accs Own) t.
Proof.
  intros Hs H. apply commit111_cases in H. cbv zeta in H.
  destruct H as [[r ->] | (-> & _)]; (constructor; [|constructor]);
    [exact I | exact Hs].
Qed.

Lemma process111_fuel_on fuel : forall A c1 c2 c3 d1sq d2sq d3sq t,
  Forall Own (sibs_list A) ->
  process111_fuel fuel chk lm metric params A c1 c2 c3 d1sq d2sq d3sq = Ok t ->
  Forall (on_accs Own) t.
Proof.
  induction fuel as [|fuel IH]; intros A c1 c2 c3 d1sq d2sq d3sq t HA H;
    [discriminate|].
  cbn [process111_fuel] in H.
  repeat match type of H with
  | (if ?c then Ok _ else _) = Ok _ =>
      destruct c; [inversion H; subst; repeat constructor|]
  end.
  destruct (dists111 _ _ _ _ _ _ _) as [[e1 e2] e3].
  pose proof (sort111_sibs Own A c1 c2 c3 e1 e2 e3 HA) as HB.
  set (so := sort111 A c1 c2 c3 e1 e2 e3) in *.
  unfold process111Sorted in H. apply Assert_Ok in H.
  destruct (call_stop111 _ _ _ _ _ _ _ _) as [stop d2].
  destruct stop; [inversion H; subst; repeat constructor|].
  destruct (split _).
  - apply Assert_Ok in H.
    eapply split_calls_inv_args; [|exact H].
    intros x1 x2 x3 f1 f2 f3 t' _ Hr. exact (IH _ _ _ _ _ _ _ _ HB Hr).
  - eapply commit111_on; [|exact H].
    inversion HB; assumption.
Qed.

Lemma process12_on : forall c2 self bc212 bc221 c1 t,
  Own self -> Own bc212 -> Own bc221 ->
  process12 chk lm metric params self bc212 bc221 c1 c2 = Ok t ->
  Forall (on_accs Own) t.
Proof.
  induction c2 as [d s l r IHl IHr] using Cell_children_ind.
  intros self bc212 bc221 c1 t H1 H2 H3 H. cbn [process12] in H.
  repeat match type of H with
  | (if ?c then Ok _ else _) = Ok _ =>
      destruct c; [inversion H; subst; repeat constructor|]
  end.
  destruct l as [x|]; [|destruct chk; discriminate].
  destruct r as [y|]; [|destruct chk; discriminate].
  seq_inv H. subst.
  repeat (apply Forall_app; split).
  - exact (IHl x eq_refl _ _ _ _ _ H1 H2 H3 Hr).
  - exact (IHr y eq_refl _ _ _ _ _ H1 H2 H3 Hr1).
  - eapply process111_fuel_on; [|exact Hr2].
    unfold sibs_list; cbn. repeat constructor; assumption.
Qed.

Lemma process3_on : forall c1 self t,
  Own self -> process3 chk lm metric params self c1 = Ok t ->
  Forall (on_accs Own) t.
Proof.
  induction c1 as [d s l r IHl IHr] using Cell_children_ind.
  intros self t H1 H. cbn [process3] in H.
  repeat match type of H with
  | (if ?c then Ok _ else _) = Ok _ =>
      destruct c; [inversion H; subst; repeat constructor|]
  end.
  destruct l as [x|]; [|destruct chk; discriminate].
  destruct r as [y|]; [|destruct chk; discriminate].
  seq_inv H. subst.
  repeat (apply Forall_app; split).
  - exact (IHl x eq_refl _ _ H1 Hr).
  - exact (IHr y eq_refl _ _ H1 Hr1).
  - exact (process12_on _ _ _ _ _ _ H1 H1 H1 Hr0).
  - exact (process12_on _ _ _ _ _ _ H1 H1 H1 Hr3).
Qed.

Lemma loop111_on A c1 c2 cs : forall t,
  Forall Own (sibs_list A) ->
  loop111 chk lm metric params A c1 c2 cs = Ok t -> Forall (on_accs Own) t.
Proof.
  induction cs as [|c3 cs IH]; intros t HA H; cbn [loop111] in H.
  - inversion H. constructor.
  - seq_inv H. subst. apply Forall_app; split.
    + eapply process111_fuel_on; [exact HA | exact Hr].
    + apply IH; auto.
Qed.

Lemma auto_j_on bc3 c1 cs : forall t,
  Own bc3 ->
  auto_j chk lm metric params bc3 c1 cs = Ok t -> Forall (on_accs Own) t.
Proof.
  induction cs as [|c2 cs IH]; intros t H1 H; cbn [auto_j] in H.
  - inversion H. constructor.
  - seq_inv H. subst.
    repeat (apply Forall_app; split).
    + exact (process12_on _ _ _ _ _ _ H1 H1 H1 Hr).
    + exact (process12_on _ _ _ _ _ _ H1 H1 H1 Hr1).
    + eapply loop111_on; [|exact Hr0].
      unfold sibs_list; cbn. repeat constructor; assumption.
    + apply IH; auto.
Qed.

Lemma auto_i_on bc3 cs : forall t,
  Own bc3 ->
  auto_i chk lm metric params bc3 cs = Ok t -> Forall (on_accs Own) t.
Proof.
  induction cs as [|c1 cs IH]; intros t H1 H; cbn [auto_i] in H.
  - inversion H. constructor.
  - seq_inv H. subst.
    repeat (apply Forall_app; split).
    + exact (process3_on _ _ _ H1 Hr).
    + exact (auto_j_on _ _ _ _ H1 Hr1).
    + apply IH; auto.
Qed.

Lemma cross12_j_on a b c c1 cs : forall t,
  Own a -> Own b -> Own c ->
  cross12_j chk lm metric params a b c c1 cs = Ok t -> Forall (on_accs Own) t.
Proof.
  induction cs as [|c2 cs IH]; intros t H1 H2 H3 H; cbn [cross12_j] in H.
  - inversion H. constructor.
  - seq_inv H. subst.
    repeat (apply Forall_app; split).
    + exact (process12_on _ _ _ _ _ _ H1 H2 H3 Hr).
    + eapply loop111_on; [|exact Hr1].
      unfold sibs_list; cbn. repeat constructor; assumption.
    + apply IH; auto.
Qed.

Lemma cross12_i_on a b c f1 f2 : forall t,
  Own a -> Own b -> Own c ->
  cross12_i chk lm metric params a b c f1 f2 = Ok t -> Forall (on_accs Own) t.
Proof.
  induction f1 as [|c1 f1 IH]; intros t H1 H2 H3 H; cbn [cross12_i] in H.
  - inversion H. constructor.
  - seq_inv H. subst. apply Forall_app; split.
    + exact (cross12_j_on _ _ _ _ _ _ H1 H2 H3 Hr).
    + apply IH; auto.
Qed.

Lemma cross_j_on A c1 f2 f3 : forall t,
  Forall Own (sibs_list A) ->
  cross_j chk lm metric params A c1 f2 f3 = Ok t -> Forall (on_accs Own) t.
Proof.
  induction f2 as [|c2 f2 IH]; intros t HA H; cbn [cross_j] in H.
  - inversion H. constructor.
  - seq_inv H. subst. apply Forall_app; split.
    + exact (loop111_on _ _ _ _ _ HA Hr).
    + apply IH; auto.
Qed.

Lemma cross_i_on A f1 f2 f3 : forall t,
  Forall Own (sibs_list A) ->
  cross_i chk lm metric params A f1 f2 f3 = Ok t -> Forall (on_accs Own) t.
Proof.
  induction f1 as [|c1 f1 IH]; intros t HA H; cbn [cross_i] in H.
  - inversion H. constructor.
  - seq_inv H. subst. apply Forall_app; split.
    + exact (cross_j_on _ _ _ _ _ HA Hr).
    + apply IH; auto.
Qed.

Lemma traverse_on call t :
  Forall Own (call_accs call) ->
  traverse chk lm metric params call = Ok t -> Forall (on_accs Own) t.
Proof.
  destruct call; cbn [call_accs traverse]; intros HA.
  - apply process111_fuel_on; exact HA.
  - inversion HA as [|? ? K1 K]; subst. inversion K as [|? ? K2 K']; subst.
    inversion K' as [|? ? K3 _]; subst. apply process12_on; assumption.
  - inversion HA; subst. apply process3_on; assumption.
  - inversion HA; subst. apply auto_i_on; assumption.
  - inversion HA as [|? ? K1 K]; subst. inversion K as [|? ? K2 K']; subst.
    inversion K' as [|? ? K3 _]; subst. apply cross12_i_on; assumption.
  - apply cross_i_on; exact HA.
Qed.
End Writes.

(** X7: cells are committed only within the tolerances.  On well-formed
    trees, for accumulators whose derived parameters are those the
    constructor computes, every call of directProcess111 is made on three
    cells whose sizes the split decision has found small enough: with
    d1 >= d2 >= d3
    the sides of the triangle of the centres,
    - s3 = 0 or s1 + s3 <= b d2 (and s3 d3 <= bu d2^2 when bu < b,
      s3 <= bv d2 when bv < b);
    - s1 <= d3 and s2 <= d3 (written on the squares);
    - s2 <= s3 or d3 <= d2 - s2 + s3, and s2 <= s1 or d1 >= d2 + s2 - s1
      (the order of the sides cannot change), written on the squares;
    - s1 + s2 <= bu d2 and (s1 + s2) (1 + |v|) <= bv d3 (written on the
      squares). *)
Theorem commits_within_tolerance chk lm metric params call t :
  metric_nonneg metric -> sqrt_ok lm ->
  (forall a, In a (call_accs call) -> derived_ok lm (params a)) ->
  call_ok call ->
  traverse chk lm metric params call = Ok t ->
  Forall (within_tolerance lm params) t.
Proof.
  intros Hm Hs HP Hc H.
  assert (H1 : Forall (fun e => on_accs (fun a => In a (call_accs call)) e ->
                               within_tolerance lm params e) t).
  { apply (traverse_tree chk lm metric params
             (fun e => on_accs (fun a => In a (call_accs call)) e ->
                       within_tolerance lm params e) Hm) with (call := call);
      [intros; exact I | intros; exact I | intros; exact I | | exact Hc
      | exact H].
    apply commit111_within_tolerance; assumption. }
  assert (H2 : Forall (on_accs (fun a => In a (call_accs call))) t).
  { eapply traverse_on; [|exact H]. apply Forall_forall. auto. }
  rewrite Forall_forall in *. intros e He. exact (H1 e He (H2 e He)).
Qed.

Lemma update_outside a f (st : Store) :
  (length st <= a)%nat -> update a f st = st.
Proof.
  revert a; induction st as [|X st IH]; intros [|a] H; cbn in *;
    try lia; auto.
  f_equal. apply IH. lia.
Qed.

(** A projection of the objects that [f] keeps is kept by an update. *)
Lemma get_update_proj {B : Type} (g : Corr3 -> B) a f st :
  (forall X, g (f X) = g X) ->
  forall c, g (get (update a f st) c) = g (get st c).
Proof.
  intros Hf c.
  destruct (Nat.eq_dec c a) as [->|Hne].
  - destruct (Nat.lt_ge_cases a (length st)) as [Hlt | Hge].
    + rewrite get_update_same by exact Hlt. apply Hf.
    + rewrite update_outside by exact Hge. reflexivity.
  - rewrite get_update_other by exact Hne. reflexivity.
Qed.

Lemma ProcessZeta_lengths project c1 c2 c3 d1 d2 d3 z i :
  map (@length Q) (zeta_arrays (ProcessZeta project c1 c2 c3 d1 d2 d3 z i))
  = map (@length Q) (zeta_arrays z).
Proof.
  destruct z; cbn [ProcessZeta zeta_arrays map].
  - reflexivity.
  - rewrite add_at_length. reflexivity.
  - destruct (project _ _ _ _ _ _) as [[g1 g2] g3].
    cbn [zeta_arrays map]. rewrite !add_at_length. reflexivity.
Qed.

Lemma finishProcess_lengths lm project X c1 c2 c3 d1 d2 d3 logr u v index :
  map (@length Q)
      (all_arrays (finishProcess lm project X c1 c2 c3 d1 d2 d3 logr u v index))
  = map (@length Q) (all_arrays X).
Proof.
  unfold all_arrays. rewrite !map_app. f_equal.
  - apply ProcessZeta_lengths.
  - unfold finishProcess, arrays; cbn. rewrite !add_at_length. reflexivity.
Qed.

Lemma replay_frame lm project (Own : Acc -> Prop) t : forall st,
  Forall (on_accs Own) t ->
  let st' := replay lm project t st in
  length st' = length st /\
  (forall a, ~ Own a -> get st' a = get st a) /\
  (forall a, base (get st' a) = base (get st a)) /\
  (forall a, map (@length Q) (all_arrays (get st' a))
             = map (@length Q) (all_arrays (get st a))).
Proof.
  induction t as [|e t IH]; intros st Ht; cbn [replay fold_left].
  - auto.
  - inversion Ht as [|? ? He Ht']; subst.
    destruct (IH (apply_event lm project st e) Ht') as (L & F & B & A).
    fold (replay lm project t (apply_event lm project st e)).
    destruct e; cbn [apply_event] in *; try (repeat split; assumption).
    cbn [on_accs] in He.
    split; [|split; [|split]].
    + rewrite L. apply update_length.
    + intros a Ha. rewrite (F a Ha). apply get_update_other.
      intros ->. exact (Ha He).
    + intros a. rewrite (B a).
      apply (get_update_proj base). reflexivity.
    + intros a. rewrite (A a).
      apply (get_update_proj (fun X => map (@length Q) (all_arrays X))).
      intros X. apply finishProcess_lengths.
Qed.

Lemma entry_self_in e : In (entry_self e) (entry_accs e).
Proof. destruct e; cbn; auto. Qed.

(** X10: an entry point writes into its own accumulators only.  After a
    run that returned, the store has the same objects; every object that is
    not among the accumulators handed to the entry point (one for auto,
    three for cross-12, six for cross-111) is exactly what it was; no
    parameter of any object has changed, except the coordinate tag of
    [*this], which is now [C]; and no array has changed its length. *)
Theorem entry_point_frame chk lm metric project C e st st' :
  run_entry chk lm metric project C e st = Ok st' ->
  length st' = length st /\
  (forall a, ~ In a (entry_accs e) -> get st' a = get st a) /\
  (forall a, a <> entry_self e -> base (get st' a) = base (get st a)) /\
  ((entry_self e < length st)%nat ->
   base (get st' (entry_self e))
   = set_coords C (base (get st (entry_self e)))) /\
  (forall a, map (@length Q) (all_arrays (get st' a))
             = map (@length Q) (all_arrays (get st a))).
Proof.
  intros H. apply run_entry_Ok in H. destruct H as (t & Ht & ->).
  unfold entry_trace in Ht.
  assert (Hon : Forall (on_accs (fun a => In a (entry_accs e))) t).
  { eapply traverse_on; [|exact Ht].
    apply Forall_forall. intros a Ha. exact Ha. }
  destruct (replay_frame lm project _ t
              (with_coords C (entry_self e) st) Hon) as (L & F & B & A).
  unfold with_coords in *.
  split; [|split; [|split; [|split]]].
  - rewrite L. apply update_length.
  - intros a Ha. rewrite (F a Ha). apply get_update_other.
    intros ->. apply Ha, entry_self_in.
  - intros a Ha. rewrite (B a), get_update_other by exact Ha. reflexivity.
  - intros Hs. rewrite (B _), get_update_same by exact Hs. reflexivity.
  - intros a. rewrite (A a).
    apply (get_update_proj (fun X => map (@length Q) (all_arrays X))).
    reflexivity.
Qed.

(** ** The assertions of the entry points (lines 154-158, 218-225, 308-318) *)

Lemma loop111_nil chk lm metric params A c1 c2 :
  loop111 chk lm metric params A c1 c2 [] = Ok [].
Proof. reflexivity. Qed.

Lemma cross12_i_nil2 chk lm metric params a b c f1 :
  cross12_i chk lm metric params a b c f1 [] = Ok [].
Proof.
  induction f1 as [|c1 f1 IH]; cbn [cross12_i cross12_j]; [reflexivity|].
  rewrite IH. reflexivity.
Qed.

Lemma cross_j_nil3 chk lm metric params A c1 f2 :
  cross_j chk lm metric params A c1 f2 [] = Ok [].
Proof.
  induction f2 as [|c2 f2 IH]; cbn [cross_j loop111]; [reflexivity|].
  rewrite IH. reflexivity.
Qed.

Lemma cross_i_nil3 chk lm metric params A f1 f2 :
  cross_i chk lm metric params A f1 f2 [] = Ok [].
Proof.
  induction f1 as [|c1 f1 IH]; cbn [cross_i]; [reflexivity|].
  rewrite cross_j_nil3, IH. reflexivity.
Qed.

Lemma cross_i_nil2 chk lm metric params A f1 f3 :
  cross_i chk lm metric params A f1 [] f3 = Ok [].
Proof.
  induction f1 as [|c1 f1 IH]; cbn [cross_i cross_j]; [reflexivity|].
  rewrite IH. reflexivity.
Qed.

Lemma empty_field_trace chk lm metric params e :
  some_field_empty e ->
  traverse chk lm metric params (entry_call e) = Ok [].
Proof.
  destruct e; cbn [some_field_empty entry_call traverse].
  - intros ->. reflexivity.
  - intros [-> | ->]; [reflexivity | apply cross12_i_nil2].
  - intros [-> | [-> | ->]];
      [reflexivity | apply cross_i_nil2 | apply cross_i_nil3].
Qed.

Lemma run_entry_unfold chk lm metric project C e st :
  run_entry chk lm metric project C e st
  = run_process chk lm project C (entry_self e) (entry_nonempty e)
      (fun params => traverse chk lm metric params (entry_call e)) st.
Proof. destruct e; reflexivity. Qed.

Lemma empty_field_nonempty e : some_field_empty e -> entry_nonempty e = false.
Proof.
  destruct e; cbn [some_field_empty entry_nonempty].
  - intros ->. reflexivity.
  - intros [-> | ->]; [reflexivity | apply andb_false_r].
  - intros [-> | [-> | ->]];
      [reflexivity | rewrite andb_false_r; reflexivity | apply andb_false_r].
Qed.

(** X11: an entry point on an empty field.  When one of the fields has no
    top-level cell, the entry point fails its assertion if assertions are
    active; if they are not, it returns having made no call at all: the
    store is what it was, but for the coordinate tag of [*this], now [C]. *)
Theorem entry_on_empty_field lm metric project C e st :
  some_field_empty e ->
  run_entry true lm metric project C e st = Fail (AssertFailed In_process) /\
  run_entry false lm metric project C e st
  = Ok (with_coords C (entry_self e) st).
Proof.
  intros He. rewrite !run_entry_unfold. unfold run_process, Assert.
  rewrite (empty_field_nonempty e He). cbn [andb negb].
  split.
  - destruct (negb _); reflexivity.
  - rewrite (empty_field_trace _ _ _ _ e He). reflexivity.
Qed.

Lemma with_coords_twice C T self st :
  with_coords C self (with_coords T self st) = with_coords C self st.
Proof.
  unfold with_coords.
  revert self; induction st as [|X st IH]; intros [|a]; cbn [update];
    try reflexivity.
  f_equal. apply IH.
Qed.

(** X12: the coordinate tag of an accumulator.
    - After an entry point has returned, the tag of [*this] is [C].
    - With assertions active, an entry point run on an accumulator whose
      tag is neither -1 nor [C] fails its first assertion.
    - [clear] sets the tag back to -1.
    - With assertions inactive the old tag is not looked at: the result is
      the same whatever the tag was. *)
Theorem coords_tag chk lm metric project C e st :
  let self := entry_self e in
  (forall st', run_entry chk lm metric project C e st = Ok st' ->
               (self < length st)%nat ->
               _coords (base (get st' self)) = C) /\
  (_coords (base (get st self)) <> (-1)%Z ->
   _coords (base (get st self)) <> C ->
   run_entry true lm metric project C e st = Fail (AssertFailed In_process)) /\
  _coords (base (get (do_clear self st) self)) = (-1)%Z /\
  (forall T, run_entry false lm metric project C e (with_coords T self st)
             = run_entry false lm metric project C e st).
Proof.
  intros self. split; [|split; [|split]].
  - intros st' H Hs. apply run_entry_Ok in H. destruct H as (t & Ht & ->).
    assert (Hon : Forall (on_accs (fun _ => True)) t).
    { apply Forall_forall. intros [] _; exact I. }
    destruct (replay_frame lm project _ t
                (with_coords C (entry_self e) st) Hon) as (_ & _ & B & _).
    unfold self in *. rewrite (B (entry_self e)). unfold with_coords.
    rewrite get_update_same by exact Hs. reflexivity.
  - intros H1 H2. rewrite run_entry_unfold. unfold run_process, Assert.
    fold self.
    apply Z.eqb_neq in H1, H2. rewrite H1, H2. reflexivity.
  - unfold do_clear.
    destruct (Nat.lt_ge_cases self (length st)) as [Hlt | Hge].
    + rewrite get_update_same by exact Hlt. reflexivity.
    + rewrite update_outside by exact Hge.
      rewrite get_outside by exact Hge. reflexivity.
  - intros T. rewrite !run_entry_unfold. unfold run_process, Assert.
    cbn [andb]. fold self. rewrite with_coords_twice. reflexivity.
Qed.

(** ** Entry points on well-formed fields *)

Section Returns.
Variables (chk : bool) (lm : Libm) (metric : MetricHelper)
          (params : Acc -> BaseCorr3).
Hypothesis Hmetric : metric_nonneg metric.

Lemma process111_returns A c1 c2 c3 f :
  tree_ok c1 -> tree_ok c2 -> tree_ok c3 ->
  process111 chk lm metric params A c1 c2 c3 0 0 0 = Fail f ->
  assert_only chk f.
Proof.
  intros T1 T2 T3 H. unfold process111 in H.
  refine (process111_fuel_returns chk lm metric params Hmetric _ _ _ _ _ _ _ _
            _ _ T1 T2 T3 _ _ _ H); [unfold fuel111; lia | lra | lra | lra].
Qed.

Lemma loop111_returns A c1 c2 cs : forall f,
  tree_ok c1 -> tree_ok c2 -> Forall tree_ok cs ->
  loop111 chk lm metric params A c1 c2 cs = Fail f -> assert_only chk f.
Proof.
  induction cs as [|c3 cs IH]; intros f T1 T2 Ts H; cbn [loop111] in H;
    [discriminate|].
  inversion Ts as [|? ? Tc Tcs]; subst.
  apply seq_tr_Fail in H. destruct H as [H | H].
  - eapply process111_returns; [| | |exact H]; assumption.
  - apply IH; assumption.
Qed.

Lemma auto_j_returns bc3 c1 cs : forall f,
  tree_ok c1 -> Forall tree_ok cs ->
  auto_j chk lm metric params bc3 c1 cs = Fail f -> assert_only chk f.
Proof.
  induction cs as [|c2 cs IH]; intros f T1 Ts H; cbn [auto_j] in H;
    [discriminate|].
  inversion Ts as [|? ? Tc Tcs]; subst.
  apply seq_tr_Fail in H. destruct H as [H | H];
    [exact (process12_returns chk lm metric params Hmetric _ _ _ _ _ _
              T1 Tc H)|].
  apply seq_tr_Fail in H. destruct H as [H | H];
    [exact (process12_returns chk lm metric params Hmetric _ _ _ _ _ _
              Tc T1 H)|].
  apply seq_tr_Fail in H. destruct H as [H | H].
  - eapply loop111_returns; [| | |exact H]; assumption.
  - apply IH; assumption.
Qed.

Lemma auto_i_returns bc3 cs : forall f,
  0 < _halfminsep (params bc3) -> Forall tree_ok cs ->
  auto_i chk lm metric params bc3 cs = Fail f -> assert_only chk f.
Proof.
  induction cs as [|c1 cs IH]; intros f Hh Ts H; cbn [auto_i] in H;
    [discriminate|].
  inversion Ts as [|? ? Tc Tcs]; subst.
  apply seq_tr_Fail in H. destruct H as [H | H];
    [exact (process3_returns chk lm metric params Hmetric _ _ _ Hh
              Tc H)|].
  apply seq_tr_Fail in H. destruct H as [H | H].
  - eapply auto_j_returns; [| |exact H]; assumption.
  - apply IH; assumption.
Qed.

Lemma cross12_j_returns a b c c1 cs : forall f,
  tree_ok c1 -> Forall tree_ok cs ->
  cross12_j chk lm metric params a b c c1 cs = Fail f -> assert_only chk f.
Proof.
  induction cs as [|c2 cs IH]; intros f T1 Ts H; cbn [cross12_j] in H;
    [discriminate|].
  inversion Ts as [|? ? Tc Tcs]; subst.
  apply seq_tr_Fail in H. destruct H as [H | H];
    [exact (process12_returns chk lm metric params Hmetric _ _ _ _ _ _
              T1 Tc H)|].
  apply seq_tr_Fail in H. destruct H as [H | H].
  - eapply loop111_returns; [| | |exact H]; assumption.
  - apply IH; assumption.
Qed.

Lemma cross12_i_returns a b c f1 f2 : forall f,
  Forall tree_ok f1 -> Forall tree_ok f2 ->
  cross12_i chk lm metric params a b c f1 f2 = Fail f -> assert_only chk f.
Proof.
  induction f1 as [|c1 f1 IH]; intros f T1 T2 H; cbn [cross12_i] in H;
    [discriminate|].
  inversion T1 as [|? ? Tc Tcs]; subst.
  apply seq_tr_Fail in H. destruct H as [H | H].
  - eapply cross12_j_returns; [| |exact H]; assumption.
  - apply IH; assumption.
Qed.

Lemma cross_j_returns A c1 f2 f3 : forall f,
  tree_ok c1 -> Forall tree_ok f2 -> Forall tree_ok f3 ->
  cross_j chk lm metric params A c1 f2 f3 = Fail f -> assert_only chk f.
Proof.
  induction f2 as [|c2 f2 IH]; intros f T1 T2 T3 H; cbn [cross_j] in H;
    [discriminate|].
  inversion T2 as [|? ? Tc Tcs]; subst.
  apply seq_tr_Fail in H. destruct H as [H | H].
  - eapply loop111_returns; [| | |exact H]; assumption.
  - apply IH; assumption.
Qed.

Lemma cross_i_returns A f1 f2 f3 : forall f,
  Forall tree_ok f1 -> Forall tree_ok f2 -> Forall tree_ok f3 ->
  cross_i chk lm metric params A f1 f2 f3 = Fail f -> assert_only chk f.
Proof.
  induction f1 as [|c1 f1 IH]; intros f T1 T2 T3 H; cbn [cross_i] in H;
    [discriminate|].
  inversion T1 as [|? ? Tc Tcs]; subst.
  apply seq_tr_Fail in H. destruct H as [H | H].
  - eapply cross_j_returns; [| | |exact H]; assumption.
  - apply IH; assumption.
Qed.
End Returns.

Lemma traverse_returns chk lm metric params e f :
  metric_nonneg metric -> call_ok (entry_call e) ->
  (forall self field, e = Auto self field -> 0 < _halfminsep (params self)) ->
  traverse chk lm metric params (entry_call e) = Fail f ->
  assert_only chk f.
Proof.
  intros Hm Hc Hh. destruct e; cbn [entry_call call_ok traverse] in *.
  - apply auto_i_returns; [exact Hm | eapply Hh; reflexivity | exact Hc].
  - destruct Hc as [T1 T2]. apply cross12_i_returns; assumption.
  - destruct Hc as (T1 & T2 & T3). apply cross_i_returns; assumption.
Qed.

(** X13: the entry points return on well-formed fields.  When every
    top-level cell is a well-formed tree (leaves of size 0, internal cells
    with both children, sizes that are not negative), squared distances are
    not negative and, for the auto entry point, halfminsep > 0:
    - with assertions inactive the entry point returns: no null child is
      dereferenced and the recursion ends;
    - with assertions active it can only end on a failed assertion. *)
Theorem entry_point_returns lm metric project C e st :
  metric_nonneg metric -> call_ok (entry_call e) ->
  (forall self field,
      e = Auto self field -> 0 < _halfminsep (base (get st self))) ->
  (exists st', run_entry false lm metric project C e st = Ok st') /\
  (forall f, run_entry true lm metric project C e st = Fail f ->
             exists s, f = AssertFailed s).
Proof.
  intros Hm Hc Hh.
  assert (Hh' : forall self field,
             e = Auto self field ->
             0 < _halfminsep (params_of (with_coords C (entry_self e) st) self)).
  { intros self field E. unfold params_of, with_coords.
    rewrite (get_update_proj (fun X => _halfminsep (base X)));
      [exact (Hh self field E) | reflexivity]. }
  split.
  - rewrite run_entry_unfold. unfold run_process, Assert. cbn [andb].
    destruct (traverse false lm metric _ (entry_call e)) as [t | f] eqn:Ht;
      [eauto|].
    destruct (traverse_returns _ _ _ _ _ _ Hm Hc Hh' Ht) as [K _].
    discriminate K.
  - intros f. rewrite run_entry_unfold. unfold run_process. intros H.
    apply Assert_Fail in H. destruct H as [-> | H]; [eauto|].
    cbv zeta in H. apply Assert_Fail in H. destruct H as [-> | H]; [eauto|].
    destruct (traverse true lm metric _ (entry_call e)) as [t | f'] eqn:Ht;
      [discriminate|].
    inversion H; subst.
    destruct (traverse_returns _ _ _ _ _ _ Hm Hc Hh' Ht) as [_ [-> | ->]];
      eauto.
Qed.

(** ** Routing *)

Lemma compose_assoc s t r : compose (compose s t) r = compose s (compose t r).
Proof. destruct s, t, r; reflexivity. Qed.

Lemma compose_p123_r s : compose s p123 = s.
Proof. destruct s; reflexivity. Qed.

Lemma compose_p123_l s : compose p123 s = s.
Proof. destruct s; reflexivity. Qed.

Lemma pick_compose {T : Type} s t (x1 x2 x3 : T) :
  (let '(a, b, c) := pick s x1 x2 x3 in pick t a b c)
  = pick (compose s t) x1 x2 x3.
Proof. destruct s, t; reflexivity. Qed.

Lemma below_trans c y x : below c y -> below y x -> below c x.
Proof.
  induction 1 as [c | c z y Hz Hy IH]; intros Hx; [exact Hx|].
  eapply below_child; [exact Hz | exact (IH Hx)].
Qed.

Lemma below_is_child c y x : below c y -> is_child y x -> below c x.
Proof.
  intros H Hc. eapply below_trans; [exact H|].
  eapply below_child; [exact Hc | apply below_refl].
Qed.

Section Routing.
Variables (chk : bool) (lm : Libm) (metric : MetricHelper)
          (params : Acc -> BaseCorr3).
Variable A0 : Sibs.
Variables F1 F2 F3 : Cell -> Prop.
Hypothesis F1_child : forall c x, F1 c -> is_child c x -> F1 x.
Hypothesis F2_child : forall c x, F2 c -> is_child c x -> F2 x.
Hypothesis F3_child : forall c x, F3 c -> is_child c x -> F3 x.

Lemma routing_sort A c1 c2 c3 d1sq d2sq d3sq :
  routing A0 F1 F2 F3 A c1 c2 c3 ->
  let so := sort111 A c1 c2 c3 d1sq d2sq d3sq in
  routing A0 F1 F2 F3 (so_sibs so) (so_c1 so) (so_c2 so) (so_c3 so).
Proof.
  intros (s0 & y1 & y2 & y3 & G1 & G2 & G3 & Ec & Hs) so.
  destruct (sort111_sigma A c1 c2 c3 d1sq d2sq d3sq) as (Ec' & _ & Hs').
  fold so in Ec', Hs'.
  exists (compose s0 (sigma111 d1sq d2sq d3sq)), y1, y2, y3.
  repeat split; try assumption.
  - rewrite Ec', <- pick_compose, <- Ec. reflexivity.
  - intros t. rewrite Hs', Hs, compose_assoc. reflexivity.
Qed.

Lemma descend1_F (F : Cell -> Prop) b c x :
  (forall c x, F c -> is_child c x -> F x) ->
  F c -> descend1 b c x -> F x.
Proof.
  intros HF Hc. destruct b; cbn; [apply HF, Hc | intros ->; exact Hc].
Qed.

Ltac route_tac :=
  solve [ eapply descend1_F; [| |eassumption]; eassumption ].

Lemma routing_descend A c1 c2 c3 x1 x2 x3 b1 b2 b3 :
  routing A0 F1 F2 F3 A c1 c2 c3 ->
  descend1 b1 c1 x1 -> descend1 b2 c2 x2 -> descend1 b3 c3 x3 ->
  routing A0 F1 F2 F3 A x1 x2 x3.
Proof.
  intros (s0 & y1 & y2 & y3 & G1 & G2 & G3 & Ec & Hs) D1 D2 D3.
  destruct s0; cbn [pick] in Ec; inversion Ec; subst.
  - exists p123, x1, x2, x3. repeat split; try assumption; route_tac.
  - exists p132, x1, x3, x2. repeat split; try assumption; route_tac.
  - exists p213, x2, x1, x3. repeat split; try assumption; route_tac.
  - exists p231, x3, x1, x2. repeat split; try assumption; route_tac.
  - exists p312, x2, x3, x1. repeat split; try assumption; route_tac.
  - exists p321, x3, x2, x1. repeat split; try assumption; route_tac.
Qed.

Lemma process111_fuel_routed fuel : forall A c1 c2 c3 d1sq d2sq d3sq t,
  routing A0 F1 F2 F3 A c1 c2 c3 ->
  process111_fuel fuel chk lm metric params A c1 c2 c3 d1sq d2sq d3sq = Ok t ->
  Forall (routed A0 F1 F2 F3) t.
Proof.
  induction fuel as [|fuel IH]; intros A c1 c2 c3 d1sq d2sq d3sq t HA H;
    [discriminate|].
  cbn [process111_fuel] in H.
  repeat match type of H with
  | (if ?c then Ok _ else _) = Ok _ =>
      destruct c; [inversion H; subst; repeat constructor|]
  end.
  destruct (dists111 _ _ _ _ _ _ _) as [[e1 e2] e3].
  pose proof (routing_sort A c1 c2 c3 e1 e2 e3 HA) as HB. cbv zeta in HB.
  set (so := sort111 A c1 c2 c3 e1 e2 e3) in *.
  unfold process111Sorted in H. apply Assert_Ok in H.
  destruct (call_stop111 _ _ _ _ _ _ _ _) as [stop d2].
  destruct stop; [inversion H; subst; repeat constructor|].
  destruct (split _).
  - apply Assert_Ok in H.
    eapply split_calls_inv_args; [|exact H].
    intros x1 x2 x3 f1 f2 f3 t' (D1 & D2 & D3 & _) Hr.
    exact (IH _ _ _ _ _ _ _ _ (routing_descend _ _ _ _ _ _ _ _ _ _ HB D1 D2 D3)
              Hr).
  - apply commit111_cases in H. cbv zeta in H.
    destruct H as [[r ->] | (-> & _)];
      (constructor; [|constructor]); [exact I|].
    destruct HB as (s0 & y1 & y2 & y3 & G1 & G2 & G3 & Ec & Hs).
    cbn [routed]. exists s0, y1, y2, y3. repeat split; try assumption.
    specialize (Hs p123). cbn [slot] in Hs.
    rewrite Hs, compose_p123_r. reflexivity.
Qed.

Lemma routing_start c1 c2 c3 : F1 c1 -> F2 c2 -> F3 c3 -> routing A0 F1 F2 F3 A0 c1 c2 c3.
Proof.
  intros G1 G2 G3. exists p123, c1, c2, c3. repeat split; try assumption.
  intros t. rewrite compose_p123_l. reflexivity.
Qed.

Lemma loop111_routed c1 c2 cs : forall t,
  F1 c1 -> F2 c2 -> Forall F3 cs ->
  loop111 chk lm metric params A0 c1 c2 cs = Ok t ->
  Forall (routed A0 F1 F2 F3) t.
Proof.
  induction cs as [|c3 cs IH]; intros t G1 G2 Gs H; cbn [loop111] in H.
  - inversion H. constructor.
  - inversion Gs as [|? ? G3 Gs']; subst. seq_inv H. subst.
    apply Forall_app; split.
    + eapply process111_fuel_routed; [|exact Hr].
      apply routing_start; assumption.
    + apply IH; assumption.
Qed.

Lemma cross_j_routed c1 f2 f3 : forall t,
  F1 c1 -> Forall F2 f2 -> Forall F3 f3 ->
  cross_j chk lm metric params A0 c1 f2 f3 = Ok t ->
  Forall (routed A0 F1 F2 F3) t.
Proof.
  induction f2 as [|c2 f2 IH]; intros t G1 G2 G3 H; cbn [cross_j] in H.
  - inversion H. constructor.
  - inversion G2 as [|? ? Gc G2']; subst. seq_inv H. subst.
    apply Forall_app; split.
    + eapply loop111_routed; [| | |exact Hr]; assumption.
    + apply IH; assumption.
Qed.

Lemma cross_i_routed f1 f2 f3 : forall t,
  Forall F1 f1 -> Forall F2 f2 -> Forall F3 f3 ->
  cross_i chk lm metric params A0 f1 f2 f3 = Ok t ->
  Forall (routed A0 F1 F2 F3) t.
Proof.
  induction f1 as [|c1 f1 IH]; intros t G1 G2 G3 H; cbn [cross_i] in H.
  - inversion H. constructor.
  - inversion G1 as [|? ? Gc G1']; subst. seq_inv H. subst.
    apply Forall_app; split.
    + eapply cross_j_routed; [| | |exact Hr]; assumption.
    + apply IH; assumption.
Qed.
End Routing.

Section Routing12.
Variables (chk : bool) (lm : Libm) (metric : MetricHelper)
          (params : Acc -> BaseCorr3).
Variables F1 F2 : Cell -> Prop.
Hypothesis F1_child : forall c x, F1 c -> is_child c x -> F1 x.
Hypothesis F2_child : forall c x, F2 c -> is_child c x -> F2 x.

Lemma process12_routed : forall c2 self bc212 bc221 c1 t,
  F1 c1 -> F2 c2 ->
  process12 chk lm metric params self bc212 bc221 c1 c2 = Ok t ->
  Forall (routed (mkSibs self self bc212 bc221 bc212 bc221) F1 F2 F2) t.
Proof.
  induction c2 as [d s l r IHl IHr] using Cell_children_ind.
  intros self bc212 bc221 c1 t G1 G2 H. cbn [process12] in H.
  repeat match type of H with
  | (if ?c then Ok _ else _) = Ok _ =>
      destruct c; [inversion H; subst; repeat constructor|]
  end.
  destruct l as [x|]; [|destruct chk; discriminate].
  destruct r as [y|]; [|destruct chk; discriminate].
  assert (Gx : F2 x) by (apply (F2_child _ x G2); left; reflexivity).
  assert (Gy : F2 y) by (apply (F2_child _ y G2); right; reflexivity).
  seq_inv H. subst.
  repeat (apply Forall_app; split).
  - exact (IHl x eq_refl _ _ _ _ _ G1 Gx Hr).
  - exact (IHr y eq_refl _ _ _ _ _ G1 Gy Hr1).
  - eapply process111_fuel_routed;
      [exact F1_child | exact F2_child | exact F2_child | | exact Hr2].
    apply routing_start; assumption.
Qed.

Lemma cross12_j_routed a b c c1 cs : forall t,
  F1 c1 -> Forall F2 cs ->
  cross12_j chk lm metric params a b c c1 cs = Ok t ->
  Forall (routed (mkSibs a a b c b c) F1 F2 F2) t.
Proof.
  induction cs as [|c2 cs IH]; intros t G1 Gs H; cbn [cross12_j] in H.
  - inversion H. constructor.
  - inversion Gs as [|? ? Gc Gs']; subst. seq_inv H. subst.
    repeat (apply Forall_app; split).
    + exact (process12_routed _ _ _ _ _ _ G1 Gc Hr).
    + eapply loop111_routed;
        [exact F1_child | exact F2_child | exact F2_child | | | | exact Hr1];
        assumption.
    + apply IH; assumption.
Qed.

Lemma cross12_i_routed a b c f1 f2 : forall t,
  Forall F1 f1 -> Forall F2 f2 ->
  cross12_i chk lm metric params a b c f1 f2 = Ok t ->
  Forall (routed (mkSibs a a b c b c) F1 F2 F2) t.
Proof.
  induction f1 as [|c1 f1 IH]; intros t G1 G2 H; cbn [cross12_i] in H.
  - inversion H. constructor.
  - inversion G1 as [|? ? Gc G1']; subst. seq_inv H. subst.
    apply Forall_app; split.
    + exact (cross12_j_routed _ _ _ _ _ _ Gc G2 Hr).
    + apply IH; assumption.
Qed.
End Routing12.

Section Routing3.
Variables (chk : bool) (lm : Libm) (metric : MetricHelper)
          (params : Acc -> BaseCorr3).
Variable F : Cell -> Prop.
Hypothesis F_child : forall c x, F c -> is_child c x -> F x.

Lemma process3_routed : forall c1 self t,
  F c1 ->
  process3 chk lm metric params self c1 = Ok t ->
  Forall (routed (mkSibs self self self self self self) F F F) t.
Proof.
  induction c1 as [d s l r IHl IHr] using Cell_children_ind.
  intros self t G H. cbn [process3] in H.
  repeat match type of H with
  | (if ?c then Ok _ else _) = Ok _ =>
      destruct c; [inversion H; subst; repeat constructor|]
  end.
  destruct l as [x|]; [|destruct chk; discriminate].
  destruct r as [y|]; [|destruct chk; discriminate].
  assert (Gx : F x) by (apply (F_child _ x G); left; reflexivity).
  assert (Gy : F y) by (apply (F_child _ y G); right; reflexivity).
  seq_inv H. subst.
  repeat (apply Forall_app; split).
  - exact (IHl x eq_refl _ _ Gx Hr).
  - exact (IHr y eq_refl _ _ Gy Hr1).
  - exact (process12_routed chk lm metric params F F F_child F_child
             _ _ _ _ _ _ Gx Gy Hr0).
  - exact (process12_routed chk lm metric params F F F_child F_child
             _ _ _ _ _ _ Gy Gx Hr3).
Qed.

Lemma auto_j_routed bc3 c1 cs : forall t,
  F c1 -> Forall F cs ->
  auto_j chk lm metric params bc3 c1 cs = Ok t ->
  Forall (routed (mkSibs bc3 bc3 bc3 bc3 bc3 bc3) F F F) t.
Proof.
  induction cs as [|c2 cs IH]; intros t G1 Gs H; cbn [auto_j] in H.
  - inversion H. constructor.
  - inversion Gs as [|? ? Gc Gs']; subst. seq_inv H. subst.
    repeat (apply Forall_app; split).
    + exact (process12_routed chk lm metric params F F F_child F_child
               _ _ _ _ _ _ G1 Gc Hr).
    + exact (process12_routed chk lm metric params F F F_child F_child
               _ _ _ _ _ _ Gc G1 Hr1).
    + eapply loop111_routed;
        [exact F_child | exact F_child | exact F_child | | | | exact Hr0];
        assumption.
    + apply IH; assumption.
Qed.

Lemma auto_i_routed bc3 cs : forall t,
  Forall F cs ->
  auto_i chk lm metric params bc3 cs = Ok t ->
  Forall (routed (mkSibs bc3 bc3 bc3 bc3 bc3 bc3) F F F) t.
Proof.
  induction cs as [|c1 cs IH]; intros t Gs H; cbn [auto_i] in H.
  - inversion H. constructor.
  - inversion Gs as [|? ? Gc Gs']; subst. seq_inv H. subst.
    repeat (apply Forall_app; split).
    + exact (process3_routed _ _ _ Gc Hr).
    + exact (auto_j_routed _ _ _ _ Gc Gs' Hr1).
    + apply IH; assumption.
Qed.
End Routing3.

Lemma below_closed c0 : forall c x, below c0 c -> is_child c x -> below c0 x.
Proof. intros c x. apply below_is_child. Qed.

Lemma in_field_closed f : forall c x, in_field f c -> is_child c x -> in_field f x.
Proof.
  intros c x (c0 & Hin & Hb) Hc. exists c0. split; [exact Hin|].
  eapply below_is_child; eassumption.
Qed.

Lemma in_field_all f : Forall (in_field f) f.
Proof.
  apply Forall_forall. intros c Hc. exists c. split; [exact Hc|].
  apply below_refl.
Qed.

Lemma traverse_routed chk lm metric params call t :
  traverse chk lm metric params call = Ok t ->
  Forall (routed_by call) t.
Proof.
  destruct call; cbn [traverse routed_by]; intros H.
  - eapply process111_fuel_routed; [| | | |exact H];
      try apply below_closed.
    apply routing_start; apply below_refl.
  - eapply process12_routed; [| | | |exact H];
      try apply below_closed; apply below_refl.
  - eapply process3_routed; [| |exact H];
      try apply below_closed; apply below_refl.
  - eapply auto_i_routed; [| |exact H];
      [apply in_field_closed | apply in_field_all].
  - eapply cross12_i_routed; [| | | |exact H];
      try apply in_field_closed; apply in_field_all.
  - eapply cross_i_routed; [| | | | | |exact H];
      try apply in_field_closed; apply in_field_all.
Qed.

(** X14: which accumulator receives which triple.  In every call of
    directProcess111 made by a traversal, the three cells are, in some
    order s, a cell of the first input, a cell of the second and a cell of
    the third (cells of the trees handed to the call), and the accumulator
    that makes the call is the one the caller holds in the slot s: for the
    cross-111 entry point [*this] for 123, corr132 for 132, ..., corr321
    for 321; for the cross-12 entry point and process12, [*this] when the
    cell of the first field comes first, corr212 when it comes second,
    corr221 when it comes third. *)
Theorem commits_routed chk lm metric params call t :
  traverse chk lm metric params call = Ok t ->
  Forall (routed_by call) t.
Proof. apply traverse_routed. Qed.

(** ** The operations on the arrays of an accumulator *)

Lemma set_at_length i x a : length (set_at i x a) = length a.
Proof.
  revert i; induction a as [|y a IH]; intros [|i]; cbn; auto.
Qed.

Lemma set_at_nth i x a j :
  nth j (set_at i x a) 0 =
  if (j =? i)%nat && (i <? length a)%nat then x else nth j a 0.
Proof.
  revert i j; induction a as [|y a IH]; intros i j.
  - destruct i; cbn [set_at length]; rewrite andb_false_r; reflexivity.
  - destruct i as [|i], j as [|j]; cbn; auto.
Qed.

(** A loop that sets the entries [s], ..., [s + k - 1]. *)
Lemma set_loop_seq (g : nat -> Q) : forall k s a,
  let a' := fold_left (fun a i => set_at i (g i) a) (seq s k) a in
  length a' = length a /\
  forall i, (i < length a)%nat ->
    nth i a' 0 = if (s <=? i)%nat && (i <? s + k)%nat then g i else nth i a 0.
Proof.
  induction k as [|k IH]; intros s a; cbn [seq fold_left].
  - split; [reflexivity|]. intros i _.
    destruct (s <=? i)%nat eqn:E1, (i <? s + 0)%nat eqn:E2; cbn; auto.
    apply Nat.leb_le in E1. apply Nat.ltb_lt in E2. lia.
  - destruct (IH (S s) (set_at s (g s) a)) as [Hl Hn].
    rewrite set_at_length in Hl, Hn. split; [exact Hl|].
    intros i Hi. rewrite (Hn i Hi), set_at_nth.
    destruct (Nat.eq_dec i s) as [->|Hne].
    + rewrite Nat.eqb_refl.
      replace (S s <=? s)%nat with false by (symmetry; apply Nat.leb_gt; lia).
      replace (s <? length a)%nat with true by (symmetry; apply Nat.ltb_lt; lia).
      replace (s <=? s)%nat with true by (symmetry; apply Nat.leb_le; lia).
      replace (s <? s + S k)%nat with true by (symmetry; apply Nat.ltb_lt; lia).
      reflexivity.
    + replace (i =? s)%nat with false by (symmetry; apply Nat.eqb_neq; lia).
      cbn [andb].
      destruct (S s <=? i)%nat eqn:E1, (i <? S s + k)%nat eqn:E2,
               (s <=? i)%nat eqn:E3, (i <? s + S k)%nat eqn:E4;
        cbn [andb]; try reflexivity; exfalso;
        repeat match goal with
        | H : (_ <=? _)%nat = true |- _ => apply Nat.leb_le in H
        | H : (_ <=? _)%nat = false |- _ => apply Nat.leb_gt in H
        | H : (_ <? _)%nat = true |- _ => apply Nat.ltb_lt in H
        | H : (_ <? _)%nat = false |- _ => apply Nat.ltb_ge in H
        end; lia.
Qed.

Lemma zero_loop_all n a :
  length a = Z.to_nat n -> zero_loop n a = zeros n.
Proof.
  intros Hl. unfold zero_loop, zeros.
  destruct (set_loop_seq (fun _ => 0) (Z.to_nat n) 0%nat a) as [L N].
  apply (nth_ext _ _ 0 0).
  - rewrite repeat_length. cbv zeta in L. rewrite L. exact Hl.
  - intros i Hi. cbv zeta in L, N. rewrite L in Hi.
    rewrite (N i Hi), nth_repeat.
    replace ((0 <=? i)%nat && (i <? 0 + Z.to_nat n)%nat) with true;
      [reflexivity|].
    symmetry. apply andb_true_iff. split;
      [apply Nat.leb_le | apply Nat.ltb_lt]; lia.
Qed.

Lemma copy_loop_all n a b :
  length a = Z.to_nat n -> length b = Z.to_nat n -> copy_loop n a b = b.
Proof.
  intros Ha Hb. unfold copy_loop.
  destruct (set_loop_seq (fun i => nth i b 0) (Z.to_nat n) 0%nat a) as [L N].
  cbv zeta in L, N.
  apply (nth_ext _ _ 0 0).
  - rewrite L. lia.
  - intros i Hi. rewrite L in Hi. rewrite (N i Hi).
    replace ((0 <=? i)%nat && (i <? 0 + Z.to_nat n)%nat) with true;
      [reflexivity|].
    symmetry. apply andb_true_iff. split;
      [apply Nat.leb_le | apply Nat.ltb_lt]; lia.
Qed.

Ltac forall_inv :=
  repeat match goal with
  | H : Forall _ (_ :: _) |- _ => inversion H; subst; clear H
  | H : Forall _ [] |- _ => clear H
  | H : Forall _ (_ ++ _) |- _ => apply Forall_app in H; destruct H
  end.

Lemma sum_array_zeros n : sum_array (zeros n) == 0.
Proof.
  unfold zeros. induction (Z.to_nat n) as [|k IH]; cbn [repeat sum_array fold_right].
  - reflexivity.
  - fold (sum_array (repeat 0 k)). rewrite IH. reflexivity.
Qed.

Lemma sized_parts X :
  sized X <->
  Forall (fun a => length a = Z.to_nat (_ntot (base X))) (zeta_arrays (_zeta X)) /\
  Forall (fun a => length a = Z.to_nat (_ntot (base X))) (arrays X).
Proof. unfold sized, all_arrays. apply Forall_app. Qed.

Lemma zeros_length n : length (zeros n) = Z.to_nat n.
Proof. unfold zeros. apply repeat_length. Qed.

Lemma clear_zeroes_aux X :
  sized X ->
  let X' := clear X in
  all_arrays X' = map (fun _ => zeros (_ntot (base X))) (all_arrays X) /\
  base X' = set_coords (-1) (base X) /\ _owns_data X' = _owns_data X /\
  same_kind (_zeta X') (_zeta X) /\ sized X' /\ sum_array (_ntri X') == 0.
Proof.
  intros Hs X'.
  assert (E : all_arrays X'
              = map (fun _ => zeros (_ntot (base X))) (all_arrays X)).
  { apply sized_parts in Hs. destruct Hs as [Hz Ha].
    unfold X', all_arrays, clear, arrays in *.
    cbn [_zeta _meand1 _meanlogd1 _meand2 _meanlogd2 _meand3 _meanlogd3
         _meanu _meanv _weight _ntri] in *.
    rewrite map_app. forall_inv.
    f_equal.
    - destruct (_zeta X); cbn [zeta_clear zeta_arrays map] in *; forall_inv;
        rewrite ?zero_loop_all by assumption; reflexivity.
    - cbn [map]. rewrite !zero_loop_all by assumption. reflexivity. }
  split; [exact E|]. split; [reflexivity|]. split; [reflexivity|].
  split; [|split].
  - unfold X', clear; cbn [_zeta]. destruct (_zeta X); exact I.
  - unfold sized. rewrite E. apply Forall_forall. intros a Ha.
    apply in_map_iff in Ha. destruct Ha as (b & <- & _).
    unfold X', clear; cbn [base set_coords _ntot]. apply zeros_length.
  - unfold X', clear; cbn [_ntri].
    apply sized_parts in Hs. destruct Hs as [_ Ha]. unfold arrays in Ha.
    forall_inv. rewrite zero_loop_all by assumption. apply sum_array_zeros.
Qed.

(** X15: [clear] zeroes the accumulator.  On an accumulator whose arrays
    have [_ntot] entries, [clear] leaves every array (the payload and the
    ten others) with [_ntot] zeros, sets the coordinate tag to -1 and keeps
    every other parameter; in particular the triangle counts sum to 0. *)
Theorem clear_zeroes X :
  sized X ->
  let X' := clear X in
  all_arrays X' = map (fun _ => zeros (_ntot (base X))) (all_arrays X) /\
  base X' = set_coords (-1) (base X) /\ _owns_data X' = _owns_data X /\
  same_kind (_zeta X') (_zeta X) /\ sized X' /\ sum_array (_ntri X') == 0.
Proof. apply clear_zeroes_aux. Qed.

Lemma copy_arrays_all X R :
  sized X -> sized R -> _ntot (base R) = _ntot (base X) ->
  same_kind (_zeta X) (_zeta R) ->
  _zeta (copy_arrays X R) = _zeta R /\
  arrays (copy_arrays X R) = arrays R /\
  base (copy_arrays X R) = base X /\
  _owns_data (copy_arrays X R) = _owns_data X.
Proof.
  intros HX HR Hn Hk.
  apply sized_parts in HX, HR. destruct HX as [Zx Ax], HR as [Zr Ar].
  rewrite Hn in Zr, Ar.
  unfold copy_arrays, arrays in *.
  cbn [_zeta _meand1 _meanlogd1 _meand2 _meanlogd2 _meand3 _meanlogd3
       _meanu _meanv _weight _ntri base _owns_data].
  forall_inv.
  repeat split.
  - destruct (_zeta X), (_zeta R); cbn [same_kind] in Hk; try contradiction;
      cbn [zeta_copy zeta_map2 zeta_arrays] in *; forall_inv;
      rewrite ?copy_loop_all by assumption; reflexivity.
  - rewrite !copy_loop_all by assumption. reflexivity.
Qed.

(** X16: [operator=] copies the arrays and nothing else.  For accumulators
    of the same kernel and the same [_ntot] whose arrays have [_ntot]
    entries, [a = rhs] succeeds (also when [a] is [rhs]); afterwards the
    payload and the ten arrays of [a] are those of [rhs], while the
    parameters of [a], its coordinate tag included, are what they were (the
    tag of [rhs] is not copied), and every other object is what it was. *)
Theorem assign_copies chk a rhs st :
  (a < length st)%nat ->
  sized (get st a) -> sized (get st rhs) ->
  _ntot (base (get st rhs)) = _ntot (base (get st a)) ->
  same_kind (_zeta (get st a)) (_zeta (get st rhs)) ->
  exists st',
    op_assign chk a rhs st = Ok st' /\
    _zeta (get st' a) = _zeta (get st rhs) /\
    arrays (get st' a) = arrays (get st rhs) /\
    base (get st' a) = base (get st a) /\
    _owns_data (get st' a) = _owns_data (get st a) /\
    (forall c, c <> a -> get st' c = get st c) /\
    length st' = length st.
Proof.
  intros Ha HX HR Hn Hk.
  exists (update a (fun X => copy_arrays X (get st rhs)) st). split.
  - unfold op_assign, Assert. rewrite Hn, Z.eqb_refl, andb_false_r.
    reflexivity.
  - rewrite get_update_same by exact Ha.
    destruct (copy_arrays_all _ _ HX HR Hn Hk) as (E1 & E2 & E3 & E4).
    repeat split; try assumption.
    + intros c Hc. apply get_update_other. exact Hc.
    + apply update_length.
Qed.

Lemma BaseCorr3_copy_same P :
  BaseCorr3_copy (_xp P) (_yp P) (_zp P) P = P.
Proof. destruct P; reflexivity. Qed.

(** X17: the copy constructor.  [Corr3(rhs, copy_data)], for an [rhs]
    whose arrays have [_ntot] entries, gives an object that owns its
    arrays, whatever the allocated memory held: with [copy_data] its
    payload and arrays are those of [rhs] and its tag that of [rhs]
    (the assertion of [operator=] cannot fail); without, every array holds
    [_ntot] zeros and the tag is -1.  Its parameters are those of [rhs]
    except [_xp], [_yp], [_zp], which the constructor does not copy. *)
Theorem copy_constructor chk xp yp zp zmem mem rhs copy_data :
  sized rhs -> same_kind zmem (_zeta rhs) ->
  Forall (fun a => length a = Z.to_nat (_ntot (base rhs))) (zeta_arrays zmem) ->
  (forall k, (k < 10)%nat -> length (mem k) = Z.to_nat (_ntot (base rhs))) ->
  exists X,
    Corr3_copy chk xp yp zp zmem mem rhs copy_data = Ok X /\
    _owns_data X = true /\ sized X /\
    (if copy_data
     then _zeta X = _zeta rhs /\ arrays X = arrays rhs /\
          base X = BaseCorr3_copy xp yp zp (base rhs)
     else all_arrays X
          = map (fun _ => zeros (_ntot (base rhs))) (all_arrays rhs) /\
          base X = set_coords (-1) (BaseCorr3_copy xp yp zp (base rhs))) /\
    (xp = _xp (base rhs) -> yp = _yp (base rhs) -> zp = _zp (base rhs) ->
     base X = if copy_data then base rhs else set_coords (-1) (base rhs)).
Proof.
  intros HR Hk Hz Hm.
  set (X0 := mkCorr3 (BaseCorr3_copy xp yp zp (base rhs)) true zmem
               (mem 0%nat) (mem 1%nat) (mem 2%nat) (mem 3%nat) (mem 4%nat)
               (mem 5%nat) (mem 6%nat) (mem 7%nat) (mem 8%nat) (mem 9%nat)).
  assert (H0 : sized X0).
  { apply sized_parts. unfold X0, arrays; cbn. split; [exact Hz|].
    repeat constructor; apply Hm; lia. }
  assert (Hn : _ntot (base rhs) = _ntot (base X0)) by reflexivity.
  destruct copy_data.
  - destruct (copy_arrays_all X0 rhs H0 HR Hn Hk) as (E1 & E2 & E3 & E4).
    exists (copy_arrays X0 rhs). split; [|split; [|split; [|split]]].
    + unfold Corr3_copy. fold X0. unfold Assert.
      rewrite <- Hn, Z.eqb_refl, andb_false_r. reflexivity.
    + exact E4.
    + unfold sized, all_arrays. rewrite E1, E2, E3.
      change (_ntot (base X0)) with (_ntot (base rhs)). exact HR.
    + repeat split; assumption.
    + intros -> -> ->. rewrite E3. apply BaseCorr3_copy_same.
  - destruct (clear_zeroes_aux X0 H0) as (E & _ & _ & _ & Hs & _).
    exists (clear X0). split; [reflexivity|].
    split; [reflexivity|]. split; [exact Hs|]. split; [split|].
    + rewrite E. unfold all_arrays. rewrite !map_app. f_equal.
      unfold X0; cbn [_zeta].
      destruct zmem, (_zeta rhs); cbn [same_kind] in Hk; try contradiction;
        reflexivity.
    + reflexivity.
    + intros -> -> ->. unfold clear, X0; cbn [base].
      rewrite BaseCorr3_copy_same. reflexivity.
Qed.

Lemma array_eq_nth (a b : array) :
  length a = length b ->
  (forall i, (i < length a)%nat -> nth i a 0 == nth i b 0) ->
  array_eq a b.
Proof.
  unfold array_eq. revert b; induction a as [|x a IH]; intros [|y b] Hl Hn;
    cbn [length] in *; try discriminate; constructor.
  - exact (Hn 0%nat ltac:(lia)).
  - apply IH; [lia|]. intros i Hi. exact (Hn (S i) ltac:(lia)).
Qed.

Lemma add_loop_sized n a b :
  length a = Z.to_nat n ->
  length (add_loop n a b) = Z.to_nat n /\
  forall i, (i < Z.to_nat n)%nat ->
    nth i (add_loop n a b) 0 = nth i a 0 + nth i b 0.
Proof.
  intros Ha. destruct (add_loop_added n a b) as [L N].
  split; [lia|]. intros i Hi. rewrite (N i ltac:(lia)).
  replace (Z.of_nat i <? n)%Z with true; [reflexivity|].
  symmetry. apply Z.ltb_lt. lia.
Qed.

Lemma add_loop_comm n a b c :
  length a = Z.to_nat n ->
  array_eq (add_loop n (add_loop n a b) c) (add_loop n (add_loop n a c) b).
Proof.
  intros Ha.
  destruct (add_loop_sized n a b Ha) as [L1 N1].
  destruct (add_loop_sized n a c Ha) as [L2 N2].
  destruct (add_loop_sized n _ c L1) as [L3 N3].
  destruct (add_loop_sized n _ b L2) as [L4 N4].
  apply array_eq_nth; [lia|]. intros i Hi.
  rewrite N3, N4, N1, N2 by lia. ring.
Qed.

Lemma add_loop_zeros_l n b :
  length b = Z.to_nat n -> array_eq (add_loop n (zeros n) b) b.
Proof.
  intros Hb.
  destruct (add_loop_sized n (zeros n) b (zeros_length n)) as [L N].
  apply array_eq_nth; [lia|]. intros i Hi.
  rewrite N by lia. unfold zeros. rewrite nth_repeat. ring.
Qed.

Lemma add_loop_zeros_r n a :
  length a = Z.to_nat n -> array_eq (add_loop n a (zeros n)) a.
Proof.
  intros Ha.
  destruct (add_loop_sized n a (zeros n) Ha) as [L N].
  apply array_eq_nth; [lia|]. intros i Hi.
  rewrite N by lia. unfold zeros. rewrite nth_repeat. ring.
Qed.

(** X18: how [+=] composes (the body of [operator+=], lines 1157-1167).
    For accumulators of the same kernel and [_ntot] whose arrays have
    [_ntot] entries, entry by entry and as exact numbers:
    - adding [B] then [C] gives what adding [C] then [B] gives;
    - adding [B] to a cleared accumulator gives the arrays of [B];
    - adding a cleared accumulator changes nothing. *)
Theorem add_assign_composes X B C :
  sized X -> sized B -> sized C ->
  _ntot (base B) = _ntot (base X) -> _ntot (base C) = _ntot (base X) ->
  same_kind (_zeta X) (_zeta B) -> same_kind (_zeta X) (_zeta C) ->
  Forall2 array_eq (all_arrays (add_arrays (add_arrays X B) C))
                   (all_arrays (add_arrays (add_arrays X C) B)) /\
  Forall2 array_eq (all_arrays (add_arrays (clear X) B)) (all_arrays B) /\
  Forall2 array_eq (all_arrays (add_arrays X (clear B))) (all_arrays X).
Proof.
  intros HX HB HC NB NC KB KC.
  apply sized_parts in HX, HB, HC.
  destruct HX as [Zx Ax], HB as [Zb Ab], HC as [Zc Ac].
  rewrite NB in Zb, Ab. rewrite NC in Zc, Ac.
  unfold all_arrays, arrays in *.
  set (n := _ntot (base X)) in *.
  split; [|split]; apply Forall2_app.
  - unfold add_arrays; cbn [_zeta base].
    destruct (_zeta X), (_zeta B), (_zeta C); cbn [same_kind] in KB, KC;
      try contradiction; cbn [zeta_add zeta_map2 zeta_arrays] in *;
      forall_inv; repeat constructor; apply add_loop_comm; assumption.
  - unfold add_arrays; cbn. forall_inv.
    repeat constructor; apply add_loop_comm; assumption.
  - unfold add_arrays, clear; cbn [_zeta base set_coords _ntot]. fold n.
    destruct (_zeta X), (_zeta B); cbn [same_kind] in KB;
      try contradiction;
      cbn [zeta_clear zeta_add zeta_map2 zeta_arrays] in *;
      forall_inv; rewrite ?zero_loop_all by assumption;
      repeat constructor; apply add_loop_zeros_l; assumption.
  - unfold add_arrays, clear; cbn [_meand1 _meanlogd1 _meand2
      _meanlogd2 _meand3 _meanlogd3 _meanu _meanv _weight _ntri base
      set_coords _ntot]. fold n.
    forall_inv. rewrite !zero_loop_all by assumption.
    repeat constructor; apply add_loop_zeros_l; assumption.
  - unfold add_arrays, clear; cbn [_zeta base]. fold n. rewrite NB. fold n.
    destruct (_zeta X), (_zeta B); cbn [same_kind] in KB;
      try contradiction;
      cbn [zeta_clear zeta_add zeta_map2 zeta_arrays] in *;
      forall_inv; rewrite ?zero_loop_all by assumption;
      repeat constructor; apply add_loop_zeros_r; assumption.
  - unfold add_arrays, clear; cbn [_meand1 _meanlogd1 _meand2
      _meanlogd2 _meand3 _meanlogd3 _meanu _meanv _weight _ntri base].
    fold n. rewrite NB. fold n.
    forall_inv. rewrite !zero_loop_all by assumption.
    repeat constructor; apply add_loop_zeros_r; assumption.
Qed.

(** ** The contents of a bin (lines 1106-1134) *)

Lemma weights_ok_here c : weights_ok c -> 0 <= cellW c /\ (0 <= cellN c)%Z.
Proof. destruct c as [d s l r]. cbn. tauto. Qed.

Lemma weights_ok_below c x : below c x -> weights_ok c -> weights_ok x.
Proof.
  induction 1 as [c | c y x Hc _ IH]; [auto|].
  intros H. apply IH. destruct c as [d s l r]. cbn in Hc, H.
  destruct H as (_ & _ & Hl & Hr).
  destruct Hc as [-> | ->]; assumption.
Qed.

Lemma weights_ok_field f x :
  Forall weights_ok f -> in_field f x -> 0 <= cellW x /\ (0 <= cellN x)%Z.
Proof.
  intros Hf (c & Hin & Hb). apply weights_ok_here.
  apply (weights_ok_below c x Hb).
  rewrite Forall_forall in Hf. exact (Hf c Hin).
Qed.

Lemma routed_cells (W : Cell -> Prop) A F1 F2 F3 e :
  (forall x, F1 x -> W x) -> (forall x, F2 x -> W x) ->
  (forall x, F3 x -> W x) ->
  routed A F1 F2 F3 e ->
  match e with
  | Direct111 _ c1 c2 c3 _ _ _ _ _ _ _ => W c1 /\ W c2 /\ W c3
  | _ => True
  end.
Proof.
  intros H1 H2 H3. destruct e; cbn [routed]; auto.
  intros (s & y1 & y2 & y3 & K1 & K2 & K3 & E & _).
  destruct s; cbn [pick] in E; inversion E; subst; auto.
Qed.

Lemma entry_commit_weights chk lm metric params e t :
  Forall (Forall weights_ok) (entry_fields e) ->
  traverse chk lm metric params (entry_call e) = Ok t ->
  Forall (fun ev =>
            match ev with
            | Direct111 _ c1 c2 c3 _ _ _ _ _ _ _ =>
                (0 <= cellW c1 /\ (0 <= cellN c1)%Z) /\
                (0 <= cellW c2 /\ (0 <= cellN c2)%Z) /\
                (0 <= cellW c3 /\ (0 <= cellN c3)%Z)
            | _ => True
            end) t.
Proof.
  intros Hf Ht. apply traverse_routed in Ht.
  eapply Forall_impl; [|exact Ht]. intros ev.
  destruct e; cbn [entry_call routed_by entry_fields] in *;
    repeat match goal with
    | K : Forall _ (_ :: _) |- _ => inversion K; subst; clear K
    end;
    apply routed_cells; intros x; apply weights_ok_field; assumption.
Qed.

Lemma between_add e w m www x :
  between e w m -> between e 1 x -> 0 <= www ->
  between e (w + www) (m + www * x).
Proof. unfold between. intros [A B] [A1 B1] Hw. split; nra. Qed.

Lemma between_strict lo hi x : lo <= x -> x < hi -> between (lo, hi) 1 x.
Proof. unfold between; cbn [fst snd]. intros; split; lra. Qed.

Lemma commit_ok_adds lm metric params self c1 c2 c3 d1 d2 d3 logr u v index :
  sqrt_ok lm -> log_mono lm ->
  derived_ok lm (params self) -> bins_cover lm (params self) ->
  (0 <= cellW c1 /\ (0 <= cellN c1)%Z) /\
  (0 <= cellW c2 /\ (0 <= cellN c2)%Z) /\
  (0 <= cellW c3 /\ (0 <= cellN c3)%Z) ->
  commit_ok lm metric params
            (Direct111 self c1 c2 c3 d1 d2 d3 logr u v index) ->
  adds_within_edges params (Direct111 self c1 c2 c3 d1 d2 d3 logr u v index).
Proof.
  intros [Hpos Hmono] Hlog HP Hcov ((W1 & N1) & (W2 & N2) & (W3 & N3)).
  cbn [commit_ok adds_within_edges].
  intros (d1sq & d2sq & d3sq & v0 & H12 & H23 & E1 & E2 & E3 & Eu & Ev &
          El & (R1 & R2) & (U1 & U2) & (V1 & V2) & Evs & Ei & Hi).
  set (P := params self) in *.
  set (ccw := CCW metric (cellPos c1) (cellPos c2) (cellPos c3)) in *.
  subst logr.
  pose proof (commit111_bins_ok false lm metric P self c1 c2 c3 d1 d2 d3 u v0
                HP Hcov Hlog R1 R2 U1 U2 V1 V2) as K.
  cbv zeta in K. fold ccw in K.
  destruct K as (Kr & Ku & Kv & _ & Ha & _).
  pose proof (binning_decode lm P ccw (m_log lm d2) u v0 HP Ha) as D.
  cbv zeta in D. destruct D as ((Dr & Du & Dv) & _).
  pose proof (binning_bracket lm P ccw d2 u v0 HP Hcov Hlog
                R1 R2 U1 U2 V1 V2) as Br.
  cbv zeta in Br. destruct Br as ((Br1 & Br2) & (Bu1 & Bu2) & Bv).
  set (B := binning P ccw (m_log lm d2) u v0) in *.
  unfold bin_edges. rewrite Ei, <- Dr, <- Du, <- Dv.
  assert (Hw : 0 <= cellW c1 * cellW c2 * cellW c3).
  { apply Qmult_le_0_compat; [apply Qmult_le_0_compat|]; assumption. }
  assert (Hn : 0 <= inject_Z (cellN c1) * inject_Z (cellN c2)
                    * inject_Z (cellN c3)).
  { apply Qmult_le_0_compat; [apply Qmult_le_0_compat|];
      apply inject_Z_nonneg; assumption. }
  assert (Hd : 0 <= d3 /\ d3 <= d2 /\ d2 <= d1).
  { subst d1 d2 d3. repeat split; auto. }
  destruct Hd as (Hd3 & Hd32 & Hd21).
  rewrite <- Ei.
  split; [lia|]. do 5 (split; [assumption|]).
  split; [unfold between; cbn [fst snd]; lra|].
  split; [apply between_strict; assumption|].
  subst v. fold B.
  destruct ccw.
  - replace (b_kv B >=? _nvbins P)%Z with true by (symmetry; lia).
    destruct Bv. apply between_strict; assumption.
  - replace (b_kv B >=? _nvbins P)%Z with false by (symmetry; lia).
    destruct Bv. unfold between; cbn [fst snd]. lra.
Qed.

Lemma bin_edges_coords C P k : bin_edges (set_coords C P) k = bin_edges P k.
Proof. reflexivity. Qed.

Lemma finishProcess_bin lm project X c1 c2 c3 d1 d2 d3 logr u v index i :
  sized X ->
  adds_within_edges (fun _ => base X)
                    (Direct111 0%nat c1 c2 c3 d1 d2 d3 logr u v index) ->
  bin_within_edges X i ->
  bin_within_edges
    (finishProcess lm project X c1 c2 c3 d1 d2 d3 logr u v index) i.
Proof.
  intros HX Ha Hb.
  apply sized_parts in HX. destruct HX as [_ HX].
  unfold arrays in HX. forall_inv.
  unfold bin_within_edges, finishProcess in *.
  cbn [base _weight _ntri _meand1 _meand2 _meand3 _meanlogd2 _meanu _meanv].
  cbn [adds_within_edges] in Ha.
  rewrite !add_at_nth.
  repeat match goal with
  | K : length ?a = _ |- context [length ?a] => rewrite K
  end.
  destruct ((i =? Z.to_nat index)%nat
            && (Z.to_nat index <? Z.to_nat (_ntot (base X)))%nat) eqn:E;
    [|exact Hb].
  apply andb_prop in E. destruct E as [E _].
  apply Nat.eqb_eq in E.
  destruct (bin_edges (base X) index) as [[er eu] ev] eqn:Ee.
  destruct Ha as (Hi & Hw & Hn & D3 & D32 & D21 & Br & Bu & Bv).
  assert (Ek : Z.of_nat i = index) by lia.
  rewrite Ek, Ee in *.
  destruct Hb as (B1 & B2 & B3 & B4 & B5 & B6 & B7 & B8).
  set (www := cellW c1 * cellW c2 * cellW c3) in *.
  assert (M3 : 0 <= www * d3) by (apply Qmult_le_0_compat; assumption).
  assert (M32 : www * d3 <= www * d2) by nra.
  assert (M21 : www * d2 <= www * d1) by nra.
  split; [lra|]. split; [lra|]. split; [lra|]. split; [lra|].
  split; [lra|].
  split; [|split]; apply between_add; assumption.
Qed.

Lemma sized_ext X X' :
  map (@length Q) (all_arrays X') = map (@length Q) (all_arrays X) ->
  _ntot (base X') = _ntot (base X) -> sized X -> sized X'.
Proof.
  unfold sized. intros E1 E2. rewrite E2.
  generalize (Z.to_nat (_ntot (base X))). intros n.
  revert E1. generalize (all_arrays X) (all_arrays X'). clear.
  intros l l'. revert l.
  induction l' as [|a' l' IH]; intros [|a l] E H; cbn in E;
    try discriminate; constructor; inversion E; inversion H; subst.
  - congruence.
  - eapply IH; eassumption.
Qed.

Lemma replay_bins lm project params (Own : Acc -> Prop) t : forall st,
  Forall (fun e => on_accs Own e /\ adds_within_edges params e) t ->
  (forall a, Own a -> sized (get st a) /\ base (get st a) = params a) ->
  forall a i,
    bin_within_edges (get st a) i ->
    bin_within_edges (get (replay lm project t st) a) i.
Proof.
  induction t as [|e t IH]; intros st Ht Hst a i Hb; cbn [replay fold_left].
  - exact Hb.
  - inversion Ht as [|? ? [Ho He] Ht']; subst.
    apply IH; [exact Ht'| |].
    + intros c Hc. destruct (Hst c Hc) as [Hs Hbase].
      destruct e; cbn [apply_event]; auto.
      split.
      * eapply sized_ext; [| |exact Hs].
        -- apply (get_update_proj (fun X => map (@length Q) (all_arrays X))).
           intros X. apply finishProcess_lengths.
        -- apply (get_update_proj (fun X => _ntot (base X))).
           intros X. reflexivity.
      * rewrite <- Hbase.
        apply (get_update_proj base). intros X. reflexivity.
    + destruct e; cbn [apply_event]; auto.
      cbn [on_accs] in Ho. destruct (Hst self Ho) as [Hs Hbase].
      destruct (Nat.eq_dec a self) as [->|Hne].
      * destruct (Nat.lt_ge_cases self (length st)) as [Hlt | Hge].
        -- rewrite get_update_same by exact Hlt.
           apply finishProcess_bin; [exact Hs| |exact Hb].
           cbn [adds_within_edges] in *. rewrite Hbase. exact He.
        -- rewrite update_outside by exact Hge. exact Hb.
      * rewrite get_update_other by exact Hne. exact Hb.
Qed.

Lemma derived_ok_coords lm C P : derived_ok lm P -> derived_ok lm (set_coords C P).
Proof. intros H. exact (f_equal (set_coords C) H). Qed.

Lemma base_with_coords C self st a :
  base (get (with_coords C self st) a) = base (get st a) \/
  base (get (with_coords C self st) a) = set_coords C (base (get st a)).
Proof.
  unfold with_coords.
  destruct (Nat.eq_dec a self) as [->|Hne].
  - destruct (Nat.lt_ge_cases self (length st)) as [Hlt | Hge].
    + right. rewrite get_update_same by exact Hlt. reflexivity.
    + left. rewrite update_outside by exact Hge. reflexivity.
  - left. rewrite get_update_other by exact Hne. reflexivity.
Qed.

Lemma zeros_nth n i : nth i (zeros n) 0 = 0.
Proof.
  unfold zeros. generalize (Z.to_nat n). intros k. revert i.
  induction k as [|k IH]; intros [|i]; cbn; auto.
Qed.

Lemma clear_bins X i : sized X -> bin_within_edges (clear X) i.
Proof.
  intros HX. apply sized_parts in HX. destruct HX as [_ Ha].
  unfold arrays in Ha. forall_inv.
  unfold bin_within_edges.
  destruct (bin_edges (base (clear X)) (Z.of_nat i)) as [[er eu] ev].
  unfold clear.
  cbn [_meand1 _meand2 _meanlogd2 _meand3 _meanu _meanv _weight _ntri].
  rewrite !zero_loop_all by assumption. rewrite !zeros_nth.
  unfold between. repeat split; lra.
Qed.


(** X19: what a bin holds fits the bin.  For a square root and a logarithm
    that are monotone, accumulators whose bins cover their ranges and
    fields whose cells have weights and point counts that are not negative:
    if, before an entry point is called, a bin holds a weight and a count
    that are not negative, sums of the sides with
    0 <= meand3 <= meand2 <= meand1, and sums of log(d2), u and v between
    the lower and the upper edge of the bin times its weight, then so it
    does when the entry point returns.  Every bin of a cleared accumulator
    (with arrays of [_ntot] entries) is in this state: from [clear] on, the
    weighted means of log(d2), u and v of a bin stay within the bin. *)
Theorem bin_sums_within_edges chk lm metric project C e st st' :
  sqrt_ok lm -> log_mono lm ->
  (forall a, In a (entry_accs e) ->
             derived_ok lm (base (get st a)) /\
             bins_cover lm (base (get st a)) /\ sized (get st a)) ->
  Forall (Forall weights_ok) (entry_fields e) ->
  run_entry chk lm metric project C e st = Ok st' ->
  (forall a i, bin_within_edges (get st a) i ->
               bin_within_edges (get st' a) i) /\
  (forall a i, sized (get st a) -> bin_within_edges (clear (get st a)) i).
Proof.
  intros Hs Hl Hacc Hw H. split; [|intros a i; apply clear_bins].
  intros a i Hb.
  apply run_entry_Ok in H. destruct H as (t & Ht & ->).
  unfold entry_trace in Ht.
  set (st1 := with_coords C (entry_self e) st) in *.
  assert (Hacc1 : forall c, In c (entry_accs e) ->
                    derived_ok lm (params_of st1 c) /\
                    bins_cover lm (params_of st1 c) /\ sized (get st1 c)).
  { intros c Hc. destruct (Hacc c Hc) as (D & B & S).
    unfold params_of.
    assert (Hz : sized (get st1 c)).
    { eapply sized_ext; [| |exact S]; unfold st1, with_coords.
      - apply (get_update_proj (fun X => map (@length Q) (all_arrays X))).
        intros X. reflexivity.
      - apply (get_update_proj (fun X => _ntot (base X))).
        intros X. reflexivity. }
    destruct (base_with_coords C (entry_self e) st c) as [E | E];
      fold st1 in E; rewrite E.
    - auto.
    - split; [apply derived_ok_coords; exact D|]. split; [exact B | exact Hz]. }
  apply replay_bins with (params := params_of st1)
                         (Own := fun c => In c (entry_accs e)).
  - pose proof (traverse_commit_ok _ _ _ _ _ _ Ht) as K1.
    pose proof (entry_commit_weights _ _ _ _ _ _ Hw Ht) as K2.
    assert (K3 : Forall (on_accs (fun c => In c (entry_accs e))) t).
    { eapply traverse_on; [|exact Ht]. apply Forall_forall. auto. }
    rewrite Forall_forall in *. intros ev Hev.
    specialize (K1 ev Hev). specialize (K2 ev Hev). specialize (K3 ev Hev).
    split; [exact K3|].
    destruct ev; try exact I. cbn [on_accs] in K3.
    destruct (Hacc1 self K3) as (D & B & _).
    eapply commit_ok_adds; eassumption.
  - intros c Hc. destruct (Hacc1 c Hc) as (_ & _ & S).
    split; [exact S | reflexivity].
  - unfold bin_within_edges in *.
    assert (Eb : bin_edges (base (get st1 a)) (Z.of_nat i)
                 = bin_edges (base (get st a)) (Z.of_nat i)).
    { destruct (base_with_coords C (entry_self e) st a) as [E | E];
        fold st1 in E; rewrite E; reflexivity. }
    rewrite Eb.
    unfold st1, with_coords.
    rewrite (get_update_proj _weight), (get_update_proj _ntri),
      (get_update_proj _meand1), (get_update_proj _meand2),
      (get_update_proj _meand3), (get_update_proj _meanlogd2),
      (get_update_proj _meanu), (get_update_proj _meanv)
      by (intros X; reflexivity).
    exact Hb.
Qed.

(** ** Running the model *)

Lemma coarse_log_mono : log_mono test_libm.
Proof.
  intros x y Hx Hxy. cbn [m_log test_libm]. unfold coarse_log.
  assert (Hy : 0 < y) by lra.
  destruct (x <? 1) eqn:Ex; destruct (y <? 1) eqn:Ey; dbl_hyps.
  - apply Qopp_le_compat. rewrite <- Zle_Qle.
    apply Z.log2_le_mono, Qfloor_resp_le.
    apply Qle_shift_inv_l; [exact Hx|].
    rewrite Qmult_comm. apply Qle_shift_div_r; [exact Hy|]. lra.
  - apply Qle_trans with 0.
    + setoid_replace 0 with (- 0) by reflexivity.
      apply Qopp_le_compat, inject_Z_nonneg, Z.log2_nonneg.
    + apply inject_Z_nonneg, Z.log2_nonneg.
  - lra.
  - rewrite <- Zle_Qle. apply Z.log2_le_mono, Qfloor_resp_le. exact Hxy.
Qed.

Lemma up_sqrt_ok : sqrt_ok up_libm.
Proof.
  destruct dyadic_sqrt_ok as [Hpos Hmono]. cbn [m_sqrt test_libm] in *.
  split; cbn [m_sqrt up_libm]; unfold up_sqrt.
  - intros x. destruct (0 <? x); [|lra].
    pose proof (Hpos x). lra.
  - intros x y Hxy.
    destruct (0 <? x) eqn:Ex; destruct (0 <? y) eqn:Ey; dbl_hyps.
    + pose proof (Hmono x y Hxy). lra.
    + lra.
    + pose proof (Hpos y). lra.
    + lra.
Qed.

Lemma up_sqrt_pos : sqrt_pos up_libm.
Proof.
  destruct dyadic_sqrt_ok as [Hpos _]. cbn [m_sqrt test_libm] in *.
  intros x Hx. cbn [m_sqrt up_libm]. unfold up_sqrt.
  apply dlt_true in Hx. rewrite Hx. pose proof (Hpos x). lra.
Qed.

Lemma flat_metric_nonneg : metric_nonneg flat_metric.
Proof.
  intros p q s t. cbn [DistSq flat_metric]. unfold flat_DistSq, SQR.
  generalize (px p - px q) (py p - py q). intros a b.
  assert (Hsq : forall z : Q, 0 <= z * z).
  { intros z. destruct (Qlt_le_dec z 0); nra. }
  pose proof (Hsq a). pose proof (Hsq b). lra.
Qed.

Lemma field4_ok : Forall tree_ok field4.
Proof.
  constructor; [|constructor].
  cbn; repeat split; try reflexivity; intros K; discriminate K.
Qed.

(** ** Instances *)

Ltac by_run :=
  vm_compute;
  repeat match goal with |- _ /\ _ => split end;
  first [ reflexivity | exact I | lia
        | let K := fresh in intros K; discriminate K ].

(** The triangle with sides 5, 4, 3 in the binning [P_fine]. *)
Lemma commit_bins_in_range_witness :
  derived_ok test_libm P_fine /\
  bins_cover test_libm P_fine /\
  log_mono test_libm /\
  _minsep P_fine <= 4 /\
  4 < _maxsep P_fine /\
  _minu P_fine <= 3 # 4 /\
  (3 # 4) < _maxu P_fine /\
  _minv P_fine <= 1 # 3 /\
  (1 # 3) < _maxv P_fine /\
  (let ccw := CCW flat_metric (cellPos ptA) (cellPos ptC) (cellPos ptB) in
   let B := binning P_fine ccw (m_log test_libm 4) (3 # 4) (1 # 3) in
   (0 <= b_kr B < _nbins P_fine)%Z /\ (0 <= b_ku B < _nubins P_fine)%Z /\
   (if ccw then (_nvbins P_fine <= b_kv B < 2 * _nvbins P_fine)%Z
    else (0 <= b_kv B < _nvbins P_fine)%Z) /\
   (0 <= b_index B < _ntot P_fine)%Z /\
   binning_asserts P_fine ccw (m_log test_libm 4) (3 # 4) (1 # 3) = true /\
   (false = false \/ (0 < 5 /\ 0 < 3 /\ 0 < 3 # 4 /\ 0 <= 1 # 3) ->
    commit111 false test_libm flat_metric P_fine 0%nat ptA ptC ptB 5 4 3
              (3 # 4) (1 # 3)
    = Ok [Direct111 0%nat ptA ptC ptB 5 4 3 (m_log test_libm 4) (3 # 4)
                    (b_v B) (b_index B)])).
Proof.
  assert (H1 : derived_ok test_libm P_fine)
    by (vm_compute; reflexivity).
  assert (H2 : bins_cover test_libm P_fine)
    by (by_run).
  assert (H3 : log_mono test_libm)
    by (exact coarse_log_mono).
  assert (H4 : _minsep P_fine <= 4)
    by (by_run).
  assert (H5 : 4 < _maxsep P_fine)
    by (by_run).
  assert (H6 : _minu P_fine <= 3 # 4)
    by (by_run).
  assert (H7 : (3 # 4) < _maxu P_fine)
    by (by_run).
  assert (H8 : _minv P_fine <= 1 # 3)
    by (by_run).
  assert (H9 : (1 # 3) < _maxv P_fine)
    by (by_run).
  split; [exact H1|].
  split; [exact H2|].
  split; [exact H3|].
  split; [exact H4|].
  split; [exact H5|].
  split; [exact H6|].
  split; [exact H7|].
  split; [exact H8|].
  split; [exact H9|].
  exact (commit_bins_in_range false test_libm flat_metric P_fine 0%nat ptA ptC ptB 5 4 3 (3 # 4) (1 # 3)
           H1 H2 H3 H4 H5 H6 H7 H8 H9).
Defined.

(** The bins of d2 = 4, u = 3/4, v = 1/3 for a triple that is not counter-clockwise. *)
Lemma bins_bracket_witness :
  derived_ok test_libm P_fine /\
  bins_cover test_libm P_fine /\
  log_mono test_libm /\
  _minsep P_fine <= 4 /\
  4 < _maxsep P_fine /\
  _minu P_fine <= 3 # 4 /\
  (3 # 4) < _maxu P_fine /\
  _minv P_fine <= 1 # 3 /\
  (1 # 3) < _maxv P_fine /\
  (let B := binning P_fine false (m_log test_libm 4) (3 # 4) (1 # 3) in
   let kr := inject_Z (b_kr B) in
   let ku := inject_Z (b_ku B) in
   let kv := inject_Z (b_kv B) in
   let nv := inject_Z (_nvbins P_fine) in
   (_logminsep P_fine + kr * _binsize P_fine <= m_log test_libm 4 /\
    m_log test_libm 4 <= _logminsep P_fine + (kr + 1) * _binsize P_fine) /\
   (_minu P_fine + ku * _ubinsize P_fine <= 3 # 4 /\
    (3 # 4) < _minu P_fine + (ku + 1) * _ubinsize P_fine) /\
   (- (_minv P_fine + (nv - kv) * _vbinsize P_fine) < b_v B /\
    b_v B <= - (_minv P_fine + (nv - kv - 1) * _vbinsize P_fine))).
Proof.
  assert (H1 : derived_ok test_libm P_fine)
    by (vm_compute; reflexivity).
  assert (H2 : bins_cover test_libm P_fine)
    by (by_run).
  assert (H3 : log_mono test_libm)
    by (exact coarse_log_mono).
  assert (H4 : _minsep P_fine <= 4)
    by (by_run).
  assert (H5 : 4 < _maxsep P_fine)
    by (by_run).
  assert (H6 : _minu P_fine <= 3 # 4)
    by (by_run).
  assert (H7 : (3 # 4) < _maxu P_fine)
    by (by_run).
  assert (H8 : _minv P_fine <= 1 # 3)
    by (by_run).
  assert (H9 : (1 # 3) < _maxv P_fine)
    by (by_run).
  split; [exact H1|].
  split; [exact H2|].
  split; [exact H3|].
  split; [exact H4|].
  split; [exact H5|].
  split; [exact H6|].
  split; [exact H7|].
  split; [exact H8|].
  split; [exact H9|].
  exact (bins_bracket test_libm P_fine false 4 (3 # 4) (1 # 3)
           H1 H2 H3 H4 H5 H6 H7 H8 H9).
Defined.

(** The bin of log d2 = 2, u = 3/4, v = 1/3. *)
Lemma flat_index_decode_witness :
  derived_ok test_libm P_fine /\
  binning_asserts P_fine true 2 (3 # 4) (1 # 3) = true /\
  (let B := binning P_fine true 2 (3 # 4) (1 # 3) in
   (b_kr B = b_index B / _nuv P_fine /\
    b_ku B = (b_index B mod _nuv P_fine) / _nvbins2 P_fine /\
    b_kv B = b_index B mod _nvbins2 P_fine)%Z /\
   (forall ccw' logr' u' v',
       binning_asserts P_fine ccw' logr' u' v' = true ->
       let B' := binning P_fine ccw' logr' u' v' in
       b_index B' = b_index B ->
       b_kr B' = b_kr B /\ b_ku B' = b_ku B /\ b_kv B' = b_kv B)).
Proof.
  assert (H1 : derived_ok test_libm P_fine)
    by (vm_compute; reflexivity).
  assert (H2 : binning_asserts P_fine true 2 (3 # 4) (1 # 3) = true)
    by (vm_compute; reflexivity).
  split; [exact H1|].
  split; [exact H2|].
  exact (flat_index_decode test_libm P_fine true 2 (3 # 4) (1 # 3)
           H1 H2).
Defined.

(** The triangle with sides 5, 4, 3 on three leaves. *)
Lemma stop111_keeps_leaf_triangle_witness :
  derived_ok test_libm P_fine /\
  (0 : Q) == 0 /\
  25 == 5 * 5 /\
  16 == 4 * 4 /\
  9 == 3 * 3 /\
  m_sqrt test_libm 16 == 4 /\
  0 < 3 /\
  3 <= 4 /\
  4 <= 5 /\
  _minsep P_fine <= 4 /\
  4 < _maxsep P_fine /\
  _minu P_fine <= 3 / 4 /\
  3 / 4 < _maxu P_fine /\
  _minv P_fine <= (5 - 4) / 3 /\
  (5 - 4) / 3 < _maxv P_fine /\
  (call_stop111 test_libm P_fine 25 16 9 0 0 0 = (false, m_sqrt test_libm 16)).
Proof.
  assert (H1 : derived_ok test_libm P_fine)
    by (vm_compute; reflexivity).
  assert (H2 : (0 : Q) == 0)
    by (reflexivity).
  assert (H3 : 25 == 5 * 5)
    by (by_run).
  assert (H4 : 16 == 4 * 4)
    by (by_run).
  assert (H5 : 9 == 3 * 3)
    by (by_run).
  assert (H6 : m_sqrt test_libm 16 == 4)
    by (by_run).
  assert (H7 : 0 < 3)
    by (by_run).
  assert (H8 : 3 <= 4)
    by (by_run).
  assert (H9 : 4 <= 5)
    by (by_run).
  assert (H10 : _minsep P_fine <= 4)
    by (by_run).
  assert (H11 : 4 < _maxsep P_fine)
    by (by_run).
  assert (H12 : _minu P_fine <= 3 / 4)
    by (by_run).
  assert (H13 : 3 / 4 < _maxu P_fine)
    by (by_run).
  assert (H14 : _minv P_fine <= (5 - 4) / 3)
    by (by_run).
  assert (H15 : (5 - 4) / 3 < _maxv P_fine)
    by (by_run).
  split; [exact H1|].
  split; [exact H2|].
  split; [exact H3|].
  split; [exact H4|].
  split; [exact H5|].
  split; [exact H6|].
  split; [exact H7|].
  split; [exact H8|].
  split; [exact H9|].
  split; [exact H10|].
  split; [exact H11|].
  split; [exact H12|].
  split; [exact H13|].
  split; [exact H14|].
  split; [exact H15|].
  exact (stop111_keeps_leaf_triangle test_libm P_fine 5 4 3 0 0 0 25 16 9
           H1 H2 H2 H2 H3 H4 H5 H6 H7 H8 H9 H10 H11 H12 H13 H14 H15).
Defined.

(** Three leaves and the squared sides 25, 16, 9. *)
Lemma stop111_stops_witness :
  derived_ok test_libm P_fine /\
  (0 : Q) <= 0 /\
  ((forall d2 d3,
       0 <= d2 -> 0 <= d3 -> 16 == d2 * d2 -> 9 == d3 * d3 ->
       d2 + 0 + 0 < _minsep P_fine -> d3 + 0 + 0 < _minsep P_fine ->
       fst (call_stop111 test_libm P_fine 25 16 9 0 0 0) = true) /\
   (forall d1 d2,
       0 <= d1 -> 0 <= d2 -> 25 == d1 * d1 -> 16 == d2 * d2 ->
       0 <= _maxsep P_fine ->
       _maxsep P_fine + 0 + 0 <= d2 -> _maxsep P_fine + 0 + 0 <= d1 ->
       fst (call_stop111 test_libm P_fine 25 16 9 0 0 0) = true) /\
   ((0 == 0 /\ 0 == 0 /\ 25 == 0) \/ (0 == 0 /\ 0 == 0 /\ 16 == 0) \/
    (0 == 0 /\ 0 == 0 /\ 9 == 0) ->
    fst (call_stop111 test_libm P_fine 25 16 9 0 0 0) = true)).
Proof.
  assert (H1 : derived_ok test_libm P_fine)
    by (vm_compute; reflexivity).
  assert (H2 : (0 : Q) <= 0)
    by (by_run).
  split; [exact H1|].
  split; [exact H2|].
  exact (stop111_stops test_libm P_fine 25 16 9 0 0 0
           H1 H2 H2 H2).
Defined.

(** The point (4, 0) and the cell of radius 2 centred at (2, 0), at distance 2. *)
Lemma process12_tests_witness :
  derived_ok test_libm P_fine /\
  ~ cellW ptB == 0 /\
  ~ cellW cellL == 0 /\
  ~ getSize cellL == 0 /\
  _halfmind3 P_fine <= getSize cellL /\
  0 <= getSize ptB /\
  0 <= getSize cellL /\
  0 <= 2 /\
  DistSq flat_metric (cellPos ptB) (cellPos cellL) (getSize ptB) (getSize cellL) == 2 * 2 /\
  0 <= _maxsep P_fine /\
  0 <= _minu P_fine /\
  (let s1 := getSize ptB in
   let s2 := getSize cellL in
   let r := process12 false test_libm flat_metric (fun _ => P_fine)
                      0%nat 0%nat 0%nat ptB cellL in
   (2 + s1 + s2 < _minsep P_fine -> r = Ok [Ret12 R_minsep 0%nat ptB cellL]) /\
   (_minsep P_fine <= 2 + s1 + s2 -> _maxsep P_fine + s1 + s2 <= 2 ->
    r = Ok [Ret12 R_maxsep 0%nat ptB cellL]) /\
   (_minsep P_fine <= 2 + s1 + s2 -> 2 < _maxsep P_fine + s1 + s2 ->
    s1 + s2 < 2 -> 2 * s2 + _minu P_fine * (s1 + s2) < _minu P_fine * 2 ->
    r = Ok [Ret12 R_minu 0%nat ptB cellL]) /\
   (_minsep P_fine <= 2 + s1 + s2 -> 2 < _maxsep P_fine + s1 + s2 ->
    2 <= s1 + s2 \/ _minu P_fine * 2 <= 2 * s2 + _minu P_fine * (s1 + s2) ->
    r = match getLeft cellL, getRight cellL with
        | Some l, Some r =>
            process12 false test_libm flat_metric (fun _ => P_fine)
                      0%nat 0%nat 0%nat ptB l ;;
            process12 false test_libm flat_metric (fun _ => P_fine)
                      0%nat 0%nat 0%nat ptB r ;;
            process111 false test_libm flat_metric (fun _ => P_fine)
                       (mkSibs 0%nat 0%nat 0%nat 0%nat 0%nat 0%nat) ptB l r 0 0 0
        | _, _ => Fail (NullChild In_process12)
        end)).
Proof.
  assert (H1 : derived_ok test_libm P_fine)
    by (vm_compute; reflexivity).
  assert (H2 : ~ cellW ptB == 0)
    by (by_run).
  assert (H3 : ~ cellW cellL == 0)
    by (by_run).
  assert (H4 : ~ getSize cellL == 0)
    by (by_run).
  assert (H5 : _halfmind3 P_fine <= getSize cellL)
    by (by_run).
  assert (H6 : 0 <= getSize ptB)
    by (by_run).
  assert (H7 : 0 <= getSize cellL)
    by (by_run).
  assert (H8 : 0 <= 2)
    by (by_run).
  assert (H9 : DistSq flat_metric (cellPos ptB) (cellPos cellL) (getSize ptB) (getSize cellL) == 2 * 2)
    by (by_run).
  assert (H10 : 0 <= _maxsep P_fine)
    by (by_run).
  assert (H11 : 0 <= _minu P_fine)
    by (by_run).
  split; [exact H1|].
  split; [exact H2|].
  split; [exact H3|].
  split; [exact H4|].
  split; [exact H5|].
  split; [exact H6|].
  split; [exact H7|].
  split; [exact H8|].
  split; [exact H9|].
  split; [exact H10|].
  split; [exact H11|].
  exact (process12_tests false test_libm flat_metric (fun _ => P_fine) 0%nat 0%nat 0%nat ptB cellL 2
           H1 H2 H3 H4 H5 H6 H7 H8 H9 H10 H11).
Defined.

(** The traversal of the four points with the square root rounded up. *)
Lemma commits_have_positive_sides_witness :
  metric_nonneg flat_metric /\
  sqrt_ok up_libm /\
  sqrt_pos up_libm /\
  call_ok (CallAuto 0%nat field4) /\
  traverse false up_libm flat_metric (fun _ => P_fine) (CallAuto 0%nat field4) = Ok trace4_up /\
  (Forall positive_sides trace4_up).
Proof.
  assert (H1 : metric_nonneg flat_metric)
    by (exact flat_metric_nonneg).
  assert (H2 : sqrt_ok up_libm)
    by (exact up_sqrt_ok).
  assert (H3 : sqrt_pos up_libm)
    by (exact up_sqrt_pos).
  assert (H4 : call_ok (CallAuto 0%nat field4))
    by (exact field4_ok).
  assert (H5 : traverse false up_libm flat_metric (fun _ => P_fine) (CallAuto 0%nat field4) = Ok trace4_up)
    by (vm_compute; reflexivity).
  split; [exact H1|].
  split; [exact H2|].
  split; [exact H3|].
  split; [exact H4|].
  split; [exact H5|].
  exact (commits_have_positive_sides false up_libm flat_metric (fun _ => P_fine) (CallAuto 0%nat field4) trace4_up
           H1 H2 H3 H4 H5).
Defined.

(** The three points (0, 0), (0, 3), (4, 0). *)
Lemma leaf_triangle_committed_witness :
  derived_ok test_libm P_fine /\
  bins_cover test_libm P_fine /\
  log_mono test_libm /\
  getSize ptA == 0 /\
  getSize ptC == 0 /\
  getSize ptB == 0 /\
  25 == 5 * 5 /\
  16 == 4 * 4 /\
  9 == 3 * 3 /\
  m_sqrt test_libm 25 == 5 /\
  m_sqrt test_libm 16 == 4 /\
  m_sqrt test_libm 9 == 3 /\
  0 < 3 /\
  3 <= 4 /\
  4 <= 5 /\
  _minsep P_fine <= 4 /\
  4 < _maxsep P_fine /\
  _minu P_fine <= 3 / 4 /\
  3 / 4 < _maxu P_fine /\
  _minv P_fine <= (5 - 4) / 3 /\
  (5 - 4) / 3 < _maxv P_fine /\
  (exists d1' d2' d3' u' v' index,
     process111Sorted false test_libm flat_metric (fun _ => P_fine) probe111
                      one_acc ptA ptC ptB 25 16 9
     = Ok [Direct111 (a123 one_acc) ptA ptC ptB d1' d2' d3'
                     (m_log test_libm d2') u' v' index] /\
     d1' == 5 /\ d2' == 4 /\ d3' == 3 /\ u' == 3 / 4 /\
     Qabs v' == (5 - 4) / 3 /\ (0 <= index < _ntot P_fine)%Z).
Proof.
  assert (H1 : derived_ok test_libm P_fine)
    by (vm_compute; reflexivity).
  assert (H2 : bins_cover test_libm P_fine)
    by (by_run).
  assert (H3 : log_mono test_libm)
    by (exact coarse_log_mono).
  assert (H4 : getSize ptA == 0)
    by (by_run).
  assert (H5 : getSize ptC == 0)
    by (by_run).
  assert (H6 : getSize ptB == 0)
    by (by_run).
  assert (H7 : 25 == 5 * 5)
    by (by_run).
  assert (H8 : 16 == 4 * 4)
    by (by_run).
  assert (H9 : 9 == 3 * 3)
    by (by_run).
  assert (H10 : m_sqrt test_libm 25 == 5)
    by (by_run).
  assert (H11 : m_sqrt test_libm 16 == 4)
    by (by_run).
  assert (H12 : m_sqrt test_libm 9 == 3)
    by (by_run).
  assert (H13 : 0 < 3)
    by (by_run).
  assert (H14 : 3 <= 4)
    by (by_run).
  assert (H15 : 4 <= 5)
    by (by_run).
  assert (H16 : _minsep P_fine <= 4)
    by (by_run).
  assert (H17 : 4 < _maxsep P_fine)
    by (by_run).
  assert (H18 : _minu P_fine <= 3 / 4)
    by (by_run).
  assert (H19 : 3 / 4 < _maxu P_fine)
    by (by_run).
  assert (H20 : _minv P_fine <= (5 - 4) / 3)
    by (by_run).
  assert (H21 : (5 - 4) / 3 < _maxv P_fine)
    by (by_run).
  split; [exact H1|].
  split; [exact H2|].
  split; [exact H3|].
  split; [exact H4|].
  split; [exact H5|].
  split; [exact H6|].
  split; [exact H7|].
  split; [exact H8|].
  split; [exact H9|].
  split; [exact H10|].
  split; [exact H11|].
  split; [exact H12|].
  split; [exact H13|].
  split; [exact H14|].
  split; [exact H15|].
  split; [exact H16|].
  split; [exact H17|].
  split; [exact H18|].
  split; [exact H19|].
  split; [exact H20|].
  split; [exact H21|].
  exact (leaf_triangle_committed false test_libm flat_metric (fun _ => P_fine) probe111 one_acc ptA ptC ptB 5 4 3 25 16 9
           H1 H2 H3 H4 H5 H6 H7 H8 H9 H10 H11 H12 H13 H14 H15 H16 H17 H18 H19 H20 H21).
Defined.

(** The traversal of the four points. *)
Lemma commits_within_tolerance_witness :
  metric_nonneg flat_metric /\
  sqrt_ok test_libm /\
  (forall a, In a (call_accs (CallAuto 0%nat field4)) -> derived_ok test_libm (params_of st0 a)) /\
  call_ok (CallAuto 0%nat field4) /\
  traverse false test_libm flat_metric (params_of st0) (CallAuto 0%nat field4) = Ok trace4 /\
  (Forall (within_tolerance test_libm (params_of st0)) trace4).
Proof.
  assert (H1 : metric_nonneg flat_metric)
    by (exact flat_metric_nonneg).
  assert (H2 : sqrt_ok test_libm)
    by (exact dyadic_sqrt_ok).
  assert (H3 : forall a, In a (call_accs (CallAuto 0%nat field4)) -> derived_ok test_libm (params_of st0 a))
    by (intros a [<-|[]]; vm_compute; reflexivity).
  assert (H4 : call_ok (CallAuto 0%nat field4))
    by (exact field4_ok).
  assert (H5 : traverse false test_libm flat_metric (params_of st0) (CallAuto 0%nat field4) = Ok trace4)
    by (vm_compute; reflexivity).
  split; [exact H1|].
  split; [exact H2|].
  split; [exact H3|].
  split; [exact H4|].
  split; [exact H5|].
  exact (commits_within_tolerance false test_libm flat_metric (params_of st0) (CallAuto 0%nat field4) trace4
           H1 H2 H3 H4 H5).
Defined.

(** The auto entry point on the four points. *)
Lemma entry_point_frame_witness :
  run_entry false test_libm flat_metric no_projection 1%Z (Auto 0%nat field4) st0 = Ok st4 /\
  (length st4 = length st0 /\
   (forall a, ~ In a (entry_accs (Auto 0%nat field4)) -> get st4 a = get st0 a) /\
   (forall a, a <> entry_self (Auto 0%nat field4) ->
              base (get st4 a) = base (get st0 a)) /\
   ((entry_self (Auto 0%nat field4) < length st0)%nat ->
    base (get st4 (entry_self (Auto 0%nat field4)))
    = set_coords 1 (base (get st0 (entry_self (Auto 0%nat field4))))) /\
   (forall a, map (@length Q) (all_arrays (get st4 a))
              = map (@length Q) (all_arrays (get st0 a)))).
Proof.
  assert (H1 : run_entry false test_libm flat_metric no_projection 1%Z (Auto 0%nat field4) st0 = Ok st4)
    by (vm_compute; reflexivity).
  split; [exact H1|].
  exact (entry_point_frame false test_libm flat_metric no_projection 1%Z (Auto 0%nat field4) st0 st4
           H1).
Defined.

(** The auto entry point on a field without cells. *)
Lemma entry_on_empty_field_witness :
  some_field_empty (Auto 0%nat []) /\
  (run_entry true test_libm flat_metric no_projection 1%Z (Auto 0%nat []) st0
   = Fail (AssertFailed In_process) /\
   run_entry false test_libm flat_metric no_projection 1%Z (Auto 0%nat []) st0
   = Ok (with_coords 1 (entry_self (Auto 0%nat [])) st0)).
Proof.
  assert (H1 : some_field_empty (Auto 0%nat []))
    by (reflexivity).
  split; [exact H1|].
  exact (entry_on_empty_field test_libm flat_metric no_projection 1%Z (Auto 0%nat []) st0
           H1).
Defined.

(** The auto entry point on the four points. *)
Lemma entry_point_returns_witness :
  metric_nonneg flat_metric /\
  call_ok (entry_call (Auto 0%nat field4)) /\
  (forall self field, Auto 0%nat field4 = Auto self field -> 0 < _halfminsep (base (get st0 self))) /\
  ((exists st', run_entry false test_libm flat_metric no_projection 1%Z
                          (Auto 0%nat field4) st0 = Ok st') /\
   (forall f, run_entry true test_libm flat_metric no_projection 1%Z
                        (Auto 0%nat field4) st0 = Fail f ->
              exists s, f = AssertFailed s)).
Proof.
  assert (H1 : metric_nonneg flat_metric)
    by (exact flat_metric_nonneg).
  assert (H2 : call_ok (entry_call (Auto 0%nat field4)))
    by (exact field4_ok).
  assert (H3 : forall self field, Auto 0%nat field4 = Auto self field -> 0 < _halfminsep (base (get st0 self)))
    by (intros self field E; injection E as <- _; vm_compute; reflexivity).
  split; [exact H1|].
  split; [exact H2|].
  split; [exact H3|].
  exact (entry_point_returns test_libm flat_metric no_projection 1%Z (Auto 0%nat field4) st0
           H1 H2 H3).
Defined.

(** The traversal of the four points. *)
Lemma commits_routed_witness :
  traverse false test_libm flat_metric (params_of st0) (CallAuto 0%nat field4) = Ok trace4 /\
  (Forall (routed_by (CallAuto 0%nat field4)) trace4).
Proof.
  assert (H1 : traverse false test_libm flat_metric (params_of st0) (CallAuto 0%nat field4) = Ok trace4)
    by (vm_compute; reflexivity).
  split; [exact H1|].
  exact (commits_routed false test_libm flat_metric (params_of st0) (CallAuto 0%nat field4) trace4
           H1).
Defined.

(** The accumulator after the auto entry point on the four points. *)
Lemma clear_zeroes_witness :
  sized (get st4 0%nat) /\
  (let X' := clear (get st4 0%nat) in
   all_arrays X' = map (fun _ => zeros (_ntot (base (get st4 0%nat))))
                       (all_arrays (get st4 0%nat)) /\
   base X' = set_coords (-1) (base (get st4 0%nat)) /\
   _owns_data X' = _owns_data (get st4 0%nat) /\
   same_kind (_zeta X') (_zeta (get st4 0%nat)) /\ sized X' /\
   sum_array (_ntri X') == 0).
Proof.
  assert (H1 : sized (get st4 0%nat))
    by (vm_compute; repeat constructor).
  split; [exact H1|].
  exact (clear_zeroes (get st4 0%nat)
           H1).
Defined.

(** A fresh accumulator is assigned the one of the four points. *)
Lemma assign_copies_witness :
  (1 < length st_two)%nat /\
  sized (get st_two 1%nat) /\
  sized (get st_two 0%nat) /\
  _ntot (base (get st_two 0%nat)) = _ntot (base (get st_two 1%nat)) /\
  same_kind (_zeta (get st_two 1%nat)) (_zeta (get st_two 0%nat)) /\
  (exists st',
     op_assign false 1%nat 0%nat st_two = Ok st' /\
     _zeta (get st' 1%nat) = _zeta (get st_two 0%nat) /\
     arrays (get st' 1%nat) = arrays (get st_two 0%nat) /\
     base (get st' 1%nat) = base (get st_two 1%nat) /\
     _owns_data (get st' 1%nat) = _owns_data (get st_two 1%nat) /\
     (forall c, c <> 1%nat -> get st' c = get st_two c) /\
     length st' = length st_two).
Proof.
  assert (H1 : (1 < length st_two)%nat)
    by (vm_compute; lia).
  assert (H2 : sized (get st_two 1%nat))
    by (vm_compute; repeat constructor).
  assert (H3 : sized (get st_two 0%nat))
    by (vm_compute; repeat constructor).
  assert (H4 : _ntot (base (get st_two 0%nat)) = _ntot (base (get st_two 1%nat)))
    by (reflexivity).
  assert (H5 : same_kind (_zeta (get st_two 1%nat)) (_zeta (get st_two 0%nat)))
    by (exact I).
  split; [exact H1|].
  split; [exact H2|].
  split; [exact H3|].
  split; [exact H4|].
  split; [exact H5|].
  exact (assign_copies false 1%nat 0%nat st_two
           H1 H2 H3 H4 H5).
Defined.

(** A copy, with its data, of the accumulator of the four points. *)
Lemma copy_constructor_witness :
  sized (get st4 0%nat) /\
  same_kind ZetaN (_zeta (get st4 0%nat)) /\
  Forall (fun a => length a = Z.to_nat (_ntot (base (get st4 0%nat)))) (zeta_arrays ZetaN) /\
  (forall k, (k < 10)%nat -> length (junk k) = Z.to_nat (_ntot (base (get st4 0%nat)))) /\
  (exists X,
     Corr3_copy false 1 2 3 ZetaN junk (get st4 0%nat) true = Ok X /\
     _owns_data X = true /\ sized X /\
     (_zeta X = _zeta (get st4 0%nat) /\ arrays X = arrays (get st4 0%nat) /\
      base X = BaseCorr3_copy 1 2 3 (base (get st4 0%nat))) /\
     (1 = _xp (base (get st4 0%nat)) -> 2 = _yp (base (get st4 0%nat)) ->
      3 = _zp (base (get st4 0%nat)) -> base X = base (get st4 0%nat))).
Proof.
  assert (H1 : sized (get st4 0%nat))
    by (vm_compute; repeat constructor).
  assert (H2 : same_kind ZetaN (_zeta (get st4 0%nat)))
    by (exact I).
  assert (H3 : Forall (fun a => length a = Z.to_nat (_ntot (base (get st4 0%nat)))) (zeta_arrays ZetaN))
    by (constructor).
  assert (H4 : forall k, (k < 10)%nat -> length (junk k) = Z.to_nat (_ntot (base (get st4 0%nat))))
    by (intros k _; exact (repeat_length _ _)).
  split; [exact H1|].
  split; [exact H2|].
  split; [exact H3|].
  split; [exact H4|].
  exact (copy_constructor false 1 2 3 ZetaN junk (get st4 0%nat) true
           H1 H2 H3 H4).
Defined.

(** A fresh accumulator and the one of the four points. *)
Lemma add_assign_composes_witness :
  sized (new_NNN P_fine) /\
  sized (get st4 0%nat) /\
  sized (get st_two 1%nat) /\
  _ntot (base (get st4 0%nat)) = _ntot (base (new_NNN P_fine)) /\
  _ntot (base (get st_two 1%nat)) = _ntot (base (new_NNN P_fine)) /\
  same_kind (_zeta (new_NNN P_fine)) (_zeta (get st4 0%nat)) /\
  same_kind (_zeta (new_NNN P_fine)) (_zeta (get st_two 1%nat)) /\
  (Forall2 array_eq
           (all_arrays (add_arrays (add_arrays (new_NNN P_fine) (get st4 0%nat))
                                   (get st_two 1%nat)))
           (all_arrays (add_arrays (add_arrays (new_NNN P_fine) (get st_two 1%nat))
                                   (get st4 0%nat))) /\
   Forall2 array_eq (all_arrays (add_arrays (clear (new_NNN P_fine)) (get st4 0%nat)))
                    (all_arrays (get st4 0%nat)) /\
   Forall2 array_eq (all_arrays (add_arrays (new_NNN P_fine) (clear (get st4 0%nat))))
                    (all_arrays (new_NNN P_fine))).
Proof.
  assert (H1 : sized (new_NNN P_fine))
    by (vm_compute; repeat constructor).
  assert (H2 : sized (get st4 0%nat))
    by (vm_compute; repeat constructor).
  assert (H3 : sized (get st_two 1%nat))
    by (vm_compute; repeat constructor).
  assert (H4 : _ntot (base (get st4 0%nat)) = _ntot (base (new_NNN P_fine)))
    by (reflexivity).
  assert (H5 : _ntot (base (get st_two 1%nat)) = _ntot (base (new_NNN P_fine)))
    by (reflexivity).
  assert (H6 : same_kind (_zeta (new_NNN P_fine)) (_zeta (get st4 0%nat)))
    by (exact I).
  assert (H7 : same_kind (_zeta (new_NNN P_fine)) (_zeta (get st_two 1%nat)))
    by (exact I).
  split; [exact H1|].
  split; [exact H2|].
  split; [exact H3|].
  split; [exact H4|].
  split; [exact H5|].
  split; [exact H6|].
  split; [exact H7|].
  exact (add_assign_composes (new_NNN P_fine) (get st4 0%nat) (get st_two 1%nat)
           H1 H2 H3 H4 H5 H6 H7).
Defined.

(** The auto entry point on the four points. *)
Lemma bin_sums_within_edges_witness :
  sqrt_ok test_libm /\
  log_mono test_libm /\
  (forall a, In a (entry_accs (Auto 0%nat field4)) -> derived_ok test_libm (base (get st0 a)) /\ bins_cover test_libm (base (get st0 a)) /\ sized (get st0 a)) /\
  Forall (Forall weights_ok) (entry_fields (Auto 0%nat field4)) /\
  run_entry false test_libm flat_metric no_projection 1%Z (Auto 0%nat field4) st0 = Ok st4 /\
  ((forall a i, bin_within_edges (get st0 a) i ->
                bin_within_edges (get st4 a) i) /\
   (forall a i, sized (get st0 a) -> bin_within_edges (clear (get st0 a)) i)).
Proof.
  assert (H1 : sqrt_ok test_libm)
    by (exact dyadic_sqrt_ok).
  assert (H2 : log_mono test_libm)
    by (exact coarse_log_mono).
  assert (H3 : forall a, In a (entry_accs (Auto 0%nat field4)) -> derived_ok test_libm (base (get st0 a)) /\ bins_cover test_libm (base (get st0 a)) /\ sized (get st0 a))
    by (intros a [<-|[]]; split; [vm_compute; reflexivity | split; [by_run | vm_compute; repeat constructor]]).
  assert (H4 : Forall (Forall weights_ok) (entry_fields (Auto 0%nat field4)))
    by (repeat constructor; by_run).
  assert (H5 : run_entry false test_libm flat_metric no_projection 1%Z (Auto 0%nat field4) st0 = Ok st4)
    by (vm_compute; reflexivity).
  split; [exact H1|].
  split; [exact H2|].
  split; [exact H3|].
  split; [exact H4|].
  split; [exact H5|].
  exact (bin_sums_within_edges false test_libm flat_metric no_projection 1%Z (Auto 0%nat field4) st0 st4
           H1 H2 H3 H4 H5).
Defined.

(** * Count conservation *)

(** ** Three numbers in decreasing order *)

Lemma sigma111_sorted x y z :
  let '(a, b, c) := pick (sigma111 x y z) x y z in sorted_of a b c x y z.
Proof.
  unfold sigma111, sorted_of.
  destruct (x >? y) eqn:E1, (y >? z) eqn:E2, (x >? z) eqn:E3; cbn [pick];
    dbl_hyps;
    (split; [lra|split; [lra|]]);
    first [ exists p123; cbn; repeat split; reflexivity
          | exists p132; cbn; repeat split; reflexivity
          | exists p213; cbn; repeat split; reflexivity
          | exists p231; cbn; repeat split; reflexivity
          | exists p312; cbn; repeat split; reflexivity
          | exists p321; cbn; repeat split; reflexivity ].
Qed.

Lemma sorted_of_unique a b c a' b' c' x y z :
  sorted_of a b c x y z -> sorted_of a' b' c' x y z ->
  a == a' /\ b == b' /\ c == c'.
Proof.
  intros (H1 & H2 & s & Hs) (H1' & H2' & s' & Hs').
  destruct s, s'; cbn [pick] in Hs, Hs';
    destruct Hs as (A & B & C); destruct Hs' as (A' & B' & C');
    repeat split; lra.
Qed.

Lemma sorted_of_compat a b c x y z x' y' z' :
  x == x' -> y == y' -> z == z' ->
  sorted_of a b c x y z -> sorted_of a b c x' y' z'.
Proof.
  intros Ex Ey Ez (H1 & H2 & s & Hs).
  split; [exact H1|]. split; [exact H2|]. exists s.
  destruct s; cbn [pick] in *; destruct Hs as (A & B & C);
    repeat split; lra.
Qed.

Lemma sorted_of_perm a b c x y z (s : Perm3) :
  sorted_of a b c x y z ->
  let '(x', y', z') := pick s x y z in sorted_of a b c x' y' z'.
Proof.
  intros (H1 & H2 & s0 & Hs).
  destruct s; cbn [pick]; (split; [exact H1|]); (split; [exact H2|]);
    destruct s0; cbn [pick] in Hs; destruct Hs as (A & B & C);
    first [ exists p123; cbn; repeat split; assumption
          | exists p132; cbn; repeat split; assumption
          | exists p213; cbn; repeat split; assumption
          | exists p231; cbn; repeat split; assumption
          | exists p312; cbn; repeat split; assumption
          | exists p321; cbn; repeat split; assumption ].
Qed.

(** With the middle number at least [m], no two of the three are below
    [m]; with the middle number below [m], no two are at least [m]; the
    third number is the least. *)
Lemma sorted_of_middle a b c x y z m :
  sorted_of a b c x y z ->
  (m <= b -> ~ (x < m /\ y < m) /\ ~ (x < m /\ z < m) /\ ~ (y < m /\ z < m)) /\
  (b < m -> ~ (m <= x /\ m <= y) /\ ~ (m <= x /\ m <= z) /\
            ~ (m <= y /\ m <= z)) /\
  (c <= x /\ c <= y /\ c <= z).
Proof.
  intros (H1 & H2 & s & Hs).
  destruct s; cbn [pick] in Hs; destruct Hs as (A & B & C);
    (split; [intros Hm; repeat split; intros [? ?]; lra|]);
    (split; [intros Hm; repeat split; intros [? ?]; lra|]);
    repeat split; lra.
Qed.

(** ** Triangles in range *)

Lemma sides_ok_props lm P a b c :
  sides_ok lm P a b c = true <->
  0 < m_sqrt lm c /\
  _minsep P <= m_sqrt lm b /\ m_sqrt lm b < _maxsep P /\
  _minu P <= m_sqrt lm c / m_sqrt lm b /\
  m_sqrt lm c / m_sqrt lm b < _maxu P /\
  _minv P <= (m_sqrt lm a - m_sqrt lm b) / m_sqrt lm c /\
  (m_sqrt lm a - m_sqrt lm b) / m_sqrt lm c < _maxv P.
Proof.
  unfold sides_ok. cbv zeta.
  rewrite !andb_true_iff, !dlt_true, !dle_true. tauto.
Qed.

Lemma sides_ok_compat lm P a b c a' b' c' :
  sqrt_sound lm -> a == a' -> b == b' -> c == c' ->
  sides_ok lm P a b c = true -> sides_ok lm P a' b' c' = true.
Proof.
  intros (_ & Hp & _) Ea Eb Ec. rewrite !sides_ok_props.
  pose proof (Hp _ _ Ea) as Sa. pose proof (Hp _ _ Eb) as Sb.
  pose proof (Hp _ _ Ec) as Sc.
  rewrite Sa, Sb, Sc. tauto.
Qed.

(** On the squares: the middle side is at least minsep and below maxsep,
    and the shortest side is not 0. *)
Lemma sides_ok_squares lm P a b c :
  sqrt_sound lm -> exact_params lm P -> 0 <= b ->
  sides_ok lm P a b c = true ->
  _minsepsq P <= b /\ b < _maxsepsq P /\ 0 < c.
Proof.
  intros ((Hpos & Hmono) & Hp & Hb) (HP & Hcov & _ & _ & _ & _ & _ & _ & Hmax)
         Nb H.
  apply sides_ok_props in H. destruct H as (D3 & R1 & R2 & _).
  destruct (derived_squares lm P HP) as (Q1 & Q2 & _).
  destruct Hcov as (Hmin & _).
  pose proof (Hb b Nb) as Bb. pose proof (Hpos b) as Pb.
  split; [|split].
  - rewrite Q1. nra.
  - destruct (Qlt_le_dec b (_maxsepsq P)) as [L | L]; [exact L|].
    pose proof (Hmono _ _ L). lra.
  - destruct (Qlt_le_dec 0 c) as [L | L]; [exact L|].
    pose proof (Hmono _ _ L) as M0. pose proof (Hb 0 (Qle_refl 0)) as B0.
    pose proof (Hpos 0) as P0. nra.
Qed.

Lemma dsq_nonneg metric x y : metric_euclid metric -> 0 <= dsq metric x y.
Proof. intros (_ & _ & _ & H & _). apply H. Qed.

Lemma dsq_sym metric x y :
  metric_euclid metric -> dsq metric x y == dsq metric y x.
Proof. intros (_ & H & _). apply H. Qed.

Lemma triangle_ok_inv lm metric P x y z :
  sqrt_sound lm -> triangle_ok lm metric P (x, y, z) = true ->
  tri_inv lm metric P x y z.
Proof.
  intros Hl H a b c Hs. unfold triangle_ok in H. fold (dsq metric y z) in H.
  fold (dsq metric x z) in H. fold (dsq metric x y) in H.
  pose proof (sigma111_sorted (dsq metric y z) (dsq metric x z)
                              (dsq metric x y)) as H0.
  destruct (pick _ _ _ _) as [[a0 b0] c0].
  destruct (sorted_of_unique _ _ _ _ _ _ _ _ _ H0 Hs) as (Ea & Eb & Ec).
  exact (sides_ok_compat lm P _ _ _ _ _ _ Hl Ea Eb Ec H).
Qed.

(** The order of the three points does not matter. *)
Lemma tri_inv_perm lm metric P (s : Perm3) x1 x2 x3 :
  metric_euclid metric ->
  tri_inv lm metric P x1 x2 x3 ->
  let '(y1, y2, y3) := pick s x1 x2 x3 in tri_inv lm metric P y1 y2 y3.
Proof.
  intros Hm H.
  pose proof (dsq_sym metric x1 x2 Hm) as S12.
  pose proof (dsq_sym metric x1 x3 Hm) as S13.
  pose proof (dsq_sym metric x2 x3 Hm) as S23.
  destruct s; cbn [pick]; intros a b c Hs; apply H.
  - exact Hs.
  - apply (sorted_of_perm _ _ _ _ _ _ p132) in Hs. cbn [pick] in Hs.
    eapply sorted_of_compat; [| | |exact Hs]; lra.
  - apply (sorted_of_perm _ _ _ _ _ _ p213) in Hs. cbn [pick] in Hs.
    eapply sorted_of_compat; [| | |exact Hs]; lra.
  - apply (sorted_of_perm _ _ _ _ _ _ p312) in Hs. cbn [pick] in Hs.
    eapply sorted_of_compat; [| | |exact Hs]; lra.
  - apply (sorted_of_perm _ _ _ _ _ _ p231) in Hs. cbn [pick] in Hs.
    eapply sorted_of_compat; [| | |exact Hs]; lra.
  - apply (sorted_of_perm _ _ _ _ _ _ p321) in Hs. cbn [pick] in Hs.
    eapply sorted_of_compat; [| | |exact Hs]; lra.
Qed.

(** ** Distances between the points of two cells *)

Lemma dsq_near metric x c y c' s s' M :
  metric_euclid metric -> 0 <= s -> 0 <= s' -> s + s' < M ->
  dsq metric x c <= s * s -> dsq metric y c' <= s' * s' ->
  dsq metric c c' < (M - s - s') * (M - s - s') ->
  dsq metric x y < M * M.
Proof.
  intros Hm Hs Hs' HM Hx Hy Hc.
  pose proof (dsq_sym metric c c' Hm) as S1.
  pose proof (dsq_sym metric x c Hm) as S2.
  pose proof (dsq_sym metric y c' Hm) as S3.
  pose proof (dsq_sym metric c' x Hm) as S4.
  destruct Hm as (_ & _ & _ & _ & _ & Hlt).
  unfold dsq in *.
  assert (K1 : DistSq metric (cellPos c') (cellPos x) 0 0
               < (M - s - s' + s) * (M - s - s' + s)).
  { apply (Hlt _ (cellPos c)); lra. }
  assert (K2 : DistSq metric (cellPos x) (cellPos y) 0 0
               < (M - s - s' + s + s') * (M - s - s' + s + s')).
  { apply (Hlt _ (cellPos c')); lra. }
  setoid_replace (M - s - s' + s + s') with M in K2 by ring. exact K2.
Qed.

Lemma dsq_far metric x c y c' s s' M :
  metric_euclid metric -> 0 <= s -> 0 <= s' -> 0 <= M ->
  dsq metric x c <= s * s -> dsq metric y c' <= s' * s' ->
  (M + s + s') * (M + s + s') <= dsq metric c c' ->
  M * M <= dsq metric x y.
Proof.
  intros Hm Hs Hs' HM Hx Hy Hc.
  destruct (Qlt_le_dec (dsq metric x y) (M * M)) as [L | L]; [|exact L].
  exfalso.
  pose proof (dsq_sym metric c c' Hm) as S1.
  pose proof (dsq_sym metric x c Hm) as S2.
  pose proof (dsq_sym metric y c' Hm) as S3.
  pose proof (dsq_sym metric c' x Hm) as S4.
  destruct Hm as (_ & _ & _ & _ & _ & Hlt).
  unfold dsq in *.
  assert (K1 : DistSq metric (cellPos x) (cellPos c') 0 0
               < (M + s') * (M + s')).
  { apply (Hlt _ (cellPos y)); lra. }
  assert (K2 : DistSq metric (cellPos c') (cellPos c) 0 0
               < (M + s' + s) * (M + s' + s)).
  { apply (Hlt _ (cellPos x)); lra. }
  setoid_replace (M + s' + s) with (M + s + s') in K2 by ring. lra.
Qed.

Lemma dsq_within metric x y c s :
  metric_euclid metric -> 0 <= s ->
  dsq metric x c <= s * s -> dsq metric y c <= s * s ->
  dsq metric x y <= (s + s) * (s + s).
Proof.
  intros Hm Hs Hx Hy.
  pose proof (dsq_sym metric y c Hm) as S1.
  destruct Hm as (_ & _ & _ & _ & Hle & _).
  unfold dsq in *. apply (Hle _ (cellPos c)); lra.
Qed.

(** ** Trees over points of weight 1 *)

Lemma leaves_nonempty c : exists x, In x (leaves c).
Proof.
  induction c as [d s l r IHl IHr] using Cell_children_ind.
  destruct l as [x|], r as [y|]; cbn [leaves];
    try (eexists; left; reflexivity).
  destruct (IHl x eq_refl) as [z Hz]. exists z. apply in_or_app. left. exact Hz.
Qed.

(** A cell is a point, or an internal cell over two trees. *)
Lemma cell_ok_cases metric c :
  cell_ok metric c ->
  (getSize c == 0 /\ leaves c = [c] /\ cellN c = 1%Z /\
   getLeft c = None /\ getRight c = None) \/
  (0 < getSize c /\
   exists l r, getLeft c = Some l /\ getRight c = Some r /\
               leaves c = leaves l ++ leaves r /\
               cell_ok metric l /\ cell_ok metric r /\
               cellN c = (cellN l + cellN r)%Z).
Proof.
  destruct c as [d s l r]. cbn [cell_ok]. intros (_ & _ & H).
  destruct l as [x|], r as [y|]; try contradiction.
  - right. destruct H as (Hs & Hn & Hx & Hy). split; [exact Hs|].
    exists x, y. repeat split; auto.
  - left. destruct H as (Hs & Hn). repeat split; auto.
Qed.

Lemma cell_ok_N metric c : cell_ok metric c -> (1 <= cellN c)%Z.
Proof.
  induction c as [d s l r IHl IHr] using Cell_children_ind.
  intros H. destruct (cell_ok_cases metric _ H)
    as [(_ & _ & E & _) | (_ & x & y & El & Er & _ & Hx & Hy & E)].
  - lia.
  - cbn in El, Er. specialize (IHl x El Hx). specialize (IHr y Er Hy). lia.
Qed.

Lemma cell_ok_W metric c : cell_ok metric c -> ~ cellW c == 0.
Proof.
  intros H. pose proof (cell_ok_N metric c H) as HN.
  destruct c as [d s l r]. cbn [cell_ok] in H. destruct H as (HW & _).
  unfold cellW, cellN in *. cbn [getData] in *. rewrite HW.
  intros E. assert (K : 1 <= inject_Z (getN d)).
  { change 1 with (inject_Z 1). rewrite <- Zle_Qle. exact HN. }
  lra.
Qed.

Lemma cell_ok_nQ metric c : cell_ok metric c -> 1 <= nQ c.
Proof.
  intros H. pose proof (cell_ok_N metric c H) as HN. unfold nQ.
  change 1 with (inject_Z 1). rewrite <- Zle_Qle. exact HN.
Qed.

Lemma cell_ok_radius metric c :
  cell_ok metric c ->
  Forall (fun x => dsq metric x c <= getSize c * getSize c) (leaves c).
Proof.
  destruct c as [d s l r]. cbn [cell_ok]. intros (_ & H & _). exact H.
Qed.

Lemma cell_ok_tree metric c : cell_ok metric c -> tree_ok c.
Proof.
  induction c as [d s l r IHl IHr] using Cell_children_ind.
  intros H. pose proof H as H0. cbn [cell_ok] in H. destruct H as (_ & _ & H).
  cbn [tree_ok].
  destruct l as [x|], r as [y|]; try contradiction.
  - destruct H as (Hs & _ & Hx & Hy).
    split; [lra|]. split; [exact (IHl x eq_refl Hx) | exact (IHr y eq_refl Hy)].
  - destruct H as (Hs & _). split; [lra | exact Hs].
Qed.

Lemma cell_ok_counts metric c : cell_ok metric c -> counts_ok c.
Proof.
  induction c as [d s l r IHl IHr] using Cell_children_ind.
  intros H. cbn [cell_ok] in H. destruct H as (_ & _ & H).
  cbn [counts_ok].
  destruct l as [x|], r as [y|]; try contradiction; [|exact I].
  destruct H as (_ & Hn & Hx & Hy).
  split; [exact Hn|]. split; [exact (IHl x eq_refl Hx) | exact (IHr y eq_refl Hy)].
Qed.

Lemma cell_ok_size metric c : cell_ok metric c -> 0 <= getSize c.
Proof. intros H. exact (tree_ok_size _ (cell_ok_tree metric c H)). Qed.

(** A cell of size 0 is a point; a cell of another size has two children. *)
Lemma cell_ok_point metric c :
  cell_ok metric c -> getSize c == 0 -> leaves c = [c] /\ nQ c == 1.
Proof.
  intros H Hs.
  destruct (cell_ok_cases metric c H) as [(_ & E & N & _) | (Hp & _)];
    [|lra].
  split; [exact E|]. unfold nQ. rewrite N. reflexivity.
Qed.

Lemma cell_ok_internal metric c :
  cell_ok metric c -> ~ getSize c == 0 ->
  exists l r, getLeft c = Some l /\ getRight c = Some r /\
              leaves c = leaves l ++ leaves r /\
              cell_ok metric l /\ cell_ok metric r /\
              nQ c == nQ l + nQ r.
Proof.
  intros H Hs.
  destruct (cell_ok_cases metric c H)
    as [(E & _) | (_ & l & r & El & Er & Ev & Hl & Hr & N)];
    [contradiction|].
  exists l, r. repeat split; auto.
  unfold nQ. rewrite N, inject_Z_plus. reflexivity.
Qed.

Lemma cell_ok_child metric c x :
  cell_ok metric c -> is_child c x ->
  cell_ok metric x /\ incl (leaves x) (leaves c).
Proof.
  intros H Hc.
  destruct (cell_ok_cases metric c H)
    as [(_ & _ & _ & El & Er) | (_ & l & r & El & Er & Ev & Hl & Hr & _)].
  - destruct Hc as [E | E]; congruence.
  - rewrite Ev. destruct Hc as [E | E].
    + assert (x = l) by congruence. subst x. split; [exact Hl|].
      apply incl_appl, incl_refl.
    + assert (x = r) by congruence. subst x. split; [exact Hr|].
      apply incl_appr, incl_refl.
Qed.

Lemma cell_ok_descend metric b c x :
  cell_ok metric c -> descend1 b c x ->
  cell_ok metric x /\ incl (leaves x) (leaves c).
Proof.
  destruct b; cbn [descend1].
  - apply cell_ok_child.
  - intros H ->. split; [exact H | apply incl_refl].
Qed.

(** ** stop111 when the u and v ranges leave out no shape *)

Ltac orb_hyps :=
  repeat match goal with
  | H : (_ || _) = true |- _ => apply orb_true_iff in H; destruct H
  end.

(** With minu = minv = 0, maxu >= 1 and maxv >= 1 only the tests on the
    separations and on the sides of length 0 can stop. *)
Lemma stop111_exact lm P d1sq d2sq d3sq s1 s2 s3 :
  exact_params lm P ->
  fst (call_stop111 lm P d1sq d2sq d3sq s1 s2 s3) = true ->
  (d2sq < _minsepsq P /\ s1 + s3 < _minsep P /\ s1 + s2 < _minsep P /\
   (s1 + s3 == 0 \/ d2sq < SQR (_minsep P - s1 - s3)) /\
   (s1 + s2 == 0 \/ d3sq < SQR (_minsep P - s1 - s2))) \/
  (_maxsepsq P <= d2sq /\
   (s1 + s3 == 0 \/ SQR (_maxsep P + s1 + s3) <= d2sq) /\
   (s2 + s3 == 0 \/ SQR (_maxsep P + s2 + s3) <= d1sq)) \/
  (s2 == 0 /\ s3 == 0 /\ d1sq == 0) \/ (s1 == 0 /\ s3 == 0 /\ d2sq == 0) \/
  (s1 == 0 /\ s2 == 0 /\ d3sq == 0).
Proof.
  intros (_ & _ & _ & _ & Eu & Mu & Ev & Mv & _).
  unfold call_stop111, stop111. cbv zeta.
  match goal with |- fst (if ?c then _ else _) = true -> _ =>
    destruct c eqn:T1 end.
  { intros _. left. dbl_hyps. orb_hyps; dbl_hyps; tauto. }
  match goal with |- fst (if ?c then _ else _) = true -> _ =>
    destruct c eqn:T2 end.
  { intros _. right; left. dbl_hyps. orb_hyps; dbl_hyps; tauto. }
  match goal with |- fst (if ?c then _ else _) = true -> _ =>
    destruct c eqn:T3 end.
  { exfalso. dbl_hyps. lra. }
  match goal with |- fst (if ?c then _ else _) = true -> _ =>
    destruct c eqn:T4 end.
  { exfalso. dbl_hyps. lra. }
  match goal with |- fst (if ?c then _ else _) = true -> _ =>
    destruct c eqn:T5 end.
  { exfalso. dbl_hyps. lra. }
  match goal with |- fst (if ?c then _ else _) = true -> _ =>
    destruct c eqn:T6 end.
  { exfalso. dbl_hyps. lra. }
  match goal with |- fst (if ?c then _ else _) = true -> _ =>
    destruct c eqn:T7 end.
  { intros _. dbl_hyps. tauto. }
  match goal with |- fst (if ?c then _ else _) = true -> _ =>
    destruct c eqn:T8 end.
  { intros _. dbl_hyps. tauto. }
  match goal with |- fst (if ?c then _ else _) = true -> _ =>
    destruct c eqn:T9 end.
  { intros _. dbl_hyps. tauto. }
  cbn. discriminate.
Qed.

Lemma dsq_chain metric x c y c' s s' A :
  metric_euclid metric -> 0 <= s -> 0 <= s' -> 0 <= A ->
  dsq metric x c <= s * s -> dsq metric y c' <= s' * s' ->
  dsq metric c c' <= A * A ->
  dsq metric x y <= (s + A + s') * (s + A + s').
Proof.
  intros Hm Hs Hs' HA Hx Hy Hc.
  pose proof (dsq_sym metric y c' Hm) as S3.
  destruct Hm as (_ & _ & _ & _ & Hle & _).
  unfold dsq in *.
  assert (K1 : DistSq metric (cellPos x) (cellPos c') 0 0
               <= (s + A) * (s + A)).
  { apply (Hle _ (cellPos c)); lra. }
  apply (Hle _ (cellPos c')); lra.
Qed.

Lemma sorted_of_nonneg a b c x y z :
  sorted_of a b c x y z -> 0 <= x -> 0 <= y -> 0 <= z ->
  0 <= a /\ 0 <= b /\ 0 <= c.
Proof.
  intros Hs Hx Hy Hz.
  destruct (sorted_of_middle a b c x y z 0 Hs) as (_ & _ & C1 & C2 & C3).
  destruct Hs as (H1 & H2 & s & Hs).
  destruct s; cbn [pick] in Hs; destruct Hs as (A & B & C);
    repeat split; lra.
Qed.

(** What the range of a triangle of points says of its squared sides. *)
Lemma tri_inv_squares lm metric P x1 x2 x3 :
  metric_euclid metric -> sqrt_sound lm -> exact_params lm P ->
  tri_inv lm metric P x1 x2 x3 ->
  let x := dsq metric x2 x3 in
  let y := dsq metric x1 x3 in
  let z := dsq metric x1 x2 in
  0 < _minsep P /\ _minsep P < _maxsep P /\
  ~ (x < _minsepsq P /\ y < _minsepsq P) /\
  ~ (x < _minsepsq P /\ z < _minsepsq P) /\
  ~ (y < _minsepsq P /\ z < _minsepsq P) /\
  ~ (_maxsepsq P <= x /\ _maxsepsq P <= y) /\
  ~ (_maxsepsq P <= x /\ _maxsepsq P <= z) /\
  ~ (_maxsepsq P <= y /\ _maxsepsq P <= z) /\
  0 < x /\ 0 < y /\ 0 < z.
Proof.
  intros Hm Hl HP H x y z.
  pose proof (sigma111_sorted x y z) as Hs.
  destruct (pick (sigma111 x y z) x y z) as [[a b] c].
  pose proof (H a b c Hs) as Hok.
  destruct (sorted_of_nonneg a b c x y z Hs
              (dsq_nonneg metric _ _ Hm) (dsq_nonneg metric _ _ Hm)
              (dsq_nonneg metric _ _ Hm)) as (Na & Nb & Nc).
  destruct (sides_ok_squares lm P a b c Hl HP Nb Hok) as (S1 & S2 & S3).
  apply sides_ok_props in Hok. destruct Hok as (_ & R1 & R2 & _).
  destruct HP as (_ & (Hmin & _) & _).
  destruct (sorted_of_middle a b c x y z (_minsepsq P) Hs)
    as (M1 & _ & C1 & C2 & C3).
  destruct (sorted_of_middle a b c x y z (_maxsepsq P) Hs) as (_ & M2 & _).
  destruct (M1 S1) as (A1 & A2 & A3). destruct (M2 S2) as (B1 & B2 & B3).
  repeat split; try assumption; lra.
Qed.

(** stop111 stops no triple of cells that holds a triangle of points: the
    tests on the separations are sound. *)
Lemma no_stop lm metric P c1 c2 c3 d1sq d2sq d3sq :
  metric_euclid metric -> sqrt_sound lm -> exact_params lm P ->
  cell_ok metric c1 -> cell_ok metric c2 -> cell_ok metric c3 ->
  pts111 lm metric P (leaves c1) (leaves c2) (leaves c3) ->
  d1sq == dsq metric c2 c3 -> d2sq == dsq metric c1 c3 ->
  d3sq == dsq metric c1 c2 ->
  d2sq <= d1sq -> d3sq <= d2sq ->
  fst (call_stop111 lm P d1sq d2sq d3sq
                    (getSize c1) (getSize c2) (getSize c3)) = false.
Proof.
  intros Hm Hl HP K1 K2 K3 Ht E1 E2 E3 O12 O23.
  destruct (fst _) eqn:Es; [|reflexivity]. exfalso.
  apply (stop111_exact lm P _ _ _ _ _ _ HP) in Es.
  destruct (leaves_nonempty c1) as [x1 I1].
  destruct (leaves_nonempty c2) as [x2 I2].
  destruct (leaves_nonempty c3) as [x3 I3].
  pose proof (cell_ok_radius metric c1 K1) as R1.
  pose proof (cell_ok_radius metric c2 K2) as R2.
  pose proof (cell_ok_radius metric c3 K3) as R3.
  rewrite Forall_forall in R1, R2, R3.
  specialize (R1 x1 I1). specialize (R2 x2 I2). specialize (R3 x3 I3).
  cbv beta in R1, R2, R3.
  pose proof (cell_ok_size metric c1 K1) as N1.
  pose proof (cell_ok_size metric c2 K2) as N2.
  pose proof (cell_ok_size metric c3 K3) as N3.
  set (s1 := getSize c1) in *. set (s2 := getSize c2) in *.
  set (s3 := getSize c3) in *.
  pose proof (tri_inv_squares lm metric P x1 x2 x3 Hm Hl HP (Ht x1 x2 x3 I1 I2 I3))
    as Hsq.
  cbv zeta in Hsq.
  destruct Hsq as (Hmin & Hmax & A1 & A2 & A3 & B1 & B2 & B3 & Z1 & Z2 & Z3).
  destruct HP as (HD & _).
  destruct (derived_squares lm P HD) as (Q1 & Q2 & _).
  unfold SQR in Es.
  destruct Es as [(T1 & T2 & T3 & T4 & T5) |
                  [(T1 & T2 & T3) | [(T1 & T2 & T3) | [(T1 & T2 & T3) |
                   (T1 & T2 & T3)]]]].
  - apply A3. split.
    + rewrite Q1. apply (dsq_near metric x1 c1 x3 c3 s1 s3); auto.
      destruct T4 as [T4 | T4]; [|lra].
      assert (Z : s1 == 0 /\ s3 == 0) by (split; lra). destruct Z as [Z1' Z3'].
      rewrite Z1', Z3'. rewrite Q1 in T1. lra.
    + rewrite Q1. apply (dsq_near metric x1 c1 x2 c2 s1 s2); auto.
      destruct T5 as [T5 | T5]; [|lra].
      assert (Z : s1 == 0 /\ s2 == 0) by (split; lra). destruct Z as [Z1' Z2'].
      rewrite Z1', Z2'. rewrite Q1 in T1. lra.
  - apply B1. split.
    + rewrite Q2. apply (dsq_far metric x2 c2 x3 c3 s2 s3); auto; try lra.
      destruct T3 as [T3 | T3]; [|lra].
      assert (Z : s2 == 0 /\ s3 == 0) by (split; lra). destruct Z as [Z2' Z3'].
      rewrite Z2', Z3'. rewrite Q2 in T1. lra.
    + rewrite Q2. apply (dsq_far metric x1 c1 x3 c3 s1 s3); auto; try lra.
      destruct T2 as [T2 | T2]; [|lra].
      assert (Z : s1 == 0 /\ s3 == 0) by (split; lra). destruct Z as [Z1' Z3'].
      rewrite Z1', Z3'. rewrite Q2 in T1. lra.
  - pose proof (dsq_chain metric x2 c2 x3 c3 s2 s3 0 Hm N2 N3
                  (Qle_refl 0) R2 R3 ltac:(lra)) as K.
    rewrite T1, T2 in K. lra.
  - pose proof (dsq_chain metric x1 c1 x3 c3 s1 s3 0 Hm N1 N3
                  (Qle_refl 0) R1 R3 ltac:(lra)) as K.
    rewrite T1, T2 in K. lra.
  - pose proof (dsq_chain metric x1 c1 x2 c2 s1 s2 0 Hm N1 N2
                  (Qle_refl 0) R1 R2 ltac:(lra)) as K.
    rewrite T1, T2 in K. lra.
Qed.

(** ** The pairs and the triples of a list *)

Lemma one_two_In {A : Type} (xs : list A) ps x y z :
  In (x, y, z) (one_two xs ps) <-> In x xs /\ In (y, z) ps.
Proof.
  unfold one_two. rewrite in_flat_map. split.
  - intros (x0 & Hx & H). apply in_map_iff in H.
    destruct H as ([y0 z0] & E & Hp). cbn in E. inversion E; subst. auto.
  - intros (Hx & Hp). exists x. split; [exact Hx|].
    apply in_map_iff. exists (y, z). auto.
Qed.

Lemma pairs_of_app {A : Type} (l1 l2 : list A) p :
  In p (pairs_of (l1 ++ l2)) <->
  In p (pairs_of l1) \/ In p (pairs_of l2) \/ In p (list_prod l1 l2).
Proof.
  induction l1 as [|x l1 IH]; cbn [pairs_of app list_prod].
  - cbn. tauto.
  - rewrite !in_app_iff, IH, map_app, in_app_iff. tauto.
Qed.

Lemma pairs_of_cross {A : Type} (l1 l2 : list A) y z :
  In y l1 -> In z l2 -> In (y, z) (pairs_of (l1 ++ l2)).
Proof.
  intros Hy Hz. apply pairs_of_app. right; right.
  apply in_prod; assumption.
Qed.

Lemma one_two_app {A : Type} (l1 l2 : list A) ps t :
  In t (one_two (l1 ++ l2) ps) <-> In t (one_two l1 ps) \/ In t (one_two l2 ps).
Proof. unfold one_two. rewrite flat_map_app, in_app_iff. tauto. Qed.

Lemma triples_of_app {A : Type} (l1 l2 : list A) x y z :
  In (x, y, z) (triples_of (l1 ++ l2)) <->
  In (x, y, z) (triples_of l1) \/ In (x, y, z) (triples_of l2) \/
  (In x l1 /\ In (y, z) (pairs_of l2)) \/
  (In (x, y) (pairs_of l1) /\ In z l2).
Proof.
  induction l1 as [|x0 l1 IH]; cbn [triples_of app pairs_of].
  - cbn. tauto.
  - rewrite !in_app_iff, IH, !one_two_In, !pairs_of_app.
    cbn [In]. rewrite in_map_iff, in_prod_iff.
    assert (E : (exists y0, (x0, y0) = (x, y) /\ In y0 l1) <->
                x0 = x /\ In y l1).
    { split.
      - intros (y0 & E & H). inversion E; subst. auto.
      - intros (-> & H). exists y. auto. }
    rewrite E. tauto.
Qed.

(** ** The commit on three points *)

(** Without tolerance a triple that is not split consists of points. *)
Lemma exact_nosplit_sizes lm P d1sq d2sq d3sq d2 s1 s2 s3 :
  sqrt_ok lm -> exact_params lm P ->
  0 <= s1 -> 0 <= s2 -> 0 <= s3 -> 0 <= d3sq -> d3sq <= d2sq ->
  d2 = m_sqrt lm d2sq ->
  split (decide_split lm P d1sq d2sq d3sq d2 s1 s2 s3) = false ->
  s1 == 0 /\ s2 == 0 /\ s3 == 0.
Proof.
  intros [Hpos Hmono] (HD & _ & Hb & Hbu & _) N1 N2 N3 Nd O23 Ed Hsp.
  destruct (derived_squares lm P HD)
    as (_ & _ & _ & _ & _ & _ & _ & Qu & Qv & _).
  pose proof (nosplit_tolerance lm P d1sq d2sq d3sq d2 s1 s2 s3
                N1 N2 N3 Nd O23 ltac:(rewrite Ed; apply Hpos) (Hpos d3sq)
                Qu Qv Hsp) as (A1 & _ & _ & _ & _ & A6 & _).
  rewrite Qu in A6. unfold SQR in A6.
  assert (Z6 : _bu P * _bu P * d2sq == 0) by (rewrite Hbu; ring).
  rewrite Z6 in A6.
  assert (Z12 : s1 + s2 == 0) by nra.
  assert (Z1 : s1 == 0) by lra. assert (Z2 : s2 == 0) by lra.
  split; [exact Z1|]. split; [exact Z2|].
  destruct A1 as [A1 | (A1 & _)]; [exact A1|].
  assert (Zb : _b P * d2 == 0) by (rewrite Hb; ring).
  rewrite Zb in A1. lra.
Qed.

Lemma commit_of_points chk lm metric P self c1 c2 c3 d1sq d2sq d3sq d2 t :
  metric_euclid metric -> sqrt_sound lm -> log_mono lm ->
  exact_params lm P ->
  cell_ok metric c1 -> cell_ok metric c2 -> cell_ok metric c3 ->
  pts111 lm metric P (leaves c1) (leaves c2) (leaves c3) ->
  d1sq == dsq metric c2 c3 -> d2sq == dsq metric c1 c3 ->
  d3sq == dsq metric c1 c2 ->
  d2sq <= d1sq -> d3sq <= d2sq ->
  call_stop111 lm P d1sq d2sq d3sq (getSize c1) (getSize c2) (getSize c3)
    = (false, d2) ->
  let sp := decide_split lm P d1sq d2sq d3sq d2
                         (getSize c1) (getSize c2) (getSize c3) in
  split sp = false ->
  commit111 chk lm metric P self c1 c2 c3
            (sp_d1 sp) d2 (sp_d3 sp) (sp_u sp) (sp_v sp) = Ok t ->
  Forall lossless t.
Proof.
  intros Hm Hl Hlog HP K1 K2 K3 Ht E1 E2 E3 O12 O23 Hstop sp Hsp H.
  pose proof (call_stop111_d2 _ _ _ _ _ _ _ _ _ Hstop) as Ed2.
  destruct (decide_split_nosplit lm P d1sq d2sq d3sq d2
              (getSize c1) (getSize c2) (getSize c3) Hsp)
    as (F1 & F3 & Fu & Fv).
  fold sp in F1, F3, Fu, Fv.
  pose proof Hl as ((Hpos & Hmono) & _).
  assert (N3 : 0 <= d3sq).
  { rewrite E3. apply dsq_nonneg, Hm. }
  destruct (exact_nosplit_sizes lm P d1sq d2sq d3sq d2 _ _ _
              (conj Hpos Hmono) HP (cell_ok_size _ _ K1) (cell_ok_size _ _ K2)
              (cell_ok_size _ _ K3) N3 O23 Ed2 Hsp) as (Z1 & Z2 & Z3).
  destruct (cell_ok_point metric c1 K1 Z1) as [L1 _].
  destruct (cell_ok_point metric c2 K2 Z2) as [L2 _].
  destruct (cell_ok_point metric c3 K3 Z3) as [L3 _].
  assert (Hs : sorted_of d1sq d2sq d3sq (dsq metric c2 c3) (dsq metric c1 c3)
                         (dsq metric c1 c2)).
  { split; [exact O12|]. split; [exact O23|]. exists p123. cbn. auto. }
  pose proof (Ht c1 c2 c3 ltac:(rewrite L1; left; reflexivity)
                 ltac:(rewrite L2; left; reflexivity)
                 ltac:(rewrite L3; left; reflexivity) _ _ _ Hs) as Hok.
  apply sides_ok_props in Hok.
  destruct Hok as (D3 & R1 & R2 & U1 & U2 & V1 & V2).
  pose proof HP as (HD & Hcov & _).
  pose proof Hcov as (Hmin & _).
  pose proof (Hmono _ _ O12) as M12. pose proof (Hmono _ _ O23) as M23.
  rewrite <- Ed2 in *.
  pose proof (commit111_bins_ok chk lm metric P self c1 c2 c3
                (sp_d1 sp) d2 (sp_d3 sp) (sp_u sp) (sp_v sp) HD Hcov Hlog
                R1 R2) as B.
  rewrite Fu, Fv, F1, F3 in B.
  specialize (B U1 U2 V1 V2). cbv zeta in B.
  destruct B as (_ & _ & _ & _ & _ & B).
  rewrite Fu, Fv, F1, F3 in H. rewrite B in H.
  - inversion H; subst. constructor; [|constructor]. unfold lossless. cbn.
    reflexivity.
  - right. repeat split.
    + lra.
    + exact D3.
    + apply Qlt_shift_div_l; lra.
    + apply Qle_shift_div_l; lra.
Qed.

(** ** The triple recursion gives up nothing *)

Lemma dists111_known metric c1 c2 c3 d1sq d2sq d3sq e1 e2 e3 :
  known_dist metric c2 c3 d1sq -> known_dist metric c1 c3 d2sq ->
  known_dist metric c1 c2 d3sq ->
  dists111 metric c1 c2 c3 d1sq d2sq d3sq = (e1, e2, e3) ->
  e1 == dsq metric c2 c3 /\ e2 == dsq metric c1 c3 /\
  e3 == dsq metric c1 c2.
Proof.
  unfold dists111, known_dist, dsq. intros H1 H2 H3 H. inversion H; subst.
  repeat split;
    match goal with |- (if ?c then _ else _) == _ => destruct c eqn:E end;
    dbl_hyps; try reflexivity; tauto.
Qed.

Ltac tri_perm Hm H :=
  first [ exact H
        | exact (tri_inv_perm _ _ _ p132 _ _ _ Hm H)
        | exact (tri_inv_perm _ _ _ p213 _ _ _ Hm H)
        | exact (tri_inv_perm _ _ _ p231 _ _ _ Hm H)
        | exact (tri_inv_perm _ _ _ p312 _ _ _ Hm H)
        | exact (tri_inv_perm _ _ _ p321 _ _ _ Hm H) ].

Lemma pts111_perm lm metric P (s : Perm3) l1 l2 l3 :
  metric_euclid metric ->
  pts111 lm metric P l1 l2 l3 ->
  let '(m1, m2, m3) := pick s l1 l2 l3 in pts111 lm metric P m1 m2 m3.
Proof.
  intros Hm H. destruct s; cbn [pick]; intros x y z Ix Iy Iz.
  all: first [ pose proof (H _ _ _ Ix Iy Iz) as K
             | pose proof (H _ _ _ Ix Iz Iy) as K
             | pose proof (H _ _ _ Iy Ix Iz) as K
             | pose proof (H _ _ _ Iy Iz Ix) as K
             | pose proof (H _ _ _ Iz Ix Iy) as K
             | pose proof (H _ _ _ Iz Iy Ix) as K ];
    tri_perm Hm K.
Qed.

Lemma pts111_incl lm metric P l1 l2 l3 m1 m2 m3 :
  incl m1 l1 -> incl m2 l2 -> incl m3 l3 ->
  pts111 lm metric P l1 l2 l3 -> pts111 lm metric P m1 m2 m3.
Proof.
  intros I1 I2 I3 H x y z Ix Iy Iz.
  apply H; [apply I1 | apply I2 | apply I3]; assumption.
Qed.

(** [sort111] keeps what the recursion relies on. *)
Lemma sort111_kept lm metric (params : Acc -> BaseCorr3) (Own : Acc -> Prop)
      A c1 c2 c3 d1sq d2sq d3sq :
  metric_euclid metric ->
  cell_ok metric c1 -> cell_ok metric c2 -> cell_ok metric c3 ->
  (forall a, Own a ->
             pts111 lm metric (params a) (leaves c1) (leaves c2) (leaves c3)) ->
  d1sq == dsq metric c2 c3 -> d2sq == dsq metric c1 c3 ->
  d3sq == dsq metric c1 c2 ->
  let so := sort111 A c1 c2 c3 d1sq d2sq d3sq in
  cell_ok metric (so_c1 so) /\ cell_ok metric (so_c2 so) /\
  cell_ok metric (so_c3 so) /\
  (forall a, Own a ->
             pts111 lm metric (params a) (leaves (so_c1 so))
                    (leaves (so_c2 so)) (leaves (so_c3 so))) /\
  so_d1sq so == dsq metric (so_c2 so) (so_c3 so) /\
  so_d2sq so == dsq metric (so_c1 so) (so_c3 so) /\
  so_d3sq so == dsq metric (so_c1 so) (so_c2 so).
Proof.
  intros Hm K1 K2 K3 Ht E1 E2 E3 so.
  pose proof (dsq_sym metric c1 c2 Hm) as S12.
  pose proof (dsq_sym metric c1 c3 Hm) as S13.
  pose proof (dsq_sym metric c2 c3 Hm) as S23.
  assert (Hp : forall s a, Own a ->
             let '(m1, m2, m3) := pick s (leaves c1) (leaves c2) (leaves c3) in
             pts111 lm metric (params a) m1 m2 m3).
  { intros s a Ha. apply pts111_perm; [exact Hm | exact (Ht a Ha)]. }
  unfold so, sort111.
  destruct (d1sq >? d2sq), (d2sq >? d3sq), (d1sq >? d3sq);
    cbn [so_c1 so_c2 so_c3 so_d1sq so_d2sq so_d3sq];
    (split; [assumption|]); (split; [assumption|]); (split; [assumption|]);
    (split; [|split; [lra | split; lra]]); intros a Ha.
  all: first [ exact (Hp p123 a Ha) | exact (Hp p132 a Ha)
             | exact (Hp p213 a Ha) | exact (Hp p231 a Ha)
             | exact (Hp p312 a Ha) | exact (Hp p321 a Ha) ].
Qed.

Ltac rec_kept_tac :=
  unfold rec_args_kept, eff1, descend1, is_child;
  repeat match goal with H : ?b = _ |- context [?b] => rewrite H end;
  cbn [orb andb negb]; intuition auto.

Lemma split_calls_kept chk (rec : Proc111) A c1 c2 c3 d1sq d2sq d3sq sp
      (Q : Event -> Prop) t :
  (forall x1 x2 x3 e1 e2 e3 t',
      rec_args_kept sp c1 c2 c3 d1sq d2sq d3sq x1 x2 x3 e1 e2 e3 ->
      rec A x1 x2 x3 e1 e2 e3 = Ok t' -> Forall Q t') ->
  split_calls chk rec A c1 c2 c3 d1sq d2sq d3sq sp = Ok t ->
  Forall Q t.
Proof.
  intros Hrec. unfold split_calls.
  destruct (split3 sp) eqn:E3, (split2 sp) eqn:E2, (split1 sp) eqn:E1;
    intros H; deref_inv H; seq_inv H; subst;
    repeat (apply Forall_app; split);
    (eapply Hrec; [|eassumption]); rec_kept_tac.
Qed.

Section NoLoss.
Variables (chk : bool) (lm : Libm) (metric : MetricHelper)
          (params : Acc -> BaseCorr3).
Variable Own : Acc -> Prop.
Hypothesis Hm : metric_euclid metric.
Hypothesis Hl : sqrt_sound lm.
Hypothesis Hlog : log_mono lm.
Hypothesis HOwn : forall a, Own a -> exact_params lm (params a).

Lemma known_of_kept c1 c2 x1 x2 d e :
  d == dsq metric c1 c2 ->
  e = 0 \/ (e = d /\ x1 = c1 /\ x2 = c2) ->
  known_dist metric x1 x2 e.
Proof.
  intros Hd [-> | (-> & -> & ->)]; [left; reflexivity | right; exact Hd].
Qed.

Lemma process111_fuel_lossless fuel : forall A c1 c2 c3 d1sq d2sq d3sq t,
  Forall Own (sibs_list A) ->
  cell_ok metric c1 -> cell_ok metric c2 -> cell_ok metric c3 ->
  (forall a, Own a ->
             pts111 lm metric (params a) (leaves c1) (leaves c2) (leaves c3)) ->
  known_dist metric c2 c3 d1sq -> known_dist metric c1 c3 d2sq ->
  known_dist metric c1 c2 d3sq ->
  process111_fuel fuel chk lm metric params A c1 c2 c3 d1sq d2sq d3sq = Ok t ->
  Forall lossless t.
Proof.
  induction fuel as [|fuel IH];
    intros A c1 c2 c3 d1sq d2sq d3sq t HA K1 K2 K3 Ht G1 G2 G3 H;
    [discriminate|].
  cbn [process111_fuel] in H.
  pose proof (cell_ok_W metric c1 K1) as W1.
  pose proof (cell_ok_W metric c2 K2) as W2.
  pose proof (cell_ok_W metric c3 K3) as W3.
  destruct (cellW c1 =? 0) eqn:T1; [dbl_hyps; contradiction|].
  destruct (cellW c2 =? 0) eqn:T2; [dbl_hyps; contradiction|].
  destruct (cellW c3 =? 0) eqn:T3; [dbl_hyps; contradiction|].
  destruct (dists111 _ _ _ _ _ _ _) as [[e1 e2] e3] eqn:Ed.
  destruct (dists111_known _ _ _ _ _ _ _ _ _ _ G1 G2 G3 Ed) as (D1 & D2 & D3).
  pose proof (sort111_kept lm metric params Own A c1 c2 c3 e1 e2 e3
                Hm K1 K2 K3 Ht D1 D2 D3) as HS.
  pose proof (sort111_sorted A c1 c2 c3 e1 e2 e3) as HO.
  pose proof (sort111_sibs Own A c1 c2 c3 e1 e2 e3 HA) as HB.
  cbv zeta in HS, HO.
  set (so := sort111 A c1 c2 c3 e1 e2 e3) in *.
  destruct HS as (L1 & L2 & L3 & Lt & F1 & F2 & F3).
  destruct HO as [O12 O23].
  assert (Hself : Own (a123 (so_sibs so))).
  { unfold sibs_list in HB. inversion HB; assumption. }
  pose proof (HOwn _ Hself) as HP.
  unfold process111Sorted in H. apply Assert_Ok in H.
  pose proof (no_stop lm metric _ _ _ _ _ _ _ Hm Hl HP L1 L2 L3
                (Lt _ Hself) F1 F2 F3 O12 O23) as Hns.
  destruct (call_stop111 _ _ _ _ _ _ _ _) as [stop d2] eqn:Est.
  cbn [fst] in Hns. subst stop.
  destruct (split _) eqn:Esp.
  - apply Assert_Ok in H.
    eapply split_calls_kept; [|exact H].
    intros x1 x2 x3 f1 f2 f3 t' (R1 & R2 & R3 & Q1 & Q2 & Q3) Hr.
    destruct (cell_ok_descend metric _ _ _ L1 R1) as [X1 I1].
    destruct (cell_ok_descend metric _ _ _ L2 R2) as [X2 I2].
    destruct (cell_ok_descend metric _ _ _ L3 R3) as [X3 I3].
    refine (IH _ _ _ _ _ _ _ _ HB X1 X2 X3 _ _ _ _ Hr).
    + intros a Ha. exact (pts111_incl _ _ _ _ _ _ _ _ _ I1 I2 I3 (Lt a Ha)).
    + exact (known_of_kept _ _ _ _ _ _ F1 Q1).
    + exact (known_of_kept _ _ _ _ _ _ F2 Q2).
    + exact (known_of_kept _ _ _ _ _ _ F3 Q3).
  - exact (commit_of_points chk lm metric _ _ _ _ _ _ _ _ _ _ Hm Hl Hlog HP
             L1 L2 L3 (Lt _ Hself) F1 F2 F3 O12 O23 Est Esp H).
Qed.
End NoLoss.

(** ** process12 and process3 give up nothing *)

Lemma pair2_one n : n == 1 -> pair2 n == 0.
Proof. intros H. unfold pair2. rewrite H. reflexivity. Qed.

Lemma tri3_one n : n == 1 -> tri3 n == 0.
Proof. intros H. unfold tri3. rewrite H. reflexivity. Qed.

Lemma tri3_two n : n == 2 -> tri3 n == 0.
Proof. intros H. unfold tri3. rewrite H. reflexivity. Qed.

(** The tests of process12 on a pair of cells that holds a triangle with
    one point in the first cell and two in the second. *)
Lemma process12_sound lm metric P c1 c2 :
  metric_euclid metric -> sqrt_sound lm -> exact_params lm P ->
  cell_ok metric c1 -> cell_ok metric c2 -> ~ getSize c2 == 0 ->
  pts12 lm metric P (leaves c1) (leaves c2) ->
  let s1 := getSize c1 in
  let s2 := getSize c2 in
  let d := DistSq metric (cellPos c1) (cellPos c2) s1 s2 in
  ~ s2 < _halfmind3 P /\
  ~ (d < _minsepsq P /\ s1 + s2 < _minsep P /\
     d < SQR (_minsep P - (s1 + s2))) /\
  ~ (_maxsepsq P <= d /\ SQR (_maxsep P + (s1 + s2)) <= d) /\
  ~ (SQR (s1 + s2) < d /\
     SQR (2 * s2 + _minu P * (s1 + s2)) < _minusq P * d).
Proof.
  intros Hm Hl HP K1 K2 Hs Ht s1 s2 d.
  destruct (cell_ok_internal metric c2 K2 Hs)
    as (l & r & _ & _ & Ev & Kl & Kr & _).
  destruct (leaves_nonempty c1) as [x Ix].
  destruct (leaves_nonempty l) as [y Iy].
  destruct (leaves_nonempty r) as [z Iz].
  assert (Iy2 : In y (leaves c2)) by (rewrite Ev; apply in_or_app; auto).
  assert (Iz2 : In z (leaves c2)) by (rewrite Ev; apply in_or_app; auto).
  assert (Ip : In (y, z) (pairs_of (leaves c2)))
    by (rewrite Ev; apply pairs_of_cross; assumption).
  pose proof (tri_inv_squares lm metric P x y z Hm Hl HP (Ht x y z Ix Ip))
    as (M0 & M1 & _ & _ & N3 & _ & _ & F3 & _).
  pose proof (cell_ok_radius metric c1 K1) as R1.
  pose proof (cell_ok_radius metric c2 K2) as R2.
  rewrite Forall_forall in R1, R2.
  pose proof (R1 x Ix) as Rx. pose proof (R2 y Iy2) as Ry.
  pose proof (R2 z Iz2) as Rz.
  pose proof (cell_ok_size metric c1 K1) as S1.
  pose proof (cell_ok_size metric c2 K2) as S2.
  fold s1 in Rx, S1. fold s2 in Ry, Rz, S2.
  assert (Ed : d == dsq metric c1 c2).
  { unfold d, dsq. destruct Hm as (E & _). apply E. }
  pose proof HP as (HD & _ & _ & _ & Hu & _).
  destruct (derived_squares lm P HD)
    as (Q1 & Q2 & Q3 & _ & _ & _ & _ & _ & _ & _ & Q11).
  rewrite Q1 in N3. rewrite Q2 in F3. rewrite Q1, Q2, Q3. rewrite Q11.
  unfold SQR.
  split; [|split; [|split]].
  - assert (Z : (1#2) * _minsep P * _minu P == 0) by (rewrite Hu; ring).
    rewrite Z. lra.
  - intros (A1 & A2 & A3). apply N3.
    assert (Hc : dsq metric c1 c2
                 < (_minsep P - s1 - s2) * (_minsep P - s1 - s2)) by lra.
    split.
    + exact (dsq_near metric x c1 z c2 s1 s2 _ Hm S1 S2 A2 Rx Rz Hc).
    + exact (dsq_near metric x c1 y c2 s1 s2 _ Hm S1 S2 A2 Rx Ry Hc).
  - intros (A1 & A2). apply F3.
    assert (Hc : (_maxsep P + s1 + s2) * (_maxsep P + s1 + s2)
                 <= dsq metric c1 c2) by lra.
    split.
    + exact (dsq_far metric x c1 z c2 s1 s2 (_maxsep P) Hm S1 S2 ltac:(lra) Rx Rz Hc).
    + exact (dsq_far metric x c1 y c2 s1 s2 (_maxsep P) Hm S1 S2 ltac:(lra) Rx Ry Hc).
  - intros (_ & A2).
    assert (Z : _minu P * _minu P * d == 0) by (rewrite Hu; ring).
    rewrite Z in A2.
    assert (Hsq : forall q : Q, 0 <= q * q)
      by (intros q; destruct (Qlt_le_dec q 0); nra).
    pose proof (Hsq (2 * s2 + _minu P * (s1 + s2))). lra.
Qed.

(** A cell that process3 leaves aside for its size holds no triangle. *)
Lemma process3_small lm metric P c :
  metric_euclid metric -> sqrt_sound lm -> exact_params lm P ->
  cell_ok metric c -> pts3 lm metric P (leaves c) ->
  getSize c < _halfminsep P ->
  nQ c == 1 \/ nQ c == 2.
Proof.
  intros Hm Hl HP K Ht Hs.
  pose proof HP as (HD & _).
  destruct (derived_squares lm P HD)
    as (Q1 & _ & _ & _ & _ & _ & _ & _ & _ & Q10 & _).
  rewrite Q10 in Hs.
  pose proof (cell_ok_size metric c K) as S0.
  pose proof (cell_ok_radius metric c K) as R. rewrite Forall_forall in R.
  assert (Hno : forall x y z, In (x, y, z) (triples_of (leaves c)) ->
                              In x (leaves c) -> In y (leaves c) ->
                              In z (leaves c) -> False).
  { intros x y z It Ix Iy Iz.
    pose proof (tri_inv_squares lm metric P x y z Hm Hl HP (Ht x y z It))
      as (_ & _ & N1 & _).
    rewrite Q1 in N1. apply N1.
    pose proof (dsq_within metric y z c _ Hm S0 (R y Iy) (R z Iz)).
    pose proof (dsq_within metric x z c _ Hm S0 (R x Ix) (R z Iz)).
    split; nra. }
  destruct (Qeq_dec (getSize c) 0) as [Z | Z];
    [left; exact (proj2 (cell_ok_point metric c K Z))|].
  destruct (cell_ok_internal metric c K Z)
    as (l & r & _ & _ & Ev & Kl & Kr & Hn).
  destruct (Qeq_dec (getSize l) 0) as [Zl | Zl].
  - destruct (Qeq_dec (getSize r) 0) as [Zr | Zr].
    + right. rewrite Hn, (proj2 (cell_ok_point metric l Kl Zl)),
        (proj2 (cell_ok_point metric r Kr Zr)). reflexivity.
    + exfalso.
      destruct (cell_ok_internal metric r Kr Zr)
        as (rl & rr & _ & _ & Er & _).
      destruct (leaves_nonempty l) as [x Ix].
      destruct (leaves_nonempty rl) as [y Iy].
      destruct (leaves_nonempty rr) as [z Iz].
      assert (Iy2 : In y (leaves r)) by (rewrite Er; apply in_or_app; auto).
      assert (Iz2 : In z (leaves r)) by (rewrite Er; apply in_or_app; auto).
      apply (Hno x y z); rewrite Ev.
      * apply triples_of_app. right; right; left. split; [exact Ix|].
        rewrite Er. apply pairs_of_cross; assumption.
      * apply in_or_app; auto.
      * apply in_or_app; auto.
      * apply in_or_app; auto.
  - exfalso.
    destruct (cell_ok_internal metric l Kl Zl)
      as (ll & lr & _ & _ & El & _).
    destruct (leaves_nonempty ll) as [x Ix].
    destruct (leaves_nonempty lr) as [y Iy].
    destruct (leaves_nonempty r) as [z Iz].
    assert (Ix2 : In x (leaves l)) by (rewrite El; apply in_or_app; auto).
    assert (Iy2 : In y (leaves l)) by (rewrite El; apply in_or_app; auto).
    apply (Hno x y z); rewrite Ev.
    * apply triples_of_app. right; right; right. split; [|exact Iz].
      rewrite El. apply pairs_of_cross; assumption.
    * apply in_or_app; auto.
    * apply in_or_app; auto.
    * apply in_or_app; auto.
Qed.

Lemma pts12_cross lm metric P l0 l1 l2 :
  pts12 lm metric P l0 (l1 ++ l2) ->
  pts12 lm metric P l0 l1 /\ pts12 lm metric P l0 l2 /\
  pts111 lm metric P l0 l1 l2.
Proof.
  intros H. split; [|split].
  - intros x y z Ix Ip. apply H; [exact Ix|]. apply pairs_of_app. auto.
  - intros x y z Ix Ip. apply H; [exact Ix|]. apply pairs_of_app. auto.
  - intros x y z Ix Iy Iz. apply H; [exact Ix|].
    apply pairs_of_cross; assumption.
Qed.

Lemma pts3_cross lm metric P l1 l2 :
  metric_euclid metric ->
  pts3 lm metric P (l1 ++ l2) ->
  pts3 lm metric P l1 /\ pts3 lm metric P l2 /\
  pts12 lm metric P l1 l2 /\ pts12 lm metric P l2 l1.
Proof.
  intros Hm H. split; [|split; [|split]].
  - intros x y z It. apply H, triples_of_app. auto.
  - intros x y z It. apply H, triples_of_app. auto.
  - intros x y z Ix Ip. apply H, triples_of_app. auto.
  - intros x y z Ix Ip.
    assert (K : tri_inv lm metric P y z x).
    { apply H, triples_of_app. right; right; right. auto. }
    tri_perm Hm K.
Qed.

Section NoLoss12.
Variables (chk : bool) (lm : Libm) (metric : MetricHelper)
          (params : Acc -> BaseCorr3).
Variable Own : Acc -> Prop.
Hypothesis Hm : metric_euclid metric.
Hypothesis Hl : sqrt_sound lm.
Hypothesis Hlog : log_mono lm.
Hypothesis HOwn : forall a, Own a -> exact_params lm (params a).

Lemma process12_lossless : forall c2 self bc212 bc221 c1 t,
  Own self -> Own bc212 -> Own bc221 ->
  cell_ok metric c1 -> cell_ok metric c2 ->
  (forall a, Own a -> pts12 lm metric (params a) (leaves c1) (leaves c2)) ->
  process12 chk lm metric params self bc212 bc221 c1 c2 = Ok t ->
  Forall lossless t.
Proof.
  induction c2 as [d s l r IHl IHr] using Cell_children_ind.
  intros self bc212 bc221 c1 t O1 O2 O3 K1 K2 Ht H.
  cbn [process12] in H.
  pose proof (cell_ok_W metric c1 K1) as W1.
  pose proof (cell_ok_W metric _ K2) as W2.
  destruct (cellW c1 =? 0) eqn:T1; [dbl_hyps; contradiction|].
  destruct (cellW _ =? 0) eqn:T2 in H; [dbl_hyps; contradiction|].
  destruct (getSize _ =? 0) eqn:T3 in H.
  { dbl_hyps. inversion H; subst. constructor; [|constructor].
    unfold lossless. cbn [lost].
    rewrite (pair2_one _ (proj2 (cell_ok_point metric _ K2 T3))). ring. }
  dbl_hyps.
  pose proof (process12_sound lm metric _ c1 _ Hm Hl (HOwn _ O1) K1 K2 T3
                (Ht _ O1)) as (N1 & N2 & N3 & N4).
  cbv zeta in N1, N2, N3, N4.
  destruct (_ <? _) eqn:T4 in H; [dbl_hyps; contradiction|].
  destruct (_ && _) eqn:T5 in H;
    [dbl_hyps; exfalso; apply N2; repeat split; assumption|].
  destruct (_ && _) eqn:T6 in H;
    [dbl_hyps; exfalso; apply N3; repeat split; assumption|].
  destruct (_ && _) eqn:T7 in H;
    [dbl_hyps; exfalso; apply N4; repeat split; assumption|].
  destruct l as [x|]; [|destruct chk; discriminate].
  destruct r as [y|]; [|destruct chk; discriminate].
  destruct (cell_ok_internal metric _ K2 T3)
    as (x' & y' & Ex & Ey & Ev & Kx & Ky & _).
  cbn [getLeft getRight] in Ex, Ey. inversion Ex; inversion Ey; subst x' y'.
  assert (Hc : forall a, Own a ->
               pts12 lm metric (params a) (leaves c1) (leaves x) /\
               pts12 lm metric (params a) (leaves c1) (leaves y) /\
               pts111 lm metric (params a) (leaves c1) (leaves x) (leaves y)).
  { intros a Ha. apply pts12_cross. rewrite <- Ev. exact (Ht a Ha). }
  seq_inv H. subst.
  repeat (apply Forall_app; split).
  - refine (IHl x eq_refl _ _ _ _ _ O1 O2 O3 K1 Kx _ Hr).
    intros a Ha. apply (Hc a Ha).
  - refine (IHr y eq_refl _ _ _ _ _ O1 O2 O3 K1 Ky _ Hr1).
    intros a Ha. apply (Hc a Ha).
  - unfold process111 in Hr2.
    refine (process111_fuel_lossless chk lm metric params Own Hm Hl Hlog HOwn
              _ _ _ _ _ _ _ _ _ _ K1 Kx Ky _ _ _ _ Hr2).
    + unfold sibs_list. cbn. repeat constructor; assumption.
    + intros a Ha. apply (Hc a Ha).
    + left; reflexivity.
    + left; reflexivity.
    + left; reflexivity.
Qed.

Lemma process3_lossless : forall c1 self t,
  Own self -> cell_ok metric c1 ->
  (forall a, Own a -> pts3 lm metric (params a) (leaves c1)) ->
  process3 chk lm metric params self c1 = Ok t ->
  Forall lossless t.
Proof.
  induction c1 as [d s l r IHl IHr] using Cell_children_ind.
  intros self t O1 K1 Ht H.
  cbn [process3] in H.
  pose proof (cell_ok_W metric _ K1) as W1.
  destruct (cellW _ =? 0) eqn:T1 in H; [dbl_hyps; contradiction|].
  destruct (_ <? _) eqn:T2 in H.
  { dbl_hyps. inversion H; subst. constructor; [|constructor].
    unfold lossless. cbn [lost].
    destruct (process3_small lm metric _ _ Hm Hl (HOwn _ O1) K1 (Ht _ O1) T2)
      as [E | E]; [apply tri3_one | apply tri3_two]; exact E. }
  destruct l as [x|]; [|destruct chk; discriminate].
  destruct r as [y|]; [|destruct chk; discriminate].
  destruct (cell_ok_cases metric _ K1)
    as [(_ & _ & _ & El & _) | (_ & x' & y' & Ex & Ey & Ev & Kx & Ky & _)];
    [discriminate|].
  cbn [getLeft getRight] in Ex, Ey. inversion Ex; inversion Ey; subst x' y'.
  assert (Hc : forall a, Own a ->
               pts3 lm metric (params a) (leaves x) /\
               pts3 lm metric (params a) (leaves y) /\
               pts12 lm metric (params a) (leaves x) (leaves y) /\
               pts12 lm metric (params a) (leaves y) (leaves x)).
  { intros a Ha. apply pts3_cross; [exact Hm|]. rewrite <- Ev.
    exact (Ht a Ha). }
  seq_inv H. subst.
  repeat (apply Forall_app; split).
  - refine (IHl x eq_refl _ _ O1 Kx _ Hr). intros a Ha. apply (Hc a Ha).
  - refine (IHr y eq_refl _ _ O1 Ky _ Hr1). intros a Ha. apply (Hc a Ha).
  - refine (process12_lossless _ _ _ _ _ _ O1 O1 O1 Kx Ky _ Hr0).
    intros a Ha. apply (Hc a Ha).
  - refine (process12_lossless _ _ _ _ _ _ O1 O1 O1 Ky Kx _ Hr3).
    intros a Ha. apply (Hc a Ha).
Qed.
End NoLoss12.

(** ** The loops of the entry points *)

Lemma pts12_incl lm metric P l1 l2 m1 :
  incl m1 l1 -> pts12 lm metric P l1 l2 -> pts12 lm metric P m1 l2.
Proof. intros I1 H x y z Ix Ip. apply H; [apply I1|]; assumption. Qed.

Lemma pts3_skip lm metric P l1 l2 l3 :
  pts3 lm metric P (l1 ++ l2 ++ l3) -> pts3 lm metric P (l1 ++ l3).
Proof.
  intros H x y z It. apply H. apply triples_of_app in It.
  apply triples_of_app.
  destruct It as [It | [It | [[Ix Ip] | [Ip Iz]]]].
  - left. exact It.
  - right; left. apply triples_of_app. right; left. exact It.
  - right; right; left. split; [exact Ix|]. apply pairs_of_app. auto.
  - right; right; right. split; [exact Ip|]. apply in_or_app. auto.
Qed.

Section NoLossLoops.
Variables (chk : bool) (lm : Libm) (metric : MetricHelper)
          (params : Acc -> BaseCorr3).
Variable Own : Acc -> Prop.
Hypothesis Hm : metric_euclid metric.
Hypothesis Hl : sqrt_sound lm.
Hypothesis Hlog : log_mono lm.
Hypothesis HOwn : forall a, Own a -> exact_params lm (params a).

Lemma loop111_lossless A c1 c2 cs : forall t,
  Forall Own (sibs_list A) ->
  cell_ok metric c1 -> cell_ok metric c2 -> Forall (cell_ok metric) cs ->
  (forall a, Own a ->
             pts111 lm metric (params a) (leaves c1) (leaves c2)
                    (field_points cs)) ->
  loop111 chk lm metric params A c1 c2 cs = Ok t ->
  Forall lossless t.
Proof.
  induction cs as [|c3 cs IH]; intros t HA K1 K2 Ks Ht H; cbn [loop111] in H.
  - inversion H. constructor.
  - inversion Ks as [|? ? K3 Ks']; subst. seq_inv H. subst.
    unfold field_points in Ht. cbn [flat_map] in Ht.
    fold (field_points cs) in Ht.
    apply Forall_app; split.
    + unfold process111 in Hr.
      refine (process111_fuel_lossless chk lm metric params Own Hm Hl Hlog
                HOwn _ _ _ _ _ _ _ _ _ HA K1 K2 K3 _ _ _ _ Hr);
        try (left; reflexivity).
      intros a Ha.
      refine (pts111_incl _ _ _ _ _ _ _ _ _ _ _ _ (Ht a Ha));
        [apply incl_refl | apply incl_refl | apply incl_appl, incl_refl].
    + apply IH; try assumption. intros a Ha.
      refine (pts111_incl _ _ _ _ _ _ _ _ _ _ _ _ (Ht a Ha));
        [apply incl_refl | apply incl_refl | apply incl_appr, incl_refl].
Qed.

Lemma auto_j_lossless bc3 c1 cs : forall t,
  Own bc3 -> cell_ok metric c1 -> Forall (cell_ok metric) cs ->
  (forall a, Own a ->
             pts3 lm metric (params a) (leaves c1 ++ field_points cs)) ->
  auto_j chk lm metric params bc3 c1 cs = Ok t ->
  Forall lossless t.
Proof.
  induction cs as [|c2 cs IH]; intros t O1 K1 Ks Ht H; cbn [auto_j] in H.
  - inversion H. constructor.
  - inversion Ks as [|? ? K2 Ks']; subst. seq_inv H. subst.
    unfold field_points in Ht. cbn [flat_map] in Ht.
    fold (field_points cs) in Ht.
    assert (Hc : forall a, Own a ->
                 pts12 lm metric (params a) (leaves c1) (leaves c2) /\
                 pts12 lm metric (params a) (leaves c2) (leaves c1) /\
                 pts111 lm metric (params a) (leaves c1) (leaves c2)
                        (field_points cs) /\
                 pts3 lm metric (params a) (leaves c1 ++ field_points cs)).
    { intros a Ha.
      destruct (pts3_cross _ _ _ _ _ Hm (Ht a Ha)) as (_ & _ & P12 & P21).
      destruct (pts12_cross _ _ _ _ _ _ P12) as (Q1 & _ & Q3).
      split; [exact Q1|]. split.
      - exact (pts12_incl _ _ _ _ _ _ (incl_appl _ (incl_refl _)) P21).
      - split; [exact Q3|]. exact (pts3_skip _ _ _ _ _ _ (Ht a Ha)). }
    repeat (apply Forall_app; split).
    + refine (process12_lossless chk lm metric params Own Hm Hl Hlog HOwn
                _ _ _ _ _ _ O1 O1 O1 K1 K2 _ Hr).
      intros a Ha. apply (Hc a Ha).
    + refine (process12_lossless chk lm metric params Own Hm Hl Hlog HOwn
                _ _ _ _ _ _ O1 O1 O1 K2 K1 _ Hr1).
      intros a Ha. apply (Hc a Ha).
    + refine (loop111_lossless _ _ _ _ _ _ K1 K2 Ks' _ Hr0).
      * unfold sibs_list. cbn. repeat constructor; assumption.
      * intros a Ha. apply (Hc a Ha).
    + apply IH; try assumption. intros a Ha. apply (Hc a Ha).
Qed.

Lemma auto_i_lossless bc3 cs : forall t,
  Own bc3 -> Forall (cell_ok metric) cs ->
  (forall a, Own a -> pts3 lm metric (params a) (field_points cs)) ->
  auto_i chk lm metric params bc3 cs = Ok t ->
  Forall lossless t.
Proof.
  induction cs as [|c1 cs IH]; intros t O1 Ks Ht H; cbn [auto_i] in H.
  - inversion H. constructor.
  - inversion Ks as [|? ? K1 Ks']; subst. seq_inv H. subst.
    unfold field_points in Ht. cbn [flat_map] in Ht.
    fold (field_points cs) in Ht.
    repeat (apply Forall_app; split).
    + refine (process3_lossless chk lm metric params Own Hm Hl Hlog HOwn
                _ _ _ O1 K1 _ Hr).
      intros a Ha. apply (pts3_cross _ _ _ _ _ Hm (Ht a Ha)).
    + exact (auto_j_lossless _ _ _ _ O1 K1 Ks' Ht Hr1).
    + apply IH; try assumption.
      intros a Ha. apply (pts3_cross _ _ _ _ _ Hm (Ht a Ha)).
Qed.

Lemma cross12_j_lossless a b c c1 cs : forall t,
  Own a -> Own b -> Own c ->
  cell_ok metric c1 -> Forall (cell_ok metric) cs ->
  (forall a, Own a ->
             pts12 lm metric (params a) (leaves c1) (field_points cs)) ->
  cross12_j chk lm metric params a b c c1 cs = Ok t ->
  Forall lossless t.
Proof.
  induction cs as [|c2 cs IH]; intros t O1 O2 O3 K1 Ks Ht H;
    cbn [cross12_j] in H.
  - inversion H. constructor.
  - inversion Ks as [|? ? K2 Ks']; subst. seq_inv H. subst.
    unfold field_points in Ht. cbn [flat_map] in Ht.
    fold (field_points cs) in Ht.
    repeat (apply Forall_app; split).
    + refine (process12_lossless chk lm metric params Own Hm Hl Hlog HOwn
                _ _ _ _ _ _ O1 O2 O3 K1 K2 _ Hr).
      intros a0 Ha. apply (pts12_cross _ _ _ _ _ _ (Ht a0 Ha)).
    + refine (loop111_lossless _ _ _ _ _ _ K1 K2 Ks' _ Hr1).
      * unfold sibs_list. cbn. repeat constructor; assumption.
      * intros a0 Ha. apply (pts12_cross _ _ _ _ _ _ (Ht a0 Ha)).
    + apply IH; try assumption.
      intros a0 Ha. apply (pts12_cross _ _ _ _ _ _ (Ht a0 Ha)).
Qed.

Lemma cross12_i_lossless a b c f1 f2 : forall t,
  Own a -> Own b -> Own c ->
  Forall (cell_ok metric) f1 -> Forall (cell_ok metric) f2 ->
  (forall a, Own a ->
             pts12 lm metric (params a) (field_points f1) (field_points f2)) ->
  cross12_i chk lm metric params a b c f1 f2 = Ok t ->
  Forall lossless t.
Proof.
  induction f1 as [|c1 f1 IH]; intros t O1 O2 O3 K1 K2 Ht H;
    cbn [cross12_i] in H.
  - inversion H. constructor.
  - inversion K1 as [|? ? Kc K1']; subst. seq_inv H. subst.
    unfold field_points in Ht. cbn [flat_map] in Ht.
    fold (field_points f1) in Ht. fold (field_points f2) in Ht.
    apply Forall_app; split.
    + refine (cross12_j_lossless _ _ _ _ _ _ O1 O2 O3 Kc K2 _ Hr).
      intros a0 Ha.
      exact (pts12_incl _ _ _ _ _ _ (incl_appl _ (incl_refl _)) (Ht a0 Ha)).
    + apply IH; try assumption. intros a0 Ha.
      exact (pts12_incl _ _ _ _ _ _ (incl_appr _ (incl_refl _)) (Ht a0 Ha)).
Qed.

Lemma cross_j_lossless A c1 f2 f3 : forall t,
  Forall Own (sibs_list A) ->
  cell_ok metric c1 -> Forall (cell_ok metric) f2 ->
  Forall (cell_ok metric) f3 ->
  (forall a, Own a ->
             pts111 lm metric (params a) (leaves c1) (field_points f2)
                    (field_points f3)) ->
  cross_j chk lm metric params A c1 f2 f3 = Ok t ->
  Forall lossless t.
Proof.
  induction f2 as [|c2 f2 IH]; intros t HA K1 K2 K3 Ht H; cbn [cross_j] in H.
  - inversion H. constructor.
  - inversion K2 as [|? ? Kc K2']; subst. seq_inv H. subst.
    unfold field_points in Ht. cbn [flat_map] in Ht.
    fold (field_points f2) in Ht. fold (field_points f3) in Ht.
    apply Forall_app; split.
    + refine (loop111_lossless _ _ _ _ _ HA K1 Kc K3 _ Hr).
      intros a Ha.
      refine (pts111_incl _ _ _ _ _ _ _ _ _ _ _ _ (Ht a Ha));
        [apply incl_refl | apply incl_appl, incl_refl | apply incl_refl].
    + apply IH; try assumption. intros a Ha.
      refine (pts111_incl _ _ _ _ _ _ _ _ _ _ _ _ (Ht a Ha));
        [apply incl_refl | apply incl_appr, incl_refl | apply incl_refl].
Qed.

Lemma cross_i_lossless A f1 f2 f3 : forall t,
  Forall Own (sibs_list A) ->
  Forall (cell_ok metric) f1 -> Forall (cell_ok metric) f2 ->
  Forall (cell_ok metric) f3 ->
  (forall a, Own a ->
             pts111 lm metric (params a) (field_points f1) (field_points f2)
                    (field_points f3)) ->
  cross_i chk lm metric params A f1 f2 f3 = Ok t ->
  Forall lossless t.
Proof.
  induction f1 as [|c1 f1 IH]; intros t HA K1 K2 K3 Ht H; cbn [cross_i] in H.
  - inversion H. constructor.
  - inversion K1 as [|? ? Kc K1']; subst. seq_inv H. subst.
    unfold field_points in Ht. cbn [flat_map] in Ht.
    fold (field_points f1) in Ht. fold (field_points f2) in Ht.
    fold (field_points f3) in Ht.
    apply Forall_app; split.
    + refine (cross_j_lossless _ _ _ _ _ HA Kc K2 K3 _ Hr).
      intros a Ha.
      refine (pts111_incl _ _ _ _ _ _ _ _ _ _ _ _ (Ht a Ha));
        [apply incl_appl, incl_refl | apply incl_refl | apply incl_refl].
    + apply IH; try assumption. intros a Ha.
      refine (pts111_incl _ _ _ _ _ _ _ _ _ _ _ _ (Ht a Ha));
        [apply incl_appr, incl_refl | apply incl_refl | apply incl_refl].
Qed.
End NoLossLoops.

(** ** The entry points *)

Lemma entry_pts lm metric P e :
  sqrt_sound lm -> entry_triangles_ok lm metric P e = true ->
  match e with
  | Auto _ field => pts3 lm metric P (field_points field)
  | Cross12 _ _ _ field1 field2 =>
      pts12 lm metric P (field_points field1) (field_points field2)
  | Cross111 _ _ _ _ _ _ field1 field2 field3 =>
      pts111 lm metric P (field_points field1) (field_points field2)
             (field_points field3)
  end.
Proof.
  intros Hl H. unfold entry_triangles_ok in H. rewrite forallb_forall in H.
  destruct e; cbn [entry_point_triples] in H.
  - intros x y z It. apply (triangle_ok_inv _ _ _ _ _ _ Hl), H, It.
  - intros x y z Ix Ip. apply (triangle_ok_inv _ _ _ _ _ _ Hl), H.
    apply one_two_In. auto.
  - intros x y z Ix Iy Iz. apply (triangle_ok_inv _ _ _ _ _ _ Hl), H.
    apply one_two_In. split; [exact Ix|]. apply in_prod; assumption.
Qed.

Lemma entry_lossless chk lm metric params e t :
  metric_euclid metric -> sqrt_sound lm -> log_mono lm ->
  Forall (Forall (cell_ok metric)) (entry_fields e) ->
  (forall a, In a (entry_accs e) ->
             exact_params lm (params a) /\
             entry_triangles_ok lm metric (params a) e = true) ->
  traverse chk lm metric params (entry_call e) = Ok t ->
  Forall lossless t.
Proof.
  intros Hm Hl Hlog Hf Ha H.
  assert (HOwn : forall a, In a (entry_accs e) -> exact_params lm (params a))
    by (intros a Hi; apply (Ha a Hi)).
  assert (Hp : forall a, In a (entry_accs e) ->
                         entry_triangles_ok lm metric (params a) e = true)
    by (intros a Hi; apply (Ha a Hi)).
  destruct e; cbn [entry_call traverse entry_fields] in *; forall_inv.
  - refine (auto_i_lossless chk lm metric params _ Hm Hl Hlog HOwn _ _ _ _ _ _ H);
      [left; reflexivity | assumption |].
    intros a Hi. exact (entry_pts _ _ _ _ Hl (Hp a Hi)).
  - refine (cross12_i_lossless chk lm metric params _ Hm Hl Hlog HOwn
              _ _ _ _ _ _ _ _ _ _ _ _ H);
      try assumption;
      [left; reflexivity | right; left; reflexivity
      | right; right; left; reflexivity |].
    intros a Hi. exact (entry_pts _ _ _ _ Hl (Hp a Hi)).
  - refine (cross_i_lossless chk lm metric params _ Hm Hl Hlog HOwn
              _ _ _ _ _ _ _ _ _ _ H);
      try assumption.
    + apply Forall_forall. intros a Hi. exact Hi.
    + intros a Hi. exact (entry_pts _ _ _ _ Hl (Hp a Hi)).
Qed.

Lemma exact_params_coords lm C P :
  exact_params lm P -> exact_params lm (set_coords C P).
Proof.
  intros (HD & HB & H). split; [exact (derived_ok_coords lm C P HD)|].
  split; [exact HB | exact H].
Qed.

Lemma entry_triangles_coords lm metric C P e :
  entry_triangles_ok lm metric (set_coords C P) e
  = entry_triangles_ok lm metric P e.
Proof. reflexivity. Qed.

Lemma cell_ok_entry metric e :
  Forall (Forall (cell_ok metric)) (entry_fields e) -> entry_counts_ok e.
Proof.
  assert (K : forall f, Forall (cell_ok metric) f -> Forall counts_ok f).
  { intros f. apply Forall_impl. intros c. apply cell_ok_counts. }
  destruct e; cbn [entry_fields entry_counts_ok]; intros H; forall_inv;
    repeat split; apply K; assumption.
Qed.


(** ** The model used to run the statements *)

Lemma flat_dot a b c d A B :
  0 <= A -> 0 <= B -> a * a + b * b <= A * A -> c * c + d * d <= B * B ->
  a * c + b * d <= A * B.
Proof.
  intros HA HB H1 H2.
  assert (Hsq : forall z : Q, 0 <= z * z)
    by (intros z; destruct (Qlt_le_dec z 0); nra).
  pose proof (Hsq a) as Sa. pose proof (Hsq b) as Sb.
  pose proof (Hsq c) as Sc. pose proof (Hsq d) as Sd.
  pose proof (Hsq (a * d - b * c)) as Sx.
  assert (C1 : (a * c + b * d) * (a * c + b * d)
               <= (a * a + b * b) * (c * c + d * d)) by nra.
  assert (C2 : 0 <= (A * A - (a * a + b * b)) * (c * c + d * d))
    by (apply Qmult_le_0_compat; lra).
  assert (C3 : 0 <= (A * A) * (B * B - (c * c + d * d)))
    by (apply Qmult_le_0_compat; lra).
  destruct (Qlt_le_dec (A * B) (a * c + b * d)) as [L | L]; [exfalso|exact L].
  assert (C4 : 0 <= A * B) by (apply Qmult_le_0_compat; assumption).
  assert (C5 : 0 < (a * c + b * d - A * B) * (a * c + b * d + A * B))
    by (apply Qmult_lt_0_compat; lra).
  nra.
Qed.

Lemma flat_metric_euclid : metric_euclid flat_metric.
Proof.
  unfold metric_euclid. cbn [DistSq flat_metric]. unfold flat_DistSq, SQR.
  assert (Hsq : forall z : Q, 0 <= z * z)
    by (intros z; destruct (Qlt_le_dec z 0); nra).
  split; [intros; reflexivity|].
  split; [intros; ring|].
  split; [intros; ring|].
  split; [intros p q; pose proof (Hsq (px p - px q));
          pose proof (Hsq (py p - py q)); lra|].
  assert (E : forall p q r,
             (px p - px r) * (px p - px r) + (py p - py r) * (py p - py r)
             == ((px p - px q) * (px p - px q) + (py p - py q) * (py p - py q))
                + ((px q - px r) * (px q - px r)
                   + (py q - py r) * (py q - py r))
                + 2 * ((px p - px q) * (px q - px r)
                       + (py p - py q) * (py q - py r)))
    by (intros; ring).
  split; intros p q r A B HA HB H1 H2; rewrite (E p q r).
  - pose proof (flat_dot _ _ _ _ A B HA HB H1 H2). nra.
  - pose proof (flat_dot _ _ _ _ A B HA HB ltac:(apply Qlt_le_weak; exact H1)
                  H2). nra.
Qed.

Lemma dyadic_sqrt_sound : sqrt_sound test_libm.
Proof.
  split; [exact dyadic_sqrt_ok|]. cbn [m_sqrt test_libm]. unfold dyadic_sqrt.
  split.
  - intros x y H. rewrite H. reflexivity.
  - intros x Hx.
    set (n := Qfloor (x * inject_Z (2 ^ 40))).
    assert (H40 : 0 < inject_Z (2 ^ 40)) by reflexivity.
    assert (E40 : inject_Z (2 ^ 40) == inject_Z (2 ^ 20) * inject_Z (2 ^ 20))
      by reflexivity.
    assert (Hn : (0 <= n)%Z).
    { change 0%Z with (Qfloor 0). apply Qfloor_resp_le.
      apply Qmult_le_0_compat; [exact Hx | apply Qlt_le_weak; exact H40]. }
    pose proof (Z.sqrt_spec n Hn) as [Hk _].
    assert (K1 : inject_Z (Z.sqrt n) * inject_Z (Z.sqrt n) <= inject_Z n).
    { rewrite <- inject_Z_mult, <- Zle_Qle. exact Hk. }
    pose proof (Qfloor_le (x * inject_Z (2 ^ 40))) as K2. fold n in K2.
    assert (E : inject_Z (Z.sqrt n) / inject_Z (2 ^ 20)
                * (inject_Z (Z.sqrt n) / inject_Z (2 ^ 20))
                == inject_Z (Z.sqrt n) * inject_Z (Z.sqrt n)
                   / inject_Z (2 ^ 40)).
    { rewrite E40. field. intros K; discriminate K. }
    rewrite E. apply Qle_shift_div_r; [exact H40|]. lra.
Qed.

Lemma P_exact_ok : exact_params test_libm P_exact.
Proof.
  split; [vm_compute; reflexivity|].
  split; [by_run|]. by_run.
Qed.

Lemma field_k_ok : Forall (cell_ok flat_metric) field_k.
Proof.
  repeat constructor; by_run.
Qed.


(** The six points of [field_k] make 20 triangles, all of them counted. *)
Lemma field_k_counted :
  entry_triples (Auto 0%nat field_k) == 20 /\ total_ntri st_k == 20.
Proof. split; vm_compute; reflexivity. Qed.

(** The cross-111 input [ptA], [ptB], [thin] is one of well-formed trees,
    its accumulators have the derived fields of the constructor, bins that
    cover their ranges and the full ranges of u and v, and its two
    triangles of points are in range: the binning tolerance
    b = bu = 1/10 alone makes it give up the two triangles. *)
Lemma given_up_by_tolerance_alone :
  let e := Cross111 0%nat 1%nat 2%nat 3%nat 4%nat 5%nat [ptA] [ptB] [thin] in
  Forall (Forall (cell_ok flat_metric)) (entry_fields e) /\
  forall a, In a (entry_accs e) ->
            let P := base (get st_six a) in
            derived_ok test_libm P /\ bins_cover test_libm P /\
            _minu P == 0 /\ 1 <= _maxu P /\ _minv P == 0 /\ 1 <= _maxv P /\
            _maxsep P <= m_sqrt test_libm (_maxsepsq P) /\
            entry_triangles_ok test_libm flat_metric P e = true /\
            _b P == 1 # 10 /\ _bu P == 1 # 10.
Proof.
  cbv zeta. split.
  - repeat constructor; by_run.
  - intros a Ha. cbn [entry_accs entry_call call_accs sibs_list a123 a132 a213
                      a231 a312 a321 In] in Ha.
    repeat (destruct Ha as [<- | Ha]; [split; [vm_compute; reflexivity|];
                                       split; by_run|]).
    destruct Ha.
Qed.

(** Why the ranges of u and v are the full ones.  The test of stop111 on
    maxv compares the squared side d1^2 with the square of
    (1 + maxv) d2 + ..., the commit compares (d1 - d2) / d3, computed from
    the rounded square roots, with maxv.  For maxv = 1/3 and the three
    points of [field_q] (no cell to split, b = bu = bv = 0) the triangle
    has u = 1 and v = 1 / (3 + 2^-20) < maxv as the commit would compute
    them, and stop111 stops it: the auto entry point adds 0 instead
    of 1. *)
Lemma range_boundary_given_up :
  let e := Auto 0%nat field_q in
  Forall (cell_ok flat_metric) field_q /\
  derived_ok test_libm P_third /\ bins_cover test_libm P_third /\
  _b P_third == 0 /\ _bu P_third == 0 /\ _bv P_third == 0 /\
  entry_triangles_ok test_libm flat_metric P_third e = true /\
  entry_triples e == 1 /\
  In (Ret111 R_stop111 0%nat q1 q3 q2)
     (from_ok [] (entry_trace false test_libm flat_metric 1 e st_third)) /\
  match run_entry false test_libm flat_metric no_projection 1 e st_third with
  | Ok st => total_ntri st == 0
  | Fail _ => False
  end.
Proof.
  cbv zeta.
  split; [repeat constructor; by_run|].
  split; [vm_compute; reflexivity|].
  split; [by_run|].
  split; [vm_compute; reflexivity|].
  split; [vm_compute; reflexivity|].
  split; [vm_compute; reflexivity|].
  split; [vm_compute; reflexivity|].
  split; [vm_compute; reflexivity|].
  split; [vm_compute; repeat (first [left; reflexivity | right])|].
  vm_compute. reflexivity.
Qed.

(** The nesting of process111 is not bounded by the depth of the trees.
    The cells [k1], [k2], [k3] have height 2 (a cell over two points), and
    process111 on them splits one cell at a time (the largest one first): a
    nesting of 3 calls is not enough, a nesting of 4 is, and gives the 8
    commits of the 8 triples of points. *)
Lemma nesting_exceeds_tree_depth :
  height k1 = 2%nat /\ height k2 = 2%nat /\ height k3 = 2%nat /\
  process111_fuel 3 false test_libm flat_metric (fun _ => P_exact)
                  (mkSibs 0 0 0 0 0 0)%nat k1 k2 k3 0 0 0 = Fail OutOfFuel /\
  exists t,
    process111_fuel 4 false test_libm flat_metric (fun _ => P_exact)
                    (mkSibs 0 0 0 0 0 0)%nat k1 k2 k3 0 0 0 = Ok t /\
    length (filter is_commit t) = 8%nat /\ length t = 8%nat.
Proof.
  split; [reflexivity|]. split; [reflexivity|]. split; [reflexivity|].
  split; [vm_compute; reflexivity|].
  eexists. split; [vm_compute; reflexivity|].
  split; reflexivity.
Qed.
